(** * Word statistics and co-occurrence graphs of [visualization_modules/text_viz.py]

    A shallow embedding of the helper functions, the tokenizer, the
    aggregator [generate_data], the three value rescalers and the three
    graph builders of [text_viz.py], followed by the properties the
    specification states about them.  [get_all_words] and the chart table
    of [gen_chart_data] are embedded as well, with further properties of
    all these functions at the end.  The functions that build plotly
    figures are not part of the embedding.

    Conventions of the embedding.
    - A Python [str] is the list of its Unicode code points ([pystr]).
    - A Python [dict] is an insertion-ordered association list with unique
      keys ([dict V]); [KeyError], [ValueError] and [ZeroDivisionError] are
      the [None] of an [option] result.
    - Python [int] is [Z].  A Python [float] is a binary64 number: the
      operations on floats are the exact operations on rationals followed
      by rounding to nearest, ties to even, with overflow to an infinity;
      the numbers handed to the rescalers are [int]s or [float]s ([pynum]),
      and [OverflowError] is a [None] like the other exceptions.
    - A [networkx.Graph] is its two dictionaries [_node] and [_adj].
    - A pandas table is the list of its rows. *)

From Stdlib Require Import String Ascii.
From Stdlib Require Import List ZArith NArith QArith Qround Qpower Bool Lia Lqa.
From Stdlib Require Import Permutation.
Import ListNotations.

Local Open Scope Z_scope.

(* ================================================================== *)
(** ** Errors: a small option monad *)
(* ================================================================== *)

Definition bind {A B : Type} (c : option A) (k : A -> option B) : option B :=
  match c with
  | Some a => k a
  | None => None
  end.

Notation "x <- c ;; k" := (bind c (fun x => k))
  (at level 61, c at next level, right associativity).

(** A [for] loop whose body may raise: the state is threaded through the
    elements of [l], the first error aborts the loop. *)
Fixpoint foldM {A S : Type} (f : S -> A -> option S) (l : list A) (s : S)
  : option S :=
  match l with
  | [] => Some s
  | x :: r => s' <- f s x ;; foldM f r s'
  end.

(** A list comprehension / append loop whose element computation may raise. *)
Fixpoint mapM {A B : Type} (f : A -> option B) (l : list A) : option (list B) :=
  match l with
  | [] => Some []
  | x :: r => y <- f x ;; ys <- mapM f r ;; Some (y :: ys)
  end.

(* ================================================================== *)
(** ** Python strings *)
(* ================================================================== *)

Definition pystr := list N.

(** The code points of an ASCII literal. *)
Definition str (s : string) : pystr := List.map N_of_ascii (list_ascii_of_string s).

Fixpoint str_eqb (a b : pystr) : bool :=
  match a, b with
  | [], [] => true
  | x :: a', y :: b' => N.eqb x y && str_eqb a' b'
  | _, _ => false
  end.

(** [x in l] for a list [l] of strings. *)
Definition str_in (x : pystr) (l : list pystr) : bool := existsb (str_eqb x) l.

(** [str.isspace] on one code point: the white space [str.split()] cuts at. *)
Definition isspace (c : N) : bool :=
  ((9 <=? c) && (c <=? 13) || (28 <=? c) && (c <=? 32)
   || (c =? 133) || (c =? 160) || (c =? 5760)
   || (8192 <=? c) && (c <=? 8202)
   || (c =? 8232) || (c =? 8233) || (c =? 8239) || (c =? 8287)
   || (c =? 12288))%N.

(** [text.split()]: maximal runs of non-space code points; [cur] is the run
    being read. *)
Fixpoint split_from (cur : pystr) (s : pystr) : list pystr :=
  match s with
  | [] => match cur with [] => [] | _ => [cur] end
  | c :: r =>
      if isspace c
      then match cur with
           | [] => split_from [] r
           | _ => cur :: split_from [] r
           end
      else split_from (cur ++ [c]) r
  end.

Definition split (s : pystr) : list pystr := split_from [] s.

(** [text.split(sep)] for a one-character separator: cuts at every
    occurrence, empty pieces included. *)
Fixpoint split_sep (sep : N) (s : pystr) : list pystr :=
  match s with
  | [] => [[]]
  | c :: r =>
      if N.eqb c sep then [] :: split_sep sep r
      else match split_sep sep r with
           | w :: ws => (c :: w) :: ws
           | [] => [[c]]
           end
  end.

(** [text.replace(old, new)] for one-character [old] and [new]. *)
Definition replace (old new : N) (text : pystr) : pystr :=
  List.map (fun c => if N.eqb c old then new else c) text.

(** [str.lower] restricted to ASCII text: A-Z go to a-z, everything else is
    kept.  On text without code points above 127 this is [str.lower]. *)
Definition ascii_lower (s : pystr) : pystr :=
  List.map (fun c => if ((65 <=? c) && (c <=? 90))%N then (c + 32)%N else c) s.

(* ================================================================== *)
(** ** Python dictionaries, keyed by strings *)
(* ================================================================== *)

Module Dict.

Definition dict (V : Type) := list (pystr * V).

Definition keys {V} (d : dict V) : list pystr := List.map fst d.
Definition values {V} (d : dict V) : list V := List.map snd d.

(** [d[k]], [None] for [KeyError]. *)
Fixpoint get {V} (k : pystr) (d : dict V) : option V :=
  match d with
  | [] => None
  | (k', v) :: r => if str_eqb k k' then Some v else get k r
  end.

(** [k in d] *)
Definition mem {V} (k : pystr) (d : dict V) : bool :=
  match get k d with Some _ => true | None => false end.

(** [d[k] = v]: an existing key keeps its place, a new one goes last. *)
Fixpoint set {V} (k : pystr) (v : V) (d : dict V) : dict V :=
  match d with
  | [] => [(k, v)]
  | (k', v') :: r =>
      if str_eqb k k' then (k', v) :: r else (k', v') :: set k v r
  end.

(** [del d[k]] once [k in d] is known. *)
Definition del {V} (k : pystr) (d : dict V) : dict V :=
  List.filter (fun p => negb (str_eqb k (fst p))) d.

(** Unique keys: what makes an association list a dictionary. *)
Definition wf {V} (d : dict V) : Prop := NoDup (keys d).

Fixpoint nodupb (l : list pystr) : bool :=
  match l with
  | [] => true
  | x :: r => negb (str_in x r) && nodupb r
  end.

Definition wfb {V} (d : dict V) : bool := nodupb (keys d).

End Dict.

Import Dict.

(* ================================================================== *)
(** ** Helper functions *)
(* ================================================================== *)

(** [sorted(tuple_list, key=lambda x: x[1], reverse=True)]: Python's sort is
    stable, also with [reverse=True]; it is modelled by the stable insertion
    sort on the second component, largest first. *)
Fixpoint insert_desc {A : Type} (x : A * Z) (l : list (A * Z)) : list (A * Z) :=
  match l with
  | [] => [x]
  | y :: r => if snd x <? snd y then y :: insert_desc x r else x :: y :: r
  end.

Definition _sort_tuples {A : Type} (tuple_list : list (A * Z)) : list (A * Z) :=
  fold_right insert_desc [] tuple_list.

(** [l[:k]], also for a negative [k], which counts from the end. *)
Definition slice_to {A : Type} (k : Z) (l : list A) : list A :=
  if 0 <=? k then firstn (Z.to_nat k) l
  else firstn (length l - Z.to_nat (- k)) l.

(** [_make_same_keys]: the values of [non_filtered_dict] under the keys of
    [filtered_dict]. *)
Definition _make_same_keys {V W : Type} (filtered_dict : dict V)
    (non_filtered_dict : dict W) : option (dict W) :=
  foldM (fun return_dict key =>
           val <- get key non_filtered_dict ;;
           Some (set key val return_dict))
        (keys filtered_dict) [].

(** [_filter_dict]; [upper_thresh = None] is the default [inf]. *)
Definition _filter_dict (dictionary : dict Z) (lower_thresh : Z)
    (upper_thresh : option Z) : dict Z :=
  fold_left (fun filtered_dict kv =>
               let '(key, val) := kv in
               if (lower_thresh <=? val)
                  && match upper_thresh with
                     | Some u => val <=? u
                     | None => true
                     end
               then set key val filtered_dict
               else filtered_dict)
            dictionary [].

(** [a // b] on integers. *)
Definition floordiv (a b : Z) : option Z :=
  if b =? 0 then None else Some (a / b).

(* ================================================================== *)
(** ** Python numbers *)
(* ================================================================== *)

(** A Python [float] is an IEEE 754 binary64 number.  A finite one is kept
    as the rational number it denotes, so [Finite q] stands for a float only
    when [q] is a binary64 number; the results of the operations below are.
    The sign of a zero is not kept: [==], [<], [max], [min] and [math.ceil]
    do not see it and a division by either zero raises. *)
Inductive float := Finite (q : Q) | Infinity (negative : bool) | NaN.

(** The binary exponent of a positive rational: [2^(mag q - 1) <= q < 2^(mag q)]. *)
Definition mag (q : Q) : Z :=
  if Qle_bool 1 q then Z.log2 (Qfloor q) + 1
  else 1 - Z.log2_up (Qceiling (/ q)).

(** The nearest integer, a tie going to the even one. *)
Definition rne (q : Q) : Z :=
  let f := Qfloor q in
  match (q - inject_Z f ?= 1 # 2)%Q with
  | Lt => f
  | Gt => f + 1
  | Eq => if Z.even f then f else f + 1
  end.

(** The nearest multiple of the unit in the last place of a positive [q]:
    53 significant bits, the smallest unit being [2^-1074]. *)
Definition round_pos (q : Q) : Q :=
  let e := Z.max (mag q - 53) (-1074) in
  (inject_Z (rne (q / 2 ^ e)) * 2 ^ e)%Q.

(** Rounding to nearest, ties to even; a result of magnitude [2^1024] or
    more is an infinity. *)
Definition round64 (q : Q) : float :=
  match (q ?= 0)%Q with
  | Eq => Finite 0
  | Gt => let r := round_pos q in
          if Qle_bool (2 ^ 1024) r then Infinity false else Finite (Qred r)
  | Lt => let r := round_pos (- q) in
          if Qle_bool (2 ^ 1024) r then Infinity true else Finite (Qred (- r))
  end.

Definition Qltb (a b : Q) : bool := negb (Qle_bool b a).

Definition Qneg (q : Q) : bool := Qltb q 0.

Definition fneg (x : float) : float :=
  match x with
  | Finite q => Finite (- q)
  | Infinity s => Infinity (negb s)
  | NaN => NaN
  end.

(** The four operations: the exact result, rounded.  They never raise. *)
Definition fadd (x y : float) : float :=
  match x, y with
  | NaN, _ | _, NaN => NaN
  | Infinity a, Infinity b => if Bool.eqb a b then x else NaN
  | Infinity _, _ => x
  | _, Infinity _ => y
  | Finite a, Finite b => round64 (a + b)
  end.

Definition fsub (x y : float) : float := fadd x (fneg y).

Definition fmul (x y : float) : float :=
  match x, y with
  | NaN, _ | _, NaN => NaN
  | Infinity a, Infinity b => Infinity (xorb a b)
  | Infinity a, Finite q | Finite q, Infinity a =>
      if Qeq_bool q 0 then NaN else Infinity (xorb a (Qneg q))
  | Finite a, Finite b => round64 (a * b)
  end.

(** The divisor is not a zero: Python raises before dividing. *)
Definition fdiv (x y : float) : float :=
  match x, y with
  | NaN, _ | _, NaN => NaN
  | Infinity _, Infinity _ => NaN
  | Infinity a, Finite q => Infinity (xorb a (Qneg q))
  | Finite _, Infinity _ => Finite 0
  | Finite a, Finite b => round64 (a / b)
  end.

Definition float_lt (x y : float) : bool :=
  match x, y with
  | NaN, _ | _, NaN => false
  | Infinity true, Infinity true => false
  | Infinity true, _ => true
  | _, Infinity true => false
  | Infinity false, _ => false
  | _, Infinity false => true
  | Finite a, Finite b => Qltb a b
  end.

Definition float_is_zero (x : float) : bool :=
  match x with
  | Finite q => Qeq_bool q 0
  | _ => false
  end.

(** The numbers handed to the rescalers: [int] or [float]. *)
Inductive pynum := PyInt (z : Z) | PyFloat (f : float).

(** The conversion of an operand to [float] in mixed arithmetic:
    [OverflowError] for an [int] that rounds to [2^1024] or more. *)
Definition to_float (n : pynum) : option float :=
  match n with
  | PyInt z => match round64 (inject_Z z) with
               | Finite q => Some (Finite q)
               | _ => None
               end
  | PyFloat f => Some f
  end.

(** [a + b], [a - b], [a * b]: exact on two [int]s, in binary64 as soon as an
    operand is a [float]. *)
Definition arith (op_int : Z -> Z -> Z) (op_float : float -> float -> float)
    (a b : pynum) : option pynum :=
  match a, b with
  | PyInt x, PyInt y => Some (PyInt (op_int x y))
  | _, _ => x <- to_float a ;; y <- to_float b ;; Some (PyFloat (op_float x y))
  end.

Definition num_add : pynum -> pynum -> option pynum := arith Z.add fadd.
Definition num_sub : pynum -> pynum -> option pynum := arith Z.sub fsub.
Definition num_mul : pynum -> pynum -> option pynum := arith Z.mul fmul.

(** [a / b].  Two [int]s give the correctly rounded quotient
    ([OverflowError] when it is too large for a [float]); a zero divisor
    raises [ZeroDivisionError]. *)
Definition num_truediv (a b : pynum) : option pynum :=
  match a, b with
  | PyInt x, PyInt y =>
      if y =? 0 then None
      else match round64 (inject_Z x / inject_Z y) with
           | Finite q => Some (PyFloat (Finite q))
           | _ => None
           end
  | _, _ => x <- to_float a ;; y <- to_float b ;;
            if float_is_zero y then None else Some (PyFloat (fdiv x y))
  end.

(** [a < b]: an [int] and a [float] are compared by their exact values. *)
Definition num_lt (a b : pynum) : bool :=
  match a, b with
  | PyInt x, PyInt y => x <? y
  | PyInt x, PyFloat g => float_lt (Finite (inject_Z x)) g
  | PyFloat f, PyInt y => float_lt f (Finite (inject_Z y))
  | PyFloat f, PyFloat g => float_lt f g
  end.

(** [a == 0]. *)
Definition num_is_zero (a : pynum) : bool :=
  match a with
  | PyInt x => x =? 0
  | PyFloat f => float_is_zero f
  end.

(** [math.ceil]: an [int] is its own ceiling; [OverflowError] on an
    infinity, [ValueError] on a NaN. *)
Definition ceil (a : pynum) : option Z :=
  match a with
  | PyInt x => Some x
  | PyFloat (Finite q) => Some (Qceiling q)
  | PyFloat _ => None
  end.

(** [max(l)] and [min(l)]: the first largest (smallest) element, found with
    [item > largest] ([item < smallest]); [ValueError] on an empty list. *)
Definition py_max (l : list pynum) : option pynum :=
  match l with
  | [] => None
  | x :: r => Some (fold_left (fun m y => if num_lt m y then y else m) r x)
  end.

Definition py_min (l : list pynum) : option pynum :=
  match l with
  | [] => None
  | x :: r => Some (fold_left (fun m y => if num_lt y m then y else m) r x)
  end.

(* ================================================================== *)
(** ** The rescalers *)
(* ================================================================== *)

Definition _get_remaining_perc (val : pynum) : option pynum :=
  num_sub (PyInt 100) val.

Definition _color_scaling (val new_min new_max old_min old_max : pynum)
  : option pynum :=
  val <- _get_remaining_perc val ;;
  old_range <- num_sub old_max old_min ;;
  new_range <- num_sub new_max new_min ;;
  d <- num_sub val old_min ;;
  p <- num_mul d new_range ;;
  q <- num_truediv p old_range ;;
  num_add q new_min.

(** [_color_scaling(z)] is called with the defaults 15, 60, 0, 100. *)
Definition scale_word_dict (word_dict : dict pynum) : option (dict pynum) :=
  min_val <- py_min (values word_dict) ;;
  max_val <- py_max (values word_dict) ;;
  foldM (fun scaled_dict kv =>
           let '(key, val) := kv in
           a <- num_sub val min_val ;;
           b <- num_sub max_val min_val ;;
           q <- num_truediv a b ;;
           z <- num_mul q (PyInt 100) ;;
           c <- _color_scaling z (PyInt 15) (PyInt 60) (PyInt 0) (PyInt 100) ;;
           Some (set key c scaled_dict))
        word_dict [].

Definition _cal_percentile (number_list : list pynum) (percentile : pynum)
  : option pynum :=
  m <- py_max number_list ;; num_mul m percentile.

(** The literals 0.25, 0.50 and 0.75 are binary64 numbers. *)
Definition quarter : pynum := PyFloat (Finite (1 # 4)).
Definition half : pynum := PyFloat (Finite (1 # 2)).
Definition three_quarters : pynum := PyFloat (Finite (3 # 4)).

(** The defaults of the four levels are 2, 4, 6 and 8. *)
Definition rescale_to_percentiles (number_list : list pynum)
    (lowest median second_highest highest : Z) : option (list Z) :=
  lowest_25 <- _cal_percentile number_list quarter ;;
  lowest_50 <- _cal_percentile number_list half ;;
  lowest_75 <- _cal_percentile number_list three_quarters ;;
  Some (List.map (fun val =>
                    if num_lt val lowest_25 then lowest
                    else if num_lt lowest_25 val && num_lt val lowest_50 then median
                    else if num_lt lowest_50 val && num_lt val lowest_75
                         then second_highest
                    else highest)
                 number_list).

(** The parameters come in the order of the source: [new_max] before
    [new_min].  Every caller passes integer bounds by keyword. *)
Definition rescale_to_range (number_list : list pynum) (new_max new_min : Z)
  : option (list Z) :=
  mx <- py_max number_list ;;
  mn <- py_min number_list ;;
  old_range <- num_sub mx mn ;;
  let new_range := PyInt (new_max - new_min) in
  mapM (fun val =>
          z_val <- (if num_is_zero old_range then Some (PyInt new_min)
                    else mn' <- py_min number_list ;;
                         d <- num_sub val mn' ;;
                         p <- num_mul d new_range ;;
                         q <- num_truediv p old_range ;;
                         num_add q (PyInt new_min)) ;;
          ceil z_val)
       number_list.

(* ================================================================== *)
(** ** networkx graphs *)
(* ================================================================== *)

(** [_node] maps a node to its attribute dictionary, [_adj] maps a node to
    its neighbours and each neighbour to the ["weight"] of the edge.  In
    networkx [_adj[u][v]] and [_adj[v][u]] are one shared dictionary, so a
    write through either is a write to both entries here.  The ["pos"]
    attribute written after [spring_layout] (floating point, randomly
    seeded) is left out. *)
Record Graph := mkGraph { _node : dict (dict Z); _adj : dict (dict Z) }.

Definition edge := (pystr * pystr)%type.

Definition empty_graph : Graph := mkGraph [] [].

Definition edge_eqb (e1 e2 : edge) : bool :=
  str_eqb (fst e1) (fst e2) && str_eqb (snd e1) (snd e2).

Definition edge_in (e : edge) (l : list edge) : bool := existsb (edge_eqb e) l.

(** [d.update(attr)] *)
Definition update {V} (attr d : dict V) : dict V :=
  fold_left (fun acc kv => set (fst kv) (snd kv) acc) attr d.

Definition add_node (n : pystr) (attr : dict Z) (G : Graph) : Graph :=
  match get n (_node G) with
  | None => mkGraph (set n (update attr []) (_node G)) (set n [] (_adj G))
  | Some old => mkGraph (set n (update attr old) (_node G)) (_adj G)
  end.

Definition nbrs_of (u : pystr) (adj : dict (dict Z)) : dict Z :=
  match get u adj with Some nbrs => nbrs | None => [] end.

(** [_adj[u][v] = datadict] *)
Definition put_edge (u v : pystr) (w : Z) (adj : dict (dict Z)) : dict (dict Z) :=
  set u (set v w (nbrs_of u adj)) adj.

Definition has_edge (u v : pystr) (G : Graph) : bool :=
  match get u (_adj G) with
  | Some nbrs => mem v nbrs
  | None => false
  end.

(** [G[u][v]["weight"]] *)
Definition weight (u v : pystr) (G : Graph) : option Z :=
  nbrs <- get u (_adj G) ;; get v nbrs.

(** [if n not in self._node: self._adj[n] = {}; self._node[n] = {}] *)
Definition ensure_node (n : pystr) (G : Graph) : Graph :=
  match get n (_node G) with
  | Some _ => G
  | None => mkGraph (set n [] (_node G)) (set n [] (_adj G))
  end.

(** [G.add_edge(u, v, weight=w)]: missing end points are created with no
    attributes. *)
Definition add_edge (u v : pystr) (w : Z) (G : Graph) : Graph :=
  let G := ensure_node u G in
  let G := ensure_node v G in
  mkGraph (_node G) (put_edge v u w (put_edge u v w (_adj G))).

(** [G[u][v]["weight"] += 1] *)
Definition incr_weight (u v : pystr) (G : Graph) : option Graph :=
  w <- weight u v G ;;
  Some (mkGraph (_node G) (put_edge v u (w + 1) (put_edge u v (w + 1) (_adj G)))).

(** [G.degree()]: a self-loop counts twice. *)
Definition degree_of (n : pystr) (nbrs : dict Z) : Z :=
  Z.of_nat (length nbrs) + (if mem n nbrs then 1 else 0).

Definition degree_view (G : Graph) : list (pystr * Z) :=
  List.map (fun kv => (fst kv, degree_of (fst kv) (snd kv))) (_adj G).

Definition degree (G : Graph) (n : pystr) : option Z := get n (degree_view G).

(** [G.edges()]: every node in turn reports its neighbours except those
    already seen as a node. *)
Fixpoint edges_from (seen : list pystr) (adj : dict (dict Z)) : list edge :=
  match adj with
  | [] => []
  | (n, nbrs) :: rest =>
      List.map (fun nbr => (n, nbr))
               (List.filter (fun nbr => negb (str_in nbr seen)) (keys nbrs))
      ++ edges_from (n :: seen) rest
  end.

Definition edges (G : Graph) : list edge := edges_from [] (_adj G).

Definition remove_edge (G : Graph) (e : edge) : option Graph :=
  let '(u, v) := e in
  match get u (_adj G) with
  | Some nbrs_u =>
      if mem v nbrs_u then
        let adj1 := set u (del v nbrs_u) (_adj G) in
        if str_eqb u v then Some (mkGraph (_node G) adj1)
        else nbrs_v <- get v adj1 ;;
             if mem u nbrs_v
             then Some (mkGraph (_node G) (set v (del u nbrs_v) adj1))
             else None
      else Some G
  | None => Some G
  end.

Definition remove_edges_from (ebunch : list edge) (G : Graph) : option Graph :=
  foldM remove_edge ebunch G.

Definition isolates (G : Graph) : list pystr :=
  List.map fst (List.filter (fun nd => snd nd =? 0) (degree_view G)).

(** [remove_nodes_from] ignores the [KeyError] of an unknown node. *)
Definition remove_node (G : Graph) (n : pystr) : Graph :=
  match get n (_node G), get n (_adj G) with
  | Some _, Some nbrs =>
      let adj1 := fold_left (fun a u => set u (del n (nbrs_of u a)) a)
                            (keys nbrs) (_adj G) in
      mkGraph (del n (_node G)) (del n adj1)
  | Some _, None => mkGraph (del n (_node G)) (_adj G)
  | None, _ => G
  end.

Definition remove_nodes_from (nodes : list pystr) (G : Graph) : Graph :=
  fold_left remove_node nodes G.

(** [l.remove(x)]: drops the first occurrence, [ValueError] if there is none. *)
Fixpoint list_remove (x : pystr) (l : list pystr) : option (list pystr) :=
  match l with
  | [] => None
  | y :: r => if str_eqb y x then Some r
              else r' <- list_remove x r ;; Some (y :: r')
  end.

(* ================================================================== *)
(** ** Record tables *)
(* ================================================================== *)

(** One row of the data frame, with its columns ["År"], ["Titel"],
    ["Beskrivelse"] and ["Bevilliget beløb"]. *)
Record Grant := mkGrant {
  Ar : Z;
  Titel : pystr;
  Beskrivelse : pystr;
  Bevilliget_belob : Z
}.

Definition DataFrame := list Grant.

(** The three dictionaries [(avg_funding, funding, freqs)]. *)
Definition WordStats := (dict Z * dict Z * dict Z)%type.

Definition attr_avg_funding : pystr := str "avg_funding".
Definition attr_funding : pystr := str "funding".
Definition attr_freqs : pystr := str "freqs".
Definition attr_total_deg : pystr := str "total_deg".

(** The keyword arguments of the [add_node] calls of the builders. *)
Definition node_attrs (a f n d : Z) : dict Z :=
  [(attr_avg_funding, a); (attr_funding, f); (attr_freqs, n); (attr_total_deg, d)].

(** A Python [set] of strings holds each element once; [s.add(x)]. *)
Definition set_add (x : pystr) (s : list pystr) : list pystr :=
  if str_in x s then s else s ++ [x].

Definition is_rearrangement (l s : list pystr) : bool :=
  nodupb l && forallb (fun x => str_in x s) l && forallb (fun x => str_in x l) s.

Definition replace_chars : pystr :=
  str "; ,.:;*'_#!?" ++ [180%N] ++ str "-()^".

Definition cust_stop_w : list pystr :=
  [str "-"; [8211%N]; str "samt"; str "b" ++ [229%N] ++ str "de";
   str "r" ++ [230%N] ++ str "kke"; str "hvilket";
   str "findes"; str "give"; [248%N] ++ str "get"; str "ofte"; str "giver"; str "del";
   str "projektet"; str "udviklingen"; str "baseret"; str "studier";
   str "within"; str "1"; str "1600"; str "1660"; str "1978"; str "1865"; str "1895";
   str "19"; str "ranking"; str "academia"; str "novel"; str "new"; str "using";
   str "effects"; str "impact"; str "materials"; str "targeting"; str "early";
   str "function"; str "high"; str "role"; str "using"; str "based"; str "non"; str "no";
   str "s"; str "t"; str "2"; str "effect"; str "basis"; str "next"; str "factors"; str "acute";
   str "making"; str "inge"; str "single"; str "long"; str "higher"].

(** The table [gen_chart_data] returns has the columns ["word"],
    ["freqs"], ["funding"], ["avg_funding"] and ["year"]; the last holds a
    year of the data or the string ["All Years"]. *)
Inductive YearLabel := Year (y : Z) | All_Years.

Definition year_eqb (a b : YearLabel) : bool :=
  match a, b with
  | Year x, Year y => x =? y
  | All_Years, All_Years => true
  | _, _ => false
  end.

Module Chart.
Record Row := mkRow {
  word : pystr;
  freqs : Z;
  funding : Z;
  avg_funding : Z;
  year : YearLabel
}.
End Chart.

(** The three values [sort_col] may have besides [None]. *)
Inductive SortCol := by_freqs | by_funding | by_avg_funding.

Definition column (sort_col : SortCol) (r : Chart.Row) : Z :=
  match sort_col with
  | by_freqs => Chart.freqs r
  | by_funding => Chart.funding r
  | by_avg_funding => Chart.avg_funding r
  end.

(** [years = list(set(df["År"])); years.sort()]: the distinct years in
    ascending order. *)
Fixpoint insert_asc (x : Z) (l : list Z) : list Z :=
  match l with
  | [] => [x]
  | y :: r => if x <=? y then x :: l else y :: insert_asc x r
  end.

Definition sorted_years (col : list Z) : list Z :=
  fold_right insert_asc [] (nodup Z.eq_dec col).

(** A list of positions is an answer of a descending sort of the column
    [col] when it lists every position once and the values at the positions
    never increase. *)
Fixpoint distinct (l : list nat) : bool :=
  match l with
  | [] => true
  | i :: r => negb (existsb (Nat.eqb i) r) && distinct r
  end.

Fixpoint descending (l : list Z) : bool :=
  match l with
  | x :: r => match r with
              | y :: _ => (y <=? x) && descending r
              | [] => true
              end
  | [] => true
  end.

Definition is_sort_order (idx : list nat) (col : list Z) : bool :=
  (length idx =? length col)%nat
  && forallb (fun i => (i <? length col)%nat) idx
  && distinct idx
  && descending (List.map (fun i => nth i col 0) idx).

Definition take_rows {A : Type} (idx : list nat) (rows : list A) : list A :=
  List.flat_map (fun i => match nth_error rows i with
                          | Some r => [r]
                          | None => []
                          end) idx.

Section TextViz.

(** What the process takes from outside the repository: [str.lower] (the
    Unicode case tables), the [STOPWORDS] of the wordcloud package, the
    content of [data/stopord.txt], and the order in which a [set] of
    strings is iterated (hash order), given as a function of the elements
    in insertion order. *)
Variable str_lower : pystr -> pystr.
Variable STOPWORDS : list pystr.
Variable stopord_txt : pystr.
Variable set_iter : list pystr -> list pystr.

(** [list(s)] for a set [s]: the elements in the order [set_iter] gives
    them, which is some rearrangement of the elements. *)
Definition list_of_set (s : list pystr) : list pystr :=
  let l := set_iter s in
  if is_rearrangement l s then l else s.

Definition get_stop_words : list pystr :=
  let danish_stopwords := split_sep 10 stopord_txt in
  STOPWORDS ++ danish_stopwords ++ cust_stop_w.

Definition tokenize_and_stem (text : pystr) : list pystr :=
  let stopwords := get_stop_words in
  let text := fold_left (fun text char => replace char 32 text) replace_chars text in
  let tokens :=
    fold_left (fun tokens token =>
                 let token := str_lower token in
                 if negb (str_in token stopwords) then set_add token tokens
                 else tokens)
              (split text) [] in
  list_of_set tokens.

(** [word_list += tokens] over the titles, then [list(set(word_list))]. *)
Definition get_all_words (df : DataFrame) : list pystr :=
  let word_list :=
    fold_left (fun word_list row => word_list ++ tokenize_and_stem (Titel row)) df [] in
  list_of_set (fold_left (fun s word => set_add word s) word_list []).

(** The body of the inner loop of [generate_data]: one token of a title
    whose grant is [amount]. *)
Definition count_token (amount : Z) (st : dict Z * dict Z) (token : pystr)
  : option (dict Z * dict Z) :=
  let '(freqs, funding) := st in
  if negb (mem token freqs)
  then Some (set token 1 freqs, set token amount funding)
  else n <- get token freqs ;;
       f <- get token funding ;;
       Some (set token (n + 1) freqs, set token (f + amount) funding).

(** The first loop of [generate_data]: [(freqs, funding)] over all rows. *)
Definition count_loop (df : DataFrame) : option (dict Z * dict Z) :=
  foldM (fun st row =>
           let tokens := tokenize_and_stem (Titel row) in
           let amount := Bevilliget_belob row in
           foldM (count_token amount) tokens st)
        df ([], []).

Definition generate_data (df : DataFrame) (funding_thresh_hold : Z)
  : option WordStats :=
  st <- count_loop df ;;
  let '(freqs, funding) := st in
  let funding := _filter_dict funding funding_thresh_hold None in
  freqs <- _make_same_keys funding freqs ;;
  avg_funding <- foldM (fun avg_funding key =>
                          f <- get key funding ;;
                          n <- get key freqs ;;
                          q <- floordiv f n ;;
                          Some (set key q avg_funding))
                       (keys funding) [] ;;
  Some (avg_funding, funding, freqs).

(** [df.sort_values(by=sort_col, ascending=False)].  pandas sorts with
    quicksort, which is not stable: the order of rows with equal values is
    left to the implementation.  [sort_values_order] gives, for the column
    that is sorted, the positions in the order the sort lists them; an answer
    that is not a descending sort of the column is replaced by the stable
    one. *)
Variable sort_values_order : list Z -> list nat.

Definition sort_values (sort_col : SortCol) (df : list Chart.Row) : list Chart.Row :=
  let col := List.map (column sort_col) df in
  let idx := sort_values_order col in
  if is_sort_order idx col then take_rows idx df
  else List.map fst (_sort_tuples (List.map (fun r => (r, column sort_col r)) df)).

(** The [for key in value_dict] loop of [gen_chart_data], which appends one
    row to the five columns of [df_dict] for each word that [words] lets
    through. *)
Definition append_rows (stats : WordStats) (sort_col : option SortCol)
    (words : option (list pystr)) (year : YearLabel) (df_dict : list Chart.Row)
  : option (list Chart.Row) :=
  let '(avg_funding, funding, freqs) := stats in
  let value_dict :=
    match sort_col with
    | Some by_funding => funding
    | Some by_avg_funding => avg_funding
    | _ => freqs
    end in
  foldM (fun df_dict key =>
           if match words with
              | None => true
              | Some words => str_in key words
              end
           then n <- get key freqs ;;
                f <- get key funding ;;
                a <- get key avg_funding ;;
                Some (df_dict ++ [Chart.mkRow key n f a year])
           else Some df_dict)
        (keys value_dict) df_dict.

Definition gen_chart_data (df : DataFrame) (top_n : option Z) (yearly : bool)
    (sort_col : option SortCol) (words : option (list pystr))
  : option (list Chart.Row) :=
  let years := sorted_years (List.map Ar df) in
  let sort_rows temp_df :=
    match sort_col with
    | Some sort_col => sort_values sort_col temp_df
    | None => temp_df
    end in
  let head temp_df :=
    match top_n with
    | Some top_n => slice_to top_n temp_df
    | None => temp_df
    end in
  if yearly then
    chart <- foldM (fun df_dict year =>
                      let temp_df := List.filter (fun row => Ar row =? year) df in
                      stats <- generate_data temp_df 0 ;;
                      append_rows stats sort_col words (Year year) df_dict)
                   years [] ;;
    Some (fold_left (fun sorted_df year =>
                       let temp_df :=
                         List.filter (fun r => year_eqb (Chart.year r) (Year year)) chart in
                       sorted_df ++ head (sort_rows temp_df))
                    years [])
  else
    stats <- generate_data df 0 ;;
    chart <- append_rows stats sort_col words All_Years [] ;;
    Some (head (sort_rows chart)).

(** [G.add_node(tok, avg_funding=..., funding=..., freqs=..., total_deg=0)] *)
Definition add_stat_node (stats : WordStats) (G : Graph) (tok : pystr)
  : option Graph :=
  let '(avg_funding, funding, freqs) := stats in
  a <- get tok avg_funding ;;
  f <- get tok funding ;;
  n <- get tok freqs ;;
  Some (add_node tok (node_attrs a f n 0) G).

(** The [if G.has_edge(s, t): ... += 1 else: G.add_edge(s, t, weight = 1)]
    of the three builders. *)
Definition bump_edge (s_tok : pystr) (G : Graph) (targ_tok : pystr)
  : option Graph :=
  if has_edge s_tok targ_tok G then incr_weight s_tok targ_tok G
  else Some (add_edge s_tok targ_tok 1 G).

(** The pairing loop of [generate_graph_data_words] and
    [generate_graph_data_all].  [temp_targ_list = targ_list] binds a second
    name to the same list, so each [remove] shortens [targ_list] for all
    later source tokens: the list is part of the loop state. *)
Definition pair_loop (source_list targ_list : list pystr) (G : Graph)
  : option (list pystr * Graph) :=
  foldM (fun (st : list pystr * Graph) s_tok =>
           let '(targ_list, G) := st in
           temp_targ_list <- list_remove s_tok targ_list ;;
           G <- foldM (bump_edge s_tok) temp_targ_list G ;;
           Some (temp_targ_list, G))
        source_list (targ_list, G).

Definition set_total_deg (G : Graph) : option Graph :=
  nodes <- foldM (fun nodes nd =>
                    let '(node, deg) := nd in
                    attrs <- get node nodes ;;
                    Some (set node (set attr_total_deg deg attrs) nodes))
                 (degree_view G) (_node G) ;;
  Some (mkGraph nodes (_adj G)).

Definition edge_weights (G : Graph) : option (list (edge * Z)) :=
  mapM (fun e => edge_weight <- weight (fst e) (snd e) G ;;
                 Some (e, edge_weight))
       (edges G).

(** The common tail of [generate_graph_data_word] and
    [generate_graph_data_all]: keep the [top_n - 1] first edges of the
    sorted list, drop the others, then the isolated nodes. *)
Definition prune (top_n : Z) (G : Graph) : option Graph :=
  edge_weights <- edge_weights G ;;
  let top_n_edges := List.map fst (slice_to (top_n - 1) (_sort_tuples edge_weights)) in
  let edges_remove := List.filter (fun e => negb (edge_in e top_n_edges)) (edges G) in
  G <- remove_edges_from edges_remove G ;;
  Some (remove_nodes_from (isolates G) G).

(** The graph [generate_graph_data_word] has built when its loop over the
    titles ends. *)
Definition word_loop (stats : WordStats) (df : DataFrame) (word : pystr)
  : option Graph :=
  foldM (fun G row =>
           let tokens := tokenize_and_stem (Titel row) in
           if negb (str_in word tokens) then Some G
           else
             G <- add_stat_node stats G word ;;
             let targ_list := List.filter (fun token => negb (str_eqb word token)) tokens in
             foldM (fun G targ_tok =>
                      G <- add_stat_node stats G targ_tok ;;
                      bump_edge word G targ_tok)
                   targ_list G)
        df empty_graph.

Definition generate_graph_data_word (df : DataFrame) (word : pystr) (top_n : Z)
  : option Graph :=
  stats <- generate_data df 0 ;;
  G <- word_loop stats df word ;;
  G <- set_total_deg G ;;
  prune top_n G.

Definition words_loop (stats : WordStats) (df : DataFrame) (words : list pystr)
  : option Graph :=
  foldM (fun G row =>
           let tokens := tokenize_and_stem (Titel row) in
           let search_words :=
             List.flat_map (fun token =>
                              List.map (fun _ => token)
                                       (List.filter (fun word => str_eqb token word) words))
                           tokens in
           if (length search_words <=? 1)%nat then Some G
           else
             let source_list := search_words in
             let targ_list := search_words in
             G <- foldM (add_stat_node stats) source_list G ;;
             st <- pair_loop source_list targ_list G ;;
             Some (snd st))
        df empty_graph.

Definition generate_graph_data_words (df : DataFrame) (words : list pystr)
  : option Graph :=
  stats <- generate_data df 0 ;;
  G <- words_loop stats df words ;;
  G <- set_total_deg G ;;
  _ <- edge_weights G ;;
  Some G.

Definition all_loop (stats : WordStats) (df : DataFrame) : option Graph :=
  foldM (fun G row =>
           let tokens := tokenize_and_stem (Titel row) in
           let source_list := tokens in
           let targ_list := tokens in
           G <- foldM (add_stat_node stats) source_list G ;;
           st <- pair_loop source_list targ_list G ;;
           Some (snd st))
        df empty_graph.

Definition generate_graph_data_all (df : DataFrame) (top_n : Z) : option Graph :=
  stats <- generate_data df 0 ;;
  G <- all_loop stats df ;;
  G <- set_total_deg G ;;
  prune top_n G.

End TextViz.

(* ================================================================== *)
(** ** Concrete environments and tables used in the examples *)
(* ================================================================== *)

(** A set iterated in insertion order, and in the opposite order. *)
Definition insertion_order (s : list pystr) : list pystr := s.
Definition reverse_order (s : list pystr) : list pystr := rev s.

(** A sort that lists rows with equal values in the order they had. *)
Definition stable_order (col : list Z) : list nat :=
  List.map fst (_sort_tuples (combine (seq 0 (length col)) col)).

(** A grant of the year 2020 with an ASCII title and no description. *)
Definition grant (title : string) (amount : Z) : Grant :=
  mkGrant 2020 (str title) [] amount.

Definition three_grants : DataFrame :=
  [grant "alpha beta" 10; grant "alpha beta" 5; grant "alpha gamma" 7].

Definition one_grant : DataFrame := [grant "alpha beta gamma" 10].

(** ** Notions used to state the properties *)

(** The order of binary64 numbers; a NaN is not related to anything. *)
Definition fle (x y : float) : Prop :=
  match x, y with
  | NaN, _ | _, NaN => False
  | Infinity true, _ => True
  | _, Infinity false => True
  | Finite a, Finite b => (a <= b)%Q
  | _, _ => False
  end.

(** [x] and [y] are finite and [lo <= x <= y <= hi]. *)
Definition finite_le (lo hi : Z) (x y : float) : Prop :=
  exists r s, x = Finite r /\ y = Finite s
              /\ (inject_Z lo <= r)%Q /\ (r <= s)%Q /\ (s <= inject_Z hi)%Q.

(** A list and a dictionary of [int]s. *)
Definition ints (l : list Z) : list pynum := List.map PyInt l.

Definition int_values (d : dict Z) : dict pynum :=
  List.map (fun kv => (fst kv, PyInt (snd kv))) d.

(** The linear map that sends [mn] to [new_min] and [mx] to [new_max], and
    its evaluation in binary64 by [rescale_to_range] on [int]s: the quotient
    is rounded, then the sum. *)
Definition linear_map (mn mx new_min new_max v : Z) : Q :=
  (inject_Z ((v - mn) * (new_max - new_min)) / inject_Z (mx - mn)
   + inject_Z new_min)%Q.

Definition linear_map64 (mn mx new_min new_max v : Z) : float :=
  fadd (round64 (inject_Z ((v - mn) * (new_max - new_min)) / inject_Z (mx - mn)))
       (Finite (inject_Z new_min)).

(** The three steps of the color intensity scale on [int]s, in binary64:
    the min-max normalisation to 0..100, the inversion, and the remapping of
    0..100 to 15..60. *)
Definition normalized (mn mx v : Z) : float :=
  fmul (round64 (inject_Z (v - mn) / inject_Z (mx - mn))) (Finite 100).

Definition inverted (z : float) : float := fsub (Finite 100) z.

Definition remapped (z : float) : float :=
  fadd (fdiv (fmul (fsub z (Finite 0)) (Finite 45)) (Finite 100)) (Finite 15).

(** [x] occurs in [l] at an earlier position than [y]. *)
Definition before {A : Type} (x y : A) (l : list A) : Prop :=
  exists l1 l2 l3, l = l1 ++ x :: l2 ++ y :: l3.

(** The invariant of the counting loop: both dictionaries have the same
    keys in the same order, and every count is positive. *)
Definition counts_ok (st : dict Z * dict Z) : Prop :=
  keys (fst st) = keys (snd st) /\ wf (fst st)
  /\ forall k n, get k (fst st) = Some n -> 1 <= n.

(** What every graph built through the networkx interface satisfies: the
    two dictionaries list the same nodes, no key is repeated, and the
    adjacency is symmetric with one weight per edge. *)
Definition graph_wf (G : Graph) : Prop :=
  keys (_node G) = keys (_adj G)
  /\ wf (_adj G)
  /\ (forall n nbrs, get n (_adj G) = Some nbrs -> wf nbrs)
  /\ (forall u v, weight u v G = weight v u G).

(** Positive weights: an edge exists exactly when its count is not 0. *)
Definition weights_positive (G : Graph) : Prop :=
  forall x y w, weight x y G = Some w -> 1 <= w.

(** All values of a dictionary are non-negative. *)
Definition nonneg (d : dict Z) : Prop := forall k v, get k d = Some v -> 0 <= v.

(** The weight of the edge between [u] and [v], 0 when there is none. *)
Definition weight_or_zero (u v : pystr) (G : Graph) : Z :=
  match weight u v G with Some w => w | None => 0 end.

(** The number of rows of [df] whose title has both [u] and [v] among its
    tokens. *)
Definition cooccurrences (str_lower : pystr -> pystr) (STOPWORDS : list pystr)
    (stopord_txt : pystr) (set_iter : list pystr -> list pystr)
    (df : DataFrame) (u v : pystr) : Z :=
  Z.of_nat (length (List.filter
                      (fun row =>
                         let tokens := tokenize_and_stem str_lower STOPWORDS stopord_txt
                                                         set_iter (Titel row) in
                         str_in u tokens && str_in v tokens)
                      df)).

(** The rows of [df] whose title has [t] among its tokens, and the sum of
    the amounts of a list of rows. *)
Definition rows_with (str_lower : pystr -> pystr) (STOPWORDS : list pystr)
    (stopord_txt : pystr) (set_iter : list pystr -> list pystr)
    (df : DataFrame) (t : pystr) : DataFrame :=
  List.filter (fun row => str_in t (tokenize_and_stem str_lower STOPWORDS stopord_txt
                                                      set_iter (Titel row)))
              df.

Definition total_amount (rows : DataFrame) : Z :=
  fold_right (fun row acc => Bevilliget_belob row + acc) 0 rows.

(** The attribute dictionary [attrs] of the node [n] holds the statistics
    that [stats] has for the word [n], and [d] as [total_deg]. *)
Definition node_has_stats (stats : WordStats) (n : pystr) (attrs : dict Z) (d : Z) : Prop :=
  exists a f c,
    get n (fst (fst stats)) = Some a /\ get n (snd (fst stats)) = Some f
    /\ get n (snd stats) = Some c
    /\ attrs = node_attrs a f c d.

(** A row of the chart table with another entry in the ["year"] column. *)
Definition with_year (y : YearLabel) (r : Chart.Row) : Chart.Row :=
  Chart.mkRow (Chart.word r) (Chart.freqs r) (Chart.funding r) (Chart.avg_funding r) y.

(** The word [w] passes the [words] argument of [gen_chart_data]. *)
Definition word_allowed (words : option (list pystr)) (w : pystr) : bool :=
  match words with
  | None => true
  | Some words => str_in w words
  end.

(** One chart row for every word of [stats] that [words] lets through, in
    the order of the dictionaries, with [label] in the ["year"] column. *)
Definition rows_of_stats (stats : WordStats) (words : option (list pystr))
    (label : YearLabel) : list Chart.Row :=
  let '(avg_funding, funding, freqs) := stats in
  List.map (fun key =>
              Chart.mkRow key
                          (match get key freqs with Some n => n | None => 0 end)
                          (match get key funding with Some f => f | None => 0 end)
                          (match get key avg_funding with Some a => a | None => 0 end)
                          label)
           (List.filter (word_allowed words) (keys funding)).

(** The adjacency left when the edges of [rem], in either orientation, are
    taken out of every neighbour dictionary. *)
Definition keep_edge (rem : list edge) (n k : pystr) : bool :=
  negb (edge_in (n, k) rem || edge_in (k, n) rem).

Definition drop_edges (rem : list edge) (adj : dict (dict Z)) : dict (dict Z) :=
  List.map (fun kv => (fst kv,
                       List.filter (fun nw => keep_edge rem (fst kv) (fst nw)) (snd kv)))
           adj.

(** [G] with only the edges listed in [top], and [G] without its nodes of
    degree 0. *)
Definition restricted_to (top : list edge) (G : Graph) : Graph :=
  mkGraph (_node G)
          (drop_edges (List.filter (fun e => negb (edge_in e top)) (edges G)) (_adj G)).

Definition without_isolated (G : Graph) : Graph :=
  mkGraph (List.filter (fun kv => negb (str_in (fst kv) (isolates G))) (_node G))
          (List.filter (fun kv => negb (str_in (fst kv) (isolates G))) (_adj G)).

(** In the list [l] of weighted items, [x] wins over [y] when only some can
    be kept: a larger weight, or the same weight and an earlier place. *)
Definition ranks_above {A : Type} (l : list (A * Z)) (x y : A * Z) : Prop :=
  snd y < snd x \/ (snd x = snd y /\ before x y l).

(** [Gf] is [G] pruned to its [top_n - 1] heaviest edges, where [ew] lists
    the edges of [G] with their weights in the order [G.edges()] reports
    them: at most [top_n - 1] edges are left, as many as that if [G] has
    them; they are edges of [G], in their order and with their weights; every
    edge left ranks above every edge dropped; the nodes left are the end
    points of the edges left. *)
Definition pruned_to_top (top_n : Z) (G Gf : Graph) (ew : list (edge * Z)) : Prop :=
  List.map fst ew = edges G
  /\ (forall e w, In (e, w) ew -> weight (fst e) (snd e) G = Some w)
  /\ Z.of_nat (length (edges Gf)) <= top_n - 1
  /\ length (edges Gf) = Nat.min (Z.to_nat (top_n - 1)) (length (edges G))
  /\ edges Gf = List.filter (fun e => edge_in e (edges Gf)) (edges G)
  /\ (forall e w, In (e, w) ew -> In e (edges Gf) ->
                   weight (fst e) (snd e) Gf = Some w)
  /\ (forall x y, In x ew -> In y ew ->
                   In (fst x) (edges Gf) -> ~ In (fst y) (edges Gf) ->
                   ranks_above ew x y)
  /\ (forall n, In n (keys (_node Gf))
                 <-> exists e, In e (edges Gf) /\ (n = fst e \/ n = snd e))
  /\ (forall n d, degree Gf n = Some d -> 1 <= d).

(* ================================================================== *)
(** * Properties *)
(* ================================================================== *)

(** ** Strings and dictionaries *)

Lemma str_eqb_eq (a b : pystr) : str_eqb a b = true <-> a = b.
Proof.
  revert b; induction a as [|x a IH]; intros [|y b]; simpl;
    try (split; [discriminate | discriminate]); try tauto.
  rewrite andb_true_iff, N.eqb_eq, IH.
  split; [intros [-> ->]; reflexivity | intros H; inversion H; auto].
Qed.

Lemma str_eqb_refl (a : pystr) : str_eqb a a = true.
Proof. apply str_eqb_eq; reflexivity. Qed.

Lemma str_eqb_neq (a b : pystr) : str_eqb a b = false <-> a <> b.
Proof.
  rewrite <- str_eqb_eq. destruct (str_eqb a b); split; congruence.
Qed.

Lemma str_eqb_sym (a b : pystr) : str_eqb a b = str_eqb b a.
Proof.
  destruct (str_eqb a b) eqn:E; symmetry.
  - apply str_eqb_eq in E; subst; apply str_eqb_refl.
  - apply str_eqb_neq in E; apply str_eqb_neq; congruence.
Qed.

Lemma str_eq_dec (a b : pystr) : {a = b} + {a <> b}.
Proof.
  destruct (str_eqb a b) eqn:E; [left; apply str_eqb_eq | right; apply str_eqb_neq]; exact E.
Qed.

Lemma str_in_In (x : pystr) (l : list pystr) : str_in x l = true <-> In x l.
Proof.
  unfold str_in. rewrite existsb_exists. split.
  - intros [y [Hy E]]. apply str_eqb_eq in E; subst; exact Hy.
  - intros H; exists x; split; [exact H | apply str_eqb_refl].
Qed.

Lemma str_in_not_In (x : pystr) (l : list pystr) : str_in x l = false <-> ~ In x l.
Proof.
  rewrite <- str_in_In. destruct (str_in x l); split; congruence.
Qed.

Lemma nodupb_NoDup (l : list pystr) : nodupb l = true <-> NoDup l.
Proof.
  induction l as [|x l IH]; simpl.
  - split; [constructor | reflexivity].
  - rewrite andb_true_iff, negb_true_iff, str_in_not_In, IH.
    split; [intros [H1 H2]; constructor; assumption | intros H; inversion H; auto].
Qed.

Ltac str_cases a b :=
  let E := fresh "E" in
  destruct (str_eqb a b) eqn:E;
  [apply str_eqb_eq in E; try subst | apply str_eqb_neq in E].

Ltac str_split a b :=
  let E := fresh "E" in
  destruct (str_eqb a b) eqn:E;
  [pose proof (proj1 (str_eqb_eq a b) E) | pose proof (proj1 (str_eqb_neq a b) E)].

Section DictFacts.
Context {V : Type}.
Implicit Types (d : dict V) (k : pystr) (v : V).

Lemma get_set_same k v d : get k (set k v d) = Some v.
Proof.
  induction d as [|[k' v'] d IH]; simpl.
  - rewrite str_eqb_refl; reflexivity.
  - destruct (str_eqb k k') eqn:E; simpl; rewrite E; auto.
Qed.

Lemma get_set_other k k' v d : k <> k' -> get k' (set k v d) = get k' d.
Proof.
  intros Hne. induction d as [|[k0 v0] d IH]; simpl.
  - apply str_eqb_neq in Hne. rewrite str_eqb_sym, Hne; reflexivity.
  - str_cases k k0; simpl.
    + assert (E' : str_eqb k' k0 = false) by (apply str_eqb_neq; congruence).
      rewrite E'; reflexivity.
    + rewrite IH; reflexivity.
Qed.

Lemma get_set k k' v d :
  get k' (set k v d) = if str_eqb k k' then Some v else get k' d.
Proof.
  str_cases k k'; [apply get_set_same | apply get_set_other; assumption].
Qed.

Lemma get_None k d : get k d = None <-> ~ In k (keys d).
Proof.
  induction d as [|[k' v'] d IH]; simpl; [tauto|].
  str_cases k k'.
  - split; [discriminate | intros H; exfalso; apply H; left; reflexivity].
  - rewrite IH. split; [intros H [H1|H1]; [congruence | auto] | tauto].
Qed.

Lemma get_Some_In k v d : get k d = Some v -> In (k, v) d.
Proof.
  induction d as [|[k' v'] d IH]; simpl; [discriminate|].
  str_cases k k'; [intros H; inversion H; left; reflexivity | intros H; right; auto].
Qed.

Lemma get_Some_key k v d : get k d = Some v -> In k (keys d).
Proof. intros H; apply get_Some_In in H. apply (in_map fst) in H; exact H. Qed.

Lemma In_keys_get k d : In k (keys d) -> exists v, get k d = Some v.
Proof.
  intros H. destruct (get k d) eqn:E; [eauto|]. apply get_None in E; contradiction.
Qed.

Lemma In_get k v d : wf d -> In (k, v) d -> get k d = Some v.
Proof.
  unfold wf. induction d as [|[k' v'] d IH]; simpl; [tauto|].
  intros Hnd [H|H]; inversion Hnd; subst.
  - inversion H; subst. rewrite str_eqb_refl; reflexivity.
  - str_cases k k'.
    + exfalso. apply H2. apply (in_map fst) in H; exact H.
    + auto.
Qed.

Lemma mem_true k d : mem k d = true <-> In k (keys d).
Proof.
  unfold mem. destruct (get k d) eqn:E.
  - split; [intros _; eapply get_Some_key; eauto | reflexivity].
  - apply get_None in E. split; [discriminate | contradiction].
Qed.

Lemma mem_false k d : mem k d = false <-> ~ In k (keys d).
Proof. rewrite <- mem_true. destruct (mem k d); split; congruence. Qed.

Lemma set_fresh k v d : ~ In k (keys d) -> set k v d = d ++ [(k, v)].
Proof.
  induction d as [|[k' v'] d IH]; simpl; [reflexivity|].
  intros H. str_cases k k'; [exfalso; apply H; left; reflexivity|].
  rewrite IH; [reflexivity | tauto].
Qed.

Lemma keys_set_present k v d : In k (keys d) -> keys (set k v d) = keys d.
Proof.
  induction d as [|[k' v'] d IH]; simpl; [tauto|].
  intros H. str_cases k k'; simpl; [reflexivity|].
  rewrite IH; [reflexivity|]. destruct H; congruence.
Qed.

Lemma keys_set k v d :
  keys (set k v d) = if mem k d then keys d else keys d ++ [k].
Proof.
  destruct (mem k d) eqn:E.
  - apply keys_set_present, mem_true, E.
  - apply mem_false in E. rewrite set_fresh by assumption.
    unfold keys; rewrite map_app; reflexivity.
Qed.

Lemma In_keys_set k k' v d : In k' (keys (set k v d)) <-> k' = k \/ In k' (keys d).
Proof.
  rewrite keys_set. destruct (mem k d) eqn:E.
  - apply mem_true in E. split; [auto | intros [->|H]; auto].
  - rewrite in_app_iff; simpl. intuition.
Qed.

Lemma wf_set k v d : wf d -> wf (set k v d).
Proof.
  unfold wf. rewrite keys_set. destruct (mem k d) eqn:E; [auto|].
  apply mem_false in E. intros H.
  apply NoDup_app; [exact H | constructor; [simpl; tauto | constructor] |].
  intros a Ha [<-|[]]; contradiction.
Qed.

Lemma keys_del k d : keys (del k d) = List.filter (fun x => negb (str_eqb k x)) (keys d).
Proof.
  unfold del, keys. induction d as [|[k' v'] d IH]; simpl; [reflexivity|].
  destruct (str_eqb k k'); simpl; rewrite IH; reflexivity.
Qed.

Lemma get_del k k' d : get k' (del k d) = if str_eqb k k' then None else get k' d.
Proof.
  unfold del. induction d as [|[k0 v0] d IH]; simpl.
  - destruct (str_eqb k k'); reflexivity.
  - str_cases k k0; simpl.
    + rewrite IH. str_cases k0 k'; [reflexivity|].
      assert (E' : str_eqb k' k0 = false) by (apply str_eqb_neq; congruence).
      rewrite E'; reflexivity.
    + rewrite IH. str_cases k k'; [|reflexivity].
      assert (E1 : str_eqb k' k0 = false) by (apply str_eqb_neq; congruence).
      rewrite E1; reflexivity.
Qed.

Lemma wf_del k d : wf d -> wf (del k d).
Proof. unfold wf. rewrite keys_del. apply NoDup_filter. Qed.

Lemma wf_nil : wf (@nil (pystr * V)).
Proof. constructor. Qed.

Lemma wfb_wf d : wfb d = true <-> wf d.
Proof. apply nodupb_NoDup. Qed.

End DictFacts.

(** An invariant carried through a loop that may raise. *)
Lemma foldM_inv {A S : Type} (P : S -> Prop) (f : S -> A -> option S) (l : list A) :
  (forall s x s', In x l -> P s -> f s x = Some s' -> P s') ->
  forall s s', P s -> foldM f l s = Some s' -> P s'.
Proof.
  induction l as [|x l IH]; simpl; intros Hstep s s' Hs H.
  - inversion H; subst; exact Hs.
  - destruct (f s x) as [s1|] eqn:E; simpl in H; [|discriminate].
    eapply IH; [intros; eapply Hstep; eauto | eapply Hstep; eauto | exact H].
Qed.

(** A loop whose body never raises under the invariant runs to its end. *)
Lemma foldM_total {A S : Type} (P : S -> Prop) (f : S -> A -> option S) (l : list A) :
  (forall s x, In x l -> P s -> exists s', f s x = Some s' /\ P s') ->
  forall s, P s -> exists s', foldM f l s = Some s' /\ P s'.
Proof.
  induction l as [|x l IH]; simpl; intros Hstep s Hs.
  - eauto.
  - destruct (Hstep s x (or_introl eq_refl) Hs) as [s1 [E H1]].
    rewrite E; simpl. apply IH; auto.
Qed.

Lemma bind_Some {A B : Type} (c : option A) (k : A -> option B) (b : B) :
  bind c k = Some b <-> exists a, c = Some a /\ k a = Some b.
Proof.
  destruct c; simpl; split.
  - eauto.
  - intros [a' [H1 H2]]; inversion H1; subst; exact H2.
  - discriminate.
  - intros [a' [H1 _]]; discriminate.
Qed.

Lemma foldM_ext {A S : Type} (f g : S -> A -> option S) (l : list A) :
  (forall s x, In x l -> f s x = g s x) ->
  forall s, foldM f l s = foldM g l s.
Proof.
  induction l as [|x l IH]; simpl; intros H s; [reflexivity|].
  rewrite (H s x) by auto. destruct (g s x); simpl; auto.
Qed.

Lemma mapM_map {A B : Type} (f : A -> option B) (g : A -> B) (l : list A) :
  (forall x, In x l -> f x = Some (g x)) -> mapM f l = Some (List.map g l).
Proof.
  induction l as [|x l IH]; simpl; intros H; [reflexivity|].
  rewrite (H x) by auto; simpl. rewrite IH by auto; reflexivity.
Qed.

(** A dictionary filled key by key from a list of distinct new keys. *)
Lemma foldM_set_build {A W : Type} (key : A -> pystr) (val : A -> option W)
    (vals : A -> W) (l : list A) :
  NoDup (List.map key l) ->
  (forall a, In a l -> val a = Some (vals a)) ->
  forall acc : dict W,
    (forall a, In a l -> ~ In (key a) (keys acc)) ->
    foldM (fun acc a => w <- val a ;; Some (set (key a) w acc)) l acc
    = Some (acc ++ List.map (fun a => (key a, vals a)) l).
Proof.
  induction l as [|a l IH]; simpl; intros Hnd Hval acc Hfresh.
  - rewrite app_nil_r; reflexivity.
  - inversion Hnd as [|? ? Hnotin Hnd']; subst.
    rewrite (Hval a) by auto; simpl.
    rewrite set_fresh by auto.
    rewrite IH; auto.
    + rewrite <- app_assoc; reflexivity.
    + intros b Hb. unfold keys. rewrite map_app, in_app_iff; simpl.
      intros [H|[H|[]]]; [eapply Hfresh; eauto|].
      apply Hnotin. rewrite H. apply in_map; exact Hb.
Qed.

(** ** Numbers: rounding to binary64 *)

(** Powers of two are atoms for the linear arithmetic of [lra]. *)

Ltac pow_atoms :=
  repeat match goal with
  | |- context [Qpower 2 ?z] =>
      let p := fresh "p" in set (p := Qpower 2 z) in *; clearbody p
  | H : context [Qpower 2 ?z] |- _ =>
      let p := fresh "p" in set (p := Qpower 2 z) in *; clearbody p
  end.
Ltac qlra := pow_atoms; lra.

Lemma pow2_pos (z : Z) : (0 < 2 ^ z)%Q.
Proof. apply Qpower_0_lt. reflexivity. Qed.

Lemma pow2_plus (a b : Z) : (2 ^ (a + b) == 2 ^ a * 2 ^ b)%Q.
Proof. apply Qpower_plus. discriminate. Qed.

Lemma pow2_split (a e : Z) : (2 ^ a == 2 ^ (a - e) * 2 ^ e)%Q.
Proof. rewrite <- pow2_plus. replace (a - e + e) with a by lia. reflexivity. Qed.

Lemma pow2_le (a b : Z) : a <= b -> (2 ^ a <= 2 ^ b)%Q.
Proof. intros H. apply Qpower_le_compat_l; [exact H | discriminate]. Qed.

Lemma pow2_lt_inv (a b : Z) : (2 ^ a < 2 ^ b)%Q -> a < b.
Proof. intros H. apply (Qpower_lt_compat_l_inv 2); [exact H | reflexivity]. Qed.

Lemma pow2_Z (n : Z) : 0 <= n -> (inject_Z (2 ^ n) == 2 ^ n)%Q.
Proof. intros H. apply (Zpower_Qpower 2 n H). Qed.

(** ** The magnitude of a positive rational *)

Lemma mag_spec (q : Q) : (0 < q)%Q -> (2 ^ (mag q - 1) <= q < 2 ^ mag q)%Q.
Proof.
  intros Hq. unfold mag. destruct (Qle_bool 1 q) eqn:E.
  - apply Qle_bool_iff in E.
    assert (Hf : 1 <= Qfloor q).
    { rewrite <- (Qfloor_Z 1). apply Qfloor_resp_le. exact E. }
    destruct (Z.log2_spec (Qfloor q)) as [H1 H2]; [lia|].
    replace (Z.log2 (Qfloor q) + 1 - 1) with (Z.log2 (Qfloor q)) by lia.
    pose proof (Z.log2_nonneg (Qfloor q)) as Hnn.
    split.
    + rewrite <- pow2_Z by exact Hnn.
      apply Qle_trans with (inject_Z (Qfloor q)); [|apply Qfloor_le].
      rewrite <- Zle_Qle. exact H1.
    + rewrite <- pow2_Z by lia.
      apply Qlt_le_trans with (inject_Z (Qfloor q + 1)); [apply Qlt_floor|].
      rewrite <- Zle_Qle. unfold Z.succ in H2. lia.
  - assert (Hlt : (q < 1)%Q).
    { apply Qnot_le_lt. intros H. apply Qle_bool_iff in H. congruence. }
    assert (Hinv : (1 < / q)%Q).
    { apply Qlt_shift_inv_l; [exact Hq|]. qlra. }
    set (c := Qceiling (/ q)).
    assert (Hc : 1 < c).
    { assert (H : (inject_Z 1 < inject_Z c)%Q).
      { apply Qlt_le_trans with (/ q)%Q; [exact Hinv | apply Qle_ceiling]. }
      rewrite <- Zlt_Qlt in H. exact H. }
    destruct (Z.log2_up_spec c Hc) as [H1 H2].
    set (K := Z.log2_up c) in *.
    assert (HK : 0 < K) by (apply Z.log2_up_pos; exact Hc).
    replace (1 - K - 1) with (- K) by lia.
    replace (1 - K) with (- (K - 1)) by lia.
    rewrite !Qpower_opp. split.
    + apply Qle_shift_inv_r; [apply pow2_pos|].
      assert (Hle : (/ q <= 2 ^ K)%Q).
      { rewrite <- pow2_Z by lia.
        apply Qle_trans with (inject_Z c); [apply Qle_ceiling|].
        rewrite <- Zle_Qle. exact H2. }
      assert (Hqi : (q * / q == 1)%Q) by (apply Qmult_inv_r; qlra).
      rewrite <- Hqi. apply Qmult_le_l; [exact Hq | exact Hle].
    + apply Qlt_shift_inv_l; [apply pow2_pos|].
      assert (Hgt : (2 ^ (K - 1) < / q)%Q).
      { rewrite <- pow2_Z by lia.
        apply Qle_lt_trans with (inject_Z (c - 1)); [|apply Qceiling_lt].
        rewrite <- Zle_Qle. rewrite <- Z.sub_1_r in H1. lia. }
      assert (Hqi : (q * / q == 1)%Q) by (apply Qmult_inv_r; qlra).
      rewrite <- Hqi. apply Qmult_lt_l; [exact Hq | exact Hgt].
Qed.

Lemma mag_mono (x y : Q) : (0 < x)%Q -> (x <= y)%Q -> mag x <= mag y.
Proof.
  intros Hx Hxy.
  destruct (mag_spec x Hx) as [H1 _]. destruct (mag_spec y) as [_ H2]; [qlra|].
  assert (mag x - 1 < mag y) by (apply pow2_lt_inv; qlra).
  lia.
Qed.

Lemma mag_comp (x y : Q) : (x == y)%Q -> mag x = mag y.
Proof.
  intros H. unfold mag. rewrite H. destruct (Qle_bool 1 y); [rewrite H; reflexivity|].
  rewrite H. reflexivity.
Qed.

(** ** Rounding to the nearest integer, ties to even *)

Lemma rne_cases (q : Q) : rne q = Qfloor q \/ rne q = Qfloor q + 1.
Proof.
  unfold rne. destruct (Qcompare _ _); [destruct (Z.even _)| |]; auto.
Qed.

Lemma rne_Z (k : Z) : rne (inject_Z k) = k.
Proof.
  unfold rne. rewrite Qfloor_Z.
  assert (H : (inject_Z k - inject_Z k ?= 1 # 2)%Q = Lt).
  { apply Qlt_alt. unfold Qminus. rewrite Qplus_opp_r. reflexivity. }
  rewrite H. reflexivity.
Qed.

Lemma rne_comp (x y : Q) : (x == y)%Q -> rne x = rne y.
Proof.
  intros H. unfold rne. rewrite (Qfloor_comp _ _ H).
  assert (E : (x - inject_Z (Qfloor y) == y - inject_Z (Qfloor y))%Q) by (rewrite H; reflexivity).
  rewrite (Qcompare_comp _ _ E _ _ (Qeq_refl (1 # 2))). reflexivity.
Qed.

Lemma rne_mono (x y : Q) : (x <= y)%Q -> rne x <= rne y.
Proof.
  intros H. pose proof (Qfloor_resp_le _ _ H) as Hf.
  destruct (Z.eq_dec (Qfloor x) (Qfloor y)) as [E|E].
  - unfold rne. rewrite E.
    destruct (Qcompare_spec (x - inject_Z (Qfloor y)) (1 # 2)) as [Hx|Hx|Hx];
      destruct (Qcompare_spec (y - inject_Z (Qfloor y)) (1 # 2)) as [Hy|Hy|Hy];
      try destruct (Z.even (Qfloor y)); try lia; exfalso; qlra.
  - destruct (rne_cases x) as [-> | ->]; destruct (rne_cases y) as [-> | ->]; lia.
Qed.

Lemma rne_le (x : Q) (k : Z) : (x <= inject_Z k)%Q -> rne x <= k.
Proof. intros H. rewrite <- (rne_Z k). apply rne_mono. exact H. Qed.

Lemma rne_ge (x : Q) (k : Z) : (inject_Z k <= x)%Q -> k <= rne x.
Proof. intros H. rewrite <- (rne_Z k). apply rne_mono. exact H. Qed.

(** ** Rounding a positive rational to binary64 *)

Lemma round_pos_comp (x y : Q) : (x == y)%Q -> (round_pos x == round_pos y)%Q.
Proof.
  intros H. unfold round_pos. rewrite (mag_comp _ _ H).
  set (e := Z.max (mag y - 53) (-1074)).
  assert (E : (x / 2 ^ e == y / 2 ^ e)%Q) by (rewrite H; reflexivity).
  rewrite (rne_comp _ _ E). reflexivity.
Qed.

Lemma round_pos_nonneg (x : Q) : (0 < x)%Q -> (0 <= round_pos x)%Q.
Proof.
  intros Hx. unfold round_pos. set (e := Z.max (mag x - 53) (-1074)).
  pose proof (pow2_pos e) as He.
  assert (0 <= rne (x / 2 ^ e)).
  { apply rne_ge. apply Qle_shift_div_l; [exact He|].
    change (inject_Z 0) with 0%Q. rewrite Qmult_0_l. apply Qlt_le_weak. exact Hx. }
  assert (H0 : (inject_Z 0 <= inject_Z (rne (x / 2 ^ e)))%Q) by (rewrite <- Zle_Qle; assumption).
  change (inject_Z 0) with 0%Q in H0.
  apply Qmult_le_0_compat; [exact H0 | apply Qlt_le_weak; exact He].
Qed.

Lemma round_pos_upper (x : Q) :
  (0 < x)%Q ->
  (round_pos x <= 2 ^ Z.max (mag x) (Z.max (mag x - 53) (-1074)))%Q.
Proof.
  intros Hx. unfold round_pos. set (e := Z.max (mag x - 53) (-1074)).
  destruct (mag_spec x Hx) as [_ Hm]. pose proof (pow2_pos e) as He.
  destruct (Z_le_gt_dec e (mag x)) as [Hle|Hgt].
  - rewrite Z.max_l by exact Hle.
    assert (Hr : rne (x / 2 ^ e) <= 2 ^ (mag x - e)).
    { apply rne_le. rewrite pow2_Z by lia.
      apply Qle_shift_div_r; [exact He|]. rewrite <- pow2_split.
      apply Qlt_le_weak. exact Hm. }
    rewrite Zle_Qle in Hr. rewrite pow2_Z in Hr by lia.
    rewrite (pow2_split (mag x) e).
    apply Qmult_le_compat_r; [exact Hr | apply Qlt_le_weak; exact He].
  - rewrite Z.max_r by lia.
    assert (Hr : rne (x / 2 ^ e) <= 1).
    { apply rne_le. apply Qle_shift_div_r; [exact He|].
      assert (2 ^ mag x <= 2 ^ e)%Q by (apply pow2_le; lia).
      change (inject_Z 1) with 1%Q. rewrite Qmult_1_l. qlra. }
    rewrite Zle_Qle in Hr. change (inject_Z 1) with 1%Q in Hr.
    apply Qle_trans with (1 * 2 ^ e)%Q; [|rewrite Qmult_1_l; apply Qle_refl].
    apply Qmult_le_compat_r; [exact Hr | apply Qlt_le_weak; exact He].
Qed.

Lemma round_pos_lower (y : Q) :
  (0 < y)%Q -> -1074 < mag y - 53 -> (2 ^ (mag y - 1) <= round_pos y)%Q.
Proof.
  intros Hy Hn. unfold round_pos. rewrite Z.max_l by lia.
  set (e := mag y - 53).
  destruct (mag_spec y Hy) as [Hm _]. pose proof (pow2_pos e) as He.
  assert (Hr : 2 ^ 52 <= rne (y / 2 ^ e)).
  { apply rne_ge. rewrite pow2_Z by lia.
    apply Qle_shift_div_l; [exact He|]. rewrite <- pow2_plus.
    replace (52 + e) with (mag y - 1) by (unfold e; lia). exact Hm. }
  rewrite Zle_Qle in Hr. rewrite pow2_Z in Hr by lia.
  replace (mag y - 1) with (52 + e) by (unfold e; lia). rewrite pow2_plus.
  apply Qmult_le_compat_r; [exact Hr | qlra].
Qed.

Lemma round_pos_mono (x y : Q) :
  (0 < x)%Q -> (x <= y)%Q -> (round_pos x <= round_pos y)%Q.
Proof.
  intros Hx Hxy.
  assert (Hy : (0 < y)%Q) by qlra.
  pose proof (mag_mono x y Hx Hxy) as Hmag.
  destruct (Z.eq_dec (Z.max (mag x - 53) (-1074)) (Z.max (mag y - 53) (-1074))) as [E|E].
  - unfold round_pos. rewrite E. set (e := Z.max (mag y - 53) (-1074)).
    pose proof (pow2_pos e) as He.
    assert (Hr : rne (x / 2 ^ e) <= rne (y / 2 ^ e)).
    { apply rne_mono. apply Qle_shift_div_r; [exact He|].
      assert (Hd : (y / 2 ^ e * 2 ^ e == y)%Q) by (field; qlra). rewrite Hd. exact Hxy. }
    rewrite Zle_Qle in Hr. apply Qmult_le_compat_r; [exact Hr | qlra].
  - apply Qle_trans with (2 ^ (mag y - 1))%Q.
    + eapply Qle_trans; [apply round_pos_upper; exact Hx|]. apply pow2_le. lia.
    + apply round_pos_lower; [exact Hy | lia].
Qed.

(** Integers up to 2^53 are binary64 numbers. *)
Lemma round_pos_int (k : Z) :
  0 < k <= 2 ^ 53 -> (round_pos (inject_Z k) == inject_Z k)%Q.
Proof.
  intros [Hk Hub].
  assert (Hq : (0 < inject_Z k)%Q) by (rewrite Zlt_Qlt in Hk; exact Hk).
  unfold round_pos. set (m := mag (inject_Z k)).
  destruct (mag_spec _ Hq) as [H1 H2]. fold m in H1, H2.
  assert (Hm1 : 1 <= m).
  { assert (0 < m); [|lia]. apply pow2_lt_inv.
    apply Qle_lt_trans with (inject_Z k); [|exact H2].
    change (2 ^ 0)%Q with (inject_Z 1). rewrite <- Zle_Qle. lia. }
  assert (Hm2 : m <= 54).
  { assert (m - 1 < 54); [|lia]. apply pow2_lt_inv.
    apply Qle_lt_trans with (inject_Z k); [exact H1|].
    rewrite <- (pow2_Z 54) by lia. rewrite <- Zlt_Qlt. lia. }
  rewrite Z.max_l by lia. set (e := m - 53).
  destruct (Z_le_gt_dec e 0) as [He|He].
  - assert (E : (inject_Z k / 2 ^ e == inject_Z (k * 2 ^ (- e)))%Q).
    { rewrite inject_Z_mult, pow2_Z by lia. rewrite Qpower_opp. field.
      apply Qpower_not_0. discriminate. }
    rewrite (rne_comp _ _ E), rne_Z, inject_Z_mult, pow2_Z by lia.
    rewrite Qpower_opp. field. apply Qpower_not_0. discriminate.
  - assert (He1 : e = 1) by lia. assert (Hm54 : m = 54) by (unfold e in He1; lia).
    assert (Hk2 : k = 2 ^ 53).
    { assert (H : (inject_Z (2 ^ 53) <= inject_Z k)%Q).
      { rewrite pow2_Z by lia. replace 53 with (m - 1) by lia. exact H1. }
      rewrite <- Zle_Qle in H. lia. }
    rewrite He1. rewrite Hk2.
    assert (E : (inject_Z (2 ^ 53) / 2 ^ 1 == inject_Z (2 ^ 52))%Q) by reflexivity.
    rewrite (rne_comp _ _ E), rne_Z. reflexivity.
Qed.

(** ** Rounding to binary64 *)

Lemma Qred_inject_Z (k : Z) : Qred (inject_Z k) = inject_Z k.
Proof.
  unfold Qred, inject_Z. simpl.
  pose proof (Z.ggcd_gcd k 1) as Hg. pose proof (Z.ggcd_correct_divisors k 1) as Hd.
  destruct (Z.ggcd k 1) as [g [aa bb]]. simpl in Hg. destruct Hd as [Ha Hb].
  rewrite Z.gcd_1_r in Hg. subst g.
  assert (Ea : aa = k) by lia. assert (Eb : bb = 1) by lia.
  rewrite Ea, Eb. reflexivity.
Qed.

Lemma round64_comp (x y : Q) : (x == y)%Q -> round64 x = round64 y.
Proof.
  intros H. unfold round64. rewrite (Qcompare_comp _ _ H _ _ (Qeq_refl 0)).
  destruct (y ?= 0)%Q; [reflexivity| |].
  - assert (E : (round_pos (- x) == round_pos (- y))%Q)
      by (apply round_pos_comp; rewrite H; reflexivity).
    rewrite (Qleb_comp _ _ (Qeq_refl _) _ _ E).
    destruct (Qle_bool _ _); [reflexivity|]. f_equal. apply Qred_complete. rewrite E. reflexivity.
  - assert (E : (round_pos x == round_pos y)%Q) by (apply round_pos_comp; exact H).
    rewrite (Qleb_comp _ _ (Qeq_refl _) _ _ E).
    destruct (Qle_bool _ _); [reflexivity|]. f_equal. apply Qred_complete. exact E.
Qed.

Lemma round64_int (k : Z) :
  - 2 ^ 53 <= k <= 2 ^ 53 -> round64 (inject_Z k) = Finite (inject_Z k).
Proof.
  intros Hk. unfold round64.
  destruct (Qcompare_spec (inject_Z k) 0) as [H|H|H].
  - f_equal. assert (k = 0); [|subst; reflexivity].
    unfold Qeq in H. simpl in H. lia.
  - change 0%Q with (inject_Z 0) in H. rewrite <- Zlt_Qlt in H.
    assert (E : (round_pos (- inject_Z k) == inject_Z (- k))%Q).
    { rewrite <- inject_Z_opp. apply round_pos_int. lia. }
    assert (Hlt : Qle_bool (2 ^ 1024) (round_pos (- inject_Z k)) = false).
    { destruct (Qle_bool _ _) eqn:Eb; [|reflexivity]. apply Qle_bool_iff in Eb.
      rewrite E in Eb. rewrite <- pow2_Z in Eb by lia. rewrite <- Zle_Qle in Eb.
      assert (2 ^ 53 < 2 ^ 1024) by (apply Z.pow_lt_mono_r; lia). lia. }
    rewrite Hlt.
    replace (Finite (inject_Z k)) with (Finite (Qred (inject_Z k)))
      by (rewrite Qred_inject_Z; reflexivity).
    f_equal. apply Qred_complete.
    rewrite E, inject_Z_opp. ring.
  - change 0%Q with (inject_Z 0) in H. rewrite <- Zlt_Qlt in H.
    assert (E : (round_pos (inject_Z k) == inject_Z k)%Q) by (apply round_pos_int; lia).
    assert (Hlt : Qle_bool (2 ^ 1024) (round_pos (inject_Z k)) = false).
    { destruct (Qle_bool _ _) eqn:Eb; [|reflexivity]. apply Qle_bool_iff in Eb.
      rewrite E in Eb. rewrite <- pow2_Z in Eb by lia. rewrite <- Zle_Qle in Eb.
      assert (2 ^ 53 < 2 ^ 1024) by (apply Z.pow_lt_mono_r; lia). lia. }
    rewrite Hlt.
    replace (Finite (inject_Z k)) with (Finite (Qred (inject_Z k)))
      by (rewrite Qred_inject_Z; reflexivity).
    f_equal. apply Qred_complete. exact E.
Qed.

Lemma round64_mono (x y : Q) : (x <= y)%Q -> fle (round64 x) (round64 y).
Proof.
  intros Hxy. unfold round64.
  destruct (Qcompare_spec x 0) as [Hx|Hx|Hx]; destruct (Qcompare_spec y 0) as [Hy|Hy|Hy];
    try (exfalso; qlra).
  - cbn [fle]. qlra.
  - destruct (Qle_bool _ (round_pos y)); cbn [fle]; [exact I|].
    rewrite Qred_correct. apply round_pos_nonneg; exact Hy.
  - destruct (Qle_bool _ (round_pos (- x))); cbn [fle]; [exact I|].
    rewrite Qred_correct. pose proof (round_pos_nonneg (- x)). qlra.
  - assert (Hm : (round_pos (- y) <= round_pos (- x))%Q) by (apply round_pos_mono; qlra).
    destruct (Qle_bool _ (round_pos (- x))) eqn:Ex; cbn [fle].
    + destruct (Qle_bool _ (round_pos (- y))); exact I.
    + destruct (Qle_bool _ (round_pos (- y))) eqn:Ey; cbn [fle].
      * apply Qle_bool_iff in Ey.
        assert (Hc : Qle_bool (2 ^ 1024) (round_pos (- x)) = true)
          by (apply Qle_bool_iff; qlra).
        congruence.
      * rewrite !Qred_correct. qlra.
  - destruct (Qle_bool _ (round_pos (- x))); destruct (Qle_bool _ (round_pos y));
      cbn [fle]; try exact I.
    rewrite !Qred_correct.
    pose proof (round_pos_nonneg (- x)). pose proof (round_pos_nonneg y). qlra.
  - assert (Hm : (round_pos x <= round_pos y)%Q) by (apply round_pos_mono; qlra).
    destruct (Qle_bool _ (round_pos y)) eqn:Ey; cbn [fle].
    + destruct (Qle_bool _ (round_pos x)); exact I.
    + destruct (Qle_bool _ (round_pos x)) eqn:Ex; cbn [fle].
      * apply Qle_bool_iff in Ex.
        assert (Hc : Qle_bool (2 ^ 1024) (round_pos y) = true)
          by (apply Qle_bool_iff; qlra).
        congruence.
      * rewrite !Qred_correct. exact Hm.
Qed.

(** A rational between two integers of at most 53 bits rounds to a finite
    number between them. *)
Lemma round64_between (q : Q) (k1 k2 : Z) :
  - 2 ^ 53 <= k1 -> k2 <= 2 ^ 53 ->
  (inject_Z k1 <= q <= inject_Z k2)%Q ->
  exists r, round64 q = Finite r /\ (inject_Z k1 <= r <= inject_Z k2)%Q.
Proof.
  intros H1 H2 [Hlo Hhi].
  assert (Hk : k1 <= k2) by (rewrite Zle_Qle; qlra).
  pose proof (round64_mono _ _ Hlo) as Ha. pose proof (round64_mono _ _ Hhi) as Hb.
  rewrite round64_int in Ha by lia. rewrite round64_int in Hb by lia.
  destruct (round64 q) as [r|[|]|]; cbn [fle] in Ha, Hb; try contradiction.
  exists r. auto.
Qed.

Lemma round64_finite_le (lo hi : Z) (p q : Q) :
  - 2 ^ 53 <= lo -> hi <= 2 ^ 53 ->
  (inject_Z lo <= p)%Q -> (p <= q)%Q -> (q <= inject_Z hi)%Q ->
  finite_le lo hi (round64 p) (round64 q).
Proof.
  intros Hlo Hhi H1 H2 H3.
  destruct (round64_between p lo hi Hlo Hhi) as (r & Er & Hr1 & Hr2); [split; lra|].
  destruct (round64_between q lo hi Hlo Hhi) as (s & Es & Hs1 & Hs2); [split; lra|].
  pose proof (round64_mono p q H2) as Hm. rewrite Er, Es in Hm. cbn [fle] in Hm.
  exists r, s. rewrite Er, Es. auto.
Qed.

Lemma Qceiling_unique (x : Q) (k : Z) :
  (inject_Z (k - 1) < x)%Q -> (x <= inject_Z k)%Q -> Qceiling x = k.
Proof.
  intros H1 H2. apply Z.le_antisymm.
  - rewrite <- (Qceiling_Z k). apply Qceiling_resp_le. exact H2.
  - assert (H : (inject_Z (k - 1) < inject_Z (Qceiling x))%Q)
      by (eapply Qlt_le_trans; [exact H1 | apply Qle_ceiling]).
    rewrite <- Zlt_Qlt in H. lia.
Qed.

Lemma Qceiling_plus_Z (x : Q) (n : Z) : Qceiling (x + inject_Z n) = Qceiling x + n.
Proof.
  apply Qceiling_unique.
  - replace (Qceiling x + n - 1) with ((Qceiling x - 1) + n) by lia.
    rewrite inject_Z_plus. pose proof (Qceiling_lt x). lra.
  - rewrite inject_Z_plus. pose proof (Qle_ceiling x). lra.
Qed.

Lemma Qfloor_Qceiling (x : Q) : Qfloor x <= Qceiling x <= Qfloor x + 1.
Proof.
  pose proof (Qfloor_le x) as H1. pose proof (Qlt_floor x) as H2.
  pose proof (Qle_ceiling x) as H3. pose proof (Qceiling_lt x) as H4.
  split.
  - assert (H : (inject_Z (Qfloor x) <= inject_Z (Qceiling x))%Q) by lra.
    rewrite <- Zle_Qle in H. exact H.
  - assert (H : (inject_Z (Qceiling x - 1) < inject_Z (Qfloor x + 1))%Q) by lra.
    rewrite <- Zlt_Qlt in H. lia.
Qed.

(** A quotient of integers between two integers. *)
Lemma Zquot_between (n d lo hi : Z) :
  0 < d -> lo * d <= n <= hi * d ->
  (inject_Z lo <= inject_Z n / inject_Z d <= inject_Z hi)%Q.
Proof.
  intros Hd [H1 H2].
  assert (Hd' : (0 < inject_Z d)%Q) by (change 0%Q with (inject_Z 0); rewrite <- Zlt_Qlt; exact Hd).
  split.
  - apply Qle_shift_div_l; [exact Hd'|]. rewrite <- inject_Z_mult, <- Zle_Qle. exact H1.
  - apply Qle_shift_div_r; [exact Hd'|]. rewrite <- inject_Z_mult, <- Zle_Qle. exact H2.
Qed.

Lemma Zquot_mono (n n' d : Z) :
  0 < d -> n <= n' -> (inject_Z n / inject_Z d <= inject_Z n' / inject_Z d)%Q.
Proof.
  intros Hd H.
  assert (Hd' : (0 < inject_Z d)%Q) by (change 0%Q with (inject_Z 0); rewrite <- Zlt_Qlt; exact Hd).
  unfold Qdiv. apply Qmult_le_compat_r; [rewrite <- Zle_Qle; exact H|].
  apply Qlt_le_weak, Qinv_lt_0_compat. exact Hd'.
Qed.

Lemma map_const_repeat {A B : Type} (b : B) (l : list A) :
  List.map (fun _ => b) l = repeat b (length l).
Proof. induction l; simpl; congruence. Qed.

(** ** Numbers: Python's operations on [int]s *)

Lemma Qltb_ge (a b : Q) : Qltb a b = false <-> (b <= a)%Q.
Proof.
  unfold Qltb. rewrite negb_false_iff. apply Qle_bool_iff.
Qed.

(** An [int] of at most 53 bits converts to the [float] of the same value. *)
Lemma to_float_int (z : Z) :
  - 2 ^ 53 <= z <= 2 ^ 53 -> to_float (PyInt z) = Some (Finite (inject_Z z)).
Proof. intros H. unfold to_float. rewrite round64_int by exact H. reflexivity. Qed.

(** A [float] at most [v] is not above [v]. *)
Lemma float_lt_false (x : float) (v : Q) :
  fle x (Finite v) -> float_lt (Finite v) x = false.
Proof.
  destruct x as [r|[|]|]; cbn [fle float_lt]; intros H; try reflexivity; try contradiction.
  apply Qltb_ge. exact H.
Qed.

Lemma float_lt_false_r (x : float) (v : Q) :
  fle (Finite v) x -> float_lt x (Finite v) = false.
Proof.
  destruct x as [r|[|]|]; cbn [fle float_lt]; intros H; try reflexivity; try contradiction.
  apply Qltb_ge. exact H.
Qed.

Lemma fold_max_ints (r : list Z) (x : Z) :
  exists m, fold_left (fun m y => if num_lt m y then y else m) (ints r) (PyInt x) = PyInt m
            /\ (m = x \/ In m r) /\ x <= m /\ (forall v, In v r -> v <= m).
Proof.
  revert x; induction r as [|y r IH]; intros x; simpl.
  - exists x. split; [reflexivity|]. split; [auto|]. split; [lia | tauto].
  - destruct (x <? y) eqn:E.
    + apply Z.ltb_lt in E. destruct (IH y) as (m & Hm & H1 & H2 & H3).
      exists m. split; [exact Hm|]. split; [destruct H1; auto|]. split; [lia|].
      intros v [<-|Hv]; auto.
    + apply Z.ltb_ge in E. destruct (IH x) as (m & Hm & H1 & H2 & H3).
      exists m. split; [exact Hm|]. split; [destruct H1; auto|]. split; [exact H2|].
      intros v [<-|Hv]; [lia | auto].
Qed.

Lemma fold_min_ints (r : list Z) (x : Z) :
  exists m, fold_left (fun m y => if num_lt y m then y else m) (ints r) (PyInt x) = PyInt m
            /\ (m = x \/ In m r) /\ m <= x /\ (forall v, In v r -> m <= v).
Proof.
  revert x; induction r as [|y r IH]; intros x; simpl.
  - exists x. split; [reflexivity|]. split; [auto|]. split; [lia | tauto].
  - destruct (y <? x) eqn:E.
    + apply Z.ltb_lt in E. destruct (IH y) as (m & Hm & H1 & H2 & H3).
      exists m. split; [exact Hm|]. split; [destruct H1; auto|]. split; [lia|].
      intros v [<-|Hv]; auto.
    + apply Z.ltb_ge in E. destruct (IH x) as (m & Hm & H1 & H2 & H3).
      exists m. split; [exact Hm|]. split; [destruct H1; auto|]. split; [exact H2|].
      intros v [<-|Hv]; [lia | auto].
Qed.

Lemma py_max_ints (l : list Z) :
  l <> [] ->
  exists m, py_max (ints l) = Some (PyInt m) /\ In m l /\ (forall v, In v l -> v <= m).
Proof.
  destruct l as [|x r]; [congruence|]. intros _.
  destruct (fold_max_ints r x) as (m & Hm & H1 & H2 & H3).
  exists m. simpl. rewrite Hm. split; [reflexivity|]. split.
  - destruct H1 as [->|H1]; auto.
  - intros v [<-|Hv]; auto.
Qed.

Lemma py_min_ints (l : list Z) :
  l <> [] ->
  exists m, py_min (ints l) = Some (PyInt m) /\ In m l /\ (forall v, In v l -> m <= v).
Proof.
  destruct l as [|x r]; [congruence|]. intros _.
  destruct (fold_min_ints r x) as (m & Hm & H1 & H2 & H3).
  exists m. simpl. rewrite Hm. split; [reflexivity|]. split.
  - destruct H1 as [->|H1]; auto.
  - intros v [<-|Hv]; auto.
Qed.

Lemma mapM_ints (f : pynum -> option Z) (g : Z -> Z) (l : list Z) :
  (forall v, In v l -> f (PyInt v) = Some (g v)) ->
  mapM f (ints l) = Some (List.map g l).
Proof.
  induction l as [|x l IH]; simpl; intros H; [reflexivity|].
  rewrite (H x) by auto. simpl. rewrite IH by auto. reflexivity.
Qed.

(** ** The linear rescale *)

Lemma linear_map_ends (mn mx new_min new_max : Z) :
  mn < mx ->
  (linear_map mn mx new_min new_max mn == inject_Z new_min)%Q
  /\ (linear_map mn mx new_min new_max mx == inject_Z new_max)%Q.
Proof.
  intros Hlt. unfold linear_map.
  assert (Hd : ~ (inject_Z (mx - mn) == 0)%Q).
  { change 0%Q with (inject_Z 0). rewrite inject_Z_injective. lia. }
  split.
  - replace ((mn - mn) * (new_max - new_min)) with 0 by lia.
    change (inject_Z 0) with 0%Q. field. exact Hd.
  - rewrite inject_Z_mult. unfold Z.sub at 2. rewrite inject_Z_plus, inject_Z_opp.
    field. exact Hd.
Qed.

(** The linear map is [slope * v + icpt]. *)
Lemma linear_map_affine (mn mx new_min new_max : Z) :
  mn < mx ->
  exists slope icpt : Q,
    forall v, (linear_map mn mx new_min new_max v == slope * inject_Z v + icpt)%Q.
Proof.
  intros Hlt.
  assert (Hd : ~ (inject_Z (mx - mn) == 0)%Q).
  { change 0%Q with (inject_Z 0). rewrite inject_Z_injective. lia. }
  exists (inject_Z (new_max - new_min) / inject_Z (mx - mn))%Q,
         (inject_Z new_min
          - inject_Z (new_max - new_min) / inject_Z (mx - mn) * inject_Z mn)%Q.
  intros v. unfold linear_map. rewrite inject_Z_mult.
  unfold Z.sub at 1. rewrite inject_Z_plus, inject_Z_opp. field. exact Hd.
Qed.

(** The quotient of the linear map lies between 0 and [new_max - new_min]. *)
Lemma rescaled_quotient_between (mn mx v R : Z) :
  mn < mx -> mn <= v <= mx ->
  (inject_Z (Z.min 0 R) <= inject_Z ((v - mn) * R) / inject_Z (mx - mn)
   <= inject_Z (Z.max 0 R))%Q.
Proof.
  intros Hlt Hv. apply Zquot_between; [lia|].
  destruct (Z.le_ge_cases 0 R) as [H|H].
  - rewrite Z.min_l, Z.max_r by exact H. nia.
  - rewrite Z.min_r, Z.max_l by lia. nia.
Qed.

(** On [int]s and bounds of at most 52 bits neither rounding leaves the
    integers that enclose the exact value: the ceiling of the result is the
    ceiling of the exact value or one less, and it is the exact value when
    this is an integer. *)
Lemma linear_map64_spec (mn mx new_min new_max v : Z) :
  mn < mx -> mn <= v <= mx ->
  - 2 ^ 52 <= new_min <= 2 ^ 52 -> - 2 ^ 52 <= new_max <= 2 ^ 52 ->
  exists q r : Q,
    round64 (inject_Z ((v - mn) * (new_max - new_min)) / inject_Z (mx - mn)) = Finite q
    /\ linear_map64 mn mx new_min new_max v = Finite r
    /\ Z.min new_min new_max <= Qceiling r <= Z.max new_min new_max
    /\ Qceiling (linear_map mn mx new_min new_max v) - 1 <= Qceiling r
       <= Qceiling (linear_map mn mx new_min new_max v)
    /\ (forall k, (linear_map mn mx new_min new_max v == inject_Z k)%Q -> Qceiling r = k).
Proof.
  intros Hlt Hv Hnm HnM. unfold linear_map64, linear_map.
  set (R := new_max - new_min).
  set (e0 := (inject_Z ((v - mn) * R) / inject_Z (mx - mn))%Q).
  pose proof (rescaled_quotient_between mn mx v R Hlt Hv) as [Hlo Hhi]. fold e0 in Hlo, Hhi.
  assert (H53 : 2 ^ 53 = 2 * 2 ^ 52) by reflexivity.
  pose proof (Qfloor_Qceiling e0) as Hfc.
  assert (Hj : Z.min 0 R <= Qfloor e0).
  { rewrite <- (Qfloor_Z (Z.min 0 R)). apply Qfloor_resp_le. exact Hlo. }
  assert (Hj' : Qceiling e0 <= Z.max 0 R).
  { rewrite <- (Qceiling_Z (Z.max 0 R)). apply Qceiling_resp_le. exact Hhi. }
  destruct (round64_between e0 (Qfloor e0) (Qceiling e0)) as (q & Eq & Hq1 & Hq2);
    [unfold R in *; lia | unfold R in *; lia
     | split; [apply Qfloor_le | apply Qle_ceiling] |].
  exists q. rewrite Eq. cbn [fadd].
  destruct (round64_between (q + inject_Z new_min)
                            (Qfloor e0 + new_min) (Qceiling e0 + new_min))
    as (r & Er & Hr1 & Hr2);
    [unfold R in *; lia | unfold R in *; lia
     | rewrite !inject_Z_plus; split; lra |].
  exists r. split; [reflexivity|]. split; [exact Er|].
  assert (Hc1 : Qfloor e0 + new_min <= Qceiling r).
  { rewrite <- (Qceiling_Z (Qfloor e0 + new_min)). apply Qceiling_resp_le. exact Hr1. }
  assert (Hc2 : Qceiling r <= Qceiling e0 + new_min).
  { rewrite <- (Qceiling_Z (Qceiling e0 + new_min)). apply Qceiling_resp_le. exact Hr2. }
  rewrite Qceiling_plus_Z.
  split; [unfold R in *; lia|]. split; [lia|].
  intros k Hk.
  assert (He : (e0 == inject_Z (k - new_min))%Q).
  { unfold Z.sub. rewrite inject_Z_plus, inject_Z_opp. lra. }
  assert (Hf : Qfloor e0 = k - new_min) by (rewrite (Qfloor_comp _ _ He); apply Qfloor_Z).
  assert (Hg : Qceiling e0 = k - new_min) by (rewrite (Qceiling_comp _ _ He); apply Qceiling_Z).
  lia.
Qed.

(** Both roundings are monotone, so the outputs follow the inputs. *)
Lemma linear_map64_mono (mn mx new_min new_max v v' : Z) (r r' : Q) :
  mn < mx -> mn <= v -> v <= v' -> v' <= mx ->
  - 2 ^ 52 <= new_min <= 2 ^ 52 -> - 2 ^ 52 <= new_max <= 2 ^ 52 ->
  linear_map64 mn mx new_min new_max v = Finite r ->
  linear_map64 mn mx new_min new_max v' = Finite r' ->
  (new_min <= new_max -> Qceiling r <= Qceiling r')
  /\ (new_max <= new_min -> Qceiling r' <= Qceiling r).
Proof.
  intros Hlt H1 H2 H3 Hnm HnM. unfold linear_map64.
  set (R := new_max - new_min).
  assert (H53 : 2 ^ 53 = 2 * 2 ^ 52) by reflexivity.
  pose proof (rescaled_quotient_between mn mx v R Hlt ltac:(lia)) as [Hlo Hhi].
  pose proof (rescaled_quotient_between mn mx v' R Hlt ltac:(lia)) as [Hlo' Hhi'].
  set (e0 := (inject_Z ((v - mn) * R) / inject_Z (mx - mn))%Q) in *.
  set (e0' := (inject_Z ((v' - mn) * R) / inject_Z (mx - mn))%Q) in *.
  intros Er Er'. split; intros Hord.
  - assert (He : (e0 <= e0')%Q) by (apply Zquot_mono; [lia | unfold R; nia]).
    destruct (round64_finite_le (Z.min 0 R) (Z.max 0 R) e0 e0')
      as (q & q' & Eq & Eq' & Hq1 & Hq2 & Hq3);
      [unfold R; lia | unfold R; lia | exact Hlo | exact He | exact Hhi' |].
    rewrite Eq in Er. rewrite Eq' in Er'. cbn [fadd] in Er, Er'.
    pose proof (round64_mono (q + inject_Z new_min) (q' + inject_Z new_min)) as Hm.
    rewrite Er, Er' in Hm. cbn [fle] in Hm.
    apply Qceiling_resp_le, Hm. lra.
  - assert (He : (e0' <= e0)%Q) by (apply Zquot_mono; [lia | unfold R; nia]).
    destruct (round64_finite_le (Z.min 0 R) (Z.max 0 R) e0' e0)
      as (q' & q & Eq' & Eq & Hq1 & Hq2 & Hq3);
      [unfold R; lia | unfold R; lia | exact Hlo' | exact He | exact Hhi |].
    rewrite Eq in Er. rewrite Eq' in Er'. cbn [fadd] in Er, Er'.
    pose proof (round64_mono (q' + inject_Z new_min) (q + inject_Z new_min)) as Hm.
    rewrite Er, Er' in Hm. cbn [fle] in Hm.
    apply Qceiling_resp_le, Hm. lra.
Qed.

(** What [rescale_to_range] computes on a list of [int]s. *)
Lemma rescale_to_range_ints_equal (values : list Z) (new_max new_min m : Z) :
  values <> [] -> (forall v, In v values -> v = m) ->
  rescale_to_range (ints values) new_max new_min
  = Some (repeat new_min (length values)).
Proof.
  intros Hne Hall.
  destruct (py_max_ints values Hne) as (mx & Hmx & Hmx_in & _).
  destruct (py_min_ints values Hne) as (mn & Hmn & Hmn_in & _).
  unfold rescale_to_range. rewrite Hmx, Hmn. cbn [bind num_sub arith].
  rewrite (Hall mx Hmx_in), (Hall mn Hmn_in), Z.sub_diag. cbn [num_is_zero Z.eqb].
  rewrite <- map_const_repeat. apply mapM_ints. intros v _. reflexivity.
Qed.

Lemma rescale_to_range_ints (values : list Z) (new_max new_min mn mx : Z) :
  py_min (ints values) = Some (PyInt mn) -> py_max (ints values) = Some (PyInt mx) ->
  mn < mx -> (forall v, In v values -> mn <= v <= mx) ->
  - 2 ^ 52 <= new_min <= 2 ^ 52 -> - 2 ^ 52 <= new_max <= 2 ^ 52 ->
  rescale_to_range (ints values) new_max new_min
  = Some (List.map (fun v => match linear_map64 mn mx new_min new_max v with
                             | Finite r => Qceiling r
                             | _ => 0
                             end) values).
Proof.
  intros Hmn Hmx Hlt Hin Hnm HnM.
  unfold rescale_to_range. rewrite Hmx, Hmn. cbn [bind num_sub arith].
  assert (E : num_is_zero (PyInt (mx - mn)) = false) by (apply Z.eqb_neq; lia).
  rewrite E. apply mapM_ints. intros v Hv. cbn [bind num_sub num_mul arith num_truediv].
  assert (E' : (mx - mn =? 0) = false) by (apply Z.eqb_neq; lia). rewrite E'.
  destruct (linear_map64_spec mn mx new_min new_max v Hlt (Hin v Hv) Hnm HnM)
    as (q & r & Eq & Er & _).
  rewrite Eq. cbn [bind num_add arith to_float].
  assert (H53 : 2 ^ 53 = 2 * 2 ^ 52) by reflexivity.
  rewrite round64_int by lia. cbn [bind].
  pose proof Er as Er2. unfold linear_map64 in Er2. rewrite Eq in Er2.
  rewrite Er, Er2. reflexivity.
Qed.

(** C8 as stated fails.  [rescale_to_range([0, 1, 10**17], new_max=2,
    new_min=1)]: the linear map sends 1 to [1 + 10^-17], whose ceiling is 2;
    the code rounds the quotient to the float [1e-17] and the sum
    [1e-17 + 1] to [1.0], and returns 1 for it.  On [float]s the rounding can
    also go up, and the arithmetic can overflow:
    [rescale_to_range([0.0, 0.1], new_max=3, new_min=0)] is [[0, 4]], where
    the linear map sends the largest value to 3, and
    [rescale_to_range([0.0, 2.0**1023], new_max=10, new_min=1)] raises in
    [math.ceil]. *)
Lemma rescale_to_range_rounds_before_the_ceiling :
  (rescale_to_range (ints [0; 1; 100000000000000000]) 2 1 = Some [1; 1; 2]
   /\ Qceiling (linear_map 0 100000000000000000 1 2 1) = 2)
  /\ (round64 (1 # 10) = Finite (3602879701896397 # 36028797018963968)
      /\ rescale_to_range [PyFloat (Finite 0);
                           PyFloat (Finite (3602879701896397 # 36028797018963968))] 3 0
         = Some [0; 4])
  /\ (round64 (inject_Z (2 ^ 1023)) = Finite (inject_Z (2 ^ 1023))
      /\ rescale_to_range [PyFloat (Finite 0); PyFloat (Finite (inject_Z (2 ^ 1023)))] 10 1
         = None).
Proof. repeat split; vm_compute; reflexivity. Qed.

(** C8, amended.  On a non-empty list of [int]s, with bounds of at most 52
    bits, [rescale_to_range] returns one integer per input.  When all values
    are equal every output is [new_min].  Otherwise each output is the
    ceiling of the binary64 evaluation of the linear map that sends the
    smallest value to [new_min] and the largest to [new_max]; it is the
    ceiling of the exact image or one less, and it is the exact image when
    this is an integer. *)
Theorem rescale_to_range_ceiling_of_rounded_linear_map :
  forall (number_list : list Z) (new_max new_min : Z),
    number_list <> [] ->
    - 2 ^ 52 <= new_min <= 2 ^ 52 -> - 2 ^ 52 <= new_max <= 2 ^ 52 ->
    exists (mn mx : Z) (out : list Z),
      rescale_to_range (ints number_list) new_max new_min = Some out
      /\ In mn number_list /\ In mx number_list
      /\ (forall v, In v number_list -> mn <= v <= mx)
      /\ length out = length number_list
      /\ ((forall v w, In v number_list -> In w number_list -> v = w) ->
          out = repeat new_min (length number_list))
      /\ (mn < mx ->
          (linear_map mn mx new_min new_max mn == inject_Z new_min)%Q
          /\ (linear_map mn mx new_min new_max mx == inject_Z new_max)%Q
          /\ (exists slope icpt : Q,
                 forall v, (linear_map mn mx new_min new_max v
                            == slope * inject_Z v + icpt)%Q)
          /\ forall i v o,
               nth_error number_list i = Some v -> nth_error out i = Some o ->
               exists r : Q,
                 linear_map64 mn mx new_min new_max v = Finite r
                 /\ o = Qceiling r
                 /\ Qceiling (linear_map mn mx new_min new_max v) - 1 <= o
                    <= Qceiling (linear_map mn mx new_min new_max v)
                 /\ (forall k, (linear_map mn mx new_min new_max v == inject_Z k)%Q ->
                               o = k)).
Proof.
  intros l nM nm Hne Hnm HnM.
  destruct (py_max_ints l Hne) as (mx & Hmx & Hmx_in & Hub).
  destruct (py_min_ints l Hne) as (mn & Hmn & Hmn_in & Hlb).
  assert (Hin : forall v, In v l -> mn <= v <= mx) by (intros v Hv; split; auto).
  exists mn, mx.
  destruct (Z.eq_dec mn mx) as [E|E].
  - exists (repeat nm (length l)).
    split; [|split; [exact Hmn_in | split; [exact Hmx_in | split; [exact Hin | split; [|split]]]]].
    + apply (rescale_to_range_ints_equal l nM nm mn Hne).
      intros v Hv. specialize (Hin v Hv). lia.
    + apply repeat_length.
    + reflexivity.
    + lia.
  - assert (Hlt : mn < mx) by (specialize (Hin mn Hmn_in); lia).
    eexists.
    split; [apply (rescale_to_range_ints l nM nm mn mx); assumption|].
    split; [exact Hmn_in|]. split; [exact Hmx_in|]. split; [exact Hin|].
    split; [apply length_map|]. split.
    + intros Hall. exfalso. apply E. apply Hall; assumption.
    + intros _. destruct (linear_map_ends mn mx nm nM Hlt) as [He1 He2].
      split; [exact He1|]. split; [exact He2|].
      split; [apply linear_map_affine; exact Hlt|].
      intros i v o Hv Ho. rewrite nth_error_map, Hv in Ho. cbn [option_map] in Ho.
      apply nth_error_In in Hv.
      destruct (linear_map64_spec mn mx nm nM v Hlt (Hin v Hv) Hnm HnM)
        as (q & r & _ & Er & _ & Hc & Hk).
      rewrite Er in Ho. inversion Ho; subst o; clear Ho.
      exists r. split; [exact Er|]. split; [reflexivity|]. split; [exact Hc | exact Hk].
Qed.

(** The instance of C8 named by the specification: [5, 5, 5] rescaled with
    [new_min = 1] and [new_max = 10] is [1, 1, 1]. *)
Lemma rescale_to_range_ceiling_of_rounded_linear_map_witness :
  exists out, rescale_to_range (ints [5; 5; 5]) 10 1 = Some out /\ out = [1; 1; 1].
Proof.
  destruct (rescale_to_range_ceiling_of_rounded_linear_map [5; 5; 5] 10 1)
    as (mn & mx & out & Hout & _ & _ & _ & _ & Hall & _);
    [discriminate | split; vm_compute; discriminate | split; vm_compute; discriminate |].
  exists out. split; [exact Hout|].
  apply Hall. intros v w Hv Hw. simpl in Hv, Hw.
  destruct Hv as [<-|[<-|[<-|[]]]]; destruct Hw as [<-|[<-|[<-|[]]]]; reflexivity.
Defined.

(** On a non-empty list of [int]s, with bounds of at most 52 bits,
    [rescale_to_range] returns. *)
Lemma rescale_to_range_total (number_list : list Z) (new_max new_min : Z) :
  number_list <> [] ->
  - 2 ^ 52 <= new_min <= 2 ^ 52 -> - 2 ^ 52 <= new_max <= 2 ^ 52 ->
  exists out, rescale_to_range (ints number_list) new_max new_min = Some out
              /\ length out = length number_list.
Proof.
  intros Hne Hnm HnM.
  destruct (py_max_ints _ Hne) as (mx & Hmx & Hmx_in & Hub).
  destruct (py_min_ints _ Hne) as (mn & Hmn & Hmn_in & Hlb).
  destruct (Z.eq_dec mn mx) as [E|E].
  - exists (repeat new_min (length number_list)). split; [|apply repeat_length].
    apply (rescale_to_range_ints_equal _ _ _ mn Hne).
    intros v Hv. specialize (Hub v Hv). specialize (Hlb v Hv). lia.
  - eexists. split; [|apply length_map].
    apply (rescale_to_range_ints _ _ _ mn mx); try assumption.
    + specialize (Hub mn Hmn_in). lia.
    + intros v Hv; split; auto.
Qed.

(** ** The percentile buckets *)

(** An [int] of at most 53 bits against a rounded threshold: rounding is
    monotone and leaves the [int] where it is. *)
Lemma float_lt_int_round (v : Z) (q : Q) :
  - 2 ^ 53 <= v <= 2 ^ 53 -> (q <= inject_Z v)%Q ->
  float_lt (Finite (inject_Z v)) (round64 q) = false.
Proof.
  intros Hv Hq. apply float_lt_false.
  rewrite <- (round64_int v Hv). apply round64_mono. exact Hq.
Qed.

Lemma float_lt_round_int (v : Z) (q : Q) :
  - 2 ^ 53 <= v <= 2 ^ 53 -> (inject_Z v <= q)%Q ->
  float_lt (round64 q) (Finite (inject_Z v)) = false.
Proof.
  intros Hv Hq. apply float_lt_false_r.
  rewrite <- (round64_int v Hv). apply round64_mono. exact Hq.
Qed.

Lemma py_max_ints_spec (l : list Z) (mx : Z) :
  py_max (ints l) = Some (PyInt mx) -> In mx l /\ forall v, In v l -> v <= mx.
Proof.
  intros H. destruct l as [|x r]; [discriminate|].
  destruct (py_max_ints (x :: r)) as (m & Hm & H1 & H2); [discriminate|].
  rewrite H in Hm. inversion Hm; subst m. auto.
Qed.

(** The level of one value, given the largest value of the list: the
    thresholds are the rounded products of the largest value with 0.25, 0.5
    and 0.75. *)
Lemma rescale_to_percentiles_levels (number_list : list Z)
    (lowest median second_highest highest : Z) (mx : Z) :
  py_max (ints number_list) = Some (PyInt mx) -> - 2 ^ 53 <= mx <= 2 ^ 53 ->
  rescale_to_percentiles (ints number_list) lowest median second_highest highest
  = Some (List.map
            (fun val =>
               if num_lt val (PyFloat (round64 (inject_Z mx * (1#4)))) then lowest
               else if num_lt (PyFloat (round64 (inject_Z mx * (1#4)))) val
                       && num_lt val (PyFloat (round64 (inject_Z mx * (1#2))))
                    then median
               else if num_lt (PyFloat (round64 (inject_Z mx * (1#2)))) val
                       && num_lt val (PyFloat (round64 (inject_Z mx * (3#4))))
                    then second_highest
               else highest) (ints number_list)).
Proof.
  intros Hmx Hb. unfold rescale_to_percentiles, _cal_percentile. rewrite Hmx.
  unfold quarter, half, three_quarters. cbn [bind num_mul arith to_float].
  rewrite round64_int by exact Hb. reflexivity.
Qed.

(** On a non-empty list of [int]s of at most 53 bits
    [rescale_to_percentiles] returns. *)
Lemma rescale_to_percentiles_total (number_list : list Z)
    (lowest median second_highest highest : Z) :
  number_list <> [] ->
  (forall v, In v number_list -> - 2 ^ 53 <= v <= 2 ^ 53) ->
  exists out,
    rescale_to_percentiles (ints number_list) lowest median second_highest highest
    = Some out
    /\ length out = length number_list.
Proof.
  intros Hne Hb. destruct (py_max_ints _ Hne) as (mx & Hmx & Hin & _).
  rewrite (rescale_to_percentiles_levels _ _ _ _ _ mx Hmx (Hb mx Hin)).
  eexists; split; [reflexivity|]. unfold ints. rewrite !length_map. reflexivity.
Qed.

(** In a list of [int]s of at most 53 bits every value at or above three
    quarters of the largest value gets the highest level. *)
Lemma rescale_to_percentiles_top (number_list : list Z)
    (lowest median second_highest highest : Z) (mx : Z) (out : list Z) :
  (forall v, In v number_list -> - 2 ^ 53 <= v <= 2 ^ 53) ->
  py_max (ints number_list) = Some (PyInt mx) ->
  rescale_to_percentiles (ints number_list) lowest median second_highest highest
  = Some out ->
  forall i v, nth_error number_list i = Some v ->
              (inject_Z mx * (3#4) <= inject_Z v)%Q ->
              nth_error out i = Some highest.
Proof.
  intros Hb Hmx Hout i v Hv Hge.
  destruct (py_max_ints_spec _ _ Hmx) as [Hin Hub].
  rewrite (rescale_to_percentiles_levels _ _ _ _ _ mx Hmx (Hb mx Hin)) in Hout.
  inversion Hout; subst; clear Hout.
  unfold ints. rewrite !nth_error_map, Hv. cbn [option_map num_lt]. f_equal.
  pose proof (nth_error_In _ _ Hv) as Hvin.
  assert (Hle : (inject_Z v <= inject_Z mx)%Q) by (rewrite <- Zle_Qle; auto).
  rewrite (float_lt_int_round v (inject_Z mx * (1#4))) by (auto; lra).
  rewrite (float_lt_int_round v (inject_Z mx * (1#2))) by (auto; lra).
  rewrite (float_lt_int_round v (inject_Z mx * (3#4))) by (auto; lra).
  rewrite !andb_false_r. reflexivity.
Qed.

(** A value that is exactly the first or the second threshold of a list of
    [int]s with a positive largest value fails every strict comparison of the
    first three branches and is given the highest level as well. *)
Lemma rescale_to_percentiles_threshold_value (number_list : list Z)
    (lowest median second_highest highest : Z) (mx : Z) (out : list Z) :
  (forall v, In v number_list -> - 2 ^ 53 <= v <= 2 ^ 53) ->
  py_max (ints number_list) = Some (PyInt mx) -> 0 < mx ->
  rescale_to_percentiles (ints number_list) lowest median second_highest highest
  = Some out ->
  forall i v, nth_error number_list i = Some v ->
              (inject_Z v == inject_Z mx * (1#4) \/ inject_Z v == inject_Z mx * (1#2))%Q ->
              nth_error out i = Some highest.
Proof.
  intros Hb Hmx Hpos Hout i v Hv Heq.
  destruct (py_max_ints_spec _ _ Hmx) as [Hin Hub].
  rewrite (rescale_to_percentiles_levels _ _ _ _ _ mx Hmx (Hb mx Hin)) in Hout.
  inversion Hout; subst; clear Hout.
  unfold ints. rewrite !nth_error_map, Hv. cbn [option_map num_lt]. f_equal.
  pose proof (nth_error_In _ _ Hv) as Hvin.
  assert (Hp : (0 < inject_Z mx)%Q)
    by (change 0%Q with (inject_Z 0); rewrite <- Zlt_Qlt; exact Hpos).
  destruct Heq as [Heq|Heq].
  - rewrite (float_lt_int_round v (inject_Z mx * (1#4))) by (auto; lra).
    rewrite (float_lt_round_int v (inject_Z mx * (1#4))) by (auto; lra).
    rewrite (float_lt_round_int v (inject_Z mx * (1#2))) by (auto; lra).
    reflexivity.
  - rewrite (float_lt_int_round v (inject_Z mx * (1#4))) by (auto; lra).
    rewrite (float_lt_int_round v (inject_Z mx * (1#2))) by (auto; lra).
    rewrite (float_lt_round_int v (inject_Z mx * (1#2))) by (auto; lra).
    rewrite !andb_false_r. reflexivity.
Qed.

(** C2.  [rescale_to_percentiles([1, 2, 4])] with the default levels: the
    thresholds are 1.0, 2.0 and 3.0; the value 1, equal to the 25% threshold,
    and the value 2, equal to the 50% threshold, both receive the highest
    level 8, not the level of the lower adjacent bucket (2 and 4). *)
Theorem rescale_to_percentiles_boundary_in_top_bucket :
  _cal_percentile [PyInt 1; PyInt 2; PyInt 4] quarter = Some (PyFloat (Finite 1))
  /\ _cal_percentile [PyInt 1; PyInt 2; PyInt 4] half = Some (PyFloat (Finite 2))
  /\ _cal_percentile [PyInt 1; PyInt 2; PyInt 4] three_quarters = Some (PyFloat (Finite 3))
  /\ rescale_to_percentiles [PyInt 1; PyInt 2; PyInt 4] 2 4 6 8 = Some [8; 8; 8].
Proof. repeat split; vm_compute; reflexivity. Qed.

(** ** The color intensity scale *)

Lemma get_map_values {V W : Type} (h : V -> W) (k : pystr) (d : dict V) :
  get k (List.map (fun kv => (fst kv, h (snd kv))) d) = option_map h (get k d).
Proof.
  induction d as [|[k' v] d IH]; simpl; [reflexivity|].
  destruct (str_eqb k k'); [reflexivity | exact IH].
Qed.

Lemma keys_map_values {V W : Type} (h : V -> W) (d : dict V) :
  keys (List.map (fun kv => (fst kv, h (snd kv))) d) = keys d.
Proof. unfold keys. rewrite map_map; reflexivity. Qed.

Lemma values_int_values (d : dict Z) : values (int_values d) = ints (values d).
Proof. unfold values, int_values, ints. rewrite !map_map. reflexivity. Qed.

(** One rounded operation on finite numbers: an increasing (decreasing)
    exact operation keeps (reverses) the order, and the bounds are kept when
    they are integers of at most 53 bits. *)
Lemma finite_le_map (F : float -> float) (g : Q -> Q) (lo hi lo' hi' : Z)
    (x y : float) :
  (forall r, F (Finite r) = round64 (g r)) ->
  - 2 ^ 53 <= lo' -> hi' <= 2 ^ 53 ->
  (forall r s, (inject_Z lo <= r)%Q -> (r <= s)%Q -> (s <= inject_Z hi)%Q ->
               (inject_Z lo' <= g r)%Q /\ (g r <= g s)%Q /\ (g s <= inject_Z hi')%Q) ->
  finite_le lo hi x y -> finite_le lo' hi' (F x) (F y).
Proof.
  intros HF Hlo Hhi Hg (r & s & -> & -> & H1 & H2 & H3).
  rewrite !HF. destruct (Hg r s H1 H2 H3) as (G1 & G2 & G3).
  apply round64_finite_le; assumption.
Qed.

Lemma finite_le_map_anti (F : float -> float) (g : Q -> Q) (lo hi lo' hi' : Z)
    (x y : float) :
  (forall r, F (Finite r) = round64 (g r)) ->
  - 2 ^ 53 <= lo' -> hi' <= 2 ^ 53 ->
  (forall r s, (inject_Z lo <= r)%Q -> (r <= s)%Q -> (s <= inject_Z hi)%Q ->
               (inject_Z lo' <= g s)%Q /\ (g s <= g r)%Q /\ (g r <= inject_Z hi')%Q) ->
  finite_le lo hi x y -> finite_le lo' hi' (F y) (F x).
Proof.
  intros HF Hlo Hhi Hg (r & s & -> & -> & H1 & H2 & H3).
  rewrite !HF. destruct (Hg r s H1 H2 H3) as (G1 & G2 & G3).
  apply round64_finite_le; assumption.
Qed.

(** The normalisation is increasing and stays in 0..100. *)
Lemma normalized_monotone (mn mx v v' : Z) :
  mn < mx -> mn <= v -> v <= v' -> v' <= mx ->
  finite_le 0 100 (normalized mn mx v) (normalized mn mx v').
Proof.
  intros Hlt H1 H2 H3. unfold normalized.
  apply (finite_le_map (fun x => fmul x (Finite 100)) (fun r => r * 100)%Q 0 1);
    [reflexivity | lia | lia | |].
  - intros r s. unfold inject_Z. intros; repeat split; lra.
  - destruct (Zquot_between (v - mn) (mx - mn) 0 1) as [Ha _]; [lia | lia|].
    destruct (Zquot_between (v' - mn) (mx - mn) 0 1) as [_ Hb]; [lia | lia|].
    apply round64_finite_le; [lia | lia | exact Ha | apply Zquot_mono; lia | exact Hb].
Qed.

(** The inversion followed by the remapping is decreasing and maps 0..100
    into 15..60. *)
Lemma remapped_inverted_antitone (x y : float) :
  finite_le 0 100 x y -> finite_le 15 60 (remapped (inverted y)) (remapped (inverted x)).
Proof.
  intros H. unfold remapped.
  apply (finite_le_map (fun u => fadd u (Finite 15)) (fun r => r + 15)%Q 0 45);
    [reflexivity | lia | lia | intros r s; unfold inject_Z; intros; repeat split; lra |].
  apply (finite_le_map (fun u => fdiv u (Finite 100)) (fun r => r * (1 # 100))%Q 0 4500);
    [reflexivity | lia | lia | intros r s; unfold inject_Z; intros; repeat split; lra |].
  apply (finite_le_map (fun u => fmul u (Finite 45)) (fun r => r * 45)%Q 0 100);
    [reflexivity | lia | lia | intros r s; unfold inject_Z; intros; repeat split; lra |].
  apply (finite_le_map (fun u => fsub u (Finite 0)) (fun r => r + - 0)%Q 0 100);
    [reflexivity | lia | lia | intros r s; unfold inject_Z; intros; repeat split; lra |].
  apply (finite_le_map_anti inverted (fun r => 100 + - r)%Q 0 100);
    [reflexivity | lia | lia | intros r s; unfold inject_Z; intros; repeat split; lra |].
  exact H.
Qed.

(** The two ends are exact. *)
Lemma normalized_ends (mn mx : Z) :
  mn < mx ->
  normalized mn mx mn = Finite 0 /\ normalized mn mx mx = Finite 100.
Proof.
  intros Hlt. unfold normalized.
  assert (Hd : ~ (inject_Z (mx - mn) == 0)%Q).
  { change 0%Q with (inject_Z 0). rewrite inject_Z_injective. lia. }
  split.
  - rewrite (round64_comp _ 0); [vm_compute; reflexivity|].
    rewrite Z.sub_diag. change (inject_Z 0) with 0%Q. field. exact Hd.
  - rewrite (round64_comp _ 1); [vm_compute; reflexivity|]. field. exact Hd.
Qed.

Lemma remapped_inverted_ends :
  remapped (inverted (Finite 0)) = Finite 60
  /\ remapped (inverted (Finite 100)) = Finite 15.
Proof. split; vm_compute; reflexivity. Qed.

(** With its default bounds [_color_scaling] never raises. *)
Lemma _color_scaling_default (z : float) :
  _color_scaling (PyFloat z) (PyInt 15) (PyInt 60) (PyInt 0) (PyInt 100)
  = Some (PyFloat (remapped (inverted z))).
Proof.
  unfold _color_scaling, _get_remaining_perc, num_sub, num_mul, num_add, num_truediv.
  cbn [arith].
  change (60 - 15) with 45. change (100 - 0) with 100.
  repeat (rewrite ?to_float_int by lia; cbn [bind to_float arith]).
  reflexivity.
Qed.

(** What [scale_word_dict] computes on a dictionary of [int]s. *)
Lemma scale_word_dict_ints (word_dict : dict Z) (mn mx : Z) :
  wf word_dict ->
  py_min (ints (values word_dict)) = Some (PyInt mn) ->
  py_max (ints (values word_dict)) = Some (PyInt mx) ->
  mn < mx -> (forall v, In v (values word_dict) -> mn <= v <= mx) ->
  scale_word_dict (int_values word_dict)
  = Some (List.map (fun kv => (fst kv, PyFloat (remapped (inverted (normalized mn mx (snd kv))))))
                   word_dict).
Proof.
  intros Hwf Hmn Hmx Hlt Hin. unfold scale_word_dict.
  rewrite values_int_values, Hmn, Hmx. cbn [bind].
  set (color := fun n : pynum =>
                  match n with
                  | PyInt v => PyFloat (remapped (inverted (normalized mn mx v)))
                  | _ => n
                  end).
  rewrite (foldM_ext _ (fun acc kv =>
                          w <- Some (color (snd kv)) ;; Some (set (fst kv) w acc))).
  - rewrite (foldM_set_build fst _ (fun kv => color (snd kv))).
    + unfold int_values. rewrite map_map. reflexivity.
    + unfold int_values. rewrite map_map. exact Hwf.
    + reflexivity.
    + intros a _ [].
  - intros s [k n] Hk. unfold int_values in Hk. apply in_map_iff in Hk.
    destruct Hk as [[k' v] [E Hk]]. cbn [fst snd] in E. inversion E; subst k n; clear E.
    assert (Hv : mn <= v <= mx) by (apply Hin; apply (in_map snd) in Hk; exact Hk).
    cbn [fst snd color bind num_sub arith num_truediv].
    assert (E0 : (mx - mn =? 0) = false) by (apply Z.eqb_neq; lia). rewrite E0.
    destruct (Zquot_between (v - mn) (mx - mn) 0 1) as [Ha Hb]; [lia | lia|].
    destruct (round64_between (inject_Z (v - mn) / inject_Z (mx - mn)) 0 1)
      as (t & Et & _); [lia | lia | split; assumption |].
    rewrite Et. cbn [bind num_mul arith to_float].
    rewrite round64_int by lia. cbn [bind].
    rewrite _color_scaling_default. cbn [bind]. unfold normalized. rewrite Et. reflexivity.
Qed.

(** Without the zero-range guard that [rescale_to_range] has, a dictionary
    of [int]s whose values are all equal makes [scale_word_dict] divide by
    zero. *)
Lemma scale_word_dict_equal_values_fail (word_dict : dict Z) :
  word_dict <> [] ->
  (forall v w, In v (values word_dict) -> In w (values word_dict) -> v = w) ->
  scale_word_dict (int_values word_dict) = None.
Proof.
  intros Hne Hall.
  assert (Hv : values word_dict <> []) by (destruct word_dict; [congruence | discriminate]).
  destruct (py_max_ints _ Hv) as (mx & Hmx & Hmx_in & _).
  destruct (py_min_ints _ Hv) as (mn & Hmn & Hmn_in & _).
  unfold scale_word_dict. rewrite values_int_values, Hmn, Hmx. cbn [bind].
  destruct word_dict as [|[k v] d]; [congruence|].
  cbn [int_values List.map foldM fst snd bind num_sub arith num_truediv].
  rewrite (Hall mx mn Hmx_in Hmn_in), Z.sub_diag. reflexivity.
Qed.

(** C3.  [scale_word_dict({"a": 1})]: the only value is both the smallest
    and the largest, [max_val - min_val] is 0 and the division raises
    [ZeroDivisionError]; the function returns no result on this non-empty
    mapping. *)
Theorem scale_word_dict_single_entry_fails :
  scale_word_dict [(str "a", PyInt 1)] = None.
Proof. reflexivity. Qed.

(** C9 as stated fails.  In [{"a": 0, "b": 1, "c": 10**17}] the value 1 is
    larger than the value 0, yet both are mapped to 60.0: the normalisation
    [1e-15] of 1 is lost when it is subtracted from 100.  In
    [{"a": 0, "b": 2, "c": 3}] the value 2 is mapped to 30.000000000000007,
    where inverting and remapping its normalisation [200/3] gives 30.  With
    [float]s among the values the differences can overflow or cancel:
    [{"a": -2.0**1023, "b": 2.0**1023}] maps its largest value to a NaN,
    [{"a": 0.5, "b": 10**400}] raises [OverflowError] and
    [{"a": 2.0**53, "b": 2**53 + 1}] raises [ZeroDivisionError]. *)
Lemma scale_word_dict_rounds_every_step :
  (scale_word_dict (int_values [(str "a", 0); (str "b", 1); (str "c", 100000000000000000)])
   = Some [(str "a", PyFloat (Finite 60)); (str "b", PyFloat (Finite 60));
           (str "c", PyFloat (Finite 15))])
  /\ (scale_word_dict (int_values [(str "a", 0); (str "b", 2); (str "c", 3)])
      = Some [(str "a", PyFloat (Finite 60));
              (str "b", PyFloat (Finite (4222124650659841 # 140737488355328)));
              (str "c", PyFloat (Finite 15))]
      /\ ((100 - inject_Z (2 - 0) / inject_Z (3 - 0) * 100) * (60 - 15) / 100 + 15 == 30)%Q
      /\ (30 < 4222124650659841 # 140737488355328)%Q)
  /\ (round64 (inject_Z (2 ^ 1023)) = Finite (inject_Z (2 ^ 1023))
      /\ scale_word_dict [(str "a", PyFloat (Finite (- inject_Z (2 ^ 1023))));
                          (str "b", PyFloat (Finite (inject_Z (2 ^ 1023))))]
         = Some [(str "a", PyFloat (Finite 60)); (str "b", PyFloat NaN)])
  /\ scale_word_dict [(str "a", PyFloat (Finite (1 # 2))); (str "b", PyInt (10 ^ 400))]
     = None
  /\ (round64 (inject_Z (2 ^ 53)) = Finite (inject_Z (2 ^ 53))
      /\ scale_word_dict [(str "a", PyFloat (Finite (inject_Z (2 ^ 53))));
                          (str "b", PyInt (2 ^ 53 + 1))]
         = None).
Proof. repeat split; vm_compute; reflexivity. Qed.

(** C9, amended.  On a dictionary of [int]s with at least two distinct
    values [scale_word_dict] returns a dictionary over the same keys.  The
    value [s] stored for an input [v] is obtained in binary64, every
    operation rounded, from the min-max normalisation [z] of [v] to 0..100 by
    inverting it ([100 - z]) and remapping 0..100 to 15..60.  It lies between
    15 and 60; the largest input gets exactly 15, the smallest exactly 60,
    and a larger input never gets a larger output. *)
Theorem scale_word_dict_inverts_and_remaps_in_binary64 :
  forall (word_dict : dict Z),
    wfb word_dict = true ->
    (exists v1 v2, In v1 (values word_dict) /\ In v2 (values word_dict) /\ v1 <> v2) ->
    exists (mn mx : Z) (scaled_dict : dict pynum),
      scale_word_dict (int_values word_dict) = Some scaled_dict
      /\ In mn (values word_dict) /\ In mx (values word_dict)
      /\ (forall v, In v (values word_dict) -> mn <= v <= mx)
      /\ keys scaled_dict = keys word_dict
      /\ (forall k v, get k word_dict = Some v ->
            exists z s : Q,
              normalized mn mx v = Finite z
              /\ remapped (inverted (Finite z)) = Finite s
              /\ get k scaled_dict = Some (PyFloat (Finite s))
              /\ (0 <= z <= 100)%Q
              /\ (15 <= s <= 60)%Q
              /\ (v = mx -> s = 15%Q)
              /\ (v = mn -> s = 60%Q))
      /\ (forall k v s k' v' s',
            get k word_dict = Some v -> get k scaled_dict = Some (PyFloat (Finite s)) ->
            get k' word_dict = Some v' -> get k' scaled_dict = Some (PyFloat (Finite s')) ->
            v <= v' -> (s' <= s)%Q).
Proof.
  intros d Hwf (v1 & v2 & Hv1 & Hv2 & Hne).
  apply wfb_wf in Hwf.
  assert (Hnil : values d <> []) by (intros E; rewrite E in Hv1; exact Hv1).
  destruct (py_max_ints _ Hnil) as (mx & Hmx & Hmx_in & Hub).
  destruct (py_min_ints _ Hnil) as (mn & Hmn & Hmn_in & Hlb).
  assert (Hin : forall v, In v (values d) -> mn <= v <= mx) by (intros v Hv; split; auto).
  assert (Hlt : mn < mx).
  { pose proof (Hin v1 Hv1). pose proof (Hin v2 Hv2). lia. }
  set (color := fun v : Z => PyFloat (remapped (inverted (normalized mn mx v)))).
  exists mn, mx, (List.map (fun kv => (fst kv, color (snd kv))) d).
  split; [apply scale_word_dict_ints; assumption|].
  split; [exact Hmn_in|]. split; [exact Hmx_in|]. split; [exact Hin|].
  split; [apply (keys_map_values color)|].
  assert (Hget : forall k, get k (List.map (fun kv => (fst kv, color (snd kv))) d)
                           = option_map color (get k d))
    by (intros k; apply (get_map_values color)).
  assert (Hval : forall k v, get k d = Some v -> mn <= v <= mx).
  { intros k v Hk. apply get_Some_In in Hk. apply (in_map snd) in Hk. apply Hin. exact Hk. }
  split.
  - intros k v Hk. pose proof (Hval k v Hk) as Hv.
    destruct (normalized_monotone mn mx v v Hlt) as (z & z' & Ez & Ez' & Hz1 & _ & Hz2);
      [lia | lia | lia|].
    rewrite Ez in Ez'. inversion Ez'; subst z'; clear Ez'.
    destruct (remapped_inverted_antitone (Finite z) (Finite z))
      as (s & s' & Es & Es' & Hs1 & _ & Hs2).
    { exists z, z. repeat split; auto. apply Qle_refl. }
    rewrite Es in Es'. inversion Es'; subst s'; clear Es'.
    exists z, s. split; [exact Ez|]. split; [exact Es|].
    split; [rewrite Hget, Hk; unfold color; cbn [option_map]; rewrite Ez, Es; reflexivity|].
    split; [split; assumption|]. split; [split; assumption|].
    destruct (normalized_ends mn mx Hlt) as [E0 E100].
    destruct remapped_inverted_ends as [E60 E15].
    split; intros ->.
    + rewrite E100 in Ez. inversion Ez; subst z. rewrite E15 in Es. inversion Es. reflexivity.
    + rewrite E0 in Ez. inversion Ez; subst z. rewrite E60 in Es. inversion Es. reflexivity.
  - intros k v s k' v' s' Hk Hs Hk' Hs' Hvv.
    rewrite Hget, Hk in Hs. rewrite Hget, Hk' in Hs'. unfold color in Hs, Hs'.
    cbn [option_map] in Hs, Hs'.
    pose proof (Hval k v Hk). pose proof (Hval k' v' Hk').
    pose proof (remapped_inverted_antitone _ _
                  (normalized_monotone mn mx v v' Hlt ltac:(lia) Hvv ltac:(lia)))
      as (r' & r & Er' & Er & _ & Hle & _).
    rewrite Er in Hs. rewrite Er' in Hs'. inversion Hs; inversion Hs'; subst. exact Hle.
Qed.

Lemma scale_word_dict_inverts_and_remaps_in_binary64_witness :
  exists scaled_dict,
    scale_word_dict (int_values [(str "a", 1); (str "b", 3); (str "c", 2)]) = Some scaled_dict
    /\ keys scaled_dict = [str "a"; str "b"; str "c"].
Proof.
  destruct (scale_word_dict_inverts_and_remaps_in_binary64
              [(str "a", 1); (str "b", 3); (str "c", 2)] eq_refl)
    as (mn & mx & scaled & Hs & _ & _ & _ & Hk & _).
  - exists 1, 3. simpl. split; [auto|]. split; [auto|]. discriminate.
  - exists scaled. split; [exact Hs | exact Hk].
Defined.

(** ** The tokenizer *)

Lemma replace_all_char (cs : pystr) (c : N) :
  fold_left (fun x ch => if N.eqb x ch then 32%N else x) cs c
  = if existsb (N.eqb c) cs then 32%N else c.
Proof.
  revert c; induction cs as [|ch cs IH]; intros c; simpl; [reflexivity|].
  rewrite IH. destruct (N.eqb c ch) eqn:E; simpl; [|reflexivity].
  destruct (existsb (N.eqb 32%N) cs); reflexivity.
Qed.

(** Replacing the characters of [cs] one after the other by a space is
    replacing every character that occurs in [cs] by a space. *)
Lemma replace_all (cs text : pystr) :
  fold_left (fun text char => replace char 32 text) cs text
  = List.map (fun c => if existsb (N.eqb c) cs then 32%N else c) text.
Proof.
  transitivity (List.map (fun c => fold_left (fun x ch => if N.eqb x ch then 32%N else x) cs c) text).
  - revert text; induction cs as [|ch cs IH]; intros text; simpl.
    + symmetry; apply map_id.
    + rewrite IH. unfold replace. rewrite map_map. reflexivity.
  - apply map_ext. intros c. apply replace_all_char.
Qed.

Lemma split_from_pieces (cur s : pystr) :
  Forall (fun c => isspace c = false) cur ->
  forall p, In p (split_from cur s) ->
            p <> [] /\ Forall (fun c => isspace c = false) p.
Proof.
  revert cur; induction s as [|c r IH]; intros cur Hcur p; simpl.
  - destruct cur; simpl; [tauto|]. intros [<-|[]]. split; [discriminate | exact Hcur].
  - destruct (isspace c) eqn:E.
    + destruct cur as [|x cur'].
      * apply IH; constructor.
      * intros [<-|H]; [split; [discriminate | exact Hcur]|]. apply (IH []); [constructor | exact H].
    + apply IH. apply Forall_app; split; [exact Hcur | repeat constructor; exact E].
Qed.

(** The pieces of [text.split()] are non-empty and free of white space. *)
Lemma split_pieces (s p : pystr) :
  In p (split s) -> p <> [] /\ Forall (fun c => isspace c = false) p.
Proof. apply split_from_pieces; constructor. Qed.

Lemma set_add_In (x y : pystr) (s : list pystr) :
  In y (set_add x s) <-> y = x \/ In y s.
Proof.
  unfold set_add. destruct (str_in x s) eqn:E.
  - apply str_in_In in E. split; [auto | intros [->|H]; auto].
  - rewrite in_app_iff; simpl. intuition.
Qed.

Lemma set_add_NoDup (x : pystr) (s : list pystr) : NoDup s -> NoDup (set_add x s).
Proof.
  unfold set_add. destruct (str_in x s) eqn:E; [auto|].
  apply str_in_not_In in E. intros H.
  apply NoDup_app; [exact H | constructor; [simpl; tauto | constructor] |].
  intros a Ha [<-|[]]; contradiction.
Qed.

Lemma is_rearrangement_spec (l s : list pystr) :
  is_rearrangement l s = true -> NoDup l /\ forall x, In x l <-> In x s.
Proof.
  unfold is_rearrangement. rewrite !andb_true_iff, !forallb_forall.
  intros [[H1 H2] H3]. split; [apply nodupb_NoDup; exact H1|].
  intros x; split; intros H; apply str_in_In; auto.
Qed.

Section ListOfSet.
Variable set_iter : list pystr -> list pystr.

Lemma list_of_set_In (s : list pystr) (x : pystr) :
  In x (list_of_set set_iter s) <-> In x s.
Proof.
  unfold list_of_set. destruct (is_rearrangement (set_iter s) s) eqn:E; [|tauto].
  apply is_rearrangement_spec in E. apply E.
Qed.

Lemma list_of_set_NoDup (s : list pystr) : NoDup s -> NoDup (list_of_set set_iter s).
Proof.
  unfold list_of_set. destruct (is_rearrangement (set_iter s) s) eqn:E; [|tauto].
  apply is_rearrangement_spec in E. intros _; apply E.
Qed.

Lemma list_of_set_singleton (a : pystr) : list_of_set set_iter [a] = [a].
Proof.
  pose proof (list_of_set_NoDup [a]) as Hnd.
  pose proof (list_of_set_In [a]) as Hin.
  destruct (list_of_set set_iter [a]) as [|x [|y l]].
  - exfalso. apply (Hin a). left; reflexivity.
  - f_equal. destruct (proj1 (Hin x) (or_introl eq_refl)) as [H|[]]; auto.
  - exfalso.
    assert (Hx : x = a) by (destruct (proj1 (Hin x) (or_introl eq_refl)) as [H|[]]; auto).
    assert (Hy : y = a)
      by (destruct (proj1 (Hin y) (or_intror (or_introl eq_refl))) as [H|[]]; auto).
    subst. specialize (Hnd ltac:(repeat constructor; simpl; tauto)).
    inversion Hnd as [|? ? Hn _]. apply Hn. left; reflexivity.
Qed.

End ListOfSet.

Section TokenizerFacts.
Variable str_lower : pystr -> pystr.
Variable STOPWORDS : list pystr.
Variable stopord_txt : pystr.

Local Abbreviation stopwords := (get_stop_words STOPWORDS stopord_txt).
Local Abbreviation add_token :=
  (fun tokens token =>
     let token := str_lower token in
     if negb (str_in token stopwords) then set_add token tokens else tokens).

Lemma tokens_fold_In (pieces : list pystr) (acc : list pystr) (t : pystr) :
  In t (fold_left add_token pieces acc)
  <-> In t acc \/ exists piece, In piece pieces /\ t = str_lower piece
                                 /\ ~ In t stopwords.
Proof.
  revert acc; induction pieces as [|p ps IH]; intros acc; simpl.
  - split; [auto | intros [H|[p [[] _]]]; exact H].
  - rewrite IH. destruct (str_in (str_lower p) stopwords) eqn:E; simpl.
    + apply str_in_In in E. split.
      * intros [H|[q [Hq H]]]; [auto | right; exists q; tauto].
      * intros [H|[q [[->|Hq] [H1 H2]]]]; [auto | subst; contradiction | right; exists q; tauto].
    + apply str_in_not_In in E. rewrite set_add_In. split.
      * intros [[->|H]|[q [Hq H]]]; [right; exists p; tauto | auto | right; exists q; tauto].
      * intros [H|[q [[->|Hq] [H1 H2]]]]; [auto | auto | right; exists q; tauto].
Qed.

Lemma tokens_fold_NoDup (pieces : list pystr) (acc : list pystr) :
  NoDup acc -> NoDup (fold_left add_token pieces acc).
Proof.
  revert acc; induction pieces as [|p ps IH]; intros acc H; simpl; [exact H|].
  apply IH. destruct (negb (str_in (str_lower p) stopwords)); [apply set_add_NoDup|]; exact H.
Qed.

Variable set_iter : list pystr -> list pystr.

Local Abbreviation tokenize := (tokenize_and_stem str_lower STOPWORDS stopord_txt set_iter).

Lemma tokenize_NoDup (text : pystr) : NoDup (tokenize text).
Proof.
  unfold tokenize_and_stem. apply list_of_set_NoDup, tokens_fold_NoDup. constructor.
Qed.

Lemma tokenize_In (text t : pystr) :
  In t (tokenize text)
  <-> exists piece,
        In piece (split (List.map (fun c => if existsb (N.eqb c) replace_chars
                                            then 32%N else c) text))
        /\ t = str_lower piece /\ ~ In t stopwords.
Proof.
  unfold tokenize_and_stem. rewrite list_of_set_In, tokens_fold_In, replace_all.
  split; [intros [[]|H]; exact H | auto].
Qed.

End TokenizerFacts.

(** C10.  The tokens of a text are pairwise distinct, and a string is a
    token exactly when it is the lower-cased form of a (non-empty) piece of
    the text, cut at white space after every character of [replace_chars]
    was replaced by a space, and is not a stop word.  The set of tokens does
    not depend on the order in which the set is iterated.  With empty
    external stop word sources, ["Cat, cat CAT!"] has the single token
    ["cat"]. *)
Theorem tokenize_and_stem_contract :
  forall (str_lower : pystr -> pystr) (STOPWORDS : list pystr) (stopord_txt : pystr)
         (set_iter : list pystr -> list pystr) (text : pystr),
    let tokens := tokenize_and_stem str_lower STOPWORDS stopord_txt set_iter text in
    let spaced := List.map (fun c => if existsb (N.eqb c) replace_chars
                                     then 32%N else c) text in
    NoDup tokens
    /\ (forall t, In t tokens
                  <-> exists piece, In piece (split spaced) /\ piece <> []
                                    /\ t = str_lower piece
                                    /\ ~ In t (get_stop_words STOPWORDS stopord_txt))
    /\ (forall set_iter' t,
          In t (tokenize_and_stem str_lower STOPWORDS stopord_txt set_iter' text)
          <-> In t tokens)
    /\ tokenize_and_stem ascii_lower [] [] set_iter (str "Cat, cat CAT!") = [str "cat"].
Proof.
  intros lower SW txt it text tokens spaced. subst tokens spaced.
  split; [apply tokenize_NoDup|]. split; [|split].
  - intros t. rewrite tokenize_In. split.
    + intros [p [Hp H]]. exists p. split; [exact Hp|].
      split; [apply (split_pieces _ _ Hp) | exact H].
    + intros [p [Hp [_ H]]]. exists p; tauto.
  - intros it' t. rewrite !tokenize_In. reflexivity.
  - unfold tokenize_and_stem. cbv zeta.
    rewrite <- (list_of_set_singleton it (str "cat")). f_equal.
Qed.

(** ** The aggregator *)

Lemma fold_filter_set (p : Z -> bool) (l acc : dict Z) :
  NoDup (keys acc ++ keys l) ->
  fold_left (fun acc kv => let '(k, v) := kv in if p v then set k v acc else acc) l acc
  = acc ++ List.filter (fun kv => p (snd kv)) l.
Proof.
  revert acc; induction l as [|[k v] l IH]; intros acc Hnd; simpl.
  - rewrite app_nil_r; reflexivity.
  - simpl in Hnd. destruct (p v).
    + rewrite set_fresh.
      * rewrite IH; [rewrite <- app_assoc; reflexivity|].
        unfold keys; rewrite map_app; simpl. rewrite <- app_assoc; exact Hnd.
      * apply NoDup_remove_2 in Hnd. rewrite in_app_iff in Hnd. tauto.
    + apply IH. apply NoDup_remove_1 in Hnd; exact Hnd.
Qed.

Lemma _filter_dict_filter (d : dict Z) (lower_thresh : Z) :
  wf d ->
  _filter_dict d lower_thresh None = List.filter (fun kv => lower_thresh <=? snd kv) d.
Proof.
  intros Hwf. unfold _filter_dict.
  rewrite (fold_filter_set (fun v => (lower_thresh <=? v) && true)) by exact Hwf.
  simpl. apply filter_ext. intros [k v]; simpl. apply andb_true_r.
Qed.

Lemma keys_filter_NoDup {V : Type} (p : pystr * V -> bool) (d : dict V) :
  wf d -> wf (List.filter p d).
Proof.
  unfold wf, keys. induction d as [|[k v] d IH]; simpl; intros H; [constructor|].
  inversion H as [|? ? Hn Hd]; subst. destruct (p (k, v)); simpl; [|auto].
  constructor; [|auto]. intros Hin. apply Hn.
  apply in_map_iff in Hin. destruct Hin as [[k' v'] [E Hin]]. simpl in E; subst.
  apply filter_In in Hin. destruct Hin as [Hin _].
  apply (in_map fst) in Hin. exact Hin.
Qed.

Lemma get_filter {V : Type} (p : V -> bool) (d : dict V) (k : pystr) :
  wf d ->
  get k (List.filter (fun kv => p (snd kv)) d)
  = match get k d with
    | Some v => if p v then Some v else None
    | None => None
    end.
Proof.
  unfold wf. induction d as [|[k' v] d IH]; simpl; intros H; [reflexivity|].
  inversion H as [|? ? Hn Hd]; subst.
  str_cases k k'.
  - destruct (p v) eqn:E; simpl.
    + rewrite str_eqb_refl; reflexivity.
    + rewrite IH by exact Hd. apply get_None in Hn. rewrite Hn; reflexivity.
  - destruct (p v); simpl; [|auto].
    apply str_eqb_neq in E. rewrite E. auto.
Qed.

Lemma count_token_ok (amount : Z) (st : dict Z * dict Z) (token : pystr) :
  counts_ok st -> exists st', count_token amount st token = Some st' /\ counts_ok st'.
Proof.
  destruct st as [freqs funding]. unfold counts_ok; simpl. intros (Hk & Hwf & Hpos).
  destruct (mem token freqs) eqn:E; simpl.
  - apply mem_true in E.
    destruct (In_keys_get _ _ E) as [n Hn]. rewrite Hk in E.
    destruct (In_keys_get _ _ E) as [f Hf]. rewrite Hn, Hf; simpl.
    eexists; split; [reflexivity|]. simpl. split; [|split].
    + rewrite !keys_set_present; auto. rewrite Hk; exact E.
    + apply wf_set; exact Hwf.
    + intros k m. rewrite get_set. destruct (str_eqb token k).
      * intros H; inversion H; subst. specialize (Hpos _ _ Hn). lia.
      * apply Hpos.
  - eexists; split; [reflexivity|]. simpl. split; [|split].
    + rewrite !keys_set, E.
      assert (E' : mem token funding = false)
        by (apply mem_false; rewrite <- Hk; apply mem_false; exact E).
      rewrite E', Hk; reflexivity.
    + apply wf_set; exact Hwf.
    + intros k m. rewrite get_set. destruct (str_eqb token k).
      * intros H; inversion H; lia.
      * apply Hpos.
Qed.

Lemma get_map_keys {W : Type} (h : pystr -> W) (l : list pystr) (k : pystr) :
  get k (List.map (fun x => (x, h x)) l) = if str_in k l then Some (h k) else None.
Proof.
  induction l as [|x l IH]; simpl; [reflexivity|].
  str_cases k x; simpl; [reflexivity | exact IH].
Qed.

Lemma keys_map_keys {W : Type} (h : pystr -> W) (l : list pystr) :
  keys (List.map (fun x => (x, h x)) l) = l.
Proof. unfold keys. rewrite map_map; simpl. apply map_id. Qed.

Local Abbreviation getd k d := (match get k d with Some v => v | None => 0 end).

Section AggregatorFacts.
Variable str_lower : pystr -> pystr.
Variable STOPWORDS : list pystr.
Variable stopord_txt : pystr.
Variable set_iter : list pystr -> list pystr.

Local Abbreviation tokenize := (tokenize_and_stem str_lower STOPWORDS stopord_txt set_iter).
Local Abbreviation count_loop' := (count_loop str_lower STOPWORDS stopord_txt set_iter).
Local Abbreviation generate_data' := (generate_data str_lower STOPWORDS stopord_txt set_iter).

Lemma count_loop_ok (df : DataFrame) :
  exists st, count_loop' df = Some st /\ counts_ok st.
Proof.
  unfold count_loop. apply (foldM_total counts_ok).
  - intros st row _ Hst. apply (foldM_total counts_ok); [|exact Hst].
    intros s t _ Hs. apply count_token_ok; exact Hs.
  - repeat split; [constructor | discriminate].
Qed.

(** The three dictionaries in closed form, from the counts of the first
    loop. *)
Lemma generate_data_closed_form (df : DataFrame) (thr : Z) :
  exists freqs0 funding0,
    count_loop' df = Some (freqs0, funding0)
    /\ counts_ok (freqs0, funding0)
    /\ let funding := List.filter (fun kv => thr <=? snd kv) funding0 in
       let freqs := List.map (fun k => (k, getd k freqs0)) (keys funding) in
       let avg := List.map (fun k => (k, getd k funding / getd k freqs0)) (keys funding) in
       generate_data' df thr = Some (avg, funding, freqs).
Proof.
  destruct (count_loop_ok df) as [[freqs0 funding0] [Hloop Hok]].
  exists freqs0, funding0. split; [exact Hloop|]. split; [exact Hok|].
  destruct Hok as (Hk & Hwf & Hpos); simpl in Hk, Hwf, Hpos.
  assert (Hwf' : wf funding0) by (unfold wf; rewrite <- Hk; exact Hwf).
  cbv zeta. unfold generate_data. rewrite Hloop; simpl.
  rewrite _filter_dict_filter by exact Hwf'.
  set (funding := List.filter (fun kv => thr <=? snd kv) funding0).
  assert (Hwff : wf funding) by (apply keys_filter_NoDup; exact Hwf').
  assert (Hsub : forall k, In k (keys funding) -> In k (keys freqs0)).
  { intros k Hin. rewrite Hk. unfold keys in *. apply in_map_iff in Hin.
    destruct Hin as [[k' v] [E Hin]]. simpl in E; subst.
    apply filter_In in Hin. destruct Hin as [Hin _].
    apply (in_map fst) in Hin. exact Hin. }
  unfold _make_same_keys.
  rewrite (foldM_set_build (fun k => k) _ (fun k => getd k freqs0)).
  - simpl.
    rewrite (foldM_ext _ (fun acc k =>
               w <- (f <- get k funding ;;
                     n <- get k (List.map (fun k => (k, getd k freqs0)) (keys funding)) ;;
                     floordiv f n) ;;
               Some (set k w acc))).
    + rewrite (foldM_set_build (fun k => k) _ (fun k => getd k funding / getd k freqs0)).
      * reflexivity.
      * rewrite map_id; exact Hwff.
      * intros k Hin.
        destruct (In_keys_get _ _ Hin) as [f Hf]. rewrite Hf; simpl.
        rewrite (get_map_keys (fun k => getd k freqs0)).
        apply str_in_In in Hin. rewrite Hin; simpl. apply str_in_In in Hin.
        destruct (In_keys_get _ _ (Hsub _ Hin)) as [n Hn]. rewrite Hn.
        unfold floordiv. specialize (Hpos _ _ Hn).
        destruct (n =? 0) eqn:E; [apply Z.eqb_eq in E; lia | reflexivity].
      * intros k _ [].
    + intros acc k _. destruct (get k funding); simpl; [|reflexivity].
      destruct (get k _); simpl; [|reflexivity].
      destruct (floordiv z z0); reflexivity.
  - rewrite map_id; exact Hwff.
  - intros k Hin. destruct (In_keys_get _ _ (Hsub _ Hin)) as [n Hn]. rewrite Hn; reflexivity.
  - intros k _ [].
Qed.

End AggregatorFacts.

(** C4.  [generate_data] returns its three dictionaries for every table and
    threshold; they have the same keys; every key has funding at least the
    threshold, a positive frequency, and as average funding the floor of
    funding divided by frequency. *)
Theorem generate_data_same_keys_and_floor_average :
  forall (str_lower : pystr -> pystr) (STOPWORDS : list pystr) (stopord_txt : pystr)
         (set_iter : list pystr -> list pystr)
         (df : DataFrame) (funding_thresh_hold : Z),
  exists avg_funding funding freqs : dict Z,
    generate_data str_lower STOPWORDS stopord_txt set_iter df funding_thresh_hold
    = Some (avg_funding, funding, freqs)
    /\ keys avg_funding = keys funding
    /\ keys freqs = keys funding
    /\ NoDup (keys funding)
    /\ forall t, In t (keys funding) ->
         exists a f n,
           get t avg_funding = Some a /\ get t funding = Some f /\ get t freqs = Some n
           /\ funding_thresh_hold <= f /\ 1 <= n
           /\ a = f / n /\ n * a <= f < n * (a + 1).
Proof.
  intros lower SW txt it df thr.
  destruct (generate_data_closed_form lower SW txt it df thr)
    as (freqs0 & funding0 & Hloop & Hok & Hgd).
  cbv zeta in Hgd.
  set (funding := List.filter (fun kv => thr <=? snd kv) funding0) in *.
  destruct Hok as (Hk & Hwf & Hpos); simpl in Hk, Hwf, Hpos.
  assert (Hwf' : wf funding0) by (unfold wf; rewrite <- Hk; exact Hwf).
  assert (Hwff : wf funding) by (apply keys_filter_NoDup; exact Hwf').
  eexists _, funding, _. split; [exact Hgd|].
  split; [apply (keys_map_keys (fun k => getd k funding / getd k freqs0))|].
  split; [apply (keys_map_keys (fun k => getd k freqs0))|].
  split; [exact Hwff|].
  intros t Hin.
  destruct (In_keys_get _ _ Hin) as [f Hf].
  assert (Hf0 : get t funding0 = Some f /\ thr <= f).
  { unfold funding in Hf. rewrite (get_filter (fun v => thr <=? v)) in Hf by exact Hwf'.
    destruct (get t funding0) as [v|]; [|discriminate].
    destruct (thr <=? v) eqn:E; [|discriminate]. inversion Hf; subst.
    split; [reflexivity | apply Z.leb_le; exact E]. }
  destruct Hf0 as [Hf0 Hthr].
  assert (Hin0 : In t (keys freqs0)) by (rewrite Hk; eapply get_Some_key; eauto).
  destruct (In_keys_get _ _ Hin0) as [n Hn]. specialize (Hpos _ _ Hn).
  exists (f / n), f, n.
  rewrite (get_map_keys (fun k => getd k funding / getd k freqs0)).
  rewrite (get_map_keys (fun k => getd k freqs0)).
  apply str_in_In in Hin. rewrite Hin, Hf, Hn.
  repeat split; auto.
  - apply Z.mul_div_le; lia.
  - rewrite Z.mul_add_distr_l, Z.mul_1_r.
    pose proof (Z.mod_pos_bound f n ltac:(lia)). pose proof (Z.div_mod f n ltac:(lia)). lia.
Qed.

(** C7.  Raising the funding threshold never adds a word: the keys of the
    dictionaries at the higher threshold are among those at the lower one. *)
Theorem generate_data_threshold_monotone :
  forall (str_lower : pystr -> pystr) (STOPWORDS : list pystr) (stopord_txt : pystr)
         (set_iter : list pystr -> list pystr)
         (df : DataFrame) (t1 t2 : Z),
    t1 <= t2 ->
    exists avg1 funding1 freqs1 avg2 funding2 freqs2 : dict Z,
      generate_data str_lower STOPWORDS stopord_txt set_iter df t1
      = Some (avg1, funding1, freqs1)
      /\ generate_data str_lower STOPWORDS stopord_txt set_iter df t2
         = Some (avg2, funding2, freqs2)
      /\ incl (keys avg2) (keys avg1)
      /\ incl (keys funding2) (keys funding1)
      /\ incl (keys freqs2) (keys freqs1).
Proof.
  intros lower SW txt it df t1 t2 Hle.
  destruct (generate_data_closed_form lower SW txt it df t1)
    as (freqs0 & funding0 & Hloop & _ & Hgd1).
  destruct (generate_data_closed_form lower SW txt it df t2)
    as (freqs0' & funding0' & Hloop' & _ & Hgd2).
  rewrite Hloop in Hloop'. inversion Hloop'; subst freqs0' funding0'. clear Hloop'.
  cbv zeta in Hgd1, Hgd2.
  assert (Hincl : incl (keys (List.filter (fun kv => t2 <=? snd kv) funding0))
                       (keys (List.filter (fun kv => t1 <=? snd kv) funding0))).
  { intros k Hin. unfold keys in *. apply in_map_iff in Hin.
    destruct Hin as [[k' v] [E Hin]]. simpl in E; subst k'.
    apply filter_In in Hin. destruct Hin as [Hin Hv]. simpl in Hv.
    apply in_map_iff. exists (k, v). split; [reflexivity|].
    apply filter_In. split; [exact Hin|]. simpl.
    apply Z.leb_le. apply Z.leb_le in Hv. lia. }
  do 6 eexists. split; [exact Hgd1|]. split; [exact Hgd2|].
  rewrite !(keys_map_keys (fun k => getd k (List.filter _ funding0) / getd k freqs0)).
  rewrite !(keys_map_keys (fun k => getd k freqs0)).
  auto.
Qed.

Lemma generate_data_threshold_monotone_witness :
  exists s1 s2 : WordStats,
    generate_data ascii_lower [] [] insertion_order
                  [grant "alpha beta" 10; grant "alpha gamma" 3] 0 = Some s1
    /\ generate_data ascii_lower [] [] insertion_order
                     [grant "alpha beta" 10; grant "alpha gamma" 3] 5 = Some s2
    /\ incl (keys (snd (fst s2))) (keys (snd (fst s1))).
Proof.
  destruct (generate_data_threshold_monotone ascii_lower [] [] insertion_order
              [grant "alpha beta" 10; grant "alpha gamma" 3] 0 5)
    as (a1 & f1 & n1 & a2 & f2 & n2 & H1 & H2 & _ & Hf & _).
  - lia.
  - exists (a1, f1, n1), (a2, f2, n2). simpl. auto.
Defined.

(** ** Graphs: the representation invariant *)

Lemma weight_put_edge (u v : pystr) (w : Z) (adj : dict (dict Z)) (nodes : dict (dict Z))
    (x y : pystr) :
  weight x y (mkGraph nodes (put_edge u v w adj))
  = if str_eqb u x && str_eqb v y then Some w else weight x y (mkGraph nodes adj).
Proof.
  unfold weight, put_edge, nbrs_of; simpl. rewrite get_set.
  str_cases u x; simpl.
  - rewrite get_set. destruct (str_eqb v y); [reflexivity|].
    destruct (get x adj); reflexivity.
  - reflexivity.
Qed.

Lemma keys_put_edge (u v : pystr) (w : Z) (adj : dict (dict Z)) :
  In u (keys adj) -> keys (put_edge u v w adj) = keys adj.
Proof. intros H. unfold put_edge. apply keys_set_present; exact H. Qed.

Lemma wf_put_edge (u v : pystr) (w : Z) (adj : dict (dict Z)) :
  wf adj -> (forall n nbrs, get n adj = Some nbrs -> wf nbrs) ->
  wf (put_edge u v w adj)
  /\ forall n nbrs, get n (put_edge u v w adj) = Some nbrs -> wf nbrs.
Proof.
  intros Hwf Hn. unfold put_edge. split; [apply wf_set; exact Hwf|].
  intros n nbrs. rewrite get_set. destruct (str_eqb u n).
  - intros H; inversion H; subst. apply wf_set. unfold nbrs_of.
    destruct (get u adj) eqn:E; [eapply Hn; eauto | constructor].
  - apply Hn.
Qed.

Lemma graph_wf_empty : graph_wf empty_graph.
Proof.
  repeat split; simpl; try constructor; try discriminate.
Qed.

Lemma graph_wf_add_node (n : pystr) (attr : dict Z) (G : Graph) :
  graph_wf G -> graph_wf (add_node n attr G).
Proof.
  intros (Hk & Hwf & Hn & Hs). unfold add_node.
  destruct (get n (_node G)) eqn:E.
  - repeat split; simpl; auto.
    rewrite keys_set_present; [exact Hk | eapply get_Some_key; eauto].
  - assert (E' : get n (_adj G) = None)
      by (apply get_None; rewrite <- Hk; apply get_None; exact E).
    repeat split; simpl.
    + rewrite !set_fresh by (apply get_None; assumption).
      unfold keys; rewrite !map_app; simpl. unfold keys in Hk; rewrite Hk; reflexivity.
    + apply wf_set; exact Hwf.
    + intros m nbrs. rewrite get_set. destruct (str_eqb n m).
      * intros H; inversion H; constructor.
      * apply Hn.
    + intros u v. unfold weight in *; simpl. rewrite !get_set.
      specialize (Hs u v).
      str_split n u; str_split n v; simpl; auto; subst.
      * rewrite <- Hs, E'; reflexivity.
      * rewrite Hs, E'; reflexivity.
Qed.

Lemma graph_wf_put_both (u v : pystr) (w : Z) (G : Graph) :
  graph_wf G -> In u (keys (_adj G)) -> In v (keys (_adj G)) ->
  graph_wf (mkGraph (_node G) (put_edge v u w (put_edge u v w (_adj G)))).
Proof.
  intros (Hk & Hwf & Hn & Hs) Hu Hv.
  destruct (wf_put_edge u v w _ Hwf Hn) as [Hwf1 Hn1].
  destruct (wf_put_edge v u w _ Hwf1 Hn1) as [Hwf2 Hn2].
  repeat split; simpl; auto.
  - rewrite keys_put_edge; rewrite keys_put_edge; auto.
  - intros x y. rewrite !weight_put_edge.
    specialize (Hs x y). destruct G as [nodes adj]; simpl in *.
    rewrite (str_eqb_sym v x), (str_eqb_sym u y), (str_eqb_sym u x), (str_eqb_sym v y).
    str_split x v; str_split y u; str_split x u; str_split y v; simpl; auto;
      subst; try congruence.
Qed.

Lemma ensure_node_add_node (n : pystr) (G : Graph) :
  ensure_node n G = G \/ ensure_node n G = add_node n [] G.
Proof.
  unfold ensure_node, add_node. destruct (get n (_node G)); [left | right]; reflexivity.
Qed.

Lemma graph_wf_ensure_node (n : pystr) (G : Graph) :
  graph_wf G -> graph_wf (ensure_node n G) /\ In n (keys (_adj (ensure_node n G))).
Proof.
  intros HG. unfold ensure_node. destruct (get n (_node G)) eqn:E.
  - split; [exact HG|]. destruct HG as [Hk _]. rewrite <- Hk. eapply get_Some_key; eauto.
  - pose proof (graph_wf_add_node n [] G HG) as H. unfold add_node in H.
    rewrite E in H. simpl in H. split; [exact H|]. simpl. apply In_keys_set; auto.
Qed.

Lemma keys_ensure_node (n m : pystr) (G : Graph) :
  In m (keys (_adj G)) -> In m (keys (_adj (ensure_node n G))).
Proof.
  unfold ensure_node. destruct (get n (_node G)); [auto|]. simpl.
  intros H. apply In_keys_set; auto.
Qed.

Lemma graph_wf_add_edge (u v : pystr) (w : Z) (G : Graph) :
  graph_wf G -> graph_wf (add_edge u v w G).
Proof.
  intros HG. unfold add_edge.
  destruct (graph_wf_ensure_node u G HG) as [HG1 Hu1].
  destruct (graph_wf_ensure_node v _ HG1) as [HG2 Hv2].
  apply graph_wf_put_both; [exact HG2 | apply keys_ensure_node; exact Hu1 | exact Hv2].
Qed.

Lemma weight_Some_keys (u v : pystr) (w : Z) (G : Graph) :
  graph_wf G -> weight u v G = Some w ->
  In u (keys (_adj G)) /\ In v (keys (_adj G)).
Proof.
  intros (_ & _ & _ & Hs) H.
  assert (Hk : forall a b c, weight a b G = Some c -> In a (keys (_adj G))).
  { intros a b c. unfold weight. destruct (get a (_adj G)) eqn:E; simpl; [|discriminate].
    intros _. eapply get_Some_key; eauto. }
  split; [eapply Hk; eauto|]. rewrite Hs in H. eapply Hk; eauto.
Qed.

Lemma graph_wf_incr_weight (u v : pystr) (G G' : Graph) :
  graph_wf G -> incr_weight u v G = Some G' -> graph_wf G'.
Proof.
  intros HG. unfold incr_weight. destruct (weight u v G) as [w|] eqn:E; simpl; [|discriminate].
  intros H; inversion H; subst; clear H.
  destruct (weight_Some_keys _ _ _ _ HG E) as [Hu Hv].
  apply graph_wf_put_both; assumption.
Qed.

Lemma has_edge_weight (u v : pystr) (G : Graph) :
  has_edge u v G = true <-> exists w, weight u v G = Some w.
Proof.
  unfold has_edge, weight, mem. destruct (get u (_adj G)); simpl.
  - destruct (get v d); split; eauto; try discriminate. intros [w H]; discriminate.
  - split; [discriminate | intros [w H]; discriminate].
Qed.

Lemma graph_wf_bump_edge (s_tok targ_tok : pystr) (G G' : Graph) :
  graph_wf G -> bump_edge s_tok G targ_tok = Some G' -> graph_wf G'.
Proof.
  intros HG. unfold bump_edge. destruct (has_edge s_tok targ_tok G).
  - apply graph_wf_incr_weight; exact HG.
  - intros H; inversion H; subst. apply graph_wf_add_edge; exact HG.
Qed.

Lemma graph_wf_add_stat_node (stats : WordStats) (G G' : Graph) (tok : pystr) :
  graph_wf G -> add_stat_node stats G tok = Some G' -> graph_wf G'.
Proof.
  intros HG. unfold add_stat_node. destruct stats as [[a f] n].
  destruct (get tok a); simpl; [|discriminate].
  destruct (get tok f); simpl; [|discriminate].
  destruct (get tok n); simpl; [|discriminate].
  intros H; inversion H; subst. apply graph_wf_add_node; exact HG.
Qed.

Lemma graph_wf_pair_loop (source_list targ_list : list pystr) (G : Graph)
    (st : list pystr * Graph) :
  graph_wf G -> pair_loop source_list targ_list G = Some st -> graph_wf (snd st).
Proof.
  intros HG. unfold pair_loop.
  apply (foldM_inv (fun st => graph_wf (snd st))); [|exact HG].
  intros [tl G0] s [tl' G1] _ H0. simpl in H0 |- *.
  destruct (list_remove s tl) as [temp|]; simpl; [|discriminate].
  destruct (foldM (bump_edge s) temp G0) as [G2|] eqn:E; simpl; [|discriminate].
  intros H; inversion H; subst.
  revert E. apply foldM_inv; [|exact H0].
  intros; eapply graph_wf_bump_edge; eauto.
Qed.

Section BuilderInvariant.
Variable str_lower : pystr -> pystr.
Variable STOPWORDS : list pystr.
Variable stopord_txt : pystr.
Variable set_iter : list pystr -> list pystr.

Lemma graph_wf_word_loop (stats : WordStats) (df : DataFrame) (word : pystr) (G : Graph) :
  word_loop str_lower STOPWORDS stopord_txt set_iter stats df word = Some G -> graph_wf G.
Proof.
  unfold word_loop. apply foldM_inv; [|apply graph_wf_empty].
  intros G0 row G1 _ H0. cbv zeta.
  destruct (negb (str_in word _)); [intros H; inversion H; subst; exact H0|].
  destruct (add_stat_node stats G0 word) as [G2|] eqn:E; simpl; [|discriminate].
  apply foldM_inv; [|eapply graph_wf_add_stat_node; eauto].
  intros G3 t G4 _ H3.
  destruct (add_stat_node stats G3 t) as [G5|] eqn:E5; simpl; [|discriminate].
  apply graph_wf_bump_edge. eapply graph_wf_add_stat_node; eauto.
Qed.

Lemma graph_wf_add_nodes_pairs (stats : WordStats) (l : list pystr) (G G' : Graph) :
  graph_wf G ->
  (G1 <- foldM (add_stat_node stats) l G ;; st <- pair_loop l l G1 ;; Some (snd st)) = Some G' ->
  graph_wf G'.
Proof.
  intros HG.
  destruct (foldM (add_stat_node stats) l G) as [G1|] eqn:E1; simpl; [|discriminate].
  destruct (pair_loop l l G1) as [st|] eqn:E2; simpl; [|discriminate].
  intros H; inversion H; subst.
  eapply graph_wf_pair_loop; [|exact E2].
  revert E1. apply foldM_inv; [|exact HG].
  intros; eapply graph_wf_add_stat_node; eauto.
Qed.

Lemma graph_wf_all_loop (stats : WordStats) (df : DataFrame) (G : Graph) :
  all_loop str_lower STOPWORDS stopord_txt set_iter stats df = Some G -> graph_wf G.
Proof.
  unfold all_loop. apply foldM_inv; [|apply graph_wf_empty].
  intros G0 row G1 _ H0. cbv zeta. apply graph_wf_add_nodes_pairs; exact H0.
Qed.

Lemma graph_wf_words_loop (stats : WordStats) (df : DataFrame) (words : list pystr)
    (G : Graph) :
  words_loop str_lower STOPWORDS stopord_txt set_iter stats df words = Some G -> graph_wf G.
Proof.
  unfold words_loop. apply foldM_inv; [|apply graph_wf_empty].
  intros G0 row G1 _ H0. cbv zeta.
  destruct (length _ <=? 1)%nat; [intros H; inversion H; subst; exact H0|].
  apply graph_wf_add_nodes_pairs; exact H0.
Qed.

End BuilderInvariant.

(** ** The degree attribute *)

Lemma keys_degree_view (G : Graph) : keys (degree_view G) = keys (_adj G).
Proof. unfold degree_view, keys. rewrite map_map; reflexivity. Qed.

Lemma total_deg_loop (L : dict Z) :
  wf L ->
  forall nodes nodes' : dict (dict Z),
    foldM (fun nodes nd =>
             let '(node, deg) := nd in
             attrs <- get node nodes ;;
             Some (set node (set attr_total_deg deg attrs) nodes)) L nodes = Some nodes' ->
    keys nodes' = keys nodes
    /\ forall n, get n nodes'
                 = match get n L with
                   | Some d => option_map (set attr_total_deg d) (get n nodes)
                   | None => get n nodes
                   end.
Proof.
  unfold wf. induction L as [|[n0 d0] L IH]; simpl; intros Hnd nodes nodes' H.
  - inversion H; subst; auto.
  - inversion Hnd as [|? ? Hn0 Hnd']; subst.
    destruct (get n0 nodes) as [attrs|] eqn:E; simpl in H; [|discriminate].
    destruct (IH Hnd' _ _ H) as [Hk Hg]. split.
    + rewrite Hk. apply keys_set_present. eapply get_Some_key; eauto.
    + intros n. rewrite Hg, get_set. str_split n0 n; subst.
      * rewrite str_eqb_refl. apply get_None in Hn0. rewrite Hn0, E; reflexivity.
      * rewrite (str_eqb_sym n n0), E0. reflexivity.
Qed.

Lemma set_total_deg_spec (G G1 : Graph) :
  graph_wf G -> set_total_deg G = Some G1 ->
  _adj G1 = _adj G
  /\ keys (_node G1) = keys (_node G)
  /\ forall n attrs1, get n (_node G1) = Some attrs1 ->
       exists d, degree G n = Some d /\ get attr_total_deg attrs1 = Some d.
Proof.
  intros (Hk & Hwf & _) H. unfold set_total_deg in H.
  destruct (foldM _ (degree_view G) (_node G)) as [nodes|] eqn:E; simpl in H; [|discriminate].
  inversion H; subst; clear H. simpl.
  apply total_deg_loop in E; [|unfold wf; rewrite keys_degree_view; exact Hwf].
  destruct E as [Hk1 Hg]. split; [reflexivity|]. split; [exact Hk1|].
  intros n attrs1 H1. rewrite Hg in H1. unfold degree.
  destruct (get n (degree_view G)) as [d|] eqn:Ed.
  - exists d. split; [reflexivity|].
    destruct (get n (_node G)); simpl in H1; [|discriminate].
    inversion H1; subst. apply get_set_same.
  - exfalso. apply get_None in Ed. apply Ed.
    rewrite keys_degree_view, <- Hk. eapply get_Some_key; eauto.
Qed.

Lemma graph_wf_set_total_deg (G G1 : Graph) :
  graph_wf G -> set_total_deg G = Some G1 -> graph_wf G1.
Proof.
  intros HG H. destruct (set_total_deg_spec _ _ HG H) as (Ha & Hk & _).
  destruct HG as (Hk0 & Hwf & Hn & Hs).
  unfold graph_wf, weight. rewrite Ha, Hk. auto.
Qed.

(** Pruning never writes a node attribute: what a surviving node carries is
    what it carried before. *)
Lemma remove_edge_node (G G' : Graph) (e : edge) :
  remove_edge G e = Some G' -> _node G' = _node G.
Proof.
  unfold remove_edge. destruct e as [u v].
  destruct (get u (_adj G)) as [nbrs_u|]; [|intros H; inversion H; reflexivity].
  destruct (mem v nbrs_u); [|intros H; inversion H; reflexivity].
  destruct (str_eqb u v); [intros H; inversion H; reflexivity|].
  destruct (get v _) as [nbrs_v|]; simpl; [|discriminate].
  destruct (mem u nbrs_v); [intros H; inversion H; reflexivity | discriminate].
Qed.

Lemma remove_edges_from_node (ebunch : list edge) (G G' : Graph) :
  remove_edges_from ebunch G = Some G' -> _node G' = _node G.
Proof.
  unfold remove_edges_from. revert G; induction ebunch as [|e l IH]; simpl; intros G H.
  - inversion H; reflexivity.
  - destruct (remove_edge G e) as [G1|] eqn:E; simpl in H; [|discriminate].
    rewrite (IH _ H). eapply remove_edge_node; eauto.
Qed.

Lemma remove_nodes_from_attrs (nodes : list pystr) (G : Graph) (n : pystr) (attrs : dict Z) :
  get n (_node (remove_nodes_from nodes G)) = Some attrs -> get n (_node G) = Some attrs.
Proof.
  unfold remove_nodes_from. revert G; induction nodes as [|m l IH]; simpl; intros G H; [exact H|].
  apply IH in H. unfold remove_node in H.
  destruct (get m (_node G)) eqn:Em; [|exact H].
  assert (Hd : get n (del m (_node G)) = Some attrs -> get n (_node G) = Some attrs)
    by (rewrite get_del; destruct (str_eqb m n); [discriminate | auto]).
  destruct (get m (_adj G)); simpl in H; auto.
Qed.

Lemma prune_attrs (top_n : Z) (G Gf : Graph) (n : pystr) (attrs : dict Z) :
  prune top_n G = Some Gf ->
  get n (_node Gf) = Some attrs -> get n (_node G) = Some attrs.
Proof.
  unfold prune. destruct (edge_weights G) as [ew|]; simpl; [|discriminate].
  destruct (remove_edges_from _ G) as [G'|] eqn:E; simpl; [|discriminate].
  intros H; inversion H; subst; clear H. intros Hg.
  apply remove_nodes_from_attrs in Hg.
  rewrite (remove_edges_from_node _ _ _ E) in Hg. exact Hg.
Qed.

(** C1 (as the code has it).  In the ego view and in the global view, the
    [total_deg] attribute of every node of the returned graph is the degree
    that node had in the graph built by the loop over the titles, before any
    edge was pruned. *)
Theorem total_deg_is_degree_before_pruning :
  forall (str_lower : pystr -> pystr) (STOPWORDS : list pystr) (stopord_txt : pystr)
         (set_iter : list pystr -> list pystr)
         (df : DataFrame) (word : pystr) (top_n : Z),
    (forall Gf,
        generate_graph_data_word str_lower STOPWORDS stopord_txt set_iter df word top_n
        = Some Gf ->
        exists stats G,
          generate_data str_lower STOPWORDS stopord_txt set_iter df 0 = Some stats
          /\ word_loop str_lower STOPWORDS stopord_txt set_iter stats df word = Some G
          /\ forall n attrs, get n (_node Gf) = Some attrs ->
               exists d, degree G n = Some d /\ get attr_total_deg attrs = Some d)
    /\ (forall Gf,
          generate_graph_data_all str_lower STOPWORDS stopord_txt set_iter df top_n
          = Some Gf ->
          exists stats G,
            generate_data str_lower STOPWORDS stopord_txt set_iter df 0 = Some stats
            /\ all_loop str_lower STOPWORDS stopord_txt set_iter stats df = Some G
            /\ forall n attrs, get n (_node Gf) = Some attrs ->
                 exists d, degree G n = Some d /\ get attr_total_deg attrs = Some d).
Proof.
  intros lower SW txt it df word top_n. split; intros Gf H.
  - unfold generate_graph_data_word in H.
    destruct (generate_data lower SW txt it df 0) as [stats|]; simpl in H; [|discriminate].
    destruct (word_loop lower SW txt it stats df word) as [G|] eqn:EG; simpl in H; [|discriminate].
    destruct (set_total_deg G) as [G1|] eqn:E1; simpl in H; [|discriminate].
    exists stats, G. split; [reflexivity|]. split; [exact EG|].
    intros n attrs Hn. apply (prune_attrs _ _ _ _ _ H) in Hn.
    apply graph_wf_word_loop in EG.
    destruct (set_total_deg_spec _ _ EG E1) as (_ & _ & Hd). eauto.
  - unfold generate_graph_data_all in H.
    destruct (generate_data lower SW txt it df 0) as [stats|]; simpl in H; [|discriminate].
    destruct (all_loop lower SW txt it stats df) as [G|] eqn:EG; simpl in H; [|discriminate].
    destruct (set_total_deg G) as [G1|] eqn:E1; simpl in H; [|discriminate].
    exists stats, G. split; [reflexivity|]. split; [exact EG|].
    intros n attrs Hn. apply (prune_attrs _ _ _ _ _ H) in Hn.
    apply graph_wf_all_loop in EG.
    destruct (set_total_deg_spec _ _ EG E1) as (_ & _ & Hd). eauto.
Qed.

Lemma total_deg_is_degree_before_pruning_witness :
  (exists Gf stats G,
      generate_graph_data_word ascii_lower [] [] insertion_order three_grants (str "alpha") 2
      = Some Gf
      /\ generate_data ascii_lower [] [] insertion_order three_grants 0 = Some stats
      /\ word_loop ascii_lower [] [] insertion_order stats three_grants (str "alpha") = Some G
      /\ forall n attrs, get n (_node Gf) = Some attrs ->
           exists d, degree G n = Some d /\ get attr_total_deg attrs = Some d)
  /\ (exists Gf stats G,
        generate_graph_data_all ascii_lower [] [] insertion_order three_grants 2 = Some Gf
        /\ generate_data ascii_lower [] [] insertion_order three_grants 0 = Some stats
        /\ all_loop ascii_lower [] [] insertion_order stats three_grants = Some G
        /\ forall n attrs, get n (_node Gf) = Some attrs ->
             exists d, degree G n = Some d /\ get attr_total_deg attrs = Some d).
Proof.
  destruct (total_deg_is_degree_before_pruning ascii_lower [] [] insertion_order
              three_grants (str "alpha") 2) as [Hw Ha].
  split.
  - destruct (generate_graph_data_word ascii_lower [] [] insertion_order three_grants
                (str "alpha") 2) as [Gf|] eqn:E.
    + destruct (Hw Gf eq_refl) as (stats & G & H1 & H2 & H3).
      exists Gf, stats, G. auto.
    + vm_compute in E. discriminate.
  - destruct (generate_graph_data_all ascii_lower [] [] insertion_order three_grants 2)
      as [Gf|] eqn:E.
    + destruct (Ha Gf eq_refl) as (stats & G & H1 & H2 & H3).
      exists Gf, stats, G. auto.
    + vm_compute in E. discriminate.
Defined.

(** C1 as stated fails.  Three grants titled "alpha beta", "alpha beta" and
    "alpha gamma", [top_n = 2]: only the edge alpha-beta is kept, so the node
    alpha ends with degree 1, while its [total_deg] attribute is still 2, in
    the ego view of "alpha" and in the global view alike, whichever way the
    token sets are iterated. *)
Lemma total_deg_not_recomputed_after_pruning :
  (exists Gf attrs,
      generate_graph_data_word ascii_lower [] [] insertion_order three_grants
                               (str "alpha") 2 = Some Gf
      /\ get (str "alpha") (_node Gf) = Some attrs
      /\ get attr_total_deg attrs = Some 2
      /\ degree Gf (str "alpha") = Some 1)
  /\ (exists Gf attrs,
        generate_graph_data_all ascii_lower [] [] insertion_order three_grants 2 = Some Gf
        /\ get (str "alpha") (_node Gf) = Some attrs
        /\ get attr_total_deg attrs = Some 2
        /\ degree Gf (str "alpha") = Some 1)
  /\ (exists Gf attrs,
        generate_graph_data_all ascii_lower [] [] reverse_order three_grants 2 = Some Gf
        /\ get (str "alpha") (_node Gf) = Some attrs
        /\ get attr_total_deg attrs = Some 2
        /\ degree Gf (str "alpha") = Some 1).
Proof.
  repeat split; eexists; eexists; (split; [vm_compute; reflexivity|]);
    (split; [vm_compute; reflexivity|]); split; vm_compute; reflexivity.
Qed.

(** ** Sorting by weight *)

Section SortFacts.
Context {A : Type}.
Implicit Types (x y : A * Z) (l : list (A * Z)).

Lemma insert_desc_In x y l : In y (insert_desc x l) <-> y = x \/ In y l.
Proof.
  induction l as [|z l IH]; simpl; [intuition|].
  destruct (snd x <? snd z); simpl; [rewrite IH|]; intuition.
Qed.

Lemma insert_desc_perm x l : Permutation (insert_desc x l) (x :: l).
Proof.
  induction l as [|z l IH]; simpl; [reflexivity|].
  destruct (snd x <? snd z); [|reflexivity].
  rewrite IH. apply perm_swap.
Qed.

Lemma _sort_tuples_perm l : Permutation (_sort_tuples l) l.
Proof.
  induction l as [|x l IH]; simpl; [reflexivity|].
  rewrite insert_desc_perm. apply perm_skip, IH.
Qed.

Lemma before_cons x y z l : before x y l -> before x y (z :: l).
Proof.
  intros (l1 & l2 & l3 & ->). exists (z :: l1), l2, l3. reflexivity.
Qed.

Lemma before_head x y l : In y l -> before x y (x :: l).
Proof.
  intros H. apply in_split in H. destruct H as (l1 & l2 & ->).
  exists [], l1, l2. reflexivity.
Qed.

Lemma ranks_above_cons l z x y : ranks_above l x y -> ranks_above (z :: l) x y.
Proof.
  intros [H|[H1 H2]]; [left; exact H | right; split; [exact H1 | apply before_cons, H2]].
Qed.

Lemma ranks_above_weight l x y : ranks_above l x y -> snd y <= snd x.
Proof. intros [H|[H _]]; lia. Qed.

Lemma insert_desc_ordered l a s :
  ForallOrdPairs (ranks_above l) s -> (forall y, In y s -> In y l) ->
  ForallOrdPairs (ranks_above (a :: l)) (insert_desc a s).
Proof.
  intros Hs. induction Hs as [|y r Hy Hr IH]; intros Hin; simpl.
  - constructor; constructor.
  - destruct (snd a <? snd y) eqn:E.
    + apply Z.ltb_lt in E. constructor.
      * apply Forall_forall. intros z Hz. apply insert_desc_In in Hz.
        destruct Hz as [->|Hz]; [left; exact E|].
        apply ranks_above_cons. rewrite Forall_forall in Hy. apply Hy, Hz.
      * apply IH. intros z Hz. apply Hin. right; exact Hz.
    + apply Z.ltb_ge in E. constructor.
      * apply Forall_forall. intros z Hz.
        assert (Hle : snd z <= snd a).
        { destruct Hz as [<-|Hz]; [exact E|].
          rewrite Forall_forall in Hy. pose proof (ranks_above_weight _ _ _ (Hy z Hz)). lia. }
        destruct (Z.eq_dec (snd z) (snd a)) as [Heq|Hne].
        -- right. split; [symmetry; exact Heq|]. apply before_head. apply Hin, Hz.
        -- left. lia.
      * constructor.
        -- apply Forall_forall. intros z Hz. apply ranks_above_cons.
           rewrite Forall_forall in Hy. apply Hy, Hz.
        -- clear -Hr. induction Hr as [|u t Hu Ht IHt]; constructor; [|exact IHt].
           apply Forall_forall. intros z Hz. apply ranks_above_cons.
           rewrite Forall_forall in Hu. apply Hu, Hz.
Qed.

(** In the sorted list every item ranks above all the items after it. *)
Lemma _sort_tuples_ordered l : ForallOrdPairs (ranks_above l) (_sort_tuples l).
Proof.
  induction l as [|a l IH]; simpl; [constructor|].
  apply insert_desc_ordered; [exact IH|].
  intros y Hy. apply (Permutation_in _ (_sort_tuples_perm l)); exact Hy.
Qed.

Lemma ForallOrdPairs_app_inv (R : A * Z -> A * Z -> Prop) l1 l2 x y :
  ForallOrdPairs R (l1 ++ l2) -> In x l1 -> In y l2 -> R x y.
Proof.
  induction l1 as [|z l1 IH]; simpl; intros H Hx Hy; [contradiction|].
  inversion H as [|? ? Hz Hr]; subst. destruct Hx as [->|Hx].
  - rewrite Forall_forall in Hz. apply Hz. apply in_or_app; right; exact Hy.
  - apply IH; assumption.
Qed.

(** Cutting the sorted list anywhere: what is kept ranks above what is cut. *)
Lemma _sort_tuples_prefix l (k : nat) x y :
  In x (firstn k (_sort_tuples l)) -> In y (skipn k (_sort_tuples l)) ->
  ranks_above l x y.
Proof.
  intros Hx Hy. apply (ForallOrdPairs_app_inv _ (firstn k (_sort_tuples l))
                                               (skipn k (_sort_tuples l))); auto.
  rewrite firstn_skipn. apply _sort_tuples_ordered.
Qed.

End SortFacts.

(** ** Removing edges *)

Lemma map_id_in {X : Type} (f : X -> X) (l : list X) :
  (forall x, In x l -> f x = x) -> List.map f l = l.
Proof.
  induction l as [|x l IH]; simpl; intros H; [reflexivity|].
  rewrite H by auto. rewrite IH by auto. reflexivity.
Qed.

Lemma filter_all {X : Type} (p : X -> bool) (l : list X) :
  (forall x, In x l -> p x = true) -> List.filter p l = l.
Proof.
  induction l as [|x l IH]; simpl; intros H; [reflexivity|].
  rewrite H by auto. rewrite IH by auto. reflexivity.
Qed.

Lemma filter_filter {X : Type} (p q : X -> bool) (l : list X) :
  List.filter q (List.filter p l) = List.filter (fun x => p x && q x) l.
Proof.
  induction l as [|x l IH]; simpl; [reflexivity|].
  destruct (p x); simpl; [destruct (q x)|]; rewrite IH; reflexivity.
Qed.

Lemma filter_map_comm {X Y : Type} (g : X -> Y) (p : Y -> bool) (l : list X) :
  List.filter p (List.map g l) = List.map g (List.filter (fun x => p (g x)) l).
Proof.
  induction l as [|x l IH]; simpl; [reflexivity|].
  destruct (p (g x)); simpl; rewrite IH; reflexivity.
Qed.

Lemma set_as_map {V : Type} (k : pystr) (new : V) (d : dict V) :
  wf d -> In k (keys d) ->
  set k new d = List.map (fun kv => if str_eqb k (fst kv) then (fst kv, new) else kv) d.
Proof.
  unfold wf. induction d as [|[k' v'] d IH]; simpl; intros Hnd Hin; [contradiction|].
  inversion Hnd as [|? ? Hn Hd]; subst. str_split k k'; subst.
  - f_equal. symmetry. apply map_id_in. intros [k0 v0] H0.
    simpl. str_split k' k0; subst; [|reflexivity].
    exfalso. apply Hn. apply (in_map fst) in H0. exact H0.
  - f_equal. apply IH; [exact Hd|]. destruct Hin; congruence.
Qed.

Lemma get_filter_key {V : Type} (q : pystr -> bool) (d : dict V) (k : pystr) :
  get k (List.filter (fun kv => q (fst kv)) d) = if q k then get k d else None.
Proof.
  induction d as [|[k' v] d IH]; simpl; [destruct (q k); reflexivity|].
  destruct (str_eqb k k') eqn:E.
  - apply str_eqb_eq in E. rewrite <- E.
    destruct (q k) eqn:Eq; simpl; [rewrite str_eqb_refl; reflexivity | exact IH].
  - destruct (q k'); simpl; [rewrite E|]; exact IH.
Qed.

Lemma keys_filter_key {V : Type} (q : pystr -> bool) (d : dict V) :
  keys (List.filter (fun kv => q (fst kv)) d) = List.filter q (keys d).
Proof.
  unfold keys. induction d as [|[k v] d IH]; simpl; [reflexivity|].
  destruct (q k); simpl; rewrite IH; reflexivity.
Qed.

Lemma get_map_entries {V W : Type} (h : pystr -> V -> W) (d : dict V) (k : pystr) :
  get k (List.map (fun kv => (fst kv, h (fst kv) (snd kv))) d) = option_map (h k) (get k d).
Proof.
  induction d as [|[k' v] d IH]; simpl; [reflexivity|].
  str_split k k'; subst; [reflexivity | exact IH].
Qed.

Lemma keys_map_entries {V W : Type} (h : pystr -> V -> W) (d : dict V) :
  keys (List.map (fun kv => (fst kv, h (fst kv) (snd kv))) d) = keys d.
Proof. unfold keys. rewrite map_map. reflexivity. Qed.

Lemma edge_eqb_eq (e1 e2 : edge) : edge_eqb e1 e2 = true <-> e1 = e2.
Proof.
  destruct e1 as [a b], e2 as [c d]. unfold edge_eqb; simpl.
  rewrite andb_true_iff, !str_eqb_eq. split; [intros [-> ->]; reflexivity|].
  intros H; inversion H; auto.
Qed.

Lemma edge_in_In (e : edge) (l : list edge) : edge_in e l = true <-> In e l.
Proof.
  unfold edge_in. rewrite existsb_exists. split.
  - intros [x [Hx E]]. apply edge_eqb_eq in E; subst; exact Hx.
  - intros H. exists e. split; [exact H | apply edge_eqb_eq; reflexivity].
Qed.

Lemma edge_in_not_In (e : edge) (l : list edge) : edge_in e l = false <-> ~ In e l.
Proof. rewrite <- edge_in_In. destruct (edge_in e l); split; congruence. Qed.

Lemma keep_edge_sym (rem : list edge) (n k : pystr) : keep_edge rem n k = keep_edge rem k n.
Proof. unfold keep_edge. rewrite orb_comm. reflexivity. Qed.

Lemma keep_edge_cons (e : edge) (rem : list edge) (n k : pystr) :
  keep_edge (e :: rem) n k = keep_edge [e] n k && keep_edge rem n k.
Proof.
  unfold keep_edge; simpl. rewrite !orb_false_r.
  destruct (edge_eqb (n, k) e), (edge_eqb (k, n) e), (edge_in (n, k) rem),
    (edge_in (k, n) rem); reflexivity.
Qed.

Lemma keep_edge_nil (n k : pystr) : keep_edge [] n k = true.
Proof. reflexivity. Qed.

Lemma drop_edges_nil (adj : dict (dict Z)) : drop_edges [] adj = adj.
Proof.
  unfold drop_edges. apply map_id_in. intros [n nbrs] _; simpl.
  apply f_equal. apply filter_all. intros; reflexivity.
Qed.

Lemma drop_edges_cons (e : edge) (rem : list edge) (adj : dict (dict Z)) :
  drop_edges rem (drop_edges [e] adj) = drop_edges (e :: rem) adj.
Proof.
  unfold drop_edges. rewrite map_map. apply map_ext. intros [n nbrs]; simpl.
  apply f_equal. rewrite filter_filter. apply filter_ext. intros [k w]; simpl.
  symmetry. apply keep_edge_cons.
Qed.

Lemma get_drop_edges (rem : list edge) (adj : dict (dict Z)) (x : pystr) :
  get x (drop_edges rem adj)
  = option_map (List.filter (fun nw => keep_edge rem x (fst nw))) (get x adj).
Proof.
  apply (get_map_entries (fun n nbrs => List.filter (fun nw => keep_edge rem n (fst nw)) nbrs)).
Qed.

Lemma keys_drop_edges (rem : list edge) (adj : dict (dict Z)) :
  keys (drop_edges rem adj) = keys adj.
Proof.
  apply (keys_map_entries (fun n nbrs => List.filter (fun nw => keep_edge rem n (fst nw)) nbrs)).
Qed.

Lemma weight_drop_edges (rem : list edge) (nodes : dict (dict Z)) (adj : dict (dict Z))
    (x y : pystr) :
  weight x y (mkGraph nodes (drop_edges rem adj))
  = if keep_edge rem x y then weight x y (mkGraph nodes adj) else None.
Proof.
  unfold weight; cbn [_adj]. rewrite get_drop_edges.
  destruct (get x adj) as [nbrs|]; simpl; [|destruct (keep_edge rem x y); reflexivity].
  apply (get_filter_key (fun k => keep_edge rem x k)).
Qed.

Lemma graph_wf_drop_edges (rem : list edge) (G : Graph) :
  graph_wf G -> graph_wf (mkGraph (_node G) (drop_edges rem (_adj G))).
Proof.
  intros (Hk & Hwf & Hn & Hs). unfold graph_wf; simpl.
  assert (Hkeys : keys (drop_edges rem (_adj G)) = keys (_adj G))
    by apply keys_drop_edges.
  split; [rewrite Hkeys; exact Hk|]. split; [unfold wf; rewrite Hkeys; exact Hwf|]. split.
  - intros n nbrs. rewrite get_drop_edges.
    destruct (get n (_adj G)) as [nbrs0|] eqn:E; simpl; [|discriminate].
    intros H; inversion H; subst. apply keys_filter_NoDup. eapply Hn; eauto.
  - intros u v. rewrite !weight_drop_edges, keep_edge_sym.
    destruct G as [nodes adj]; simpl in *. rewrite (Hs u v). reflexivity.
Qed.

Lemma weight_of_entry (G : Graph) (n k : pystr) (nbrs : dict Z) (w : Z) :
  graph_wf G -> In (n, nbrs) (_adj G) -> In (k, w) nbrs -> weight n k G = Some w.
Proof.
  intros (_ & Hwf & Hn & _) H1 H2. unfold weight.
  rewrite (In_get _ _ _ Hwf H1); simpl.
  apply In_get; [|exact H2]. eapply Hn. apply In_get; eauto.
Qed.

Lemma drop_edges_absent (G : Graph) (u v : pystr) :
  graph_wf G -> weight u v G = None -> drop_edges [(u, v)] (_adj G) = _adj G.
Proof.
  intros HG Hw. unfold drop_edges. apply map_id_in. intros [n nbrs] Hin; simpl.
  apply f_equal. apply filter_all. intros [k w] Hk; simpl.
  unfold keep_edge; simpl. rewrite !orb_false_r.
  pose proof (weight_of_entry G n k nbrs w HG Hin Hk) as Hnk.
  destruct (edge_eqb (n, k) (u, v)) eqn:E1.
  - apply edge_eqb_eq in E1. inversion E1; subst. congruence.
  - destruct (edge_eqb (k, n) (u, v)) eqn:E2; [|reflexivity].
    apply edge_eqb_eq in E2. inversion E2; subst.
    destruct HG as (_ & _ & _ & Hs). rewrite Hs in Hnk. congruence.
Qed.

Lemma keep_single (u v n k : pystr) :
  keep_edge [(u, v)] n k
  = negb (str_eqb n u && str_eqb k v || str_eqb k u && str_eqb n v).
Proof.
  unfold keep_edge, edge_in, edge_eqb; simpl. rewrite !orb_false_r. reflexivity.
Qed.

Lemma graph_eta (G : Graph) : mkGraph (_node G) (_adj G) = G.
Proof. destruct G; reflexivity. Qed.

Lemma remove_edge_drop (G : Graph) (e : edge) :
  graph_wf G ->
  remove_edge G e = Some (mkGraph (_node G) (drop_edges [e] (_adj G))).
Proof.
  intros HG. destruct e as [u v].
  destruct (weight u v G) as [w|] eqn:Ew.
  - pose proof HG as (Hk & Hwf & Hn & Hs).
    pose proof Ew as Ew'. rewrite Hs in Ew'.
    unfold weight in Ew, Ew'. unfold remove_edge.
    destruct (get u (_adj G)) as [nbrs_u|] eqn:Eu; simpl in Ew; [|discriminate].
    destruct (get v (_adj G)) as [nbrs_v|] eqn:Ev; simpl in Ew'; [|discriminate].
    unfold mem at 1. rewrite Ew.
    assert (Hu : In u (keys (_adj G))) by (eapply get_Some_key; eauto).
    assert (Hv : In v (keys (_adj G))) by (eapply get_Some_key; eauto).
    assert (Hentry : forall n nbrs, In (n, nbrs) (_adj G) -> get n (_adj G) = Some nbrs)
      by (intros; apply In_get; assumption).
    str_split u v.
    + subst v. f_equal. f_equal.
      rewrite set_as_map by assumption. unfold drop_edges.
      apply map_ext_in. intros [n nbrs] Hin. simpl.
      str_split u n.
      * subst n. apply Hentry in Hin. rewrite Eu in Hin. inversion Hin; subst nbrs.
        apply f_equal. unfold del. apply filter_ext. intros [k w']; simpl.
        rewrite keep_single, str_eqb_refl. rewrite (str_eqb_sym k u).
        destruct (str_eqb u k); reflexivity.
      * apply f_equal. symmetry. apply filter_all. intros [k w'] _; simpl.
        rewrite keep_single. rewrite (str_eqb_sym n u), E0. simpl.
        rewrite andb_false_r. reflexivity.
    + rewrite get_set_other by assumption. rewrite Ev; simpl.
      unfold mem. rewrite Ew'. f_equal. f_equal.
      rewrite (set_as_map v); [|apply wf_set; exact Hwf | apply In_keys_set; auto].
      rewrite set_as_map by assumption. rewrite map_map. unfold drop_edges.
      apply map_ext_in. intros [n nbrs] Hin. simpl.
      str_split u n.
      * subst n. apply Hentry in Hin. rewrite Eu in Hin. inversion Hin; subst nbrs.
        simpl. assert (Evu : str_eqb v u = false) by (apply str_eqb_neq; congruence).
        rewrite Evu. apply f_equal. unfold del. apply filter_ext. intros [k w']; simpl.
        rewrite keep_single, str_eqb_refl, E. rewrite andb_false_r, orb_false_r. simpl.
        rewrite (str_eqb_sym k v). reflexivity.
      * simpl. str_split v n.
        -- subst n. apply Hentry in Hin. rewrite Ev in Hin. inversion Hin; subst nbrs.
           apply f_equal. unfold del. apply filter_ext. intros [k w']; simpl.
           rewrite keep_single, str_eqb_refl. rewrite (str_eqb_sym v u), E.
           simpl. rewrite andb_true_r. rewrite (str_eqb_sym k u). reflexivity.
        -- apply f_equal. symmetry. apply filter_all. intros [k w'] _; simpl.
           rewrite keep_single. rewrite (str_eqb_sym n u), E0, (str_eqb_sym n v), E1.
           simpl. rewrite andb_false_r. reflexivity.
  - transitivity (Some G).
    + unfold remove_edge. unfold weight in Ew.
      destruct (get u (_adj G)) as [nbrs_u|]; simpl in Ew; [|reflexivity].
      unfold mem. rewrite Ew. reflexivity.
    + f_equal. rewrite <- (graph_eta G) at 1. f_equal.
      symmetry. apply drop_edges_absent; assumption.
Qed.

Lemma remove_edges_from_drop (rem : list edge) (G : Graph) :
  graph_wf G ->
  remove_edges_from rem G = Some (mkGraph (_node G) (drop_edges rem (_adj G))).
Proof.
  unfold remove_edges_from. revert G; induction rem as [|e rem IH]; intros G HG; simpl.
  - rewrite drop_edges_nil, graph_eta. reflexivity.
  - rewrite (remove_edge_drop G e HG); simpl.
    rewrite IH by (apply graph_wf_drop_edges; exact HG). simpl.
    rewrite drop_edges_cons. reflexivity.
Qed.

(** ** Enumerating edges *)

Lemma edges_from_drop (rem : list edge) (adj : dict (dict Z)) (seen : list pystr) :
  edges_from seen (drop_edges rem adj)
  = List.filter (fun e => keep_edge rem (fst e) (snd e)) (edges_from seen adj).
Proof.
  revert seen; induction adj as [|[n nbrs] adj IH]; intros seen; simpl; [reflexivity|].
  rewrite filter_app, IH. f_equal.
  rewrite filter_map_comm. simpl. f_equal.
  rewrite (keys_filter_key (fun k => keep_edge rem n k)).
  rewrite !filter_filter. apply filter_ext. intros k. apply andb_comm.
Qed.

Lemma edges_from_In (seen : list pystr) (adj : dict (dict Z)) (a b : pystr) :
  In (a, b) (edges_from seen adj) ->
  ~ In b seen /\ exists nbrs, In (a, nbrs) adj /\ In b (keys nbrs).
Proof.
  revert seen; induction adj as [|[n nbrs] adj IH]; intros seen; simpl; [tauto|].
  rewrite in_app_iff. intros [H|H].
  - apply in_map_iff in H. destruct H as [k [E Hk]]. inversion E; subst.
    apply filter_In in Hk. destruct Hk as [Hk Hs].
    apply negb_true_iff, str_in_not_In in Hs. split; [exact Hs|]. eauto.
  - apply IH in H. destruct H as [Hs [nb [H1 H2]]]. split; [|eauto].
    intros Hb. apply Hs. right; exact Hb.
Qed.

Lemma edges_from_seen (seen : list pystr) (adj : dict (dict Z)) (a b x : pystr) :
  In (a, b) (edges_from (x :: seen) adj) -> b <> x.
Proof.
  intros H. apply edges_from_In in H. destruct H as [Hs _].
  intros ->. apply Hs. left; reflexivity.
Qed.

(** An edge is reported in one orientation only. *)
Lemma edges_from_one_orientation (seen : list pystr) (adj : dict (dict Z)) (a b : pystr) :
  wf adj -> In (a, b) (edges_from seen adj) -> In (b, a) (edges_from seen adj) -> a = b.
Proof.
  unfold wf. revert seen; induction adj as [|[n nbrs] adj IH]; intros seen Hnd; simpl; [tauto|].
  inversion Hnd as [|? ? Hn Hd]; subst. rewrite !in_app_iff.
  assert (Hhead : forall x y, In (x, y) (List.map (fun nbr => (n, nbr))
                    (List.filter (fun nbr => negb (str_in nbr seen)) (keys nbrs))) -> x = n).
  { intros x y H. apply in_map_iff in H. destruct H as [k [E _]]. inversion E; reflexivity. }
  intros [H1|H1] [H2|H2].
  - apply Hhead in H1. apply Hhead in H2. congruence.
  - apply Hhead in H1. subst a. exfalso. eapply edges_from_seen; eauto.
  - apply Hhead in H2. subst b. exfalso. eapply edges_from_seen; eauto.
  - eapply IH; eauto.
Qed.

Lemma edges_from_NoDup (seen : list pystr) (adj : dict (dict Z)) :
  wf adj -> (forall n nbrs, In (n, nbrs) adj -> wf nbrs) ->
  NoDup (edges_from seen adj).
Proof.
  unfold wf. revert seen; induction adj as [|[n nbrs] adj IH]; intros seen Hnd Hn; simpl.
  - constructor.
  - inversion Hnd as [|? ? Hnot Hd]; subst. apply NoDup_app.
    + apply Finite.Injective_map_NoDup; [intros x y E; inversion E; reflexivity|].
      apply NoDup_filter. apply (Hn n nbrs). left; reflexivity.
    + apply IH; [exact Hd|]. intros m nb H. apply (Hn m nb). right; exact H.
    + intros [x y] H1 H2. apply in_map_iff in H1. destruct H1 as [k [E _]].
      inversion E; subst. apply edges_from_In in H2. destruct H2 as [_ [nb [H2 _]]].
      apply Hnot. apply (in_map fst) in H2. exact H2.
Qed.

Lemma edges_from_seen_ext (adj : dict (dict Z)) (seen1 seen2 : list pystr) :
  (forall n nbrs k, In (n, nbrs) adj -> In k (keys nbrs) ->
                    str_in k seen1 = str_in k seen2) ->
  edges_from seen1 adj = edges_from seen2 adj.
Proof.
  revert seen1 seen2; induction adj as [|[n nbrs] adj IH]; intros s1 s2 H; simpl; [reflexivity|].
  f_equal.
  - f_equal. apply filter_ext_in. intros k Hk. f_equal. apply (H n nbrs); [left; reflexivity | exact Hk].
  - apply IH. intros m nb k Hm Hk. simpl. f_equal. apply (H m nb); [right; exact Hm | exact Hk].
Qed.

(** Every edge of the adjacency is reported, in one orientation or the
    other. *)
Lemma edges_from_cover (adj : dict (dict Z)) (seen : list pystr)
    (n k : pystr) (nbrs nbk : dict Z) :
  wf adj -> In (n, nbrs) adj -> In k (keys nbrs) -> In (k, nbk) adj -> In n (keys nbk) ->
  ~ In n seen -> ~ In k seen ->
  In (n, k) (edges_from seen adj) \/ In (k, n) (edges_from seen adj).
Proof.
  unfold wf. revert seen; induction adj as [|[m nbm] adj IH]; intros seen Hnd Hn Hk Hkn Hnk Hs1 Hs2;
    [contradiction|].
  simpl. rewrite !in_app_iff. inversion Hnd as [|? ? Hnot Hd]; subst.
  assert (Hfst : forall x nb, In (x, nb) adj -> x <> m).
  { intros x nb Hx ->. apply Hnot. apply (in_map fst) in Hx. exact Hx. }
  destruct Hn as [Hn|Hn].
  - inversion Hn; subst. left; left. apply in_map. apply filter_In.
    split; [exact Hk|]. apply negb_true_iff, str_in_not_In. exact Hs2.
  - destruct Hkn as [Hkn|Hkn].
    + inversion Hkn; subst. right; left. apply in_map. apply filter_In.
      split; [exact Hnk|]. apply negb_true_iff, str_in_not_In. exact Hs1.
    + destruct (IH (m :: seen) Hd Hn Hk Hkn Hnk) as [H|H]; auto.
      * intros [E|E]; [apply (Hfst _ _ Hn); auto | auto].
      * intros [E|E]; [apply (Hfst _ _ Hkn); auto | auto].
Qed.

(** ** Removing isolated nodes *)

Lemma degree_of_zero (n : pystr) (nbrs : dict Z) : degree_of n nbrs = 0 <-> nbrs = [].
Proof.
  unfold degree_of. split.
  - destruct nbrs as [|p r]; [reflexivity|]. simpl length.
    destruct (mem n (p :: r)); lia.
  - intros ->. reflexivity.
Qed.

Lemma degree_of_pos (n : pystr) (nbrs : dict Z) : nbrs <> [] -> 1 <= degree_of n nbrs.
Proof.
  intros H. unfold degree_of. destruct nbrs as [|p r]; [congruence|]. simpl length.
  destruct (mem n (p :: r)); lia.
Qed.

Lemma isolates_In (G : Graph) (n : pystr) : In n (isolates G) <-> In (n, []) (_adj G).
Proof.
  unfold isolates, degree_view. rewrite in_map_iff. split.
  - intros [[m d] [E H]]. simpl in E; subst m. apply filter_In in H. destruct H as [H Hd].
    apply in_map_iff in H. destruct H as [[m nbrs] [E H]]. simpl in E. inversion E; subst.
    simpl in Hd. apply Z.eqb_eq, degree_of_zero in Hd. subst. exact H.
  - intros H. exists (n, 0). split; [reflexivity|]. apply filter_In. split; [|reflexivity].
    apply in_map_iff. exists (n, []). split; [reflexivity | exact H].
Qed.

Lemma isolates_NoDup (G : Graph) : wf (_adj G) -> NoDup (isolates G).
Proof.
  unfold isolates, degree_view, wf, keys.
  induction (_adj G) as [|[n nbrs] adj IH]; simpl; intros H; [constructor|].
  inversion H as [|? ? Hn Hd]; subst.
  destruct (degree_of n nbrs =? 0); simpl; [|auto].
  constructor; [|auto]. intros Hin. apply Hn.
  apply in_map_iff in Hin. destruct Hin as [[m d] [E Hin]]. simpl in E; subst m.
  apply filter_In in Hin. destruct Hin as [Hin _].
  apply in_map_iff in Hin. destruct Hin as [[m nb] [E Hin]]. inversion E; subst.
  apply (in_map fst) in Hin. exact Hin.
Qed.

Lemma del_as_filter {V : Type} (n : pystr) (l : list pystr) (d : dict V) :
  List.filter (fun kv => negb (str_in (fst kv) l)) (del n d)
  = List.filter (fun kv => negb (str_in (fst kv) (n :: l))) d.
Proof.
  unfold del. rewrite filter_filter. apply filter_ext. intros [k v]; simpl.
  rewrite (str_eqb_sym k n). destruct (str_eqb n k); reflexivity.
Qed.

Lemma remove_isolated_nodes (l : list pystr) (G : Graph) :
  NoDup l ->
  (forall n, In n l -> get n (_adj G) = Some []) ->
  (forall n, In n l -> In n (keys (_node G))) ->
  remove_nodes_from l G
  = mkGraph (List.filter (fun kv => negb (str_in (fst kv) l)) (_node G))
            (List.filter (fun kv => negb (str_in (fst kv) l)) (_adj G)).
Proof.
  unfold remove_nodes_from. revert G; induction l as [|n l IH]; intros G Hnd Ha Hn; simpl.
  - rewrite !filter_all by reflexivity. symmetry; apply graph_eta.
  - inversion Hnd as [|? ? Hnot Hd]; subst.
    assert (E : remove_node G n = mkGraph (del n (_node G)) (del n (_adj G))).
    { unfold remove_node. destruct (In_keys_get _ _ (Hn n (or_introl eq_refl))) as [a Ea].
      rewrite Ea, (Ha n (or_introl eq_refl)). reflexivity. }
    rewrite E. rewrite IH; simpl.
    + rewrite !del_as_filter. reflexivity.
    + exact Hd.
    + intros m Hm. rewrite get_del. str_split n m; [subst; contradiction|].
      apply Ha; right; exact Hm.
    + intros m Hm. rewrite keys_del. apply filter_In. split; [apply Hn; right; exact Hm|].
      apply negb_true_iff, str_eqb_neq. intros ->; contradiction.
Qed.

Lemma edges_from_without_isolated (p : pystr -> bool) (adj : dict (dict Z))
    (seen : list pystr) :
  (forall n nbrs, In (n, nbrs) adj -> p n = false -> nbrs = []) ->
  (forall n nbrs k, In (n, nbrs) adj -> In k (keys nbrs) -> p k = true) ->
  edges_from seen (List.filter (fun kv => p (fst kv)) adj) = edges_from seen adj.
Proof.
  revert seen; induction adj as [|[n nbrs] adj IH]; intros seen H1 H2; simpl; [reflexivity|].
  assert (IH' : forall s, edges_from s (List.filter (fun kv => p (fst kv)) adj)
                          = edges_from s adj).
  { intros s. apply IH.
    - intros m nb Hm. apply (H1 m nb). right; exact Hm.
    - intros m nb k Hm. apply (H2 m nb k). right; exact Hm. }
  destruct (p n) eqn:E; simpl.
  - rewrite IH'. reflexivity.
  - rewrite (H1 n nbrs (or_introl eq_refl) E). simpl. rewrite IH'.
    apply edges_from_seen_ext. intros m nb k Hm Hk. simpl.
    assert (Hpk : p k = true) by (apply (H2 m nb k); [right; exact Hm | exact Hk]).
    str_split k n; [subst; congruence | reflexivity].
Qed.

Lemma isolates_get (G : Graph) (n : pystr) :
  graph_wf G -> (In n (isolates G) <-> get n (_adj G) = Some []).
Proof.
  intros (_ & Hwf & _). rewrite isolates_In. split.
  - apply In_get; exact Hwf.
  - apply get_Some_In.
Qed.

Lemma remove_isolates_eq (G : Graph) :
  graph_wf G -> remove_nodes_from (isolates G) G = without_isolated G.
Proof.
  intros HG. pose proof HG as (Hk & Hwf & _).
  apply remove_isolated_nodes.
  - apply isolates_NoDup; exact Hwf.
  - intros n Hn. apply isolates_get; assumption.
  - intros n Hn. rewrite Hk. apply isolates_get in Hn; [|exact HG].
    eapply get_Some_key; eauto.
Qed.

Lemma without_isolated_get (G : Graph) (n : pystr) (nbrs : dict Z) :
  graph_wf G ->
  (get n (_adj (without_isolated G)) = Some nbrs
   <-> get n (_adj G) = Some nbrs /\ nbrs <> []).
Proof.
  intros HG. unfold without_isolated; cbn [_adj].
  rewrite (get_filter_key (fun k => negb (str_in k (isolates G)))).
  destruct (str_in n (isolates G)) eqn:E; simpl.
  - apply str_in_In, isolates_get in E; [|exact HG]. rewrite E.
    split; [discriminate | intros [H1 H2]; inversion H1; congruence].
  - apply str_in_not_In in E. split; [|tauto]. intros H. split; [exact H|].
    intros ->. apply E. apply isolates_get; assumption.
Qed.

Lemma without_isolated_weight (G : Graph) (x y : pystr) :
  graph_wf G -> weight x y (without_isolated G) = weight x y G.
Proof.
  intros HG. unfold weight.
  destruct (get x (_adj (without_isolated G))) as [nbrs|] eqn:E.
  - apply without_isolated_get in E; [|exact HG]. destruct E as [E _]. rewrite E. reflexivity.
  - destruct (get x (_adj G)) as [nbrs|] eqn:E'; [|reflexivity]. simpl.
    destruct nbrs as [|q r]; [reflexivity|].
    assert (H : get x (_adj (without_isolated G)) = Some (q :: r))
      by (apply without_isolated_get; [exact HG | split; [exact E' | discriminate]]).
    congruence.
Qed.

Lemma graph_wf_without_isolated (G : Graph) : graph_wf G -> graph_wf (without_isolated G).
Proof.
  intros HG. pose proof HG as (Hk & Hwf & Hn & Hs).
  split; [|split; [|split]].
  - unfold without_isolated; simpl.
    rewrite !(keys_filter_key (fun k => negb (str_in k (isolates G)))). rewrite Hk. reflexivity.
  - apply keys_filter_NoDup. exact Hwf.
  - intros n nbrs H. apply without_isolated_get in H; [|exact HG]. eapply Hn. apply H.
  - intros u v. rewrite !without_isolated_weight by exact HG. apply Hs.
Qed.

Lemma weight_Some_entries (G : Graph) (x y : pystr) (w : Z) :
  weight x y G = Some w ->
  exists nbrs, get x (_adj G) = Some nbrs /\ get y nbrs = Some w.
Proof.
  unfold weight. destruct (get x (_adj G)) as [nbrs|]; simpl; [eauto | discriminate].
Qed.

Lemma edges_without_isolated (G : Graph) : graph_wf G -> edges (without_isolated G) = edges G.
Proof.
  intros HG. pose proof HG as (Hk & Hwf & Hn & Hs). unfold edges, without_isolated; cbn [_adj].
  apply (edges_from_without_isolated (fun k => negb (str_in k (isolates G)))).
  - intros n nbrs Hin Hp. apply negb_false_iff, str_in_In, isolates_get in Hp; [|exact HG].
    apply (In_get _ _ _ Hwf) in Hin. congruence.
  - intros n nbrs k Hin Hkin. apply negb_true_iff, str_in_not_In. intros Hiso.
    apply isolates_get in Hiso; [|exact HG].
    apply in_map_iff in Hkin. destruct Hkin as [[k' w] [E Hkw]]. simpl in E; subst k'.
    pose proof (weight_of_entry G n k nbrs w HG Hin Hkw) as Hw.
    rewrite Hs in Hw. unfold weight in Hw. rewrite Hiso in Hw. discriminate.
Qed.

Lemma edges_endpoints (G : Graph) (a b : pystr) :
  graph_wf G -> In (a, b) (edges G) ->
  exists w, weight a b G = Some w.
Proof.
  intros HG H. apply edges_from_In in H. destruct H as [_ [nbrs [H1 H2]]].
  apply in_map_iff in H2. destruct H2 as [[k w] [E H2]]. simpl in E; subst k.
  exists w. eapply weight_of_entry; eauto.
Qed.

(** After the isolated nodes are gone, the nodes are the end points of the
    edges. *)
Lemma nodes_without_isolated (G : Graph) (n : pystr) :
  graph_wf G ->
  (In n (keys (_node (without_isolated G)))
   <-> exists e, In e (edges (without_isolated G)) /\ (n = fst e \/ n = snd e)).
Proof.
  intros HG. pose proof (graph_wf_without_isolated G HG) as HG'.
  pose proof HG' as (Hk' & Hwf' & Hn' & Hs'). split.
  - intros Hin. rewrite Hk' in Hin. destruct (In_keys_get _ _ Hin) as [nbrs Hg].
    pose proof Hg as Hg0. apply without_isolated_get in Hg0; [|exact HG].
    destruct Hg0 as [_ Hne]. destruct nbrs as [|[k w] r]; [congruence|].
    assert (Hw : weight n k (without_isolated G) = Some w)
      by (unfold weight; rewrite Hg; simpl; rewrite str_eqb_refl; reflexivity).
    pose proof Hw as Hw'. rewrite Hs' in Hw'.
    destruct (weight_Some_entries _ _ _ _ Hw') as (nbk & Hgk & Hgn).
    destruct (edges_from_cover (_adj (without_isolated G)) [] n k ((k, w) :: r) nbk) as [H|H];
      auto.
    + apply get_Some_In; exact Hg.
    + left; reflexivity.
    + apply get_Some_In; exact Hgk.
    + eapply get_Some_key; eauto.
    + exists (n, k). split; [exact H | left; reflexivity].
    + exists (k, n). split; [exact H | right; reflexivity].
  - intros [[a b] [He Hor]]. simpl in Hor. rewrite Hk'.
    destruct (edges_endpoints _ _ _ HG' He) as [w Hw].
    destruct (weight_Some_keys _ _ _ _ HG' Hw) as [Ha Hb].
    destruct Hor; subst; assumption.
Qed.

Lemma degree_without_isolated (G : Graph) (n : pystr) (d : Z) :
  graph_wf G -> degree (without_isolated G) n = Some d -> 1 <= d.
Proof.
  intros HG. unfold degree, degree_view.
  rewrite (get_map_entries (fun k nbrs => degree_of k nbrs)).
  destruct (get n (_adj (without_isolated G))) as [nbrs|] eqn:E; simpl; [|discriminate].
  intros H; inversion H; subst. apply degree_of_pos.
  apply without_isolated_get in E; tauto.
Qed.

Lemma edges_restricted_to (top : list edge) (G : Graph) :
  graph_wf G ->
  edges (restricted_to top G) = List.filter (fun e => edge_in e top) (edges G).
Proof.
  intros HG. pose proof HG as (_ & Hwf & _). unfold edges, restricted_to; cbn [_adj].
  rewrite edges_from_drop. apply filter_ext_in. intros [a b] Hin. simpl.
  fold (edges G) in *. unfold keep_edge.
  set (rem := List.filter (fun e => negb (edge_in e top)) (edges G)).
  assert (H1 : edge_in (a, b) rem = negb (edge_in (a, b) top)).
  { destruct (edge_in (a, b) top) eqn:E; simpl.
    - apply edge_in_not_In. intros H. apply filter_In in H. rewrite E in H. destruct H; discriminate.
    - apply edge_in_In. apply filter_In. rewrite E. auto. }
  rewrite H1. destruct (edge_in (a, b) top) eqn:E; simpl; [|reflexivity].
  apply negb_true_iff, edge_in_not_In. intros H. apply filter_In in H. destruct H as [H Ht].
  assert (a = b) by (eapply edges_from_one_orientation; eauto).
  subst b. rewrite E in Ht. discriminate.
Qed.

Lemma weight_restricted_to (top : list edge) (G : Graph) (x y : pystr) (w : Z) :
  weight x y (restricted_to top G) = Some w -> weight x y G = Some w.
Proof.
  unfold restricted_to. rewrite weight_drop_edges.
  destruct (keep_edge _ x y); [|discriminate]. rewrite graph_eta. auto.
Qed.

Lemma edge_weights_total (G : Graph) :
  graph_wf G ->
  exists ew, edge_weights G = Some ew
             /\ List.map fst ew = edges G
             /\ forall e w, In (e, w) ew -> weight (fst e) (snd e) G = Some w.
Proof.
  intros HG.
  exists (List.map (fun e => (e, match weight (fst e) (snd e) G with
                                 | Some w => w
                                 | None => 0
                                 end)) (edges G)).
  assert (Hall : forall e, In e (edges G) -> exists w, weight (fst e) (snd e) G = Some w)
    by (intros [a b] H; apply edges_endpoints; assumption).
  split; [|split].
  - unfold edge_weights. apply mapM_map. intros e He.
    destruct (Hall e He) as [w Hw]. rewrite Hw. reflexivity.
  - rewrite map_map. simpl. apply map_id.
  - intros e w H. apply in_map_iff in H. destruct H as [e' [E He]].
    inversion E; subst. destruct (Hall e He) as [w Hw]. rewrite Hw. reflexivity.
Qed.

(** ** Pruning to the heaviest edges *)

Lemma prune_eq (top_n : Z) (G : Graph) (ew : list (edge * Z)) :
  graph_wf G -> edge_weights G = Some ew ->
  prune top_n G
  = Some (without_isolated
            (restricted_to (List.map fst (slice_to (top_n - 1) (_sort_tuples ew))) G)).
Proof.
  intros HG Hew. unfold prune. rewrite Hew; simpl.
  rewrite (remove_edges_from_drop _ G HG); simpl.
  f_equal. apply (remove_isolates_eq (restricted_to _ G)).
  apply graph_wf_drop_edges; exact HG.
Qed.

Lemma NoDup_firstn {X : Type} (k : nat) (l : list X) : NoDup l -> NoDup (firstn k l).
Proof.
  intros H. rewrite <- (firstn_skipn k l) in H. apply NoDup_app_remove_r in H. exact H.
Qed.

Lemma In_firstn {X : Type} (k : nat) (l : list X) (x : X) : In x (firstn k l) -> In x l.
Proof.
  intros H. rewrite <- (firstn_skipn k l). apply in_or_app. left; exact H.
Qed.

Lemma In_fst_unique {X : Type} (l : list (X * Z)) (x y : X * Z) :
  NoDup (List.map fst l) -> In x l -> In y l -> fst x = fst y -> x = y.
Proof.
  induction l as [|z l IH]; simpl; intros Hnd Hx Hy E; [contradiction|].
  inversion Hnd as [|? ? Hn Hd]; subst.
  destruct Hx as [->|Hx]; destruct Hy as [->|Hy]; auto.
  - exfalso. apply Hn. rewrite E. apply in_map; exact Hy.
  - exfalso. apply Hn. rewrite <- E. apply in_map; exact Hx.
Qed.

Lemma prune_spec (top_n : Z) (G : Graph) :
  graph_wf G -> 1 <= top_n ->
  exists ew Gf,
    edge_weights G = Some ew /\ prune top_n G = Some Gf /\ pruned_to_top top_n G Gf ew.
Proof.
  intros HG Htop.
  destruct (edge_weights_total G HG) as (ew & Hew & Hfst & Hw).
  set (k := Z.to_nat (top_n - 1)).
  set (sorted := _sort_tuples ew).
  set (top := List.map fst (firstn k sorted)).
  set (G' := restricted_to top G).
  exists ew, (without_isolated G').
  split; [exact Hew|]. split.
  { rewrite (prune_eq top_n G ew HG Hew). unfold slice_to.
    destruct (0 <=? top_n - 1) eqn:E; [reflexivity | apply Z.leb_gt in E; lia]. }
  assert (HG' : graph_wf G') by (apply graph_wf_drop_edges; exact HG).
  pose proof HG as (_ & Hwf & Hn & _).
  assert (Hnd : NoDup (edges G)).
  { apply edges_from_NoDup; [exact Hwf|]. intros n nbrs H. eapply Hn. apply In_get; eauto. }
  assert (Hperm : Permutation sorted ew) by apply _sort_tuples_perm.
  assert (Hnds : NoDup (List.map fst sorted)).
  { eapply Permutation_NoDup; [apply Permutation_map, Permutation_sym, Hperm|].
    rewrite Hfst; exact Hnd. }
  assert (Hndt : NoDup top)
    by (unfold top; rewrite <- firstn_map; apply NoDup_firstn; exact Hnds).
  assert (Htop_in : forall e, In e top -> In e (edges G)).
  { intros e H. unfold top in H. apply in_map_iff in H. destruct H as [x [E H]].
    rewrite <- Hfst. subst e. apply in_map.
    apply (Permutation_in _ Hperm). eapply In_firstn; eauto. }
  assert (HE : edges (without_isolated G') = List.filter (fun e => edge_in e top) (edges G))
    by (rewrite edges_without_isolated by exact HG'; apply edges_restricted_to; exact HG).
  assert (Hmem : forall e, In e (edges (without_isolated G')) <-> In e top).
  { intros e. rewrite HE, filter_In, edge_in_In. split; [tauto | auto]. }
  assert (Hlen : length (edges (without_isolated G')) = length top).
  { apply Permutation_length. apply NoDup_Permutation; auto.
    rewrite HE. apply NoDup_filter. exact Hnd. }
  assert (Hlen_top : length top = Nat.min k (length (edges G))).
  { unfold top. rewrite length_map, length_firstn.
    rewrite (Permutation_length Hperm). rewrite <- Hfst, length_map. reflexivity. }
  unfold pruned_to_top.
  split; [exact Hfst|]. split; [exact Hw|].
  split; [rewrite Hlen, Hlen_top; unfold k; lia|].
  split; [rewrite Hlen, Hlen_top; reflexivity|].
  split.
  { rewrite HE at 1. apply filter_ext_in. intros e He.
    destruct (edge_in e top) eqn:E.
    - symmetry. apply edge_in_In, Hmem, edge_in_In. exact E.
    - symmetry. apply edge_in_not_In. rewrite Hmem. apply edge_in_not_In. exact E. }
  split.
  { intros [a b] w Hin He. simpl.
    destruct (edges_endpoints _ _ _ (graph_wf_without_isolated G' HG') He) as [w' Hw'].
    rewrite Hw'. f_equal.
    rewrite without_isolated_weight in Hw' by exact HG'.
    apply weight_restricted_to in Hw'.
    specialize (Hw _ _ Hin). simpl in Hw. congruence. }
  split.
  { intros x y Hx Hy Hkx Hky.
    assert (Hfx : In x (firstn k sorted)).
    { apply Hmem in Hkx. unfold top in Hkx. apply in_map_iff in Hkx.
      destruct Hkx as [x' [E Hx']].
      assert (x' = x); [|subst; exact Hx'].
      apply (In_fst_unique ew); auto.
      - rewrite Hfst; exact Hnd.
      - apply (Permutation_in _ Hperm). eapply In_firstn; eauto. }
    assert (Hsy : In y (skipn k sorted)).
    { assert (Hy' : In y sorted) by (apply (Permutation_in _ (Permutation_sym Hperm)); exact Hy).
      rewrite <- (firstn_skipn k sorted) in Hy'. apply in_app_or in Hy'.
      destruct Hy' as [Hy'|Hy']; [|exact Hy'].
      exfalso. apply Hky. apply Hmem. unfold top. apply in_map. exact Hy'. }
    apply (_sort_tuples_prefix ew k); assumption. }
  split; [intros n; apply nodes_without_isolated; exact HG'|].
  intros n d. apply degree_without_isolated; exact HG'.
Qed.

Lemma pruned_to_top_same_adj (top_n : Z) (G G1 Gf : Graph) (ew : list (edge * Z)) :
  _adj G1 = _adj G -> pruned_to_top top_n G1 Gf ew -> pruned_to_top top_n G Gf ew.
Proof.
  intros Ha. unfold pruned_to_top, edges, weight. rewrite Ha. auto.
Qed.

Lemma edge_weights_same_adj (G G1 : Graph) :
  _adj G1 = _adj G -> edge_weights G1 = edge_weights G.
Proof.
  intros Ha. unfold edge_weights, edges, weight. rewrite Ha. reflexivity.
Qed.

Lemma finish_graph_spec (top_n : Z) (G Gf : Graph) :
  graph_wf G -> 1 <= top_n ->
  (G1 <- set_total_deg G ;; prune top_n G1) = Some Gf ->
  exists ew, edge_weights G = Some ew /\ pruned_to_top top_n G Gf ew.
Proof.
  intros HG Htop H.
  destruct (set_total_deg G) as [G1|] eqn:E1; simpl in H; [|discriminate].
  destruct (set_total_deg_spec _ _ HG E1) as (Ha & _ & _).
  pose proof (graph_wf_set_total_deg _ _ HG E1) as HG1.
  destruct (prune_spec top_n G1 HG1 Htop) as (ew & Gf' & Hew & Hp & Hspec).
  rewrite Hp in H. inversion H; subst Gf'.
  exists ew. split.
  - rewrite <- (edge_weights_same_adj G G1 Ha). exact Hew.
  - eapply pruned_to_top_same_adj; eauto.
Qed.

(** C6 (for [top_n] at least 1).  In the ego view and in the global view the
    returned graph is the graph built by the loop over the titles, pruned to
    its [top_n - 1] heaviest edges: at most [top_n - 1] edges are left, they
    are edges of the built graph with their weights, each of them has a
    larger weight than every dropped edge or the same weight and an earlier
    place in the order in which the edges are reported, and the nodes left
    are the end points of the edges left. *)
Theorem pruning_keeps_heaviest_edges :
  forall (str_lower : pystr -> pystr) (STOPWORDS : list pystr) (stopord_txt : pystr)
         (set_iter : list pystr -> list pystr)
         (df : DataFrame) (word : pystr) (top_n : Z),
    1 <= top_n ->
    (forall Gf,
        generate_graph_data_word str_lower STOPWORDS stopord_txt set_iter df word top_n
        = Some Gf ->
        exists stats G ew,
          generate_data str_lower STOPWORDS stopord_txt set_iter df 0 = Some stats
          /\ word_loop str_lower STOPWORDS stopord_txt set_iter stats df word = Some G
          /\ edge_weights G = Some ew
          /\ pruned_to_top top_n G Gf ew)
    /\ (forall Gf,
          generate_graph_data_all str_lower STOPWORDS stopord_txt set_iter df top_n
          = Some Gf ->
          exists stats G ew,
            generate_data str_lower STOPWORDS stopord_txt set_iter df 0 = Some stats
            /\ all_loop str_lower STOPWORDS stopord_txt set_iter stats df = Some G
            /\ edge_weights G = Some ew
            /\ pruned_to_top top_n G Gf ew).
Proof.
  intros lower SW txt it df word top_n Htop. split; intros Gf H.
  - unfold generate_graph_data_word in H.
    destruct (generate_data lower SW txt it df 0) as [stats|]; simpl in H; [|discriminate].
    destruct (word_loop lower SW txt it stats df word) as [G|] eqn:EG; simpl in H; [|discriminate].
    pose proof (graph_wf_word_loop _ _ _ _ _ _ _ _ EG) as HG.
    destruct (finish_graph_spec top_n G Gf HG Htop H) as (ew & Hew & Hspec).
    exists stats, G, ew. auto.
  - unfold generate_graph_data_all in H.
    destruct (generate_data lower SW txt it df 0) as [stats|]; simpl in H; [|discriminate].
    destruct (all_loop lower SW txt it stats df) as [G|] eqn:EG; simpl in H; [|discriminate].
    pose proof (graph_wf_all_loop _ _ _ _ _ _ _ EG) as HG.
    destruct (finish_graph_spec top_n G Gf HG Htop H) as (ew & Hew & Hspec).
    exists stats, G, ew. auto.
Qed.

Lemma pruning_keeps_heaviest_edges_witness :
  (exists Gf stats G ew,
      generate_graph_data_word ascii_lower [] [] insertion_order three_grants (str "alpha") 2
      = Some Gf
      /\ generate_data ascii_lower [] [] insertion_order three_grants 0 = Some stats
      /\ word_loop ascii_lower [] [] insertion_order stats three_grants (str "alpha") = Some G
      /\ edge_weights G = Some ew
      /\ pruned_to_top 2 G Gf ew)
  /\ (exists Gf stats G ew,
        generate_graph_data_all ascii_lower [] [] insertion_order three_grants 2 = Some Gf
        /\ generate_data ascii_lower [] [] insertion_order three_grants 0 = Some stats
        /\ all_loop ascii_lower [] [] insertion_order stats three_grants = Some G
        /\ edge_weights G = Some ew
        /\ pruned_to_top 2 G Gf ew).
Proof.
  destruct (pruning_keeps_heaviest_edges ascii_lower [] [] insertion_order
              three_grants (str "alpha") 2) as [Hw Ha]; [lia|].
  split.
  - destruct (generate_graph_data_word ascii_lower [] [] insertion_order three_grants
                (str "alpha") 2) as [Gf|] eqn:E.
    + destruct (Hw Gf eq_refl) as (stats & G & ew & H1 & H2 & H3 & H4).
      exists Gf, stats, G, ew. auto.
    + vm_compute in E. discriminate.
  - destruct (generate_graph_data_all ascii_lower [] [] insertion_order three_grants 2)
      as [Gf|] eqn:E.
    + destruct (Ha Gf eq_refl) as (stats & G & ew & H1 & H2 & H3 & H4).
      exists Gf, stats, G, ew. auto.
    + vm_compute in E. discriminate.
Defined.

(** C6 as stated fails for [top_n = 0]: the slice [[: top_n - 1]] is then
    [[: -1]], all edges but the last one of the sorted list.  One grant titled
    "alpha beta gamma": the global view keeps 2 of its 3 edges, the ego view
    of "alpha" 1 of its 2, more than [top_n - 1 = -1]. *)
Lemma pruning_with_top_n_zero_keeps_edges :
  (exists Gf,
      generate_graph_data_all ascii_lower [] [] insertion_order one_grant 0 = Some Gf
      /\ length (edges Gf) = 2%nat
      /\ ~ Z.of_nat (length (edges Gf)) <= 0 - 1)
  /\ (exists Gf,
        generate_graph_data_word ascii_lower [] [] insertion_order one_grant
                                 (str "alpha") 0 = Some Gf
        /\ length (edges Gf) = 1%nat
        /\ ~ Z.of_nat (length (edges Gf)) <= 0 - 1).
Proof.
  split; eexists; (split; [vm_compute; reflexivity|]);
    (split; [vm_compute; reflexivity|]); vm_compute; intros H; apply H; reflexivity.
Qed.

(** ** The sub-vocabulary view with a repeated word *)

(** C5.  [generate_graph_data_words] on the single grant "alpha beta" with
    [words = ["alpha", "alpha", "beta"]]: the repeated word is paired with
    itself, so the graph has the self-loop alpha-alpha, and the edge
    alpha-beta is counted twice for the one record that contains both words.
    The outcome is the same whichever way the token set is iterated. *)
Theorem words_view_repeated_word_self_loop :
  (exists G,
      generate_graph_data_words ascii_lower [] [] insertion_order
        [grant "alpha beta" 10] [str "alpha"; str "alpha"; str "beta"] = Some G
      /\ In (str "alpha", str "alpha") (edges G)
      /\ weight (str "alpha") (str "alpha") G = Some 1
      /\ weight (str "alpha") (str "beta") G = Some 2)
  /\ (exists G,
        generate_graph_data_words ascii_lower [] [] reverse_order
          [grant "alpha beta" 10] [str "alpha"; str "alpha"; str "beta"] = Some G
        /\ In (str "alpha", str "alpha") (edges G)
        /\ weight (str "alpha") (str "alpha") G = Some 1
        /\ weight (str "alpha") (str "beta") G = Some 2).
Proof.
  split; eexists; (split; [vm_compute; reflexivity|]);
    (split; [vm_compute; auto|]); split; vm_compute; reflexivity.
Qed.

(** ** Edge weights count co-occurrences *)

Lemma weight_mk (x y : pystr) (G : Graph) :
  weight x y (mkGraph (_node G) (_adj G)) = weight x y G.
Proof. reflexivity. Qed.

Lemma weight_add_node (n : pystr) (attr : dict Z) (G : Graph) (x y : pystr) :
  graph_wf G -> weight x y (add_node n attr G) = weight x y G.
Proof.
  intros (Hk & _). unfold add_node. destruct (get n (_node G)) eqn:E; [reflexivity|].
  assert (E' : get n (_adj G) = None)
    by (apply get_None; rewrite <- Hk; apply get_None; exact E).
  unfold weight; simpl. rewrite get_set. str_split n x; [|reflexivity].
  subst x. rewrite E'. reflexivity.
Qed.

Lemma weight_ensure_node (n : pystr) (G : Graph) (x y : pystr) :
  graph_wf G -> weight x y (ensure_node n G) = weight x y G.
Proof.
  intros HG. destruct (ensure_node_add_node n G) as [E|E]; rewrite E; [reflexivity|].
  apply weight_add_node; exact HG.
Qed.

Lemma pair_match (x y u v : pystr) :
  (str_eqb u x && str_eqb v y || str_eqb v x && str_eqb u y) = true
  <-> (x = u /\ y = v) \/ (x = v /\ y = u).
Proof.
  rewrite orb_true_iff, !andb_true_iff, !str_eqb_eq. intuition congruence.
Qed.

Lemma weight_put_both (u v : pystr) (w : Z) (nodes adj : dict (dict Z)) (x y : pystr) :
  weight x y (mkGraph nodes (put_edge v u w (put_edge u v w adj)))
  = if str_eqb u x && str_eqb v y || str_eqb v x && str_eqb u y
    then Some w else weight x y (mkGraph nodes adj).
Proof.
  rewrite !weight_put_edge.
  destruct (str_eqb v x && str_eqb u y); [rewrite orb_true_r; reflexivity|].
  rewrite orb_false_r. reflexivity.
Qed.

Lemma bump_edge_spec (s t : pystr) (G : Graph) :
  graph_wf G ->
  exists G',
    bump_edge s G t = Some G' /\ graph_wf G'
    /\ (forall x y, (x = s /\ y = t) \/ (x = t /\ y = s) ->
                    weight x y G' = Some (weight_or_zero s t G + 1))
    /\ (forall x y, ~ ((x = s /\ y = t) \/ (x = t /\ y = s)) ->
                    weight x y G' = weight x y G).
Proof.
  intros HG. unfold bump_edge, weight_or_zero.
  destruct (has_edge s t G) eqn:E.
  - apply has_edge_weight in E. destruct E as [w Hw]. rewrite Hw.
    unfold incr_weight. rewrite Hw; simpl. eexists. split; [reflexivity|].
    split; [eapply graph_wf_incr_weight; [exact HG | unfold incr_weight; rewrite Hw; reflexivity]|].
    split; intros x y H; rewrite weight_put_both.
    + apply pair_match in H. rewrite H. reflexivity.
    + destruct (str_eqb s x && str_eqb t y || str_eqb t x && str_eqb s y) eqn:B;
        [apply pair_match in B; contradiction | reflexivity].
  - assert (Hw : weight s t G = None).
    { destruct (weight s t G) eqn:Hw; [|reflexivity].
      assert (has_edge s t G = true) by (apply has_edge_weight; eauto). congruence. }
    rewrite Hw. eexists. split; [reflexivity|].
    split; [apply graph_wf_add_edge; exact HG|].
    destruct (graph_wf_ensure_node s G HG) as [HG1 _].
    assert (Hens : forall x y, weight x y (mkGraph (_node (ensure_node t (ensure_node s G)))
                                                   (_adj (ensure_node t (ensure_node s G))))
                               = weight x y G).
    { intros x y. rewrite weight_mk, weight_ensure_node by exact HG1.
      apply weight_ensure_node; exact HG. }
    unfold add_edge. split; intros x y H; rewrite weight_put_both.
    + apply pair_match in H. rewrite H. reflexivity.
    + destruct (str_eqb s x && str_eqb t y || str_eqb t x && str_eqb s y) eqn:B;
        [apply pair_match in B; contradiction | apply Hens].
Qed.

Lemma weight_or_zero_sym (u v : pystr) (G : Graph) :
  graph_wf G -> weight_or_zero u v G = weight_or_zero v u G.
Proof. intros (_ & _ & _ & Hs). unfold weight_or_zero. rewrite Hs. reflexivity. Qed.

(** One source token paired with each of the tokens of [rest], each step [f]
    being [bump_edge s], possibly after an [add_node]. *)
Lemma bump_all_spec (f : Graph -> pystr -> option Graph) (s : pystr) :
  (forall G t G', graph_wf G -> f G t = Some G' ->
                  exists G0, graph_wf G0 /\ (forall x y, weight x y G0 = weight x y G)
                             /\ bump_edge s G0 t = Some G') ->
  forall (rest : list pystr) (G G' : Graph),
    graph_wf G -> NoDup rest -> ~ In s rest ->
    foldM f rest G = Some G' ->
    graph_wf G'
    /\ (forall x y, (x = s /\ In y rest) \/ (y = s /\ In x rest) ->
                    weight x y G' = Some (weight_or_zero x y G + 1))
    /\ (forall x y, ~ ((x = s /\ In y rest) \/ (y = s /\ In x rest)) ->
                    weight x y G' = weight x y G).
Proof.
  intros Hf. induction rest as [|t rest IH]; intros G G' HG Hnd Hs H; simpl in H.
  - inversion H; subst. split; [exact HG|]. split; [|reflexivity].
    intros x y [[_ []]|[_ []]].
  - destruct (f G t) as [G1|] eqn:E1; simpl in H; [|discriminate].
    destruct (Hf _ _ _ HG E1) as (G0 & HG0 & Hsame & Hb).
    destruct (bump_edge_spec s t G0 HG0) as (G1' & Hb' & HG1 & Hyes & Hno).
    rewrite Hb in Hb'. inversion Hb'; subst G1'. clear Hb'.
    inversion Hnd as [|? ? Htn Hnd']; subst.
    assert (Hst : s <> t) by (intros ->; apply Hs; left; reflexivity).
    assert (Hs' : ~ In s rest) by (intros Hin; apply Hs; right; exact Hin).
    destruct (IH G1 G' HG1 Hnd' Hs' H) as (HG' & Hyes' & Hno').
    assert (Hwz : forall x y, weight_or_zero x y G0 = weight_or_zero x y G)
      by (intros; unfold weight_or_zero; rewrite Hsame; reflexivity).
    split; [exact HG'|]. split.
    + intros x y Hxy.
      destruct (str_eq_dec x s) as [->|Hxs]; destruct (str_eq_dec y s) as [->|Hys].
      * exfalso. destruct Hxy as [[_ Hin]|[_ Hin]]; contradiction.
      * assert (Hy : In y (t :: rest)) by (destruct Hxy as [[_ Hin]|[E _]]; [exact Hin | congruence]).
        destruct Hy as [<-|Hy].
        -- rewrite Hno' by (intros [[_ Hin]|[E _]]; [contradiction | congruence]).
           rewrite Hyes by auto. rewrite Hwz. reflexivity.
        -- rewrite Hyes' by auto. f_equal. f_equal. unfold weight_or_zero.
           rewrite Hno, Hsame; [reflexivity|].
           intros [[_ E]|[E _]]; [subst; contradiction | congruence].
      * assert (Hx : In x (t :: rest)) by (destruct Hxy as [[E _]|[_ Hin]]; [congruence | exact Hin]).
        destruct Hx as [<-|Hx].
        -- rewrite Hno' by (intros [[E _]|[_ Hin]]; [congruence | contradiction]).
           rewrite Hyes by auto. rewrite Hwz. apply f_equal, f_equal2; [|reflexivity].
           apply weight_or_zero_sym. exact HG.
        -- rewrite Hyes' by auto. f_equal. f_equal. unfold weight_or_zero.
           rewrite Hno, Hsame; [reflexivity|].
           intros [[E _]|[E _]]; [congruence | subst; contradiction].
      * exfalso. destruct Hxy as [[E _]|[E _]]; congruence.
    + intros x y Hxy.
      rewrite Hno' by (intros [[E Hin]|[E Hin]]; apply Hxy; [left | right]; split; auto; right; auto).
      rewrite Hno, Hsame; [reflexivity|].
      intros [[E1' E2]|[E1' E2]]; apply Hxy; [left | right]; split; auto; left; auto.
Qed.

(** The pairing loop on a list of distinct tokens counts every unordered
    pair of them once. *)
Lemma pair_loop_spec (T : list pystr) :
  forall (G : Graph) (st : list pystr * Graph),
    graph_wf G -> NoDup T -> pair_loop T T G = Some st ->
    graph_wf (snd st)
    /\ (forall x y, x <> y -> In x T -> In y T ->
                    weight x y (snd st) = Some (weight_or_zero x y G + 1))
    /\ (forall x y, ~ (x <> y /\ In x T /\ In y T) ->
                    weight x y (snd st) = weight x y G).
Proof.
  induction T as [|s rest IH]; intros G st HG Hnd H.
  - inversion H; subst; simpl. split; [exact HG|]. split; [intros x y _ []|reflexivity].
  - unfold pair_loop in H. simpl in H. rewrite str_eqb_refl in H. simpl in H.
    destruct (foldM (bump_edge s) rest G) as [G1|] eqn:E1; simpl in H; [|discriminate].
    change (pair_loop rest rest G1 = Some st) in H.
    inversion Hnd as [|? ? Hs Hnd']; subst.
    destruct (bump_all_spec (bump_edge s) s) with (rest := rest) (G := G) (G' := G1)
      as (HG1 & Hyes1 & Hno1); auto.
    { intros G0 t G' HG0 Hb. exists G0. auto. }
    destruct (IH G1 st HG1 Hnd' H) as (HGst & Hyes & Hno).
    split; [exact HGst|]. split.
    + intros x y Hxy Hx Hy.
      destruct Hx as [<-|Hx]; destruct Hy as [<-|Hy]; [congruence| | |].
      * rewrite Hno by (intros (_ & Hin & _); contradiction). apply Hyes1. auto.
      * rewrite Hno by (intros (_ & _ & Hin); contradiction). apply Hyes1. auto.
      * rewrite Hyes by auto. f_equal. f_equal. unfold weight_or_zero.
        rewrite Hno1; [reflexivity|].
        intros [[E _]|[E _]]; subst; contradiction.
    + intros x y Hxy.
      rewrite Hno by (intros (H1 & H2 & H3); apply Hxy; repeat split; auto; right; auto).
      apply Hno1. intros [[E Hin]|[E Hin]]; subst; apply Hxy.
      * split; [intros ->; contradiction | split; [left; reflexivity | right; exact Hin]].
      * split; [intros ->; contradiction | split; [right; exact Hin | left; reflexivity]].
Qed.

Lemma add_stat_node_weight (stats : WordStats) (G G' : Graph) (tok : pystr) :
  graph_wf G -> add_stat_node stats G tok = Some G' ->
  forall x y, weight x y G' = weight x y G.
Proof.
  intros HG. unfold add_stat_node. destruct stats as [[a f] n].
  destruct (get tok a); simpl; [|discriminate].
  destruct (get tok f); simpl; [|discriminate].
  destruct (get tok n); simpl; [|discriminate].
  intros H; inversion H; subst. intros x y. apply weight_add_node; exact HG.
Qed.

Lemma add_stat_nodes_weight (stats : WordStats) (l : list pystr) :
  forall G G', graph_wf G -> foldM (add_stat_node stats) l G = Some G' ->
               graph_wf G' /\ forall x y, weight x y G' = weight x y G.
Proof.
  induction l as [|t l IH]; intros G G' HG H; simpl in H.
  - inversion H; subst. auto.
  - destruct (add_stat_node stats G t) as [G1|] eqn:E; simpl in H; [|discriminate].
    pose proof (graph_wf_add_stat_node _ _ _ _ HG E) as HG1.
    destruct (IH _ _ HG1 H) as [HG' Hw]. split; [exact HG'|].
    intros x y. rewrite Hw. eapply add_stat_node_weight; eauto.
Qed.

(** A loop over the rows whose body counts one co-occurrence for the pairs
    [pairs row] of each row: at the end the weight of a pair is the number
    of rows that count it. *)
Lemma cooccurrence_loop (step : Graph -> Grant -> option Graph)
    (pairs : Grant -> pystr -> pystr -> bool) :
  (forall G row G', graph_wf G -> step G row = Some G' ->
     graph_wf G'
     /\ (forall x y, pairs row x y = true ->
                     weight x y G' = Some (weight_or_zero x y G + 1))
     /\ (forall x y, pairs row x y = false -> weight x y G' = weight x y G)) ->
  forall (df : DataFrame) (G0 G : Graph),
    graph_wf G0 -> weights_positive G0 -> foldM step df G0 = Some G ->
    graph_wf G /\ weights_positive G
    /\ forall x y, weight_or_zero x y G
                   = weight_or_zero x y G0
                     + Z.of_nat (length (List.filter (fun row => pairs row x y) df)).
Proof.
  intros Hstep. induction df as [|row df IH]; intros G0 G HG0 Hpos H; simpl in H.
  - inversion H; subst. split; [exact HG0|]. split; [exact Hpos|]. intros; simpl; lia.
  - destruct (step G0 row) as [G1|] eqn:E; simpl in H; [|discriminate].
    destruct (Hstep _ _ _ HG0 E) as (HG1 & Hyes & Hno).
    assert (Hwz0 : forall x y, 0 <= weight_or_zero x y G0).
    { intros x y. unfold weight_or_zero. destruct (weight x y G0) eqn:Ew; [|lia].
      specialize (Hpos _ _ _ Ew). lia. }
    assert (Hpos1 : weights_positive G1).
    { intros x y w Hw. destruct (pairs row x y) eqn:Ep.
      - rewrite (Hyes _ _ Ep) in Hw. inversion Hw. specialize (Hwz0 x y). lia.
      - rewrite (Hno _ _ Ep) in Hw. eapply Hpos; eauto. }
    destruct (IH G1 G HG1 Hpos1 H) as (HG & HposG & Hcount).
    split; [exact HG|]. split; [exact HposG|].
    intros x y. rewrite Hcount. simpl. destruct (pairs row x y) eqn:Ep.
    + unfold weight_or_zero at 1. rewrite (Hyes _ _ Ep). simpl length. lia.
    + unfold weight_or_zero at 1 2. rewrite (Hno _ _ Ep). reflexivity.
Qed.

Lemma weight_of_count (G : Graph) (x y : pystr) (c : Z) :
  weights_positive G -> weight_or_zero x y G = c ->
  forall w, weight x y G = Some w -> w = c /\ 1 <= c.
Proof.
  intros Hpos Hc w Hw. unfold weight_or_zero in Hc. rewrite Hw in Hc. subst.
  split; [reflexivity | eapply Hpos; eauto].
Qed.

Lemma finish_graph_weights (top_n : Z) (G Gf : Graph) :
  graph_wf G ->
  (G1 <- set_total_deg G ;; prune top_n G1) = Some Gf ->
  forall a b, In (a, b) (edges Gf) ->
              exists w, weight a b Gf = Some w /\ weight a b G = Some w.
Proof.
  intros HG H a b Hin.
  destruct (set_total_deg G) as [G1|] eqn:E1; simpl in H; [|discriminate].
  destruct (set_total_deg_spec _ _ HG E1) as (Ha & _ & _).
  pose proof (graph_wf_set_total_deg _ _ HG E1) as HG1.
  destruct (edge_weights_total G1 HG1) as (ew & Hew & _).
  rewrite (prune_eq top_n G1 ew HG1 Hew) in H. inversion H; subst Gf; clear H.
  set (top := List.map fst (slice_to (top_n - 1) (_sort_tuples ew))) in *.
  assert (HG' : graph_wf (restricted_to top G1)) by (apply graph_wf_drop_edges; exact HG1).
  destruct (edges_endpoints _ _ _ (graph_wf_without_isolated _ HG') Hin) as [w Hw].
  exists w. split; [exact Hw|].
  rewrite without_isolated_weight in Hw by exact HG'.
  apply weight_restricted_to in Hw. unfold weight in *. rewrite <- Ha. exact Hw.
Qed.

Lemma count_zero_if_never {X : Type} (p : X -> bool) (l : list X) :
  (forall x, In x l -> p x = false) -> length (List.filter p l) = 0%nat.
Proof.
  induction l as [|x l IH]; simpl; intros H; [reflexivity|].
  rewrite (H x) by auto. apply IH. auto.
Qed.

Lemma weights_positive_empty : weights_positive empty_graph.
Proof. intros x y w H. discriminate. Qed.

Lemma filter_single_word (words : list pystr) (t : pystr) :
  NoDup words ->
  List.filter (fun word => str_eqb t word) words = if str_in t words then [t] else [].
Proof.
  induction words as [|w words IH]; simpl; intros Hnd; [reflexivity|].
  inversion Hnd as [|? ? Hn Hd]; subst. rewrite (IH Hd).
  str_split t w; simpl; [|reflexivity].
  subst w. apply str_in_not_In in Hn. rewrite Hn. reflexivity.
Qed.

Lemma search_words_filter (words T : list pystr) :
  NoDup words ->
  List.flat_map (fun token =>
                   List.map (fun _ => token)
                            (List.filter (fun word => str_eqb token word) words)) T
  = List.filter (fun t => str_in t words) T.
Proof.
  intros Hnd. induction T as [|t T IH]; simpl; [reflexivity|].
  rewrite IH, (filter_single_word words t Hnd).
  destruct (str_in t words); reflexivity.
Qed.

Lemma short_list_no_pair (l : list pystr) (x y : pystr) :
  (length l <= 1)%nat -> x <> y -> In x l -> In y l -> False.
Proof.
  destruct l as [|a [|b l]]; simpl; intros Hlen Hxy Hx Hy; try lia; try contradiction.
  destruct Hx as [<-|[]]. destruct Hy as [<-|[]]. congruence.
Qed.

Section ViewWeights.
Variable str_lower : pystr -> pystr.
Variable STOPWORDS : list pystr.
Variable stopord_txt : pystr.
Variable set_iter : list pystr -> list pystr.

Local Abbreviation tokens_of row :=
  (tokenize_and_stem str_lower STOPWORDS stopord_txt set_iter (Titel row)).
Local Abbreviation cooc := (cooccurrences str_lower STOPWORDS stopord_txt set_iter).

Lemma pairs_row_spec (stats : WordStats) (T : list pystr) (G G' : Graph) :
  graph_wf G -> NoDup T ->
  (G1 <- foldM (add_stat_node stats) T G ;; st <- pair_loop T T G1 ;; Some (snd st)) = Some G' ->
  graph_wf G'
  /\ (forall x y, negb (str_eqb x y) && str_in x T && str_in y T = true ->
                  weight x y G' = Some (weight_or_zero x y G + 1))
  /\ (forall x y, negb (str_eqb x y) && str_in x T && str_in y T = false ->
                  weight x y G' = weight x y G).
Proof.
  intros HG Hnd H.
  destruct (foldM (add_stat_node stats) T G) as [G1|] eqn:E1; simpl in H; [|discriminate].
  destruct (pair_loop T T G1) as [st|] eqn:E2; simpl in H; [|discriminate].
  inversion H; subst G'; clear H.
  destruct (add_stat_nodes_weight _ _ _ _ HG E1) as [HG1 Hsame].
  destruct (pair_loop_spec T G1 st HG1 Hnd E2) as (HGst & Hyes & Hno).
  split; [exact HGst|]. split; intros x y Hp.
  - rewrite !andb_true_iff, negb_true_iff, str_eqb_neq, !str_in_In in Hp.
    destruct Hp as [[Hxy Hx] Hy]. rewrite Hyes by auto.
    unfold weight_or_zero. rewrite Hsame. reflexivity.
  - rewrite Hno, Hsame; [reflexivity|]. intros (Hxy & Hx & Hy).
    apply str_eqb_neq in Hxy. apply str_in_In in Hx, Hy.
    rewrite Hxy, Hx, Hy in Hp. discriminate.
Qed.

Lemma all_loop_weights (stats : WordStats) (df : DataFrame) (G : Graph) :
  all_loop str_lower STOPWORDS stopord_txt set_iter stats df = Some G ->
  forall a b w, weight a b G = Some w -> a <> b /\ w = cooc df a b /\ 1 <= w.
Proof.
  intros H a b w Hw. unfold all_loop in H.
  destruct (cooccurrence_loop
              _ (fun row x y => negb (str_eqb x y) && str_in x (tokens_of row)
                                && str_in y (tokens_of row))
              (fun G row G' HG Hs => pairs_row_spec stats (tokens_of row) G G' HG
                                       (tokenize_NoDup _ _ _ _ _) Hs)
              df empty_graph G graph_wf_empty weights_positive_empty H)
    as (HG & Hpos & Hcount).
  destruct (weight_of_count G a b _ Hpos (Hcount a b) w Hw) as [Hwc Hge].
  change (weight_or_zero a b empty_graph) with 0 in Hwc, Hge.
  assert (Hab : a <> b).
  { intros ->. rewrite count_zero_if_never in Hge; [simpl in Hge; lia|].
    intros row _. rewrite str_eqb_refl. reflexivity. }
  split; [exact Hab|]. split; [|lia].
  rewrite Hwc. simpl. unfold cooccurrences. f_equal. f_equal.
  apply filter_ext. intros row. apply str_eqb_neq in Hab. rewrite Hab. reflexivity.
Qed.

Lemma words_loop_weights (stats : WordStats) (df : DataFrame) (words : list pystr)
    (G : Graph) :
  NoDup words ->
  words_loop str_lower STOPWORDS stopord_txt set_iter stats df words = Some G ->
  forall a b w, weight a b G = Some w ->
                a <> b /\ In a words /\ In b words /\ w = cooc df a b /\ 1 <= w.
Proof.
  intros Hndw H a b w Hw. unfold words_loop in H.
  set (sw := fun row => List.filter (fun t => str_in t words) (tokens_of row)).
  eapply (cooccurrence_loop
            _ (fun row x y => negb (str_eqb x y) && str_in x (sw row) && str_in y (sw row)))
    in H; [| | apply graph_wf_empty | apply weights_positive_empty].
  2:{ intros G0 row G' HG0 Hs. cbv zeta in Hs. rewrite search_words_filter in Hs by exact Hndw.
      fold (sw row) in Hs.
      assert (Hnd : NoDup (sw row)) by (apply NoDup_filter, tokenize_NoDup).
      destruct (length (sw row) <=? 1)%nat eqn:El.
      - inversion Hs; subst G'. apply Nat.leb_le in El.
        split; [exact HG0|]. split; [|reflexivity].
        intros x y Hp. exfalso.
        rewrite !andb_true_iff, negb_true_iff, str_eqb_neq, !str_in_In in Hp.
        destruct Hp as [[Hxy Hx] Hy]. eapply short_list_no_pair; eauto.
      - apply (pairs_row_spec stats (sw row)); assumption. }
  destruct H as (HG & Hpos & Hcount).
  destruct (weight_of_count G a b _ Hpos (Hcount a b) w Hw) as [Hwc Hge].
  change (weight_or_zero a b empty_graph) with 0 in Hwc, Hge. simpl in Hwc, Hge.
  assert (Hex : exists row, In row df
                  /\ negb (str_eqb a b) && str_in a (sw row) && str_in b (sw row) = true).
  { destruct (List.filter (fun row => negb (str_eqb a b) && str_in a (sw row)
                                      && str_in b (sw row)) df) as [|row l] eqn:Ef;
      [simpl in Hge; lia|].
    exists row.
    apply (proj1 (filter_In (fun row => negb (str_eqb a b) && str_in a (sw row)
                                        && str_in b (sw row)) row df)).
    rewrite Ef. left; reflexivity. }
  destruct Hex as (row & _ & Hp).
  rewrite !andb_true_iff, negb_true_iff, str_eqb_neq, !str_in_In in Hp.
  destruct Hp as [[Hab Ha] Hb]. unfold sw in Ha, Hb.
  apply filter_In in Ha, Hb. destruct Ha as [_ Ha]. destruct Hb as [_ Hb].
  split; [exact Hab|]. split; [apply str_in_In, Ha|]. split; [apply str_in_In, Hb|].
  split; [|lia]. rewrite Hwc. unfold cooccurrences. f_equal. f_equal.
  apply filter_ext. intros r. apply str_eqb_neq in Hab. rewrite Hab. simpl.
  unfold sw.
  assert (Hin : forall x, str_in x words = true ->
                  str_in x (List.filter (fun t => str_in t words) (tokens_of r))
                  = str_in x (tokens_of r)).
  { intros x Hx. destruct (str_in x (tokens_of r)) eqn:E.
    - apply str_in_In. apply filter_In. split; [apply str_in_In, E | exact Hx].
    - apply str_in_not_In. intros Hf. apply filter_In in Hf. destruct Hf as [Hf _].
      apply str_in_In in Hf. congruence. }
  rewrite !Hin by assumption. reflexivity.
Qed.

End ViewWeights.

Section EgoWeights.
Variable str_lower : pystr -> pystr.
Variable STOPWORDS : list pystr.
Variable stopord_txt : pystr.
Variable set_iter : list pystr -> list pystr.

Local Abbreviation tokens_of row :=
  (tokenize_and_stem str_lower STOPWORDS stopord_txt set_iter (Titel row)).
Local Abbreviation cooc := (cooccurrences str_lower STOPWORDS stopord_txt set_iter).
Local Abbreviation others word row :=
  (List.filter (fun token => negb (str_eqb word token)) (tokens_of row)).

Lemma In_others (word : pystr) (row : Grant) (y : pystr) :
  In y (others word row) <-> In y (tokens_of row) /\ y <> word.
Proof.
  rewrite filter_In, negb_true_iff, str_eqb_neq. intuition congruence.
Qed.

Lemma word_loop_weights (stats : WordStats) (df : DataFrame) (word : pystr) (G : Graph) :
  word_loop str_lower STOPWORDS stopord_txt set_iter stats df word = Some G ->
  forall a b w, weight a b G = Some w -> a <> b /\ w = cooc df a b /\ 1 <= w.
Proof.
  intros H a b w Hw. unfold word_loop in H.
  set (pairs := fun row x y =>
                  str_in word (tokens_of row)
                  && (str_eqb x word && str_in y (others word row)
                      || str_eqb y word && str_in x (others word row))).
  assert (Hpairs : forall row x y,
             pairs row x y = true
             <-> In word (tokens_of row)
                 /\ ((x = word /\ In y (others word row))
                     \/ (y = word /\ In x (others word row)))).
  { intros row x y. unfold pairs.
    rewrite andb_true_iff, orb_true_iff, !andb_true_iff, !str_eqb_eq, !str_in_In.
    reflexivity. }
  eapply (cooccurrence_loop _ pairs) in H;
    [| | apply graph_wf_empty | apply weights_positive_empty].
  2:{ intros G0 row G' HG0 Hs. cbv zeta in Hs.
      destruct (str_in word (tokens_of row)) eqn:Ein; simpl in Hs.
      - destruct (add_stat_node stats G0 word) as [G1|] eqn:E1; simpl in Hs; [|discriminate].
        pose proof (graph_wf_add_stat_node _ _ _ _ HG0 E1) as HG1.
        pose proof (add_stat_node_weight _ _ _ _ HG0 E1) as Hsame.
        destruct (bump_all_spec
                    (fun G targ_tok => G <- add_stat_node stats G targ_tok ;;
                                       bump_edge word G targ_tok) word)
          with (rest := others word row) (G := G1) (G' := G') as (HG' & Hyes & Hno); auto.
        + intros Ga t Gb HGa Hf.
          destruct (add_stat_node stats Ga t) as [Gc|] eqn:Ec; simpl in Hf; [|discriminate].
          exists Gc. split; [eapply graph_wf_add_stat_node; eauto|].
          split; [eapply add_stat_node_weight; eauto | exact Hf].
        + apply NoDup_filter, tokenize_NoDup.
        + intros Hin. apply In_others in Hin. destruct Hin; congruence.
        + apply str_in_In in Ein.
          split; [exact HG'|]. split; intros x y Hp.
          * apply Hpairs in Hp. destruct Hp as [_ Hp]. rewrite Hyes by exact Hp.
            unfold weight_or_zero. rewrite Hsame. reflexivity.
          * rewrite Hno, Hsame; [reflexivity|]. intros Hc.
            assert (pairs row x y = true) by (apply Hpairs; auto). congruence.
      - inversion Hs; subst G'. split; [exact HG0|]. split; [|reflexivity].
        intros x y Hp. apply Hpairs in Hp. destruct Hp as [Hin _].
        apply str_in_In in Hin. congruence. }
  destruct H as (HG & Hpos & Hcount).
  destruct (weight_of_count G a b _ Hpos (Hcount a b) w Hw) as [Hwc Hge].
  change (weight_or_zero a b empty_graph) with 0 in Hwc, Hge. simpl in Hwc, Hge.
  assert (Hex : exists row, In row df /\ pairs row a b = true).
  { destruct (List.filter (fun row => pairs row a b) df) as [|row l] eqn:Ef;
      [simpl in Hge; lia|].
    exists row. apply (proj1 (filter_In (fun row => pairs row a b) row df)).
    rewrite Ef. left; reflexivity. }
  destruct Hex as (row0 & _ & Hp0). apply Hpairs in Hp0. destruct Hp0 as [_ Hor].
  assert (Hab : a <> b /\ (a = word \/ b = word)).
  { destruct Hor as [[-> Hin]|[-> Hin]]; apply In_others in Hin; destruct Hin as [_ Hne].
    - split; [congruence | left; reflexivity].
    - split; [congruence | right; reflexivity]. }
  destruct Hab as [Hab Hword]. split; [exact Hab|]. split; [|lia].
  rewrite Hwc. unfold cooccurrences. f_equal. f_equal.
  apply filter_ext. intros r. cbv zeta.
  apply eq_true_iff_eq. rewrite Hpairs, andb_true_iff, !str_in_In.
  destruct Hword as [->| ->]; split.
  - intros [Hw' [[_ Hin]|[E _]]]; [|congruence]. apply In_others in Hin. tauto.
  - intros [Hw' Hb]. split; [exact Hw'|]. left. split; [reflexivity|].
    apply In_others. split; [exact Hb | congruence].
  - intros [Hw' [[E _]|[_ Hin]]]; [congruence|]. apply In_others in Hin. tauto.
  - intros [Ha Hw']. split; [exact Hw'|]. right. split; [reflexivity|].
    apply In_others. split; [exact Ha | congruence].
Qed.

End EgoWeights.

(** What C5 says holds in the ego view and in the global view: the returned
    graph has no self-loop, and the weight of each of its edges is the
    (positive) number of rows whose title contains both end points. *)
Lemma ego_and_global_view_weights :
  forall (str_lower : pystr -> pystr) (STOPWORDS : list pystr) (stopord_txt : pystr)
         (set_iter : list pystr -> list pystr)
         (df : DataFrame) (word : pystr) (top_n : Z),
    (forall Gf,
        generate_graph_data_word str_lower STOPWORDS stopord_txt set_iter df word top_n
        = Some Gf ->
        forall a b, In (a, b) (edges Gf) ->
          a <> b
          /\ weight a b Gf = Some (cooccurrences str_lower STOPWORDS stopord_txt set_iter df a b)
          /\ 1 <= cooccurrences str_lower STOPWORDS stopord_txt set_iter df a b)
    /\ (forall Gf,
          generate_graph_data_all str_lower STOPWORDS stopord_txt set_iter df top_n
          = Some Gf ->
          forall a b, In (a, b) (edges Gf) ->
            a <> b
            /\ weight a b Gf
               = Some (cooccurrences str_lower STOPWORDS stopord_txt set_iter df a b)
            /\ 1 <= cooccurrences str_lower STOPWORDS stopord_txt set_iter df a b).
Proof.
  intros lower SW txt it df word top_n. split; intros Gf H a b Hin.
  - unfold generate_graph_data_word in H.
    destruct (generate_data lower SW txt it df 0) as [stats|]; simpl in H; [|discriminate].
    destruct (word_loop lower SW txt it stats df word) as [G|] eqn:EG; simpl in H; [|discriminate].
    pose proof (graph_wf_word_loop _ _ _ _ _ _ _ _ EG) as HG.
    destruct (finish_graph_weights top_n G Gf HG H a b Hin) as (w & Hwf & Hw).
    destruct (word_loop_weights _ _ _ _ _ _ _ _ EG a b w Hw) as (Hab & Hc & Hge).
    subst w. auto.
  - unfold generate_graph_data_all in H.
    destruct (generate_data lower SW txt it df 0) as [stats|]; simpl in H; [|discriminate].
    destruct (all_loop lower SW txt it stats df) as [G|] eqn:EG; simpl in H; [|discriminate].
    pose proof (graph_wf_all_loop _ _ _ _ _ _ _ EG) as HG.
    destruct (finish_graph_weights top_n G Gf HG H a b Hin) as (w & Hwf & Hw).
    destruct (all_loop_weights _ _ _ _ _ _ _ EG a b w Hw) as (Hab & Hc & Hge).
    subst w. auto.
Qed.

(** It also holds in the sub-vocabulary view when no word is listed twice. *)
Lemma words_view_weights :
  forall (str_lower : pystr -> pystr) (STOPWORDS : list pystr) (stopord_txt : pystr)
         (set_iter : list pystr -> list pystr)
         (df : DataFrame) (words : list pystr) (G : Graph),
    NoDup words ->
    generate_graph_data_words str_lower STOPWORDS stopord_txt set_iter df words = Some G ->
    forall a b, In (a, b) (edges G) ->
      a <> b
      /\ weight a b G = Some (cooccurrences str_lower STOPWORDS stopord_txt set_iter df a b)
      /\ 1 <= cooccurrences str_lower STOPWORDS stopord_txt set_iter df a b.
Proof.
  intros lower SW txt it df words Gf Hnd H a b Hin.
  unfold generate_graph_data_words in H.
  destruct (generate_data lower SW txt it df 0) as [stats|]; simpl in H; [|discriminate].
  destruct (words_loop lower SW txt it stats df words) as [G|] eqn:EG; simpl in H; [|discriminate].
  pose proof (graph_wf_words_loop _ _ _ _ _ _ _ _ EG) as HG.
  destruct (set_total_deg G) as [G1|] eqn:E1; simpl in H; [|discriminate].
  destruct (edge_weights G1); simpl in H; [|discriminate].
  inversion H; subst Gf; clear H.
  destruct (set_total_deg_spec _ _ HG E1) as (Ha & _ & _).
  pose proof (graph_wf_set_total_deg _ _ HG E1) as HG1.
  destruct (edges_endpoints _ _ _ HG1 Hin) as [w Hw].
  assert (Hw' : weight a b G = Some w) by (unfold weight in *; rewrite <- Ha; exact Hw).
  destruct (words_loop_weights _ _ _ _ _ _ _ _ Hnd EG a b w Hw') as (Hab & _ & _ & Hc & Hge).
  subst w. auto.
Qed.

(** ** The builders return a graph *)

(** A negative total funding makes [generate_data(df)] drop the word, and
    the builders then fail at [avg_funding[token]]; with non-negative amounts
    every token of every title has its statistics and the builders return. *)

Lemma count_token_grows (amount : Z) (st st' : dict Z * dict Z) (token : pystr) :
  counts_ok st -> count_token amount st token = Some st' ->
  In token (keys (snd st'))
  /\ (forall k, In k (keys (snd st)) -> In k (keys (snd st')))
  /\ (0 <= amount -> nonneg (snd st) -> nonneg (snd st')).
Proof.
  destruct st as [freqs funding]. intros (Hk & _ & _); simpl in Hk.
  unfold count_token. destruct (mem token freqs) eqn:E; simpl.
  - destruct (get token freqs) as [n|]; simpl; [|discriminate].
    destruct (get token funding) as [f|] eqn:Ef; simpl; [|discriminate].
    intros H; inversion H; subst; simpl.
    split; [apply In_keys_set; auto|]. split; [intros k Hin; apply In_keys_set; auto|].
    intros Ha Hnn k v. rewrite get_set. destruct (str_eqb token k).
    + intros Hv; inversion Hv. specialize (Hnn _ _ Ef). lia.
    + apply Hnn.
  - intros H; inversion H; subst; simpl.
    split; [apply In_keys_set; auto|]. split; [intros k Hin; apply In_keys_set; auto|].
    intros Ha Hnn k v. rewrite get_set. destruct (str_eqb token k).
    + intros Hv; inversion Hv. lia.
    + apply Hnn.
Qed.

Lemma count_tokens_grow (amount : Z) (tokens : list pystr) :
  forall st st', counts_ok st -> foldM (count_token amount) tokens st = Some st' ->
    counts_ok st'
    /\ (forall t, In t tokens -> In t (keys (snd st')))
    /\ (forall k, In k (keys (snd st)) -> In k (keys (snd st')))
    /\ (0 <= amount -> nonneg (snd st) -> nonneg (snd st')).
Proof.
  induction tokens as [|t l IH]; intros st st' Hok H; simpl in H.
  - inversion H; subst. repeat split; auto; try apply Hok. intros ? [].
  - destruct (count_token amount st t) as [st1|] eqn:E; simpl in H; [|discriminate].
    destruct (count_token_ok amount st t Hok) as (st1' & E' & Hok1).
    rewrite E in E'. inversion E'; subst st1'. clear E'.
    destruct (count_token_grows _ _ _ _ Hok E) as (Ht & Hmono & Hnn).
    destruct (IH _ _ Hok1 H) as (Hok' & Hin & Hmono' & Hnn').
    split; [exact Hok'|]. split; [|split].
    + intros x [<-|Hx]; auto.
    + auto.
    + auto.
Qed.

Section BuildersReturn.
Variable str_lower : pystr -> pystr.
Variable STOPWORDS : list pystr.
Variable stopord_txt : pystr.
Variable set_iter : list pystr -> list pystr.

Local Abbreviation tokens_of row :=
  (tokenize_and_stem str_lower STOPWORDS stopord_txt set_iter (Titel row)).

Lemma count_rows_grow (df : DataFrame) :
  forall st st', counts_ok st ->
    foldM (fun st row => foldM (count_token (Bevilliget_belob row)) (tokens_of row) st) df st
    = Some st' ->
    (forall row t, In row df -> In t (tokens_of row) -> In t (keys (snd st')))
    /\ (forall k, In k (keys (snd st)) -> In k (keys (snd st')))
    /\ ((forall row, In row df -> 0 <= Bevilliget_belob row) ->
        nonneg (snd st) -> nonneg (snd st')).
Proof.
  induction df as [|row df IH]; intros st st' Hok H; simpl in H.
  - inversion H; subst. split; [intros ? ? []|]. auto.
  - destruct (foldM (count_token (Bevilliget_belob row)) (tokens_of row) st) as [st1|] eqn:E;
      simpl in H; [|discriminate].
    destruct (count_tokens_grow _ _ _ _ Hok E) as (Hok1 & Hin & Hmono & Hnn).
    destruct (IH _ _ Hok1 H) as (Hin' & Hmono' & Hnn').
    split; [|split].
    + intros r t [<-|Hr] Ht; [apply Hmono', Hin, Ht | eapply Hin'; eauto].
    + auto.
    + intros Hall Hst. apply Hnn'; [intros; apply Hall; right; assumption|].
      apply Hnn; [apply Hall; left; reflexivity | exact Hst].
Qed.

(** With non-negative amounts the statistics cover every token of the table. *)
Lemma generate_data_covers (df : DataFrame) :
  (forall row, In row df -> 0 <= Bevilliget_belob row) ->
  exists avg_funding funding freqs,
    generate_data str_lower STOPWORDS stopord_txt set_iter df 0
    = Some (avg_funding, funding, freqs)
    /\ forall row t, In row df -> In t (tokens_of row) ->
         exists a f n, get t avg_funding = Some a /\ get t funding = Some f
                       /\ get t freqs = Some n.
Proof.
  intros Hall.
  destruct (generate_data_closed_form str_lower STOPWORDS stopord_txt set_iter df 0)
    as (freqs0 & funding0 & Hloop & Hok & Hgd).
  cbv zeta in Hgd. do 3 eexists. split; [exact Hgd|].
  intros row t Hrow Ht.
  unfold count_loop in Hloop.
  destruct (count_rows_grow df ([], []) (freqs0, funding0)) as (Hin & _ & Hnn); auto.
  { repeat split; [constructor | discriminate]. }
  simpl in Hin, Hnn.
  assert (Hnn0 : nonneg funding0) by (apply Hnn; [exact Hall | intros k v; discriminate]).
  destruct Hok as (Hk & Hwf & _); simpl in Hk, Hwf.
  assert (Hwf' : wf funding0) by (unfold wf; rewrite <- Hk; exact Hwf).
  destruct (In_keys_get _ _ (Hin row t Hrow Ht)) as [f Hf].
  assert (Hff : get t (List.filter (fun kv => 0 <=? snd kv) funding0) = Some f).
  { rewrite (get_filter (fun v => 0 <=? v)) by exact Hwf'. rewrite Hf.
    destruct (0 <=? f) eqn:E; [reflexivity|]. apply Z.leb_gt in E.
    specialize (Hnn0 _ _ Hf). lia. }
  assert (Hkey : str_in t (keys (List.filter (fun kv => 0 <=? snd kv) funding0)) = true)
    by (apply str_in_In; eapply get_Some_key; eauto).
  do 3 eexists. split; [|split].
  - rewrite (get_map_keys (fun k => getd k (List.filter (fun kv => 0 <=? snd kv) funding0)
                                    / getd k freqs0)), Hkey. reflexivity.
  - exact Hff.
  - rewrite (get_map_keys (fun k => getd k freqs0)), Hkey. reflexivity.
Qed.

Lemma pair_loop_total (T : list pystr) :
  forall G, graph_wf G -> exists st, pair_loop T T G = Some st.
Proof.
  induction T as [|s rest IH]; intros G HG.
  - eexists; reflexivity.
  - unfold pair_loop. simpl. rewrite str_eqb_refl. simpl.
    destruct (foldM_total graph_wf (bump_edge s) rest) with (s := G) as (G1 & E1 & HG1);
      [|exact HG|].
    { intros G0 t _ HG0. destruct (bump_edge_spec s t G0 HG0) as (G' & Hb & HG' & _). eauto. }
    rewrite E1; simpl. apply (IH G1 HG1).
Qed.

Lemma set_total_deg_total (G : Graph) : graph_wf G -> exists G1, set_total_deg G = Some G1.
Proof.
  intros (Hk & _). unfold set_total_deg.
  destruct (foldM_total (fun nodes : dict (dict Z) => keys nodes = keys (_node G))
              (fun nodes nd =>
                 let '(node, deg) := nd in
                 attrs <- get node nodes ;;
                 Some (set node (set attr_total_deg deg attrs) nodes))
              (degree_view G)) with (s := _node G) as (nodes & E & _); [|reflexivity|].
  - intros nodes [n d] Hin Hkeys.
    assert (Hn : In n (keys nodes)).
    { rewrite Hkeys, Hk, <- keys_degree_view. apply (in_map fst) in Hin. exact Hin. }
    destruct (In_keys_get _ _ Hn) as [attrs Ha]. rewrite Ha; simpl.
    eexists; split; [reflexivity|]. rewrite keys_set_present; assumption.
  - rewrite E. simpl. eauto.
Qed.

Lemma finish_graph_total (top_n : Z) (G : Graph) :
  graph_wf G -> exists Gf, (G1 <- set_total_deg G ;; prune top_n G1) = Some Gf.
Proof.
  intros HG. destruct (set_total_deg_total G HG) as [G1 E1]. rewrite E1; simpl.
  pose proof (graph_wf_set_total_deg _ _ HG E1) as HG1.
  destruct (edge_weights_total G1 HG1) as (ew & Hew & _).
  rewrite (prune_eq top_n G1 ew HG1 Hew). eauto.
Qed.

Lemma add_stat_node_total (stats : WordStats) (t : pystr) (G : Graph) :
  graph_wf G ->
  (exists a f n, get t (fst (fst stats)) = Some a /\ get t (snd (fst stats)) = Some f
                 /\ get t (snd stats) = Some n) ->
  exists G', add_stat_node stats G t = Some G' /\ graph_wf G'.
Proof.
  intros HG (a & f & n & Ha & Hf & Hn).
  destruct stats as [[avg fu] fr]; simpl in *. unfold add_stat_node.
  rewrite Ha, Hf, Hn; simpl. eexists; split; [reflexivity|].
  apply graph_wf_add_node; exact HG.
Qed.

Lemma add_stat_nodes_total (stats : WordStats) (l : list pystr) (G : Graph) :
  graph_wf G ->
  (forall t, In t l -> exists a f n, get t (fst (fst stats)) = Some a
                                     /\ get t (snd (fst stats)) = Some f
                                     /\ get t (snd stats) = Some n) ->
  exists G', foldM (add_stat_node stats) l G = Some G' /\ graph_wf G'.
Proof.
  intros HG Hcov. apply (foldM_total graph_wf); [|exact HG].
  intros G0 t Ht HG0. apply add_stat_node_total; auto.
Qed.

Lemma pairs_row_total (stats : WordStats) (l : list pystr) (G : Graph) :
  graph_wf G ->
  (forall t, In t l -> exists a f n, get t (fst (fst stats)) = Some a
                                     /\ get t (snd (fst stats)) = Some f
                                     /\ get t (snd stats) = Some n) ->
  exists G', (G1 <- foldM (add_stat_node stats) l G ;; st <- pair_loop l l G1 ;; Some (snd st))
             = Some G' /\ graph_wf G'.
Proof.
  intros HG Hcov. destruct (add_stat_nodes_total stats l G HG Hcov) as (G1 & E1 & HG1).
  rewrite E1; simpl. destruct (pair_loop_total l G1 HG1) as [st E2]. rewrite E2; simpl.
  eexists; split; [reflexivity|]. eapply graph_wf_pair_loop; eauto.
Qed.

Local Abbreviation covered stats df :=
  (forall row t, In row df -> In t (tokens_of row) ->
     exists a f n, get t (fst (fst stats)) = Some a /\ get t (snd (fst stats)) = Some f
                   /\ get t (snd stats) = Some n).

Lemma word_loop_total (stats : WordStats) (df : DataFrame) (word : pystr) :
  covered stats df ->
  exists G, word_loop str_lower STOPWORDS stopord_txt set_iter stats df word = Some G
            /\ graph_wf G.
Proof.
  intros Hcov. unfold word_loop. apply (foldM_total graph_wf); [|apply graph_wf_empty].
  intros G0 row Hrow HG0. cbv zeta.
  destruct (str_in word (tokens_of row)) eqn:Ew; cbn [negb]; [|eauto].
  apply str_in_In in Ew.
  destruct (add_stat_node_total stats word G0 HG0) as (G1 & E1 & HG1);
    [eapply Hcov; eauto|].
  rewrite E1. cbn [bind].
  apply (foldM_total graph_wf); [|exact HG1].
  intros G2 t Ht HG2. apply filter_In in Ht. destruct Ht as [Ht _].
  destruct (add_stat_node_total stats t G2 HG2) as (G3 & E3 & HG3);
    [eapply Hcov; eauto|].
  rewrite E3. cbn [bind].
  destruct (bump_edge_spec word t G3 HG3) as (G4 & Hb & HG4 & _). eauto.
Qed.

Lemma words_loop_total (stats : WordStats) (df : DataFrame) (words : list pystr) :
  covered stats df ->
  exists G, words_loop str_lower STOPWORDS stopord_txt set_iter stats df words = Some G
            /\ graph_wf G.
Proof.
  intros Hcov. unfold words_loop. apply (foldM_total graph_wf); [|apply graph_wf_empty].
  intros G0 row Hrow HG0. cbv zeta.
  destruct (length _ <=? 1)%nat; [eauto|].
  apply pairs_row_total; [exact HG0|].
  intros t Ht. apply in_flat_map in Ht. destruct Ht as (tok & Htok & Ht).
  apply in_map_iff in Ht. destruct Ht as (w0 & <- & _). eapply Hcov; eauto.
Qed.

Lemma all_loop_total (stats : WordStats) (df : DataFrame) :
  covered stats df ->
  exists G, all_loop str_lower STOPWORDS stopord_txt set_iter stats df = Some G
            /\ graph_wf G.
Proof.
  intros Hcov. unfold all_loop. apply (foldM_total graph_wf); [|apply graph_wf_empty].
  intros G0 row Hrow HG0. cbv zeta.
  apply pairs_row_total; [exact HG0|]. intros t Ht. eapply Hcov; eauto.
Qed.

(** For a table whose amounts are all non-negative the three builders
    return a graph, whatever the word, the word list and [top_n]. *)
Lemma graph_builders_return (df : DataFrame) (word : pystr) (words : list pystr)
    (top_n : Z) :
  (forall row, In row df -> 0 <= Bevilliget_belob row) ->
  (exists G, generate_graph_data_word str_lower STOPWORDS stopord_txt set_iter df word top_n
             = Some G)
  /\ (exists G, generate_graph_data_words str_lower STOPWORDS stopord_txt set_iter df words
                = Some G)
  /\ (exists G, generate_graph_data_all str_lower STOPWORDS stopord_txt set_iter df top_n
                = Some G).
Proof.
  intros Hall. destruct (generate_data_covers df Hall) as (avg & fu & fr & Hgd & Hcov).
  assert (Hcov' : covered (avg, fu, fr) df) by exact Hcov.
  split; [|split].
  - unfold generate_graph_data_word. rewrite Hgd; cbn [bind].
    destruct (word_loop_total (avg, fu, fr) df word Hcov') as (G & EG & HG).
    rewrite EG; cbn [bind]. apply finish_graph_total; exact HG.
  - unfold generate_graph_data_words. rewrite Hgd; cbn [bind].
    destruct (words_loop_total (avg, fu, fr) df words Hcov') as (G & EG & HG).
    rewrite EG; cbn [bind].
    destruct (set_total_deg_total G HG) as [G1 E1]. rewrite E1; cbn [bind].
    pose proof (graph_wf_set_total_deg _ _ HG E1) as HG1.
    destruct (edge_weights_total G1 HG1) as (ew & Hew & _). rewrite Hew; cbn [bind]. eauto.
  - unfold generate_graph_data_all. rewrite Hgd; cbn [bind].
    destruct (all_loop_total (avg, fu, fr) df Hcov') as (G & EG & HG).
    rewrite EG; cbn [bind]. apply finish_graph_total; exact HG.
Qed.

End BuildersReturn.

(* ================================================================== *)
(** * Further properties *)
(* ================================================================== *)

(** ** [_sort_tuples] *)

(** [_sort_tuples] rearranges its input; wherever the result is cut, an
    item of the front part has a weight at least that of an item of the back
    part, and on equal weights it came earlier in the input. *)
Theorem _sort_tuples_sorted_and_stable :
  forall (A : Type) (tuple_list : list (A * Z)),
    Permutation (_sort_tuples tuple_list) tuple_list
    /\ length (_sort_tuples tuple_list) = length tuple_list
    /\ forall front back x y,
         _sort_tuples tuple_list = front ++ back -> In x front -> In y back ->
         snd y <= snd x /\ (snd x = snd y -> before x y tuple_list).
Proof.
  intros A l. split; [apply _sort_tuples_perm|].
  split; [apply Permutation_length, _sort_tuples_perm|].
  intros front back x y E Hx Hy.
  assert (H : ranks_above l x y).
  { apply (ForallOrdPairs_app_inv _ front back); auto.
    rewrite <- E. apply _sort_tuples_ordered. }
  destruct H as [H|[H1 H2]]; split; try lia; auto.
Qed.

(** ** [_filter_dict] *)

Lemma _filter_dict_closed_form (d : dict Z) (lower_thresh : Z) (upper_thresh : option Z) :
  wf d ->
  _filter_dict d lower_thresh upper_thresh
  = List.filter (fun kv => (lower_thresh <=? snd kv)
                           && match upper_thresh with
                              | Some u => snd kv <=? u
                              | None => true
                              end) d.
Proof.
  intros Hwf. unfold _filter_dict.
  rewrite (fold_filter_set (fun v => (lower_thresh <=? v)
                                     && match upper_thresh with
                                        | Some u => v <=? u
                                        | None => true
                                        end)) by exact Hwf.
  reflexivity.
Qed.

(** On a dictionary, [_filter_dict] keeps, in their order, exactly the
    entries whose value lies between the thresholds: the result is the
    dictionary with the other entries left out.  A key of the result has the
    value it had, and filtering a second time changes nothing. *)
Theorem _filter_dict_keeps_values_in_range :
  forall (dictionary : dict Z) (lower_thresh : Z) (upper_thresh : option Z),
    wfb dictionary = true ->
    let filtered := _filter_dict dictionary lower_thresh upper_thresh in
    wf filtered
    /\ (forall k v, get k filtered = Some v
                    <-> get k dictionary = Some v /\ lower_thresh <= v
                        /\ match upper_thresh with Some u => v <= u | None => True end)
    /\ (exists dropped, Permutation dictionary (filtered ++ dropped))
    /\ _filter_dict filtered lower_thresh upper_thresh = filtered
    /\ filtered
       = List.filter (fun kv => (lower_thresh <=? snd kv)
                                && match upper_thresh with
                                   | Some u => snd kv <=? u
                                   | None => true
                                   end) dictionary.
Proof.
  intros d lo up Hwf. apply wfb_wf in Hwf. cbv zeta.
  rewrite (_filter_dict_closed_form d lo up Hwf).
  set (p := fun v => (lo <=? v) && match up with Some u => v <=? u | None => true end).
  assert (Hp : forall v, p v = true
                         <-> lo <= v /\ match up with Some u => v <= u | None => True end).
  { intros v. unfold p. rewrite andb_true_iff, Z.leb_le.
    destruct up; [rewrite Z.leb_le|]; intuition. }
  change (List.filter _ d) with (List.filter (fun kv => p (snd kv)) d).
  assert (Hwf' : wf (List.filter (fun kv => p (snd kv)) d)) by (apply keys_filter_NoDup; exact Hwf).
  split; [exact Hwf'|]. split; [|split; [|split; [|reflexivity]]].
  - intros k v. rewrite (get_filter p) by exact Hwf. rewrite <- Hp.
    destruct (get k d) as [v0|]; [|split; [discriminate | intros [H _]; discriminate]].
    destruct (p v0) eqn:E; split.
    + intros H; inversion H; subst; auto.
    + intros [H _]; exact H.
    + discriminate.
    + intros [H H']; inversion H; subst; congruence.
  - exists (List.filter (fun kv => negb (p (snd kv))) d).
    clear. induction d as [|kv d IH]; simpl; [constructor|].
    destruct (p (snd kv)); simpl.
    + apply perm_skip, IH.
    + apply Permutation_cons_app, IH.
  - rewrite (_filter_dict_closed_form _ lo up Hwf').
    rewrite filter_filter. apply filter_ext. intros kv.
    fold (p (snd kv)). apply andb_diag.
Qed.

Lemma _filter_dict_keeps_values_in_range_witness :
  get (str "c") (_filter_dict [(str "a", 5); (str "b", 12); (str "c", 7)] 6 (Some 10)) = Some 7
  <-> get (str "c") [(str "a", 5); (str "b", 12); (str "c", 7)] = Some 7 /\ 6 <= 7 /\ 7 <= 10.
Proof.
  exact (proj1 (proj2 (_filter_dict_keeps_values_in_range
                         [(str "a", 5); (str "b", 12); (str "c", 7)] 6 (Some 10) eq_refl))
               (str "c") 7).
Defined.

(** ** [_make_same_keys] *)

(** When every key of [filtered_dict] is a key of [non_filtered_dict],
    [_make_same_keys] returns a dictionary with the keys of the first, in
    their order, and the values of the second. *)
Theorem _make_same_keys_takes_values :
  forall (V W : Type) (filtered_dict : dict V) (non_filtered_dict : dict W),
    wfb filtered_dict = true ->
    incl (keys filtered_dict) (keys non_filtered_dict) ->
    exists return_dict,
      _make_same_keys filtered_dict non_filtered_dict = Some return_dict
      /\ keys return_dict = keys filtered_dict
      /\ forall k, In k (keys filtered_dict) ->
                   get k return_dict = get k non_filtered_dict.
Proof.
  intros V W f n Hwf Hincl. apply wfb_wf in Hwf.
  destruct n as [|[k0 w0] n'] eqn:En.
  - destruct f as [|[k v] f']; [|exfalso; apply (Hincl k); left; reflexivity].
    exists []. split; [reflexivity|]. split; [reflexivity|]. intros k [].
  - rewrite <- En in *. clear En.
    set (vals := fun k => match get k n with Some w => w | None => w0 end).
    exists (List.map (fun k => (k, vals k)) (keys f)).
    split; [|split].
    + unfold _make_same_keys.
      rewrite (foldM_set_build (fun k => k) (fun k => get k n) vals);
        [reflexivity | rewrite map_id; exact Hwf | | intros k _ []].
      intros k Hk. unfold vals. destruct (In_keys_get _ _ (Hincl k Hk)) as [w Hw].
      rewrite Hw. reflexivity.
    + apply (keys_map_keys vals).
    + intros k Hk. rewrite (get_map_keys vals).
      apply str_in_In in Hk. rewrite Hk. apply str_in_In in Hk.
      unfold vals. destruct (In_keys_get _ _ (Hincl k Hk)) as [w Hw]. rewrite Hw. reflexivity.
Qed.

Lemma _make_same_keys_takes_values_witness :
  exists return_dict,
    _make_same_keys [(str "b", 1)] [(str "a", 10); (str "b", 20)] = Some return_dict
    /\ keys return_dict = [str "b"].
Proof.
  destruct (_make_same_keys_takes_values Z Z [(str "b", 1)] [(str "a", 10); (str "b", 20)] eq_refl)
    as (r & H1 & H2 & _).
  - intros k [<-|[]]. right; left; reflexivity.
  - exists r. auto.
Defined.

Lemma foldM_fails {A S : Type} (f : S -> A -> option S) (l : list A) (x : A) :
  In x l -> (forall s, f s x = None) -> forall s, foldM f l s = None.
Proof.
  induction l as [|y l IH]; simpl; intros Hin Hf s; [contradiction|].
  destruct (f s y) as [s'|] eqn:E; simpl; [|reflexivity].
  destruct Hin as [->|Hin]; [rewrite Hf in E; discriminate | apply IH; assumption].
Qed.

(** A key of [filtered_dict] that [non_filtered_dict] lacks makes
    [_make_same_keys] raise [KeyError]. *)
Theorem _make_same_keys_missing_key :
  forall (V W : Type) (filtered_dict : dict V) (non_filtered_dict : dict W) (k : pystr),
    In k (keys filtered_dict) -> ~ In k (keys non_filtered_dict) ->
    _make_same_keys filtered_dict non_filtered_dict = None.
Proof.
  intros V W f n k Hin Hnot. unfold _make_same_keys.
  apply (foldM_fails _ _ k Hin). intros s.
  apply get_None in Hnot. rewrite Hnot. reflexivity.
Qed.

Lemma _make_same_keys_missing_key_witness :
  _make_same_keys [(str "a", 1); (str "z", 2)] [(str "a", 10)] = None.
Proof.
  apply (_make_same_keys_missing_key Z Z _ _ (str "z")).
  - right; left; reflexivity.
  - intros [H|[]]. discriminate.
Defined.

(** ** The rescalers: where they are defined, and the range of their results *)

(** On a list of [int]s, with bounds of at most 52 bits and whatever their
    order, every output of [rescale_to_range] lies between the two bounds;
    the outputs follow the order of the inputs when [new_min <= new_max] and
    reverse it when [new_max <= new_min] (the edge colours of [plot_graph]
    are rescaled with 150 and 220). *)
Theorem rescale_to_range_within_bounds_and_monotone :
  forall (number_list : list Z) (new_max new_min : Z) (out : list Z),
    - 2 ^ 52 <= new_min <= 2 ^ 52 -> - 2 ^ 52 <= new_max <= 2 ^ 52 ->
    rescale_to_range (ints number_list) new_max new_min = Some out ->
    length out = length number_list
    /\ (forall o, In o out -> Z.min new_min new_max <= o <= Z.max new_min new_max)
    /\ (forall i j v v' o o',
          nth_error number_list i = Some v -> nth_error number_list j = Some v' ->
          nth_error out i = Some o -> nth_error out j = Some o' ->
          v <= v' ->
          (new_min <= new_max -> o <= o') /\ (new_max <= new_min -> o' <= o)).
Proof.
  intros l nM nm out Hnm HnM H.
  assert (Hne : l <> []) by (intros ->; discriminate H).
  destruct (py_max_ints l Hne) as (mx & Hmx & Hmx_in & Hub).
  destruct (py_min_ints l Hne) as (mn & Hmn & Hmn_in & Hlb).
  assert (Hin : forall v, In v l -> mn <= v <= mx) by (intros v Hv; split; auto).
  destruct (Z.eq_dec mn mx) as [E|E].
  - rewrite (rescale_to_range_ints_equal l nM nm mn Hne) in H
      by (intros v Hv; specialize (Hin v Hv); lia).
    inversion H; subst out; clear H.
    split; [apply repeat_length|]. split.
    + intros o Ho. apply repeat_spec in Ho. lia.
    + intros i j v v' o o' _ _ Ho Ho' _.
      apply nth_error_In, repeat_spec in Ho. apply nth_error_In, repeat_spec in Ho'. lia.
  - assert (Hlt : mn < mx) by (specialize (Hin mn Hmn_in); lia).
    rewrite (rescale_to_range_ints l nM nm mn mx Hmn Hmx Hlt Hin Hnm HnM) in H.
    inversion H; subst out; clear H.
    split; [apply length_map|]. split.
    + intros o Ho. apply in_map_iff in Ho. destruct Ho as [v [<- Hv]].
      destruct (linear_map64_spec mn mx nm nM v Hlt (Hin v Hv) Hnm HnM)
        as (q & r & _ & Er & Hb & _).
      rewrite Er. exact Hb.
    + intros i j v v' o o' Hi Hj Ho Ho' Hvv.
      rewrite nth_error_map, Hi in Ho. rewrite nth_error_map, Hj in Ho'.
      cbn [option_map] in Ho, Ho'.
      apply nth_error_In in Hi. apply nth_error_In in Hj.
      destruct (linear_map64_spec mn mx nm nM v Hlt (Hin v Hi) Hnm HnM)
        as (q & r & _ & Er & _).
      destruct (linear_map64_spec mn mx nm nM v' Hlt (Hin v' Hj) Hnm HnM)
        as (q' & r' & _ & Er' & _).
      rewrite Er in Ho. rewrite Er' in Ho'. inversion Ho; inversion Ho'; subst o o'.
      apply (linear_map64_mono mn mx nm nM v v' r r'); auto;
        first [apply (Hin v Hi) | apply (Hin v' Hj)].
Qed.

Lemma rescale_to_range_within_bounds_and_monotone_witness :
  exists out,
    rescale_to_range (ints [1; 2; 3]) 150 220 = Some out
    /\ forall o, In o out -> Z.min 220 150 <= o <= Z.max 220 150.
Proof.
  destruct (rescale_to_range (ints [1; 2; 3]) 150 220) as [out|] eqn:E;
    [|vm_compute in E; discriminate].
  exists out. split; [reflexivity|].
  exact (proj1 (proj2 (rescale_to_range_within_bounds_and_monotone
                         [1; 2; 3] 150 220 out ltac:(lia) ltac:(lia) E))).
Defined.

(** [rescale_to_range] and [rescale_to_percentiles] raise ([max] of an empty
    sequence) on the empty list; on a non-empty list of [int]s of at most 53
    bits, with bounds of at most 52 bits, they return. *)
Theorem list_rescalers_fail_exactly_on_empty_list :
  forall (number_list : list Z) (new_max new_min : Z)
         (lowest median second_highest highest : Z),
    (forall v, In v number_list -> - 2 ^ 53 <= v <= 2 ^ 53) ->
    - 2 ^ 52 <= new_min <= 2 ^ 52 -> - 2 ^ 52 <= new_max <= 2 ^ 52 ->
    (rescale_to_range (ints number_list) new_max new_min = None <-> number_list = [])
    /\ (rescale_to_percentiles (ints number_list) lowest median second_highest highest
        = None
        <-> number_list = []).
Proof.
  intros l nM nm a b c d Hb Hnm HnM. split; split.
  - intros H. destruct l as [|x l]; [reflexivity|]. exfalso.
    destruct (rescale_to_range_total (x :: l) nM nm) as [out [E _]];
      [discriminate | exact Hnm | exact HnM |].
    congruence.
  - intros ->. reflexivity.
  - intros H. destruct l as [|x l]; [reflexivity|]. exfalso.
    destruct (rescale_to_percentiles_total (x :: l) a b c d) as [out [E _]];
      [discriminate | exact Hb |].
    congruence.
  - intros ->. reflexivity.
Qed.

Lemma list_rescalers_fail_exactly_on_empty_list_witness :
  exists out, rescale_to_percentiles (ints [3; 7]) 2 4 6 8 = Some out.
Proof.
  destruct (rescale_to_percentiles (ints [3; 7]) 2 4 6 8) as [out|] eqn:E;
    [exists out; reflexivity|].
  apply (list_rescalers_fail_exactly_on_empty_list [3; 7] 10 1 2 4 6 8) in E;
    [discriminate E | | lia | lia].
  intros v [<-|[<-|[]]]; lia.
Defined.

(** An [int] too large for a [float] makes [rescale_to_percentiles] raise
    [OverflowError] in [_cal_percentile]. *)
Lemma rescale_to_percentiles_overflow :
  rescale_to_percentiles (ints [2 ^ 1024]) 2 4 6 8 = None.
Proof. vm_compute. reflexivity. Qed.

Lemma rescale_to_percentiles_top_witness :
  exists out,
    rescale_to_percentiles (ints [1; 2; 4]) 2 4 6 8 = Some out
    /\ nth_error out 2 = Some 8.
Proof.
  destruct (rescale_to_percentiles (ints [1; 2; 4]) 2 4 6 8) as [out|] eqn:E;
    [|vm_compute in E; discriminate].
  exists out. split; [reflexivity|].
  apply (rescale_to_percentiles_top [1; 2; 4] 2 4 6 8 4 out) with (v := 4).
  - intros v [<-|[<-|[<-|[]]]]; lia.
  - reflexivity.
  - exact E.
  - reflexivity.
  - vm_compute. discriminate.
Defined.

(** On a dictionary of [int]s [scale_word_dict] returns a dictionary exactly
    when the values are not all equal; on the empty dictionary and on a
    dictionary with a single value it raises. *)
Theorem scale_word_dict_defined_iff_two_values :
  forall (word_dict : dict Z),
    wfb word_dict = true ->
    ((exists scaled_dict, scale_word_dict (int_values word_dict) = Some scaled_dict)
     <-> exists v1 v2, In v1 (values word_dict) /\ In v2 (values word_dict)
                       /\ v1 <> v2).
Proof.
  intros d Hwf. apply wfb_wf in Hwf. split.
  - intros [r Hr].
    destruct d as [|kv d'] eqn:Ed; [discriminate|]. rewrite <- Ed in *.
    assert (Hnil : values d <> []) by (rewrite Ed; discriminate).
    destruct (py_max_ints _ Hnil) as (mx & Hmx & Hmx_in & Hub).
    destruct (py_min_ints _ Hnil) as (mn & Hmn & Hmn_in & Hlb).
    exists mx, mn. split; [exact Hmx_in|]. split; [exact Hmn_in|].
    intros E. rewrite scale_word_dict_equal_values_fail in Hr;
      [discriminate | rewrite Ed; discriminate |].
    intros v w Hv Hw.
    pose proof (Hub v Hv). pose proof (Hlb v Hv). pose proof (Hub w Hw). pose proof (Hlb w Hw).
    lia.
  - intros (v1 & v2 & Hv1 & Hv2 & Hne).
    assert (Hnil : values d <> []) by (intros E; rewrite E in Hv1; exact Hv1).
    destruct (py_max_ints _ Hnil) as (mx & Hmx & Hmx_in & Hub).
    destruct (py_min_ints _ Hnil) as (mn & Hmn & Hmn_in & Hlb).
    eexists. apply (scale_word_dict_ints d mn mx Hwf Hmn Hmx).
    + pose proof (Hub v1 Hv1). pose proof (Hlb v1 Hv1).
      pose proof (Hub v2 Hv2). pose proof (Hlb v2 Hv2). lia.
    + intros v Hv; split; auto.
Qed.

Lemma scale_word_dict_defined_iff_two_values_witness :
  exists scaled_dict,
    scale_word_dict (int_values [(str "a", 1); (str "b", 1); (str "c", 3)])
    = Some scaled_dict.
Proof.
  apply (proj2 (scale_word_dict_defined_iff_two_values
                  [(str "a", 1); (str "b", 1); (str "c", 3)] eq_refl)).
  exists 1, 3. split; [left; reflexivity|].
  split; [right; right; left; reflexivity|]. discriminate.
Defined.

(** ** What [generate_data] counts *)

Lemma count_token_adds (amount : Z) (st st' : dict Z * dict Z) (token : pystr) :
  counts_ok st -> count_token amount st token = Some st' ->
  forall k, getd k (fst st') = getd k (fst st) + (if str_eqb token k then 1 else 0)
            /\ getd k (snd st') = getd k (snd st) + (if str_eqb token k then amount else 0).
Proof.
  destruct st as [freqs funding]. unfold counts_ok; simpl. intros (Hk & Hwf & Hpos) H k.
  destruct (mem token freqs) eqn:E; simpl in H.
  - apply mem_true in E.
    destruct (In_keys_get _ _ E) as [n Hn]. rewrite Hk in E.
    destruct (In_keys_get _ _ E) as [f Hf]. rewrite Hn, Hf in H; simpl in H.
    inversion H; subst st'; clear H. simpl. rewrite !get_set.
    str_cases token k; [rewrite Hn, Hf; lia | lia].
  - inversion H; subst st'; clear H. simpl. rewrite !get_set.
    assert (E' : mem token funding = false)
      by (apply mem_false; rewrite <- Hk; apply mem_false; exact E).
    apply mem_false, get_None in E. apply mem_false, get_None in E'.
    str_cases token k; [rewrite E, E'; lia | lia].
Qed.

Lemma count_tokens_add (amount : Z) (tokens : list pystr) :
  NoDup tokens ->
  forall st st', counts_ok st -> foldM (count_token amount) tokens st = Some st' ->
    counts_ok st'
    /\ forall k, getd k (fst st') = getd k (fst st) + (if str_in k tokens then 1 else 0)
                 /\ getd k (snd st') = getd k (snd st) + (if str_in k tokens then amount else 0).
Proof.
  induction tokens as [|t tokens IH]; simpl; intros Hnd st st' Hok H.
  - inversion H; subst. split; [exact Hok|]. intros k. lia.
  - inversion Hnd as [|? ? Hnotin Hnd']; subst.
    destruct (count_token_ok amount st t Hok) as [st1 [E Hok1]].
    rewrite E in H; simpl in H.
    destruct (IH Hnd' st1 st' Hok1 H) as [Hok' Hadd]. split; [exact Hok'|].
    intros k. destruct (Hadd k) as [H1 H2].
    destruct (count_token_adds amount st st1 t Hok E k) as [H3 H4].
    rewrite H1, H2, H3, H4. rewrite (str_eqb_sym k t).
    str_cases t k; simpl.
    + apply str_in_not_In in Hnotin. rewrite Hnotin. lia.
    + lia.
Qed.

Section CountFacts.
Variable str_lower : pystr -> pystr.
Variable STOPWORDS : list pystr.
Variable stopord_txt : pystr.
Variable set_iter : list pystr -> list pystr.

Local Abbreviation tokens_of row :=
  (tokenize_and_stem str_lower STOPWORDS stopord_txt set_iter (Titel row)).
Local Abbreviation rows_with' := (rows_with str_lower STOPWORDS stopord_txt set_iter).

Lemma count_rows_add (df : DataFrame) :
  forall st st', counts_ok st ->
    foldM (fun st row => foldM (count_token (Bevilliget_belob row)) (tokens_of row) st) df st
    = Some st' ->
    counts_ok st'
    /\ forall k, getd k (fst st') = getd k (fst st) + Z.of_nat (length (rows_with' df k))
                 /\ getd k (snd st') = getd k (snd st) + total_amount (rows_with' df k).
Proof.
  induction df as [|row df IH]; simpl; intros st st' Hok H.
  - inversion H; subst. split; [exact Hok|]. intros k. unfold total_amount; simpl. lia.
  - destruct (foldM (count_token (Bevilliget_belob row)) (tokens_of row) st) as [st1|] eqn:E;
      simpl in H; [|discriminate].
    destruct (count_tokens_add _ _ (tokenize_NoDup _ _ _ _ _) st st1 Hok E) as [Hok1 Hadd].
    destruct (IH st1 st' Hok1 H) as [Hok' Hrest]. split; [exact Hok'|].
    intros k. destruct (Hadd k) as [H1 H2]. destruct (Hrest k) as [H3 H4].
    rewrite H3, H4, H1, H2. unfold rows_with; simpl.
    destruct (str_in k (tokens_of row)); simpl; unfold total_amount; simpl; lia.
Qed.

(** The two dictionaries of the first loop of [generate_data]: a word is a
    key exactly when some title has it, its frequency is the number of such
    rows and its funding the sum of their amounts. *)
Lemma count_loop_counts (df : DataFrame) :
  exists freqs0 funding0,
    count_loop str_lower STOPWORDS stopord_txt set_iter df = Some (freqs0, funding0)
    /\ counts_ok (freqs0, funding0)
    /\ forall k,
         match rows_with' df k with
         | [] => get k freqs0 = None /\ get k funding0 = None
         | _ => get k freqs0 = Some (Z.of_nat (length (rows_with' df k)))
                /\ get k funding0 = Some (total_amount (rows_with' df k))
         end.
Proof.
  destruct (count_loop_ok str_lower STOPWORDS stopord_txt set_iter df)
    as [[freqs0 funding0] [Hloop Hok]].
  exists freqs0, funding0. split; [exact Hloop|]. split; [exact Hok|].
  intros k. unfold count_loop in Hloop.
  assert (Hok0 : counts_ok (@nil (pystr * Z), @nil (pystr * Z)))
    by (repeat split; [constructor | discriminate]).
  destruct (count_rows_add df _ _ Hok0 Hloop) as [_ Hadd].
  destruct (Hadd k) as [H1 H2]. simpl in H1, H2.
  destruct Hok as (Hk & Hwf & Hpos); simpl in Hk, Hwf, Hpos.
  destruct (get k freqs0) as [n|] eqn:En.
  - pose proof (Hpos _ _ En) as Hn.
    destruct (In_keys_get k funding0) as [f Ef];
      [rewrite <- Hk; eapply get_Some_key; exact En|].
    rewrite Ef in H2.
    destruct (rows_with' df k) eqn:Er; [simpl in H1; lia|].
    split; congruence.
  - assert (Ef : get k funding0 = None)
      by (apply get_None; rewrite <- Hk; apply get_None; exact En).
    destruct (rows_with' df k) eqn:Er; [auto|]. simpl in H1. lia.
Qed.

End CountFacts.

Lemma generate_data_counts :
  forall (str_lower : pystr -> pystr) (STOPWORDS : list pystr) (stopord_txt : pystr)
         (set_iter : list pystr -> list pystr)
         (df : DataFrame) (funding_thresh_hold : Z),
  exists avg_funding funding freqs : dict Z,
    generate_data str_lower STOPWORDS stopord_txt set_iter df funding_thresh_hold
    = Some (avg_funding, funding, freqs)
    /\ forall t,
         let rows := rows_with str_lower STOPWORDS stopord_txt set_iter df t in
         if (0 <? Z.of_nat (length rows)) && (funding_thresh_hold <=? total_amount rows)
         then get t freqs = Some (Z.of_nat (length rows))
              /\ get t funding = Some (total_amount rows)
              /\ get t avg_funding = Some (total_amount rows / Z.of_nat (length rows))
         else get t freqs = None /\ get t funding = None /\ get t avg_funding = None.
Proof.
  intros str_lower STOPWORDS stopord_txt set_iter df thr.
  destruct (generate_data_closed_form str_lower STOPWORDS stopord_txt set_iter df thr)
    as (freqs0 & funding0 & Hloop & Hok & Hgen).
  destruct (count_loop_counts str_lower STOPWORDS stopord_txt set_iter df)
    as (freqs0' & funding0' & Hloop' & _ & Hcount).
  rewrite Hloop in Hloop'. inversion Hloop'; subst freqs0' funding0'; clear Hloop'.
  cbv zeta in Hgen. do 3 eexists. split; [exact Hgen|].
  intros t rows. specialize (Hcount t). fold rows in Hcount.
  destruct Hok as (Hk & Hwf & Hpos); simpl in Hk, Hwf, Hpos.
  assert (Hwf' : wf funding0) by (unfold wf; rewrite <- Hk; exact Hwf).
  assert (Hf : get t (List.filter (fun kv => thr <=? snd kv) funding0)
               = match get t funding0 with
                 | Some v => if thr <=? v then Some v else None
                 | None => None
                 end)
    by (apply (get_filter (fun v => thr <=? v)); exact Hwf').
  rewrite !(get_map_keys _ _ t).
  assert (Hin : str_in t (keys (List.filter (fun kv => thr <=? snd kv) funding0))
                = match get t (List.filter (fun kv => thr <=? snd kv) funding0) with
                  | Some _ => true | None => false end).
  { destruct (get t (List.filter _ funding0)) eqn:E.
    - apply str_in_In. eapply get_Some_key; exact E.
    - apply str_in_not_In. apply get_None; exact E. }
  rewrite Hin, Hf.
  destruct rows as [|r rows'] eqn:Er.
  - destruct Hcount as [H1 H2]. rewrite H2. simpl. auto.
  - destruct Hcount as [H1 H2]. rewrite H2, H1.
    replace (0 <? Z.of_nat (length (r :: rows'))) with true
      by (symmetry; apply Z.ltb_lt; simpl; lia).
    rewrite andb_true_l. destruct (thr <=? total_amount (r :: rows')); auto.
Qed.

(** [generate_data] always returns; a word is a key of the three
    dictionaries exactly when some title has it and the amounts of the rows
    that have it sum to at least the threshold; then its frequency is the
    number of those rows, its funding their total amount, and its average
    funding the floor of the quotient.  A word whose rows sum to less than
    the threshold is in none of the dictionaries. *)
Theorem generate_data_counts_rows_and_sums_amounts :
  forall (str_lower : pystr -> pystr) (STOPWORDS : list pystr) (stopord_txt : pystr)
         (set_iter : list pystr -> list pystr)
         (df : DataFrame) (funding_thresh_hold : Z),
  exists avg_funding funding freqs : dict Z,
    generate_data str_lower STOPWORDS stopord_txt set_iter df funding_thresh_hold
    = Some (avg_funding, funding, freqs)
    /\ forall t,
         let rows := rows_with str_lower STOPWORDS stopord_txt set_iter df t in
         if (0 <? Z.of_nat (length rows)) && (funding_thresh_hold <=? total_amount rows)
         then get t freqs = Some (Z.of_nat (length rows))
              /\ get t funding = Some (total_amount rows)
              /\ get t avg_funding = Some (total_amount rows / Z.of_nat (length rows))
         else get t freqs = None /\ get t funding = None /\ get t avg_funding = None.
Proof. exact generate_data_counts. Qed.

(** ** [get_all_words] *)

Lemma set_of_list_In (l acc : list pystr) (t : pystr) :
  In t (fold_left (fun s word => set_add word s) l acc) <-> In t acc \/ In t l.
Proof.
  revert acc; induction l as [|x l IH]; intros acc; simpl; [tauto|].
  rewrite IH, set_add_In. intuition.
Qed.

Lemma set_of_list_NoDup (l acc : list pystr) :
  NoDup acc -> NoDup (fold_left (fun s word => set_add word s) l acc).
Proof.
  revert acc; induction l as [|x l IH]; intros acc H; simpl; [exact H|].
  apply IH, set_add_NoDup, H.
Qed.

Lemma word_list_In (tok : Grant -> list pystr) (df : DataFrame) (acc : list pystr)
    (t : pystr) :
  In t (fold_left (fun word_list row => word_list ++ tok row) df acc)
  <-> In t acc \/ exists row, In row df /\ In t (tok row).
Proof.
  revert acc; induction df as [|r df IH]; intros acc; simpl.
  - split; [auto | intros [H|[row [[] _]]]; exact H].
  - rewrite IH, in_app_iff. split.
    + intros [[H|H]|[row [H1 H2]]]; eauto.
    + intros [H|[row [[->|H1] H2]]]; eauto.
Qed.

Lemma total_amount_nonneg (rows : DataFrame) :
  (forall row, In row rows -> 0 <= Bevilliget_belob row) -> 0 <= total_amount rows.
Proof.
  induction rows as [|r rows IH]; unfold total_amount; simpl; intros H; [lia|].
  specialize (H r (or_introl eq_refl)) as Hr.
  assert (0 <= total_amount rows) by (apply IH; intros; apply H; right; assumption).
  unfold total_amount in *. lia.
Qed.

Section VocabularyFacts.
Variable str_lower : pystr -> pystr.
Variable STOPWORDS : list pystr.
Variable stopord_txt : pystr.
Variable set_iter : list pystr -> list pystr.

Local Abbreviation tokens_of row :=
  (tokenize_and_stem str_lower STOPWORDS stopord_txt set_iter (Titel row)).
Local Abbreviation rows_with' := (rows_with str_lower STOPWORDS stopord_txt set_iter).

Lemma rows_with_In (df : DataFrame) (t : pystr) (row : Grant) :
  In row (rows_with' df t) <-> In row df /\ In t (tokens_of row).
Proof. unfold rows_with. rewrite filter_In, str_in_In. reflexivity. Qed.

Lemma rows_with_nonempty (df : DataFrame) (t : pystr) :
  rows_with' df t <> [] <-> exists row, In row df /\ In t (tokens_of row).
Proof.
  split.
  - destruct (rows_with' df t) as [|r l] eqn:E; [congruence|]. intros _.
    exists r. apply rows_with_In. rewrite E. left; reflexivity.
  - intros [row H] E. apply rows_with_In in H. rewrite E in H. exact H.
Qed.

Lemma get_all_words_In (df : DataFrame) (t : pystr) :
  In t (get_all_words str_lower STOPWORDS stopord_txt set_iter df)
  <-> exists row, In row df /\ In t (tokens_of row).
Proof.
  unfold get_all_words. cbv zeta.
  rewrite list_of_set_In, set_of_list_In, (word_list_In (fun row => tokens_of row)).
  simpl. tauto.
Qed.

End VocabularyFacts.

(** [get_all_words] lists every token of every title once.  The words of
    the dictionaries of [generate_data] are among them, and are all of them
    when no amount is negative and the threshold is at most 0. *)
Theorem get_all_words_is_the_vocabulary :
  forall (str_lower : pystr -> pystr) (STOPWORDS : list pystr) (stopord_txt : pystr)
         (set_iter : list pystr -> list pystr) (df : DataFrame),
    NoDup (get_all_words str_lower STOPWORDS stopord_txt set_iter df)
    /\ (forall t, In t (get_all_words str_lower STOPWORDS stopord_txt set_iter df)
                  <-> exists row,
                        In row df
                        /\ In t (tokenize_and_stem str_lower STOPWORDS stopord_txt set_iter
                                                   (Titel row)))
    /\ forall funding_thresh_hold,
       exists avg_funding funding freqs : dict Z,
         generate_data str_lower STOPWORDS stopord_txt set_iter df funding_thresh_hold
         = Some (avg_funding, funding, freqs)
         /\ incl (keys funding) (get_all_words str_lower STOPWORDS stopord_txt set_iter df)
         /\ (funding_thresh_hold <= 0 ->
             (forall row, In row df -> 0 <= Bevilliget_belob row) ->
             incl (get_all_words str_lower STOPWORDS stopord_txt set_iter df) (keys funding)).
Proof.
  intros str_lower STOPWORDS stopord_txt set_iter df. split; [|split].
  - unfold get_all_words. cbv zeta. apply list_of_set_NoDup, set_of_list_NoDup. constructor.
  - apply get_all_words_In.
  - intros thr.
    destruct (generate_data_counts str_lower STOPWORDS stopord_txt set_iter df thr)
      as (avg & funding & freqs & Hgen & Hcount).
    exists avg, funding, freqs. split; [exact Hgen|]. split.
    + intros t Ht. apply get_all_words_In. apply rows_with_nonempty.
      specialize (Hcount t). cbv zeta in Hcount. intros E. rewrite E in Hcount.
      simpl in Hcount. destruct Hcount as (_ & Hf & _).
      apply get_None in Hf. contradiction.
    + intros Hthr Hpos t Ht. apply get_all_words_In, rows_with_nonempty in Ht.
      specialize (Hcount t). cbv zeta in Hcount.
      set (rows := rows_with str_lower STOPWORDS stopord_txt set_iter df t) in *.
      assert (Htot : 0 <= total_amount rows).
      { apply total_amount_nonneg. intros row Hrow. apply Hpos.
        apply (rows_with_In str_lower STOPWORDS stopord_txt set_iter) in Hrow. tauto. }
      destruct rows as [|r l] eqn:Er; [congruence|].
      replace (0 <? Z.of_nat (length (r :: l))) with true in Hcount
        by (symmetry; apply Z.ltb_lt; simpl; lia).
      replace (thr <=? total_amount (r :: l)) with true in Hcount
        by (symmetry; apply Z.leb_le; lia).
      destruct Hcount as (_ & Hf & _). eapply get_Some_key; exact Hf.
Qed.

(** ** Words whose grants sum to a negative amount *)

Lemma add_stat_node_unknown_word (avg_funding funding freqs : dict Z) (G : Graph)
    (tok : pystr) :
  get tok avg_funding = None ->
  add_stat_node (avg_funding, funding, freqs) G tok = None.
Proof. intros H. unfold add_stat_node. rewrite H. reflexivity. Qed.

(** [generate_data] is called with its default threshold 0, so a word whose
    grants sum to a negative amount is in none of the three dictionaries:
    the global view then raises ([KeyError]) at the first title that has the
    word, and so does the ego view of that word. *)
Theorem graph_builders_raise_on_negative_total :
  forall (str_lower : pystr -> pystr) (STOPWORDS : list pystr) (stopord_txt : pystr)
         (set_iter : list pystr -> list pystr)
         (df : DataFrame) (word : pystr) (top_n : Z),
    rows_with str_lower STOPWORDS stopord_txt set_iter df word <> [] ->
    total_amount (rows_with str_lower STOPWORDS stopord_txt set_iter df word) < 0 ->
    generate_graph_data_all str_lower STOPWORDS stopord_txt set_iter df top_n = None
    /\ generate_graph_data_word str_lower STOPWORDS stopord_txt set_iter df word top_n = None.
Proof.
  intros str_lower STOPWORDS stopord_txt set_iter df word top_n Hne Hneg.
  destruct (generate_data_counts str_lower STOPWORDS stopord_txt set_iter df 0)
    as (avg & funding & freqs & Hgen & Hcount).
  specialize (Hcount word). cbv zeta in Hcount.
  replace (0 <=? total_amount _) with false in Hcount by (symmetry; apply Z.leb_gt; exact Hneg).
  rewrite andb_false_r in Hcount. destruct Hcount as (_ & _ & Havg).
  apply rows_with_nonempty in Hne. destruct Hne as (row & Hrow & Hin).
  split.
  - unfold generate_graph_data_all. rewrite Hgen. cbn [bind].
    unfold all_loop. rewrite (foldM_fails _ df row Hrow); [reflexivity|].
    intros G. cbv zeta.
    rewrite (foldM_fails _ _ word Hin); [reflexivity|].
    intros G'. apply add_stat_node_unknown_word. exact Havg.
  - unfold generate_graph_data_word. rewrite Hgen. cbn [bind].
    unfold word_loop. rewrite (foldM_fails _ df row Hrow); [reflexivity|].
    intros G. cbv zeta. apply str_in_In in Hin. rewrite Hin. cbn [negb].
    rewrite add_stat_node_unknown_word by exact Havg. reflexivity.
Qed.

Lemma graph_builders_raise_on_negative_total_witness :
  generate_graph_data_all ascii_lower [] [] insertion_order
                          [grant "alpha beta" 3; grant "alpha" (-5)] 3 = None
  /\ generate_graph_data_word ascii_lower [] [] insertion_order
                              [grant "alpha beta" 3; grant "alpha" (-5)] (str "alpha") 3 = None.
Proof.
  apply (graph_builders_raise_on_negative_total ascii_lower [] [] insertion_order
           [grant "alpha beta" 3; grant "alpha" (-5)] (str "alpha") 3).
  - vm_compute. discriminate.
  - vm_compute. reflexivity.
Defined.

(** ** The nodes of the graphs *)

Lemma In_keys_node_add_node (n m : pystr) (attr : dict Z) (G : Graph) :
  In m (keys (_node (add_node n attr G))) <-> m = n \/ In m (keys (_node G)).
Proof.
  unfold add_node. destruct (get n (_node G)); cbn [_node]; apply In_keys_set.
Qed.

Lemma In_keys_node_add_stat_node (stats : WordStats) (G G' : Graph) (tok m : pystr) :
  add_stat_node stats G tok = Some G' ->
  (In m (keys (_node G')) <-> m = tok \/ In m (keys (_node G))).
Proof.
  unfold add_stat_node. destruct stats as [[a f] c].
  destruct (get tok a); simpl; [|discriminate].
  destruct (get tok f); simpl; [|discriminate].
  destruct (get tok c); simpl; [|discriminate].
  intros H; inversion H; subst. apply In_keys_node_add_node.
Qed.

Lemma ensure_node_present (n : pystr) (G : Graph) :
  In n (keys (_node G)) -> ensure_node n G = G.
Proof.
  intros H. unfold ensure_node. destruct (In_keys_get _ _ H) as [a Ha]. rewrite Ha. reflexivity.
Qed.

(** Between two nodes of the graph, [bump_edge] writes no node. *)
Lemma node_bump_edge (s_tok targ_tok : pystr) (G G' : Graph) :
  In s_tok (keys (_node G)) -> In targ_tok (keys (_node G)) ->
  bump_edge s_tok G targ_tok = Some G' -> _node G' = _node G.
Proof.
  intros Hs Ht. unfold bump_edge. destruct (has_edge s_tok targ_tok G).
  - unfold incr_weight. destruct (weight s_tok targ_tok G); simpl; [|discriminate].
    intros H; inversion H; reflexivity.
  - intros H; inversion H; subst. unfold add_edge.
    rewrite (ensure_node_present s_tok G Hs), (ensure_node_present targ_tok G Ht). reflexivity.
Qed.

Lemma single_key (l : list pystr) (x : pystr) :
  NoDup l -> In x l -> (forall k, In k l -> k = x) -> length l = 1%nat.
Proof.
  intros Hnd Hin Hall. destruct l as [|a [|b l]]; [contradiction | reflexivity |].
  exfalso. inversion Hnd as [|? ? Hna _]; subst. apply Hna.
  rewrite (Hall a (or_introl eq_refl)), (Hall b (or_intror (or_introl eq_refl))).
  left; reflexivity.
Qed.

(** In a graph whose edges all touch [word], a node joined to [word] has
    degree 1. *)
Lemma star_degree (word n : pystr) (G : Graph) (w : Z) :
  graph_wf G ->
  (forall a b w, weight a b G = Some w -> a = word \/ b = word) ->
  n <> word -> weight word n G = Some w ->
  degree G n = Some 1.
Proof.
  intros HG Hstar Hne Hw. pose proof HG as (_ & _ & Hn & Hs).
  rewrite Hs in Hw. destruct (weight_Some_entries _ _ _ _ Hw) as (nbrs & Hg & Hgw).
  unfold degree, degree_view.
  rewrite (get_map_entries (fun k nbrs => degree_of k nbrs)), Hg. simpl. f_equal.
  assert (Hall : forall k, In k (keys nbrs) -> k = word).
  { intros k Hk. destruct (In_keys_get _ _ Hk) as [v Hv].
    assert (Hkw : weight n k G = Some v) by (unfold weight; rewrite Hg; exact Hv).
    destruct (Hstar _ _ _ Hkw); congruence. }
  unfold degree_of.
  assert (Hlen : length nbrs = 1%nat).
  { rewrite <- (length_map fst). apply (single_key _ word); [eapply Hn; eauto | | exact Hall].
    eapply get_Some_key; eauto. }
  assert (Hmem : mem n nbrs = false).
  { apply mem_false. intros Hin. apply Hne. apply Hall. exact Hin. }
  rewrite Hlen, Hmem. reflexivity.
Qed.

(** What is left of a graph after [set_total_deg] and [prune], whatever
    [top_n]: no isolated node, and only edges and weights the graph had. *)
Lemma finish_graph_shape (top_n : Z) (G Gf : Graph) :
  graph_wf G ->
  (G1 <- set_total_deg G ;; prune top_n G1) = Some Gf ->
  graph_wf Gf
  /\ (forall n, In n (keys (_node Gf))
                <-> exists e, In e (edges Gf) /\ (n = fst e \/ n = snd e))
  /\ (forall x y w, weight x y Gf = Some w -> weight x y G = Some w)
  /\ (forall n, In n (keys (_node Gf)) -> In n (keys (_node G))).
Proof.
  intros HG H.
  destruct (set_total_deg G) as [G1|] eqn:E1; simpl in H; [|discriminate].
  destruct (set_total_deg_spec _ _ HG E1) as (Ha & Hk1 & _).
  pose proof (graph_wf_set_total_deg _ _ HG E1) as HG1.
  destruct (edge_weights_total G1 HG1) as (ew & Hew & _).
  rewrite (prune_eq top_n G1 ew HG1 Hew) in H. inversion H; subst Gf; clear H.
  set (top := List.map fst (slice_to (top_n - 1) (_sort_tuples ew))).
  assert (HG' : graph_wf (restricted_to top G1)) by (apply graph_wf_drop_edges; exact HG1).
  split; [apply graph_wf_without_isolated; exact HG'|].
  split; [intros n; apply nodes_without_isolated; exact HG'|].
  split.
  - intros x y w Hw. rewrite without_isolated_weight in Hw by exact HG'.
    apply weight_restricted_to in Hw. unfold weight in *. rewrite <- Ha. exact Hw.
  - intros n Hin. rewrite <- Hk1. unfold without_isolated in Hin; cbn [_node] in Hin.
    rewrite (keys_filter_key (fun k => negb (str_in k (isolates (restricted_to top G1))))) in Hin.
    apply filter_In in Hin. exact (proj1 Hin).
Qed.

Section EgoStar.
Variable str_lower : pystr -> pystr.
Variable STOPWORDS : list pystr.
Variable stopord_txt : pystr.
Variable set_iter : list pystr -> list pystr.

Local Abbreviation tokens_of row :=
  (tokenize_and_stem str_lower STOPWORDS stopord_txt set_iter (Titel row)).

(** The graph of the loop of [generate_graph_data_word] is a star around
    [word]. *)
Lemma word_loop_star (stats : WordStats) (df : DataFrame) (word : pystr) (G : Graph) :
  word_loop str_lower STOPWORDS stopord_txt set_iter stats df word = Some G ->
  graph_wf G
  /\ (forall a b w, weight a b G = Some w -> a = word \/ b = word)
  /\ (forall n, In n (keys (_node G)) -> n <> word -> exists w, weight word n G = Some w).
Proof.
  unfold word_loop.
  set (Q := fun G : Graph =>
              graph_wf G
              /\ (forall a b w, weight a b G = Some w -> a = word \/ b = word)
              /\ (forall n, In n (keys (_node G)) -> n <> word ->
                            exists w, weight word n G = Some w)).
  apply (foldM_inv Q).
  - intros G0 row G1 _ HQ. cbv zeta.
    destruct (negb (str_in word (tokens_of row))); [intros H; inversion H; subst; exact HQ|].
    destruct (add_stat_node stats G0 word) as [G2|] eqn:E2; simpl; [|discriminate].
    assert (HQ2 : Q G2 /\ In word (keys (_node G2))).
    { destruct HQ as (HG0 & Hst & Hadj).
      pose proof (add_stat_node_weight _ _ _ _ HG0 E2) as Hsame.
      split; [split; [eapply graph_wf_add_stat_node; eauto|split]|].
      - intros a b w. rewrite Hsame. apply Hst.
      - intros n Hn Hne. rewrite Hsame. apply Hadj; [|exact Hne].
        apply (In_keys_node_add_stat_node _ _ _ _ n E2) in Hn. destruct Hn; congruence.
      - apply (In_keys_node_add_stat_node _ _ _ _ word E2). left; reflexivity. }
    clear HQ E2. intros H.
    assert (HQ1 : Q G1 /\ In word (keys (_node G1))); [|exact (proj1 HQ1)].
    revert H. apply (foldM_inv (fun G => Q G /\ In word (keys (_node G)))); [|exact HQ2].
    intros G3 t G4 _ [(HG3 & Hst & Hadj) Hword] H.
    destruct (add_stat_node stats G3 t) as [G5|] eqn:E5; simpl in H; [|discriminate].
    pose proof (graph_wf_add_stat_node _ _ _ _ HG3 E5) as HG5.
    pose proof (add_stat_node_weight _ _ _ _ HG3 E5) as Hsame.
    destruct (bump_edge_spec word t G5 HG5) as (G6 & E6 & HG6 & Hyes & Hno).
    rewrite E6 in H. inversion H; subst G6; clear H.
    assert (Hnode : _node G4 = _node G5).
    { apply (node_bump_edge word t); [| |exact E6].
      - apply (In_keys_node_add_stat_node _ _ _ _ word E5). right; exact Hword.
      - apply (In_keys_node_add_stat_node _ _ _ _ t E5). left; reflexivity. }
    assert (Hdec : forall x y, {(x = word /\ y = t) \/ (x = t /\ y = word)}
                               + {~ ((x = word /\ y = t) \/ (x = t /\ y = word))}).
    { intros x y. destruct (str_eq_dec x word), (str_eq_dec y t),
                    (str_eq_dec x t), (str_eq_dec y word); tauto. }
    split; [split; [exact HG6|split]|].
    + intros a b w Hw. destruct (Hdec a b) as [Hp|Hp]; [tauto|].
      rewrite (Hno _ _ Hp), Hsame in Hw. eapply Hst; eauto.
    + intros n Hn Hne. rewrite Hnode in Hn.
      apply (In_keys_node_add_stat_node _ _ _ _ n E5) in Hn.
      destruct (Hdec word n) as [Hp|Hp]; [rewrite (Hyes _ _ Hp); eauto|].
      rewrite (Hno _ _ Hp), Hsame. destruct Hn as [->|Hn]; [tauto|]. apply Hadj; assumption.
    + rewrite Hnode. apply (In_keys_node_add_stat_node _ _ _ _ word E5). right; exact Hword.
  - split; [apply graph_wf_empty|]. split.
    + intros a b w H. discriminate.
    + intros n [].
Qed.

End EgoStar.

(** The graph returned for the ego view of [word] is a star around [word]:
    every edge joins [word] to another word; every node other than [word] is
    joined to [word], has degree 1 and carries the [total_deg] attribute 1;
    and a graph that is not empty contains [word]. *)
Theorem ego_view_is_a_star :
  forall (str_lower : pystr -> pystr) (STOPWORDS : list pystr) (stopord_txt : pystr)
         (set_iter : list pystr -> list pystr)
         (df : DataFrame) (word : pystr) (top_n : Z) (Gf : Graph),
    generate_graph_data_word str_lower STOPWORDS stopord_txt set_iter df word top_n = Some Gf ->
    (forall a b, In (a, b) (edges Gf) -> a <> b /\ (a = word \/ b = word))
    /\ (forall n attrs,
          get n (_node Gf) = Some attrs -> n <> word ->
          has_edge word n Gf = true
          /\ degree Gf n = Some 1
          /\ get attr_total_deg attrs = Some 1)
    /\ (keys (_node Gf) <> [] -> In word (keys (_node Gf))).
Proof.
  intros str_lower STOPWORDS stopord_txt set_iter df word top_n Gf H.
  unfold generate_graph_data_word in H.
  destruct (generate_data _ _ _ _ df 0) as [stats|]; simpl in H; [|discriminate].
  destruct (word_loop _ _ _ _ stats df word) as [G|] eqn:EG; simpl in H; [|discriminate].
  destruct (word_loop_star _ _ _ _ _ _ _ _ EG) as (HG & Hstar & Hadj).
  destruct (finish_graph_shape top_n G Gf HG H) as (HGf & Hnodes & Hsub & Hnsub).
  assert (Hloop : forall a b w, weight a b G = Some w -> a <> b)
    by (intros a b w Hw; eapply word_loop_weights; eauto).
  assert (Hedge : forall a b, In (a, b) (edges Gf) -> a <> b /\ (a = word \/ b = word)).
  { intros a b Hin. destruct (edges_endpoints _ _ _ HGf Hin) as [w Hw].
    apply Hsub in Hw. split; [eapply Hloop | eapply Hstar]; eauto. }
  assert (Hjoin : forall n, In n (keys (_node Gf)) -> n <> word ->
                            exists w, weight word n Gf = Some w).
  { intros n Hn Hne. apply Hnodes in Hn. destruct Hn as ([a b] & Hin & Hor). simpl in Hor.
    destruct (Hedge a b Hin) as [_ Hw]. destruct (edges_endpoints _ _ _ HGf Hin) as [w Hab].
    pose proof HGf as (_ & _ & _ & Hs).
    destruct Hor as [->| ->]; destruct Hw as [Hw|Hw]; try congruence; subst.
    - exists w. rewrite Hs. exact Hab.
    - exists w. exact Hab. }
  split; [exact Hedge|]. split.
  - intros n attrs Hg Hne.
    assert (Hin : In n (keys (_node Gf))) by (eapply get_Some_key; eauto).
    destruct (Hjoin n Hin Hne) as [w Hw].
    split; [apply has_edge_weight; eauto|]. split.
    + apply (star_degree word n Gf w); auto.
      intros a b w' Hw'. eapply Hstar. apply Hsub. exact Hw'.
    + destruct (set_total_deg G) as [G1|] eqn:E1; simpl in H; [|discriminate].
      apply (prune_attrs _ _ _ _ _ H) in Hg.
      destruct (set_total_deg_spec _ _ HG E1) as (_ & _ & Hdeg).
      destruct (Hdeg _ _ Hg) as (d & Hd & Ht). rewrite Ht. rewrite <- Hd.
      destruct (Hadj n (Hnsub n Hin) Hne) as [w0 Hw0].
      apply (star_degree word n G w0); auto.
  - intros Hne.
    assert (Hex : exists n, In n (keys (_node Gf))).
    { destruct (keys (_node Gf)) as [|n l]; [congruence | exists n; left; reflexivity]. }
    destruct Hex as [n Hin].
    destruct (str_eq_dec n word) as [->|Hn]; [exact Hin|].
    destruct (Hjoin n Hin Hn) as [w Hw].
    pose proof HGf as (Hk & _).
    rewrite Hk. exact (proj1 (weight_Some_keys word n w Gf HGf Hw)).
Qed.

Lemma ego_view_is_a_star_witness :
  exists Gf,
    generate_graph_data_word ascii_lower [] [] insertion_order three_grants (str "alpha") 3
    = Some Gf
    /\ forall a b, In (a, b) (edges Gf) -> a <> b /\ (a = str "alpha" \/ b = str "alpha").
Proof.
  destruct (generate_graph_data_word ascii_lower [] [] insertion_order three_grants
              (str "alpha") 3) as [Gf|] eqn:E.
  - exists Gf. split; [reflexivity|].
    exact (proj1 (ego_view_is_a_star ascii_lower [] [] insertion_order three_grants
                    (str "alpha") 3 Gf E)).
  - vm_compute in E. discriminate.
Defined.

(** ** The attributes of the nodes *)

Local Abbreviation nodes_have_stats stats G :=
  (forall n attrs, get n (_node G) = Some attrs -> node_has_stats stats n attrs 0).

Lemma update_node_attrs (a f c : Z) :
  update (node_attrs a f c 0) [] = node_attrs a f c 0
  /\ update (node_attrs a f c 0) (node_attrs a f c 0) = node_attrs a f c 0.
Proof. split; vm_compute; reflexivity. Qed.

Lemma set_total_deg_node_attrs (a f c d : Z) :
  set attr_total_deg d (node_attrs a f c 0) = node_attrs a f c d.
Proof. vm_compute; reflexivity. Qed.

Lemma add_stat_node_attrs (stats : WordStats) (G G' : Graph) (tok : pystr) :
  nodes_have_stats stats G -> add_stat_node stats G tok = Some G' ->
  nodes_have_stats stats G'.
Proof.
  intros Hok H n attrs Hg. unfold add_stat_node in H. destruct stats as [[avg fu] fr].
  destruct (get tok avg) as [a|] eqn:Ea; simpl in H; [|discriminate].
  destruct (get tok fu) as [f|] eqn:Ef; simpl in H; [|discriminate].
  destruct (get tok fr) as [c|] eqn:Ec; simpl in H; [|discriminate].
  inversion H; subst G'; clear H. unfold add_node in Hg.
  destruct (update_node_attrs a f c) as [Hnew Hsame].
  destruct (get tok (_node G)) as [old|] eqn:Eo; cbn [_node] in Hg; rewrite get_set in Hg.
  - str_split tok n; [|apply Hok; exact Hg]. subst n.
    destruct (Hok _ _ Eo) as (a' & f' & c' & Ha' & Hf' & Hc' & Hold). simpl in Ha', Hf', Hc'.
    assert (a' = a) by congruence. assert (f' = f) by congruence.
    assert (c' = c) by congruence. subst a' f' c' old.
    rewrite Hsame in Hg. inversion Hg; subst attrs.
    exists a, f, c. auto.
  - str_split tok n; [|apply Hok; exact Hg]. subst n.
    rewrite Hnew in Hg. inversion Hg; subst attrs.
    exists a, f, c. auto.
Qed.

Lemma add_stat_nodes_attrs (stats : WordStats) (l : list pystr) :
  forall G G', graph_wf G -> nodes_have_stats stats G ->
    foldM (add_stat_node stats) l G = Some G' ->
    graph_wf G' /\ nodes_have_stats stats G'
    /\ (forall t, In t l \/ In t (keys (_node G)) -> In t (keys (_node G'))).
Proof.
  induction l as [|x l IH]; simpl; intros G G' HG Hok H.
  - inversion H; subst. split; [exact HG|]. split; [exact Hok|]. intros t [[]|Ht]; exact Ht.
  - destruct (add_stat_node stats G x) as [G1|] eqn:E; simpl in H; [|discriminate].
    destruct (IH G1 G' (graph_wf_add_stat_node _ _ _ _ HG E)
                 (add_stat_node_attrs _ _ _ _ Hok E) H) as (HG' & Hok' & Hin).
    split; [exact HG'|]. split; [exact Hok'|].
    intros t Ht. apply Hin.
    rewrite (In_keys_node_add_stat_node _ _ _ _ t E). intuition.
Qed.

Lemma list_remove_incl (x : pystr) (l r : list pystr) :
  list_remove x l = Some r -> incl r l.
Proof.
  revert r; induction l as [|y l IH]; simpl; intros r H; [discriminate|].
  destruct (str_eqb y x).
  - inversion H; subst. intros z Hz. right; exact Hz.
  - destruct (list_remove x l) as [r'|]; simpl in H; [|discriminate].
    inversion H; subst. intros z [->|Hz]; [left; reflexivity | right; apply (IH r' eq_refl z Hz)].
Qed.

Lemma node_bump_edges (s_tok : pystr) (l : list pystr) :
  forall G G', In s_tok (keys (_node G)) -> incl l (keys (_node G)) ->
    foldM (bump_edge s_tok) l G = Some G' -> _node G' = _node G.
Proof.
  induction l as [|t l IH]; simpl; intros G G' Hs Hl H.
  - inversion H; reflexivity.
  - destruct (bump_edge s_tok G t) as [G1|] eqn:E; simpl in H; [|discriminate].
    assert (E1 : _node G1 = _node G)
      by (apply (node_bump_edge s_tok t); [exact Hs | apply Hl; left; reflexivity | exact E]).
    rewrite <- E1. apply IH; [rewrite E1; exact Hs | | exact H].
    rewrite E1. intros z Hz. apply Hl. right; exact Hz.
Qed.

(** The pairing loop writes no node when all its words are nodes already. *)
Lemma node_pair_loop (source_list : list pystr) :
  forall (targ_list : list pystr) (G : Graph) (st : list pystr * Graph),
    incl source_list (keys (_node G)) -> incl targ_list (keys (_node G)) ->
    pair_loop source_list targ_list G = Some st -> _node (snd st) = _node G.
Proof.
  unfold pair_loop. induction source_list as [|s l IH]; simpl; intros tl G st Hs Ht H.
  - inversion H; reflexivity.
  - destruct (list_remove s tl) as [temp|] eqn:Er; simpl in H; [|discriminate].
    destruct (foldM (bump_edge s) temp G) as [G1|] eqn:E; simpl in H; [|discriminate].
    assert (Htemp : incl temp (keys (_node G)))
      by (intros z Hz; apply Ht; eapply list_remove_incl; eauto).
    assert (E1 : _node G1 = _node G)
      by (apply (node_bump_edges s temp); [apply Hs; left; reflexivity | exact Htemp | exact E]).
    rewrite <- E1. apply (IH temp); [| |exact H]; rewrite E1.
    + intros z Hz. apply Hs. right; exact Hz.
    + exact Htemp.
Qed.

Lemma pairs_row_attrs (stats : WordStats) (l : list pystr) (G G' : Graph) :
  graph_wf G -> nodes_have_stats stats G ->
  (G1 <- foldM (add_stat_node stats) l G ;; st <- pair_loop l l G1 ;; Some (snd st)) = Some G' ->
  nodes_have_stats stats G'.
Proof.
  intros HG Hok H.
  destruct (foldM (add_stat_node stats) l G) as [G1|] eqn:E1; simpl in H; [|discriminate].
  destruct (pair_loop l l G1) as [st|] eqn:E2; simpl in H; [|discriminate].
  inversion H; subst G'; clear H.
  destruct (add_stat_nodes_attrs _ _ _ _ HG Hok E1) as (_ & Hok1 & Hin).
  assert (Hl : incl l (keys (_node G1))) by (intros t Ht; apply Hin; left; exact Ht).
  rewrite (node_pair_loop l l G1 st Hl Hl E2). exact Hok1.
Qed.

Section NodeAttributes.
Variable str_lower : pystr -> pystr.
Variable STOPWORDS : list pystr.
Variable stopord_txt : pystr.
Variable set_iter : list pystr -> list pystr.

Local Abbreviation tokens_of row :=
  (tokenize_and_stem str_lower STOPWORDS stopord_txt set_iter (Titel row)).

Lemma word_loop_attrs (stats : WordStats) (df : DataFrame) (word : pystr) (G : Graph) :
  word_loop str_lower STOPWORDS stopord_txt set_iter stats df word = Some G ->
  nodes_have_stats stats G.
Proof.
  intros H.
  assert (HP : graph_wf G /\ nodes_have_stats stats G); [|exact (proj2 HP)].
  revert H. unfold word_loop.
  apply (foldM_inv (fun G => graph_wf G /\ nodes_have_stats stats G)).
  - intros G0 row G1 _ [HG0 Hok0]. cbv zeta.
    destruct (negb (str_in word (tokens_of row)));
      [intros H; inversion H; subst; split; assumption|].
    destruct (add_stat_node stats G0 word) as [G2|] eqn:E2; simpl; [|discriminate].
    intros H.
    assert (HP : (graph_wf G1 /\ nodes_have_stats stats G1) /\ In word (keys (_node G1)));
      [|exact (proj1 HP)].
    revert H.
    apply (foldM_inv (fun G => (graph_wf G /\ nodes_have_stats stats G)
                               /\ In word (keys (_node G)))).
    + intros G3 t G4 _ [[HG3 Hok3] Hw3] H.
      destruct (add_stat_node stats G3 t) as [G5|] eqn:E5; simpl in H; [|discriminate].
      assert (Hw5 : In word (keys (_node G5)))
        by (apply (In_keys_node_add_stat_node _ _ _ _ word E5); right; exact Hw3).
      assert (Hnode : _node G4 = _node G5).
      { apply (node_bump_edge word t); [exact Hw5 | | exact H].
        apply (In_keys_node_add_stat_node _ _ _ _ t E5). left; reflexivity. }
      split; [split|].
      * eapply graph_wf_bump_edge; [|exact H]. eapply graph_wf_add_stat_node; eauto.
      * rewrite Hnode. eapply add_stat_node_attrs; eauto.
      * rewrite Hnode. exact Hw5.
    + split; [split|].
      * eapply graph_wf_add_stat_node; eauto.
      * eapply add_stat_node_attrs; eauto.
      * apply (In_keys_node_add_stat_node _ _ _ _ word E2). left; reflexivity.
  - split; [apply graph_wf_empty | intros n attrs H; discriminate].
Qed.

Lemma words_loop_attrs (stats : WordStats) (df : DataFrame) (words : list pystr)
    (G : Graph) :
  words_loop str_lower STOPWORDS stopord_txt set_iter stats df words = Some G ->
  nodes_have_stats stats G.
Proof.
  intros H.
  assert (HP : graph_wf G /\ nodes_have_stats stats G); [|exact (proj2 HP)].
  revert H. unfold words_loop.
  apply (foldM_inv (fun G => graph_wf G /\ nodes_have_stats stats G)).
  - intros G0 row G1 _ [HG0 Hok0]. cbv zeta.
    destruct (length _ <=? 1)%nat; [intros H; inversion H; subst; split; assumption|].
    intros H. split.
    + eapply graph_wf_add_nodes_pairs; eauto.
    + eapply pairs_row_attrs; eauto.
  - split; [apply graph_wf_empty | intros n attrs H; discriminate].
Qed.

Lemma all_loop_attrs (stats : WordStats) (df : DataFrame) (G : Graph) :
  all_loop str_lower STOPWORDS stopord_txt set_iter stats df = Some G ->
  nodes_have_stats stats G.
Proof.
  intros H.
  assert (HP : graph_wf G /\ nodes_have_stats stats G); [|exact (proj2 HP)].
  revert H. unfold all_loop.
  apply (foldM_inv (fun G => graph_wf G /\ nodes_have_stats stats G)).
  - intros G0 row G1 _ [HG0 Hok0]. cbv zeta. intros H. split.
    + eapply graph_wf_add_nodes_pairs; eauto.
    + eapply pairs_row_attrs; eauto.
  - split; [apply graph_wf_empty | intros n attrs H; discriminate].
Qed.

End NodeAttributes.

Lemma set_total_deg_attrs (stats : WordStats) (G G1 : Graph) (n : pystr) (attrs : dict Z) :
  graph_wf G -> nodes_have_stats stats G -> set_total_deg G = Some G1 ->
  get n (_node G1) = Some attrs ->
  exists d, degree G n = Some d /\ node_has_stats stats n attrs d.
Proof.
  intros HG Hok H Hg. pose proof HG as (Hk & Hwf & _).
  destruct (set_total_deg_spec _ _ HG H) as (_ & _ & Hdeg).
  destruct (Hdeg _ _ Hg) as (d & Hd & _). exists d. split; [exact Hd|].
  unfold set_total_deg in H.
  destruct (foldM _ (degree_view G) (_node G)) as [nodes|] eqn:E; simpl in H; [|discriminate].
  inversion H; subst G1; clear H. cbn [_node] in Hg.
  apply total_deg_loop in E; [|unfold wf; rewrite keys_degree_view; exact Hwf].
  destruct E as [_ Hget]. rewrite Hget in Hg. unfold degree in Hd. rewrite Hd in Hg.
  destruct (get n (_node G)) as [attrs0|] eqn:E0; simpl in Hg; [|discriminate].
  inversion Hg; subst attrs; clear Hg.
  destruct (Hok _ _ E0) as (a & f & c & Ha & Hf & Hc & ->).
  exists a, f, c. rewrite set_total_deg_node_attrs. auto.
Qed.

Lemma node_has_stats_lookups (stats : WordStats) (n : pystr) (attrs : dict Z) (d : Z) :
  node_has_stats stats n attrs d ->
  exists a f c,
    get n (fst (fst stats)) = Some a /\ get n (snd (fst stats)) = Some f
    /\ get n (snd stats) = Some c
    /\ get attr_avg_funding attrs = Some a /\ get attr_funding attrs = Some f
    /\ get attr_freqs attrs = Some c /\ get attr_total_deg attrs = Some d.
Proof.
  intros (a & f & c & Ha & Hf & Hc & ->). exists a, f, c.
  repeat split; assumption || reflexivity.
Qed.

(** Every node of a graph returned by one of the three builders has, under
    ["avg_funding"], ["funding"] and ["freqs"], the average funding, the
    funding and the frequency that [generate_data] (with threshold 0) gives
    for its word over the whole table, and it has a ["total_deg"]. *)
Theorem graph_nodes_carry_the_word_statistics :
  forall (str_lower : pystr -> pystr) (STOPWORDS : list pystr) (stopord_txt : pystr)
         (set_iter : list pystr -> list pystr)
         (df : DataFrame) (word : pystr) (words : list pystr) (top_n : Z) (Gf : Graph),
    generate_graph_data_word str_lower STOPWORDS stopord_txt set_iter df word top_n = Some Gf
    \/ generate_graph_data_words str_lower STOPWORDS stopord_txt set_iter df words = Some Gf
    \/ generate_graph_data_all str_lower STOPWORDS stopord_txt set_iter df top_n = Some Gf ->
    exists stats,
      generate_data str_lower STOPWORDS stopord_txt set_iter df 0 = Some stats
      /\ forall n attrs, get n (_node Gf) = Some attrs ->
           exists a f c d,
             get n (fst (fst stats)) = Some a
             /\ get n (snd (fst stats)) = Some f
             /\ get n (snd stats) = Some c
             /\ get attr_avg_funding attrs = Some a
             /\ get attr_funding attrs = Some f
             /\ get attr_freqs attrs = Some c
             /\ get attr_total_deg attrs = Some d.
Proof.
  intros str_lower STOPWORDS stopord_txt set_iter df word words top_n Gf H.
  unfold generate_graph_data_word, generate_graph_data_words, generate_graph_data_all in H.
  destruct (generate_data _ _ _ _ df 0) as [stats|]; simpl in H;
    [|destruct H as [H|[H|H]]; discriminate].
  exists stats. split; [reflexivity|]. intros n attrs Hg.
  assert (Hst : exists d, node_has_stats stats n attrs d);
    [|destruct Hst as [d Hd]; destruct (node_has_stats_lookups _ _ _ _ Hd)
        as (a & f & c & Hl); exists a, f, c, d; exact Hl].
  destruct H as [H|[H|H]].
  - destruct (word_loop _ _ _ _ stats df word) as [G|] eqn:EG; simpl in H; [|discriminate].
    pose proof (graph_wf_word_loop _ _ _ _ _ _ _ _ EG) as HG.
    pose proof (word_loop_attrs _ _ _ _ _ _ _ _ EG) as Hok.
    destruct (set_total_deg G) as [G1|] eqn:E1; simpl in H; [|discriminate].
    apply (prune_attrs _ _ _ _ _ H) in Hg.
    destruct (set_total_deg_attrs stats G G1 n attrs HG Hok E1 Hg) as (d & _ & Hd). eauto.
  - destruct (words_loop _ _ _ _ stats df words) as [G|] eqn:EG; simpl in H; [|discriminate].
    pose proof (graph_wf_words_loop _ _ _ _ _ _ _ _ EG) as HG.
    pose proof (words_loop_attrs _ _ _ _ _ _ _ _ EG) as Hok.
    destruct (set_total_deg G) as [G1|] eqn:E1; simpl in H; [|discriminate].
    destruct (edge_weights G1); simpl in H; [|discriminate]. inversion H; subst Gf.
    destruct (set_total_deg_attrs stats G G1 n attrs HG Hok E1 Hg) as (d & _ & Hd). eauto.
  - destruct (all_loop _ _ _ _ stats df) as [G|] eqn:EG; simpl in H; [|discriminate].
    pose proof (graph_wf_all_loop _ _ _ _ _ _ _ EG) as HG.
    pose proof (all_loop_attrs _ _ _ _ _ _ _ EG) as Hok.
    destruct (set_total_deg G) as [G1|] eqn:E1; simpl in H; [|discriminate].
    apply (prune_attrs _ _ _ _ _ H) in Hg.
    destruct (set_total_deg_attrs stats G G1 n attrs HG Hok E1 Hg) as (d & _ & Hd). eauto.
Qed.

Lemma graph_nodes_carry_the_word_statistics_witness :
  exists Gf stats,
    generate_graph_data_all ascii_lower [] [] insertion_order three_grants 3 = Some Gf
    /\ generate_data ascii_lower [] [] insertion_order three_grants 0 = Some stats
    /\ forall n attrs, get n (_node Gf) = Some attrs ->
         exists a f c d,
           get n (fst (fst stats)) = Some a
           /\ get n (snd (fst stats)) = Some f
           /\ get n (snd stats) = Some c
           /\ get attr_avg_funding attrs = Some a
           /\ get attr_funding attrs = Some f
           /\ get attr_freqs attrs = Some c
           /\ get attr_total_deg attrs = Some d.
Proof.
  destruct (generate_graph_data_all ascii_lower [] [] insertion_order three_grants 3)
    as [Gf|] eqn:E.
  - destruct (graph_nodes_carry_the_word_statistics ascii_lower [] [] insertion_order
                three_grants [] [] 3 Gf (or_intror (or_intror E))) as (stats & H1 & H2).
    exists Gf, stats. auto.
  - vm_compute in E. discriminate.
Defined.

(** ** The builders on a table of three grants *)

Lemma graph_builders_return_witness :
  (exists G, generate_graph_data_word ascii_lower [] [] insertion_order three_grants
                                      (str "alpha") 2 = Some G)
  /\ (exists G, generate_graph_data_words ascii_lower [] [] insertion_order three_grants
                                          [str "alpha"; str "beta"] = Some G)
  /\ (exists G, generate_graph_data_all ascii_lower [] [] insertion_order three_grants 2
                = Some G).
Proof.
  apply (graph_builders_return ascii_lower [] [] insertion_order three_grants
           (str "alpha") [str "alpha"; str "beta"] 2).
  intros row [<-|[<-|[<-|[]]]]; simpl; lia.
Defined.

Lemma words_view_weights_witness :
  exists G,
    generate_graph_data_words ascii_lower [] [] insertion_order three_grants
                              [str "alpha"; str "beta"] = Some G
    /\ weight (str "alpha") (str "beta") G
       = Some (cooccurrences ascii_lower [] [] insertion_order three_grants
                             (str "alpha") (str "beta")).
Proof.
  destruct (generate_graph_data_words ascii_lower [] [] insertion_order three_grants
              [str "alpha"; str "beta"]) as [G|] eqn:E.
  - exists G. split; [reflexivity|].
    refine (proj1 (proj2 (words_view_weights ascii_lower [] [] insertion_order three_grants
                            [str "alpha"; str "beta"] G _ E (str "alpha") (str "beta") _))).
    + apply nodupb_NoDup. reflexivity.
    + pose proof E as E'. vm_compute in E'. injection E' as <-. vm_compute. left; reflexivity.
  - vm_compute in E. discriminate.
Defined.

(** ** Tokens of joined texts *)

Lemma split_from_join (a b cur : pystr) (sep : N) :
  isspace sep = true ->
  split_from cur (a ++ sep :: b) = split_from cur a ++ split b.
Proof.
  intros Hsep. revert cur. induction a as [|c r IH]; intros cur; simpl.
  - rewrite Hsep. destruct cur; reflexivity.
  - destruct (isspace c).
    + destruct cur; rewrite IH; reflexivity.
    + apply IH.
Qed.

(** Two texts joined by a white space character, or by one of the replaced
    punctuation characters, have as tokens the tokens of the one and the
    tokens of the other: no token is built across the separator, and none is
    lost. *)
Theorem tokenize_and_stem_of_joined_texts :
  forall (str_lower : pystr -> pystr) (STOPWORDS : list pystr) (stopord_txt : pystr)
         (set_iter : list pystr -> list pystr) (text1 text2 : pystr) (sep : N),
    isspace sep || existsb (N.eqb sep) replace_chars = true ->
    forall t,
      In t (tokenize_and_stem str_lower STOPWORDS stopord_txt set_iter (text1 ++ sep :: text2))
      <-> In t (tokenize_and_stem str_lower STOPWORDS stopord_txt set_iter text1)
          \/ In t (tokenize_and_stem str_lower STOPWORDS stopord_txt set_iter text2).
Proof.
  intros str_lower STOPWORDS stopord_txt set_iter text1 text2 sep Hsep t.
  rewrite !tokenize_In. rewrite map_app. cbn [List.map].
  assert (Hsp : isspace (if existsb (N.eqb sep) replace_chars then 32%N else sep) = true).
  { destruct (existsb (N.eqb sep) replace_chars); [reflexivity|].
    rewrite orb_false_r in Hsep. exact Hsep. }
  unfold split at 1. rewrite (split_from_join _ _ [] _ Hsp). fold (split (List.map
    (fun c => if existsb (N.eqb c) replace_chars then 32%N else c) text1)).
  split.
  - intros (piece & Hin & Hrest). apply in_app_or in Hin.
    destruct Hin as [Hin|Hin]; [left | right]; exists piece; auto.
  - intros [(piece & Hin & Hrest)|(piece & Hin & Hrest)]; exists piece;
      (split; [apply in_or_app; auto | exact Hrest]).
Qed.

Lemma tokenize_and_stem_of_joined_texts_witness :
  In (str "beta")
     (tokenize_and_stem ascii_lower [] [] insertion_order (str "alpha" ++ 45%N :: str "beta"))
  <-> In (str "beta") (tokenize_and_stem ascii_lower [] [] insertion_order (str "alpha"))
      \/ In (str "beta") (tokenize_and_stem ascii_lower [] [] insertion_order (str "beta")).
Proof.
  exact (tokenize_and_stem_of_joined_texts ascii_lower [] [] insertion_order
           (str "alpha") (str "beta") 45%N eq_refl (str "beta")).
Defined.

(** ** The chart table: years and sorting *)

Lemma insert_asc_In (x a : Z) (l : list Z) : In x (insert_asc a l) <-> x = a \/ In x l.
Proof.
  induction l as [|y r IH]; simpl; [intuition|].
  destruct (a <=? y); simpl; [intuition|]. rewrite IH. intuition.
Qed.

Lemma insert_asc_ascending (a : Z) (l : list Z) :
  ~ In a l -> ForallOrdPairs Z.lt l -> ForallOrdPairs Z.lt (insert_asc a l).
Proof.
  induction l as [|y r IH]; simpl; intros Hn H.
  - constructor; constructor.
  - inversion H as [|? ? Hy Hr]; subst. destruct (a <=? y) eqn:E.
    + apply Z.leb_le in E. assert (a < y) by (assert (a <> y) by (intros ->; apply Hn; left; reflexivity); lia).
      constructor; [|exact H]. constructor; [assumption|].
      eapply Forall_impl; [|exact Hy]. intros z Hz. simpl in Hz. lia.
    + apply Z.leb_gt in E. constructor; [|apply IH; tauto].
      apply Forall_forall. intros z Hz. apply insert_asc_In in Hz.
      destruct Hz as [->|Hz]; [exact E|]. rewrite Forall_forall in Hy. apply Hy; exact Hz.
Qed.

Lemma ascending_NoDup (l : list Z) : ForallOrdPairs Z.lt l -> NoDup l.
Proof.
  induction 1 as [|a l Ha _ IH]; constructor; [|exact IH].
  intros Hin. rewrite Forall_forall in Ha. specialize (Ha a Hin). lia.
Qed.

(** The years of the loop: every year of the table once, in ascending
    order. *)
Lemma sorted_years_spec (col : list Z) :
  ForallOrdPairs Z.lt (sorted_years col) /\ forall y, In y (sorted_years col) <-> In y col.
Proof.
  unfold sorted_years.
  assert (H : forall l, NoDup l ->
                ForallOrdPairs Z.lt (fold_right insert_asc [] l)
                /\ forall y, In y (fold_right insert_asc [] l) <-> In y l).
  { induction l as [|a l IH]; simpl; intros Hnd; [split; [constructor | tauto]|].
    inversion Hnd as [|? ? Hn Hd]; subst. destruct (IH Hd) as [H1 H2]. split.
    - apply insert_asc_ascending; [rewrite H2; exact Hn | exact H1].
    - intros y. rewrite insert_asc_In, H2. intuition. }
  destruct (H (nodup Z.eq_dec col) (NoDup_nodup Z.eq_dec col)) as [H1 H2].
  split; [exact H1|]. intros y. rewrite H2. apply nodup_In.
Qed.

Lemma FOP_app_inv {X : Type} (R : X -> X -> Prop) (l1 l2 : list X) (x y : X) :
  ForallOrdPairs R (l1 ++ l2) -> In x l1 -> In y l2 -> R x y.
Proof.
  induction l1 as [|a l1 IH]; simpl; intros H Hx Hy; [contradiction|].
  inversion H as [|? ? Ha Hr]; subst. destruct Hx as [->|Hx]; [|auto].
  rewrite Forall_forall in Ha. apply Ha. apply in_or_app. right; exact Hy.
Qed.

Lemma FOP_impl_In {X : Type} (R R' : X -> X -> Prop) (l : list X) :
  (forall x y, In x l -> In y l -> R x y -> R' x y) ->
  ForallOrdPairs R l -> ForallOrdPairs R' l.
Proof.
  intros Himp H. induction H as [|a l Ha Hl IH]; constructor.
  - apply Forall_forall. intros y Hy. rewrite Forall_forall in Ha.
    apply Himp; [left; reflexivity | right; exact Hy | apply Ha; exact Hy].
  - apply IH. intros x y Hx Hy. apply Himp; right; assumption.
Qed.

Lemma FOP_map {X Y : Type} (f : X -> Y) (R : Y -> Y -> Prop) (l : list X) :
  ForallOrdPairs (fun x y => R (f x) (f y)) l <-> ForallOrdPairs R (List.map f l).
Proof.
  induction l as [|a l IH]; simpl; split; intros H; try constructor;
    inversion H as [|? ? Ha Hl]; subst.
  - rewrite Forall_forall in *. intros y Hy. apply in_map_iff in Hy.
    destruct Hy as [x [<- Hx]]. apply Ha; exact Hx.
  - apply IH; exact Hl.
  - rewrite Forall_forall in *. intros x Hx. apply Ha. apply in_map; exact Hx.
  - apply IH; exact Hl.
Qed.

Lemma descending_FOP (l : list Z) :
  descending l = true -> ForallOrdPairs (fun x y => y <= x) l.
Proof.
  induction l as [|x r IH]; intros H; [constructor|].
  destruct r as [|y r']; [constructor; constructor|].
  simpl in H. apply andb_true_iff in H. destruct H as [Hxy Hr]. apply Z.leb_le in Hxy.
  specialize (IH Hr). constructor; [|exact IH].
  inversion IH as [|? ? Hy _]; subst. constructor; [exact Hxy|].
  eapply Forall_impl; [|exact Hy]. intros z Hz. simpl in Hz. lia.
Qed.

Lemma distinct_NoDup (l : list nat) : distinct l = true -> NoDup l.
Proof.
  induction l as [|i r IH]; simpl; intros H; [constructor|].
  apply andb_true_iff in H. destruct H as [Hi Hr]. constructor; [|auto].
  intros Hin. apply negb_true_iff in Hi.
  assert (existsb (Nat.eqb i) r = true)
    by (apply existsb_exists; exists i; split; [exact Hin | apply Nat.eqb_refl]).
  congruence.
Qed.

Lemma is_sort_order_spec (idx : list nat) (col : list Z) :
  is_sort_order idx col = true ->
  Permutation idx (seq 0 (length col))
  /\ ForallOrdPairs (fun x y => y <= x) (List.map (fun i => nth i col 0) idx).
Proof.
  unfold is_sort_order. rewrite !andb_true_iff. intros [[[Hlen Hlt] Hd] Hs].
  apply Nat.eqb_eq in Hlen. split; [|apply descending_FOP; exact Hs].
  apply NoDup_Permutation_bis.
  - apply distinct_NoDup; exact Hd.
  - rewrite length_seq. lia.
  - intros i Hi. apply in_seq. rewrite forallb_forall in Hlt.
    specialize (Hlt i Hi). apply Nat.ltb_lt in Hlt. lia.
Qed.

Lemma take_rows_seq {X : Type} (rows pre : list X) :
  take_rows (seq (length pre) (length rows)) (pre ++ rows) = rows.
Proof.
  unfold take_rows. revert pre; induction rows as [|r rows IH]; intros pre; simpl;
    [reflexivity|].
  rewrite nth_error_app2 by lia. rewrite Nat.sub_diag. simpl. f_equal.
  specialize (IH (pre ++ [r])). rewrite length_app in IH; simpl in IH.
  rewrite Nat.add_1_r, <- app_assoc in IH. exact IH.
Qed.

Lemma take_rows_map {X Y : Type} (g : X -> Y) (idx : list nat) (rows : list X) :
  take_rows idx (List.map g rows) = List.map g (take_rows idx rows).
Proof.
  unfold take_rows. induction idx as [|i idx IH]; simpl; [reflexivity|].
  rewrite map_app, IH, nth_error_map. destruct (nth_error rows i); reflexivity.
Qed.

Lemma take_rows_column {X : Type} (key : X -> Z) (idx : list nat) (rows : list X) :
  Forall (fun i => (i < length rows)%nat) idx ->
  List.map key (take_rows idx rows)
  = List.map (fun i => nth i (List.map key rows) 0) idx.
Proof.
  unfold take_rows. induction 1 as [|i idx Hi _ IH]; simpl; [reflexivity|].
  rewrite map_app, IH. f_equal.
  destruct (nth_error rows i) as [r|] eqn:E.
  - simpl. f_equal. symmetry. apply nth_error_nth.
    rewrite nth_error_map, E. reflexivity.
  - apply nth_error_None in E. lia.
Qed.

Lemma _sort_tuples_map {X Y : Type} (g : X -> Y) (l : list (X * Z)) :
  _sort_tuples (List.map (fun p => (g (fst p), snd p)) l)
  = List.map (fun p => (g (fst p), snd p)) (_sort_tuples l).
Proof.
  unfold _sort_tuples. induction l as [|x l IH]; simpl; [reflexivity|].
  rewrite IH. generalize (fold_right insert_desc [] l). intros s.
  induction s as [|y s IHs]; simpl; [reflexivity|].
  destruct (snd x <? snd y); simpl; [rewrite IHs|]; reflexivity.
Qed.

Section SortValues.
Variable sort_values_order : list Z -> list nat.

Local Abbreviation sort_values' := (sort_values sort_values_order).

(** Whatever order the sort gives to rows with equal values, the sorted
    table has the rows of the table and never goes up in the sorted
    column. *)
Lemma sort_values_spec (sort_col : SortCol) (df : list Chart.Row) :
  Permutation (sort_values' sort_col df) df
  /\ ForallOrdPairs (fun x y => column sort_col y <= column sort_col x)
                    (sort_values' sort_col df).
Proof.
  unfold sort_values. cbv zeta.
  destruct (is_sort_order _ _) eqn:E.
  - destruct (is_sort_order_spec _ _ E) as [Hperm Hdesc]. rewrite length_map in Hperm.
    split.
    + apply (Permutation_trans (l' := take_rows (seq 0 (length df)) df)).
      * unfold take_rows. apply Permutation_flat_map. exact Hperm.
      * pose proof (take_rows_seq df []) as Hseq. cbn [length app] in Hseq.
        rewrite Hseq. apply Permutation_refl.
    + apply (proj2 (FOP_map (column sort_col) (fun a b => b <= a) _)).
      rewrite take_rows_column; [exact Hdesc|].
      apply Forall_forall. intros i Hi.
      apply (Permutation_in _ Hperm), in_seq in Hi. lia.
  - set (ts := List.map (fun r => (r, column sort_col r)) df).
    assert (Hfst : List.map fst ts = df)
      by (unfold ts; rewrite map_map; simpl; apply map_id).
    pose proof (_sort_tuples_perm ts) as Hperm. split.
    + apply (Permutation_trans (l' := List.map fst ts));
        [apply Permutation_map; exact Hperm | rewrite Hfst; apply Permutation_refl].
    + apply (proj1 (FOP_map fst (fun x y => column sort_col y <= column sort_col x) _)).
      apply (FOP_impl_In (fun x y => snd y <= snd x)).
      * intros x y Hx Hy Hle.
        assert (Hsnd : forall p, In p (_sort_tuples ts) -> snd p = column sort_col (fst p)).
        { intros p Hp. apply (Permutation_in _ Hperm) in Hp. unfold ts in Hp.
          apply in_map_iff in Hp. destruct Hp as [r [<- _]]. reflexivity. }
        rewrite <- !Hsnd by assumption. exact Hle.
      * eapply FOP_impl_In; [|apply _sort_tuples_ordered].
        intros x y _ _ H. eapply ranks_above_weight; exact H.
Qed.

(** Sorting looks at the sorted column only. *)
Lemma sort_values_relabel (sort_col : SortCol) (g : Chart.Row -> Chart.Row)
    (df : list Chart.Row) :
  (forall r, column sort_col (g r) = column sort_col r) ->
  sort_values' sort_col (List.map g df) = List.map g (sort_values' sort_col df).
Proof.
  intros Hg. unfold sort_values. cbv zeta.
  assert (Hcol : List.map (column sort_col) (List.map g df) = List.map (column sort_col) df)
    by (rewrite map_map; apply map_ext; exact Hg).
  rewrite Hcol. destruct (is_sort_order _ _); [apply take_rows_map|].
  rewrite map_map.
  rewrite (map_ext (fun x => (g x, column sort_col (g x)))
                   (fun x => (g x, column sort_col x)))
    by (intros r; rewrite Hg; reflexivity).
  rewrite <- (map_map (fun r => (r, column sort_col r)) (fun p => (g (fst p), snd p))).
  rewrite _sort_tuples_map, !map_map. reflexivity.
Qed.

End SortValues.

(** ** The chart table: rows *)

Lemma filter_none {X : Type} (p : X -> bool) (l : list X) :
  (forall x, In x l -> p x = false) -> List.filter p l = [].
Proof.
  induction l as [|x l IH]; simpl; intros H; [reflexivity|].
  rewrite H by auto. apply IH. auto.
Qed.

Lemma flat_map_ext_in {X Y : Type} (f g : X -> list Y) (l : list X) :
  (forall x, In x l -> f x = g x) -> List.flat_map f l = List.flat_map g l.
Proof.
  induction l as [|x l IH]; simpl; intros H; [reflexivity|].
  rewrite (H x) by auto. rewrite IH by auto. reflexivity.
Qed.

Lemma fold_left_app_flat_map {X Y : Type} (f : X -> list Y) (l : list X) (acc : list Y) :
  fold_left (fun acc x => acc ++ f x) l acc = acc ++ List.flat_map f l.
Proof.
  revert acc; induction l as [|x l IH]; intros acc; simpl.
  - rewrite app_nil_r; reflexivity.
  - rewrite IH, app_assoc. reflexivity.
Qed.

Lemma slice_to_map {X Y : Type} (g : X -> Y) (k : Z) (l : list X) :
  slice_to k (List.map g l) = List.map g (slice_to k l).
Proof. unfold slice_to. rewrite length_map. destruct (0 <=? k); apply firstn_map. Qed.

Lemma slice_to_prefix {X : Type} (k : Z) (l : list X) :
  exists j, slice_to k l = firstn j l.
Proof. unfold slice_to. destruct (0 <=? k); eauto. Qed.

Lemma FOP_firstn {X : Type} (R : X -> X -> Prop) (j : nat) (l : list X) :
  ForallOrdPairs R l -> ForallOrdPairs R (firstn j l).
Proof.
  intros H. revert j; induction H as [|a l Ha Hl IH]; intros [|j]; simpl; try constructor.
  - rewrite Forall_forall in *. intros y Hy. apply Ha. eapply In_firstn; eauto.
  - apply IH.
Qed.

(** The block of one year in a table made of one block per year. *)
Lemma filter_year_block (R : Z -> list Chart.Row) (years : list Z) (y : Z) :
  NoDup years -> In y years ->
  (forall y' r, In r (R y') -> Chart.year r = Year y') ->
  List.filter (fun r => year_eqb (Chart.year r) (Year y)) (List.flat_map R years) = R y.
Proof.
  intros Hnd Hin Hlab.
  assert (Hsame : List.filter (fun r => year_eqb (Chart.year r) (Year y)) (R y) = R y).
  { apply filter_all. intros r Hr. rewrite (Hlab _ _ Hr). simpl. apply Z.eqb_refl. }
  assert (Hother : forall y', y' <> y ->
                     List.filter (fun r => year_eqb (Chart.year r) (Year y)) (R y') = []).
  { intros y' Hne. apply filter_none. intros r Hr. rewrite (Hlab _ _ Hr). simpl.
    apply Z.eqb_neq. exact Hne. }
  induction years as [|y0 years IH]; [contradiction|]. simpl. rewrite filter_app.
  inversion Hnd as [|? ? Hn Hd]; subst.
  destruct (Z.eq_dec y0 y) as [->|Hne].
  - rewrite Hsame. rewrite filter_none; [apply app_nil_r|].
    intros r Hr. apply in_flat_map in Hr. destruct Hr as (y' & Hy' & Hr).
    rewrite (Hlab _ _ Hr). simpl. apply Z.eqb_neq. intros ->. contradiction.
  - rewrite (Hother y0 Hne). simpl. apply IH; [exact Hd|].
    destruct Hin; [contradiction | assumption].
Qed.

Lemma rows_of_stats_with_year (stats : WordStats) (words : option (list pystr))
    (label : YearLabel) :
  rows_of_stats stats words label
  = List.map (with_year label) (rows_of_stats stats words All_Years).
Proof.
  unfold rows_of_stats. destruct stats as [[avg fu] fr]. rewrite map_map. reflexivity.
Qed.

Lemma rows_of_stats_year (stats : WordStats) (words : option (list pystr))
    (label : YearLabel) (r : Chart.Row) :
  In r (rows_of_stats stats words label) -> Chart.year r = label.
Proof.
  unfold rows_of_stats. destruct stats as [[avg fu] fr]. intros H.
  apply in_map_iff in H. destruct H as [k [<- _]]. reflexivity.
Qed.

(** The loop over [value_dict] in closed form, for three dictionaries with
    the same keys: whatever [sort_col], the keys come in the same order. *)
Lemma append_rows_closed_form (avg_funding funding freqs : dict Z)
    (sort_col : option SortCol) (words : option (list pystr)) (label : YearLabel)
    (df_dict : list Chart.Row) :
  keys avg_funding = keys funding -> keys freqs = keys funding ->
  append_rows (avg_funding, funding, freqs) sort_col words label df_dict
  = Some (df_dict ++ rows_of_stats (avg_funding, funding, freqs) words label).
Proof.
  intros Ha Hf. unfold append_rows, rows_of_stats.
  assert (Hkeys : keys match sort_col with
                       | Some by_funding => funding
                       | Some by_avg_funding => avg_funding
                       | _ => freqs
                       end = keys funding)
    by (destruct sort_col as [[| |]|]; first [assumption | reflexivity]).
  rewrite Hkeys. clear Hkeys.
  assert (Hall : forall k, In k (keys funding) ->
                   exists n f a, get k freqs = Some n /\ get k funding = Some f
                                 /\ get k avg_funding = Some a).
  { intros k Hk.
    destruct (In_keys_get k funding Hk) as [f Hf'].
    destruct (In_keys_get k freqs) as [n Hn]; [rewrite Hf; exact Hk|].
    destruct (In_keys_get k avg_funding) as [a Ha']; [rewrite Ha; exact Hk|].
    exists n, f, a. auto. }
  revert df_dict Hall. generalize (keys funding). intros l.
  induction l as [|k l IH]; intros acc Hall; simpl.
  - rewrite app_nil_r; reflexivity.
  - destruct (Hall k (or_introl eq_refl)) as (n & f & a & Hn & Hf' & Ha').
    assert (Hw : match words with
                 | Some words0 => str_in k words0
                 | None => true
                 end = word_allowed words k) by reflexivity.
    rewrite Hw. destruct (word_allowed words k); simpl.
    + rewrite Hn, Hf', Ha'. simpl. rewrite IH by (intros; apply Hall; right; assumption).
      rewrite <- app_assoc. reflexivity.
    + apply IH. intros; apply Hall; right; assumption.
Qed.

Section ChartFacts.
Variable str_lower : pystr -> pystr.
Variable STOPWORDS : list pystr.
Variable stopord_txt : pystr.
Variable set_iter : list pystr -> list pystr.
Variable sort_values_order : list Z -> list nat.

Local Abbreviation generate_data' := (generate_data str_lower STOPWORDS stopord_txt set_iter).
Local Abbreviation gen_chart_data' :=
  (gen_chart_data str_lower STOPWORDS stopord_txt set_iter sort_values_order).
Local Abbreviation sort_rows sort_col temp_df :=
  (match sort_col with
   | Some c => sort_values sort_values_order c temp_df%list
   | None => temp_df%list
   end).
Local Abbreviation head top_n temp_df :=
  (match top_n with
   | Some n => slice_to n temp_df%list
   | None => temp_df%list
   end).

Lemma generate_data_keys (df : DataFrame) (thr : Z) :
  exists avg_funding funding freqs,
    generate_data' df thr = Some (avg_funding, funding, freqs)
    /\ keys avg_funding = keys funding /\ keys freqs = keys funding
    /\ NoDup (keys funding).
Proof.
  destruct (generate_data_closed_form str_lower STOPWORDS stopord_txt set_iter df thr)
    as (freqs0 & funding0 & _ & Hok & Hgen).
  cbv zeta in Hgen. do 3 eexists. split; [exact Hgen|].
  rewrite !keys_map_keys. split; [reflexivity|]. split; [reflexivity|].
  apply keys_filter_NoDup. destruct Hok as (Hk & Hwf & _). simpl in Hk, Hwf.
  unfold wf. rewrite <- Hk. exact Hwf.
Qed.

(** The table for all years: the rows of the statistics of the whole
    table, sorted and cut. *)
Lemma gen_chart_data_all_years (df : DataFrame) (top_n : option Z)
    (sort_col : option SortCol) (words : option (list pystr)) :
  exists stats,
    generate_data' df 0 = Some stats
    /\ gen_chart_data' df top_n false sort_col words
       = Some (head top_n (sort_rows sort_col (rows_of_stats stats words All_Years))).
Proof.
  destruct (generate_data_keys df 0) as (avg & fu & fr & Hgen & Ha & Hf & _).
  exists (avg, fu, fr). split; [exact Hgen|].
  unfold gen_chart_data. cbv zeta. cbn [bind]. rewrite Hgen. cbn [bind].
  rewrite (append_rows_closed_form avg fu fr sort_col words All_Years [] Ha Hf).
  reflexivity.
Qed.

Lemma chart_loop (df : DataFrame) (sort_col : option SortCol)
    (words : option (list pystr)) (years : list Z) (df_dict : list Chart.Row) :
  foldM (fun df_dict year =>
           let temp_df := List.filter (fun row => Ar row =? year) df in
           stats <- generate_data' temp_df 0 ;;
           append_rows stats sort_col words (Year year) df_dict)
        years df_dict
  = Some (df_dict
          ++ List.flat_map
               (fun year =>
                  match generate_data' (List.filter (fun row => Ar row =? year) df) 0 with
                  | Some stats => rows_of_stats stats words (Year year)
                  | None => []
                  end)
               years).
Proof.
  revert df_dict; induction years as [|y years IH]; intros acc; simpl.
  - rewrite app_nil_r; reflexivity.
  - destruct (generate_data_keys (List.filter (fun row => Ar row =? y) df) 0)
      as (avg & fu & fr & Hgen & Ha & Hf & _).
    rewrite Hgen. cbn [bind].
    rewrite (append_rows_closed_form avg fu fr sort_col words (Year y) acc Ha Hf).
    cbn [bind]. rewrite IH, <- app_assoc. reflexivity.
Qed.

Lemma gen_chart_data_yearly (df : DataFrame) (top_n : option Z)
    (sort_col : option SortCol) (words : option (list pystr)) :
  gen_chart_data' df top_n true sort_col words
  = Some (List.flat_map
            (fun y =>
               match gen_chart_data' (List.filter (fun row => Ar row =? y) df)
                                     top_n false sort_col words with
               | Some rows => List.map (with_year (Year y)) rows
               | None => []
               end)
            (sorted_years (List.map Ar df))).
Proof.
  unfold gen_chart_data at 1. cbv zeta. cbn [bind].
  rewrite chart_loop. cbn [bind app]. f_equal.
  rewrite fold_left_app_flat_map. cbn [app].
  destruct (sorted_years_spec (List.map Ar df)) as [Hasc _].
  apply ascending_NoDup in Hasc.
  apply flat_map_ext_in. intros y Hy.
  rewrite (filter_year_block _ _ y Hasc Hy).
  2:{ intros y' r. destruct (generate_data' _ 0); [apply rows_of_stats_year | intros []]. }
  destruct (gen_chart_data_all_years (List.filter (fun row => Ar row =? y) df)
                                     top_n sort_col words) as (stats & Hgen & Hchart).
  rewrite Hchart, Hgen. rewrite rows_of_stats_with_year.
  destruct top_n as [n|], sort_col as [c|]; cbv beta iota.
  - rewrite sort_values_relabel by (intros r; destruct c; reflexivity).
    apply slice_to_map.
  - apply slice_to_map.
  - apply sort_values_relabel. intros r; destruct c; reflexivity.
  - reflexivity.
Qed.

End ChartFacts.

Lemma rows_of_stats_words (avg_funding funding freqs : dict Z)
    (words : option (list pystr)) (label : YearLabel) :
  List.map Chart.word (rows_of_stats (avg_funding, funding, freqs) words label)
  = List.filter (word_allowed words) (keys funding).
Proof. unfold rows_of_stats. rewrite map_map. simpl. apply map_id. Qed.

Lemma rows_of_stats_In (avg_funding funding freqs : dict Z)
    (words : option (list pystr)) (label : YearLabel) (r : Chart.Row) :
  keys avg_funding = keys funding -> keys freqs = keys funding ->
  In r (rows_of_stats (avg_funding, funding, freqs) words label) ->
  Chart.year r = label
  /\ word_allowed words (Chart.word r) = true
  /\ get (Chart.word r) freqs = Some (Chart.freqs r)
  /\ get (Chart.word r) funding = Some (Chart.funding r)
  /\ get (Chart.word r) avg_funding = Some (Chart.avg_funding r).
Proof.
  intros Ha Hf H. unfold rows_of_stats in H. apply in_map_iff in H.
  destruct H as [k [<- Hk]]. apply filter_In in Hk. destruct Hk as [Hk Hw]. simpl.
  destruct (In_keys_get k funding Hk) as [f Hf'].
  destruct (In_keys_get k freqs) as [n Hn]; [rewrite Hf; exact Hk|].
  destruct (In_keys_get k avg_funding) as [a Ha']; [rewrite Ha; exact Hk|].
  rewrite Hn, Hf', Ha'. auto.
Qed.

(** With [yearly=False], [gen_chart_data] returns a table with at most one
    row per word; every row carries ["All Years"] and, for a word that
    [words] lets through, the frequency, funding and average funding that
    [generate_data(df, 0)] gives it.  Without [top_n] every such word has its
    row.  Without [sort_col] the rows come in the order of the dictionaries,
    and [top_n] keeps the first ones in that order. *)
Theorem gen_chart_data_all_years_rows :
  forall (str_lower : pystr -> pystr) (STOPWORDS : list pystr) (stopord_txt : pystr)
         (set_iter : list pystr -> list pystr) (sort_values_order : list Z -> list nat)
         (df : DataFrame) (top_n : option Z) (sort_col : option SortCol)
         (words : option (list pystr)),
  exists (avg_funding funding freqs : dict Z) (rows : list Chart.Row),
    generate_data str_lower STOPWORDS stopord_txt set_iter df 0
    = Some (avg_funding, funding, freqs)
    /\ gen_chart_data str_lower STOPWORDS stopord_txt set_iter sort_values_order
                      df top_n false sort_col words = Some rows
    /\ NoDup (List.map Chart.word rows)
    /\ (forall r, In r rows ->
          Chart.year r = All_Years
          /\ word_allowed words (Chart.word r) = true
          /\ get (Chart.word r) freqs = Some (Chart.freqs r)
          /\ get (Chart.word r) funding = Some (Chart.funding r)
          /\ get (Chart.word r) avg_funding = Some (Chart.avg_funding r))
    /\ (top_n = None ->
        forall w, In w (keys funding) -> word_allowed words w = true ->
                  In w (List.map Chart.word rows))
    /\ (sort_col = None ->
        List.map Chart.word rows
        = match top_n with
          | Some n => slice_to n (List.filter (word_allowed words) (keys funding))
          | None => List.filter (word_allowed words) (keys funding)
          end).
Proof.
  intros str_lower STOPWORDS stopord_txt set_iter sort_values_order df top_n sort_col words.
  destruct (generate_data_keys str_lower STOPWORDS stopord_txt set_iter df 0)
    as (avg & fu & fr & Hgen & Ha & Hf & Hnd).
  destruct (gen_chart_data_all_years str_lower STOPWORDS stopord_txt set_iter
              sort_values_order df top_n sort_col words) as (stats & Hgen' & Hchart).
  rewrite Hgen in Hgen'. inversion Hgen'; subst stats; clear Hgen'.
  set (R := rows_of_stats (avg, fu, fr) words All_Years) in *.
  set (sorted := match sort_col with
                 | Some c => sort_values sort_values_order c R
                 | None => R
                 end) in *.
  assert (Hperm : Permutation sorted R).
  { unfold sorted. destruct sort_col as [c|]; [apply sort_values_spec | apply Permutation_refl]. }
  assert (Hpre : exists j, match top_n with
                           | Some n => slice_to n sorted
                           | None => sorted
                           end = firstn j sorted).
  { destruct top_n as [n|]; [apply slice_to_prefix|].
    exists (length sorted). symmetry; apply firstn_all. }
  destruct Hpre as [j Hj]. rewrite Hj in Hchart.
  exists avg, fu, fr, (firstn j sorted).
  split; [exact Hgen|]. split; [exact Hchart|].
  assert (HndR : NoDup (List.map Chart.word R))
    by (unfold R; rewrite rows_of_stats_words; apply NoDup_filter; exact Hnd).
  split; [|split; [|split]].
  - rewrite <- firstn_map. apply NoDup_firstn.
    eapply Permutation_NoDup; [apply Permutation_map, Permutation_sym, Hperm | exact HndR].
  - intros r Hr. apply In_firstn in Hr. apply (Permutation_in _ Hperm) in Hr.
    apply (rows_of_stats_In avg fu fr words All_Years r Ha Hf Hr).
  - intros -> w Hw Hall. simpl in Hj. rewrite <- Hj.
    apply (Permutation_in _ (Permutation_map Chart.word (Permutation_sym Hperm))).
    unfold R. rewrite rows_of_stats_words. apply filter_In. auto.
  - intros ->. rewrite <- Hj. unfold sorted.
    destruct top_n as [n|]; [rewrite <- slice_to_map|]; unfold R;
      rewrite rows_of_stats_words; reflexivity.
Qed.

(** With [yearly=False] and a [sort_col], the rows of the table never go up
    in that column.  A [top_n] of at least 0 leaves at most [top_n] rows, as
    many as that if the table without [top_n] has them, and every row it
    drops has a value at most that of every row it keeps. *)
Theorem gen_chart_data_sorted_and_cut :
  forall (str_lower : pystr -> pystr) (STOPWORDS : list pystr) (stopord_txt : pystr)
         (set_iter : list pystr -> list pystr) (sort_values_order : list Z -> list nat)
         (df : DataFrame) (top_n : option Z) (sort_col : SortCol)
         (words : option (list pystr)) (rows : list Chart.Row),
    gen_chart_data str_lower STOPWORDS stopord_txt set_iter sort_values_order
                   df top_n false (Some sort_col) words = Some rows ->
    (forall front back x y,
        rows = front ++ back -> In x front -> In y back ->
        column sort_col y <= column sort_col x)
    /\ forall n, top_n = Some n -> 0 <= n ->
         exists full,
           gen_chart_data str_lower STOPWORDS stopord_txt set_iter sort_values_order
                          df None false (Some sort_col) words = Some full
           /\ length rows = Nat.min (Z.to_nat n) (length full)
           /\ forall r x, In r full -> ~ In r rows -> In x rows ->
                          column sort_col r <= column sort_col x.
Proof.
  intros str_lower STOPWORDS stopord_txt set_iter sort_values_order df top_n c words rows H.
  destruct (gen_chart_data_all_years str_lower STOPWORDS stopord_txt set_iter
              sort_values_order df top_n (Some c) words) as (stats & Hgen & Hchart).
  destruct (gen_chart_data_all_years str_lower STOPWORDS stopord_txt set_iter
              sort_values_order df None (Some c) words) as (stats' & Hgen' & Hfull).
  rewrite Hgen in Hgen'. inversion Hgen'; subst stats'; clear Hgen'.
  rewrite Hchart in H. inversion H; subst rows; clear H.
  set (sorted := sort_values sort_values_order c (rows_of_stats stats words All_Years)) in *.
  assert (Hdesc : ForallOrdPairs (fun x y => column c y <= column c x) sorted)
    by apply sort_values_spec.
  split.
  - intros front back x y E Hx Hy.
    assert (Hcut : ForallOrdPairs (fun x y => column c y <= column c x) (front ++ back)).
    { rewrite <- E. destruct top_n as [n|]; [|exact Hdesc].
      destruct (slice_to_prefix n sorted) as [j ->]. apply FOP_firstn. exact Hdesc. }
    exact (FOP_app_inv _ front back x y Hcut Hx Hy).
  - intros n -> Hn. exists sorted. split; [exact Hfull|].
    unfold slice_to. replace (0 <=? n) with true by (symmetry; apply Z.leb_le; exact Hn).
    split; [apply length_firstn|].
    intros r x Hr Hnot Hx.
    rewrite <- (firstn_skipn (Z.to_nat n) sorted) in Hr, Hdesc.
    apply in_app_or in Hr. destruct Hr as [Hr|Hr]; [contradiction|].
    exact (FOP_app_inv _ _ _ x r Hdesc Hx Hr).
Qed.

Lemma gen_chart_data_sorted_and_cut_witness :
  exists rows full,
    gen_chart_data ascii_lower [] [] insertion_order stable_order three_grants
                   (Some 2) false (Some by_funding) None = Some rows
    /\ gen_chart_data ascii_lower [] [] insertion_order stable_order three_grants
                      None false (Some by_funding) None = Some full
    /\ length rows = Nat.min (Z.to_nat 2) (length full).
Proof.
  destruct (gen_chart_data ascii_lower [] [] insertion_order stable_order three_grants
              (Some 2) false (Some by_funding) None) as [rows|] eqn:E.
  - destruct (gen_chart_data_sorted_and_cut ascii_lower [] [] insertion_order stable_order
                three_grants (Some 2) by_funding None rows E) as [_ Hcut].
    destruct (Hcut 2 eq_refl ltac:(lia)) as (full & Hfull & Hlen & _).
    exists rows, full. auto.
  - vm_compute in E. discriminate.
Defined.

(** With [yearly=True], the table is made of one block per year of the
    data, in ascending order of the years; the block of a year is the table
    that [gen_chart_data] gives with [yearly=False] for the rows of that
    year, with the year in place of ["All Years"].  So [sort_col] and
    [top_n] apply to every year separately. *)
Theorem gen_chart_data_yearly_is_one_table_per_year :
  forall (str_lower : pystr -> pystr) (STOPWORDS : list pystr) (stopord_txt : pystr)
         (set_iter : list pystr -> list pystr) (sort_values_order : list Z -> list nat)
         (df : DataFrame) (top_n : option Z) (sort_col : option SortCol)
         (words : option (list pystr)),
    let years := sorted_years (List.map Ar df) in
    gen_chart_data str_lower STOPWORDS stopord_txt set_iter sort_values_order
                   df top_n true sort_col words
    = Some (List.flat_map
              (fun y =>
                 match gen_chart_data str_lower STOPWORDS stopord_txt set_iter
                                      sort_values_order
                                      (List.filter (fun row => Ar row =? y) df)
                                      top_n false sort_col words with
                 | Some rows => List.map (with_year (Year y)) rows
                 | None => []
                 end)
              years)
    /\ ForallOrdPairs Z.lt years
    /\ forall y, In y years <-> exists row, In row df /\ Ar row = y.
Proof.
  intros str_lower STOPWORDS stopord_txt set_iter sort_values_order df top_n sort_col words
         years.
  split; [apply gen_chart_data_yearly|].
  destruct (sorted_years_spec (List.map Ar df)) as [Hasc Hin].
  split; [exact Hasc|]. intros y. unfold years. rewrite Hin, in_map_iff.
  split; intros [row [H1 H2]]; exists row; auto.
Qed.

(** ** The nodes of the sub-vocabulary view *)

Lemma add_stat_nodes_nodes (stats : WordStats) (l : list pystr) :
  forall G G', foldM (add_stat_node stats) l G = Some G' ->
    forall n, In n (keys (_node G')) <-> In n l \/ In n (keys (_node G)).
Proof.
  induction l as [|x l IH]; simpl; intros G G' H n.
  - inversion H; subst. tauto.
  - destruct (add_stat_node stats G x) as [G1|] eqn:E; simpl in H; [|discriminate].
    rewrite (IH G1 G' H n), (In_keys_node_add_stat_node _ _ _ _ n E).
    intuition.
Qed.

Lemma pairs_row_nodes (stats : WordStats) (l : list pystr) (G G' : Graph) :
  (G1 <- foldM (add_stat_node stats) l G ;; st <- pair_loop l l G1 ;; Some (snd st)) = Some G' ->
  forall n, In n (keys (_node G')) <-> In n l \/ In n (keys (_node G)).
Proof.
  intros H n.
  destruct (foldM (add_stat_node stats) l G) as [G1|] eqn:E1; simpl in H; [|discriminate].
  destruct (pair_loop l l G1) as [st|] eqn:E2; simpl in H; [|discriminate].
  inversion H; subst G'; clear H.
  assert (Hl : incl l (keys (_node G1)))
    by (intros t Ht; apply (add_stat_nodes_nodes _ _ _ _ E1 t); left; exact Ht).
  rewrite (node_pair_loop l l G1 st Hl Hl E2).
  apply (add_stat_nodes_nodes _ _ _ _ E1).
Qed.

Lemma another_element (l : list pystr) (n : pystr) :
  NoDup l -> (2 <= length l)%nat -> In n l -> exists m, In m l /\ m <> n.
Proof.
  intros Hnd Hlen Hin. destruct l as [|a [|b l]]; simpl in Hlen; try lia.
  inversion Hnd as [|? ? Hna _]; subst.
  assert (Hab : a <> b) by (intros ->; apply Hna; left; reflexivity).
  destruct (str_eq_dec n a) as [->|Hne].
  - exists b. split; [right; left; reflexivity | congruence].
  - exists a. split; [left; reflexivity | congruence].
Qed.

(** The nodes a loop over the rows leaves, when each row adds the nodes
    that [adds] says. *)
Lemma node_loop (step : Graph -> Grant -> option Graph) (adds : Grant -> pystr -> Prop) :
  (forall G row G', step G row = Some G' ->
     forall n, In n (keys (_node G')) <-> adds row n \/ In n (keys (_node G))) ->
  forall (df : DataFrame) (G0 G : Graph),
    foldM step df G0 = Some G ->
    forall n, In n (keys (_node G))
              <-> (exists row, In row df /\ adds row n) \/ In n (keys (_node G0)).
Proof.
  intros Hstep. induction df as [|row df IH]; simpl; intros G0 G H n.
  - inversion H; subst. split; [auto | intros [[row [[] _]]|Hn]; exact Hn].
  - destruct (step G0 row) as [G1|] eqn:E; simpl in H; [|discriminate].
    rewrite (IH G1 G H n), (Hstep _ _ _ E n). split.
    + intros [[r [Hr Ha]]|[Ha|Hn]]; eauto.
    + intros [[r [[->|Hr] Ha]]|Hn]; eauto.
Qed.

(** When no word is listed twice, the nodes of the graph returned by
    [generate_graph_data_words] are exactly the listed words that share a
    title with another listed word. *)
Theorem words_view_nodes :
  forall (str_lower : pystr -> pystr) (STOPWORDS : list pystr) (stopord_txt : pystr)
         (set_iter : list pystr -> list pystr)
         (df : DataFrame) (words : list pystr) (G : Graph),
    NoDup words ->
    generate_graph_data_words str_lower STOPWORDS stopord_txt set_iter df words = Some G ->
    forall n,
      In n (keys (_node G))
      <-> In n words
          /\ exists row m,
               In row df
               /\ In n (tokenize_and_stem str_lower STOPWORDS stopord_txt set_iter (Titel row))
               /\ In m (tokenize_and_stem str_lower STOPWORDS stopord_txt set_iter (Titel row))
               /\ In m words /\ m <> n.
Proof.
  intros str_lower STOPWORDS stopord_txt set_iter df words G Hnd H n.
  unfold generate_graph_data_words in H.
  destruct (generate_data _ _ _ _ df 0) as [stats|]; simpl in H; [|discriminate].
  destruct (words_loop _ _ _ _ stats df words) as [G0|] eqn:EG; simpl in H; [|discriminate].
  pose proof (graph_wf_words_loop _ _ _ _ _ _ _ _ EG) as HG0.
  destruct (set_total_deg G0) as [G1|] eqn:E1; simpl in H; [|discriminate].
  destruct (edge_weights G1); simpl in H; [|discriminate]. inversion H; subst G1; clear H.
  destruct (set_total_deg_spec _ _ HG0 E1) as (_ & Hk & _). rewrite Hk.
  set (tokens_of := fun row => tokenize_and_stem str_lower STOPWORDS stopord_txt set_iter
                                                 (Titel row)).
  set (chosen := fun row => List.filter (fun t => str_in t words) (tokens_of row)).
  unfold words_loop in EG.
  apply (node_loop _ (fun row n => (2 <= length (chosen row))%nat /\ In n (chosen row)))
    with (n := n) in EG.
  - rewrite EG. simpl. split.
    + intros [(row & Hrow & Hlen & Hin)|[]].
      assert (Hndc : NoDup (chosen row)) by (apply NoDup_filter, tokenize_NoDup).
      destruct (another_element _ n Hndc Hlen Hin) as (m & Hm & Hne).
      unfold chosen in Hin, Hm. apply filter_In in Hin. apply filter_In in Hm.
      destruct Hin as [Hin Hw]. destruct Hm as [Hm Hmw].
      apply str_in_In in Hw. apply str_in_In in Hmw.
      split; [exact Hw|]. exists row, m. auto.
    + intros (Hw & row & m & Hrow & Hin & Hm & Hmw & Hne). left. exists row.
      assert (Hnc : In n (chosen row))
        by (apply filter_In; split; [exact Hin | apply str_in_In; exact Hw]).
      assert (Hmc : In m (chosen row))
        by (apply filter_In; split; [exact Hm | apply str_in_In; exact Hmw]).
      split; [exact Hrow|]. split; [|exact Hnc].
      destruct (le_lt_dec (length (chosen row)) 1) as [Hle|Hlt]; [|lia].
      exfalso. exact (short_list_no_pair _ m n Hle Hne Hmc Hnc).
  - intros Ga row Gb Hs k. cbv zeta in Hs.
    rewrite (search_words_filter words _ Hnd) in Hs. fold (tokens_of row) in Hs.
    fold (chosen row) in Hs.
    destruct (length (chosen row) <=? 1)%nat eqn:El.
    + inversion Hs; subst Gb. apply Nat.leb_le in El. split; [auto|].
      intros [[Hlen _]|Hin]; [lia | exact Hin].
    + apply Nat.leb_gt in El. rewrite (pairs_row_nodes _ _ _ _ Hs k).
      split; [intros [Hin|Hin]; [left; split; [lia | exact Hin] | right; exact Hin]|].
      intros [[_ Hin]|Hin]; auto.
Qed.

Lemma words_view_nodes_witness :
  exists G,
    generate_graph_data_words ascii_lower [] [] insertion_order three_grants
                              [str "alpha"; str "gamma"] = Some G
    /\ (In (str "gamma") (keys (_node G))
        <-> In (str "gamma") [str "alpha"; str "gamma"]
            /\ exists row m,
                 In row three_grants
                 /\ In (str "gamma")
                       (tokenize_and_stem ascii_lower [] [] insertion_order (Titel row))
                 /\ In m (tokenize_and_stem ascii_lower [] [] insertion_order (Titel row))
                 /\ In m [str "alpha"; str "gamma"] /\ m <> str "gamma").
Proof.
  destruct (generate_graph_data_words ascii_lower [] [] insertion_order three_grants
              [str "alpha"; str "gamma"]) as [G|] eqn:E.
  - exists G. split; [reflexivity|].
    refine (words_view_nodes ascii_lower [] [] insertion_order three_grants
              [str "alpha"; str "gamma"] G _ E (str "gamma")).
    apply nodupb_NoDup. reflexivity.
  - vm_compute in E. discriminate.
Defined.
